(** * A shallow embedding of bspaans/chess-engine

    The development follows the Go sources: the square type of
    [position.go], the two generations of the FEN position model
    ([package main] and [package chess_engine]) with their move
    generators, and the depth-first search loop of [DFSEngine]. *)

From Stdlib Require Import ZArith List String Ascii Bool Lia.
From Stdlib Require Import DecimalString DecimalPos DecimalZ.
From Stdlib Require DecimalFacts.
Import ListNotations.

Local Open Scope char_scope.
Local Open Scope string_scope.
Local Open Scope list_scope.
Local Open Scope Z_scope.

(** ** Go run-time behaviour

    A Go function either returns or panics.  The panics the sources can
    raise are the two explicit [panic] calls and the run-time errors of
    indexing, integer division and nil dereference. *)

Inductive panic : Set :=
| IndexOutOfRange
| DivideByZero
| NilDereference
| NilMapAssignment   (* assignment to entry in nil map *)
| InvalidCastle      (* panic("Invalid castle") / panic("invalid castle") *)
| Wtf.               (* panic("wtf") *)

Inductive res (A : Type) : Type :=
| Ret (a : A)
| Panic (p : panic).

Arguments Ret {A} a.
Arguments Panic {A} p.

Definition bind {A B} (m : res A) (k : A -> res B) : res B :=
  match m with
  | Ret a => k a
  | Panic p => Panic p
  end.

Notation "x <- m ;; k" := (bind m (fun x => k))
  (at level 61, m at next level, right associativity).

(** [for _, x := range xs { s = body(s, x) }] *)
Fixpoint forM {A S} (xs : list A) (body : S -> A -> res S) (s : S) : res S :=
  match xs with
  | [] => Ret s
  | x :: xs' => s' <- body s x ;; forM xs' body s'
  end.

(** Machine integers: [uint64], [int] (64 bit, two's complement), [byte]. *)
Definition u64 (z : Z) : Z := z mod 2 ^ 64.
Definition int64 (z : Z) : Z := (z + 2 ^ 63) mod 2 ^ 64 - 2 ^ 63.
Definition u8 (z : Z) : Z := z mod 256.

Definition max_int : Z := 2 ^ 63 - 1.
Definition min_int : Z := - 2 ^ 63.

Definition byte_of (c : ascii) : Z := Z.of_N (N_of_ascii c).
Definition ascii_of (b : Z) : ascii := ascii_of_N (Z.to_N (u8 b)).

(** ** position.go *)

Definition Rank := Z.  (* byte *)
Definition File := Z.  (* byte *)
Definition Position := Z.  (* uint64 *)

Definition Rank1 : Rank := byte_of "1".
Definition FileA : File := byte_of "a".
Definition NoFile : File := byte_of " ".

Definition A1 : Position := 0.
Definition C1 : Position := 2.
Definition E1 : Position := 4.
Definition G1 : Position := 6.
Definition H1 : Position := 7.
Definition A8 : Position := 56.
Definition C8 : Position := 58.
Definition E8 : Position := 60.
Definition G8 : Position := 62.
Definition H8 : Position := 63.
Definition NoPosition : Position := 0.

Definition GetRank (p : Position) : Rank :=
  let rank := u64 (p / 8 + 1) in
  u8 (u64 (rank + byte_of "0")).

Definition GetFile (p : Position) : File :=
  let file := p mod 8 in
  u8 (u64 (file + byte_of "a")).

Definition PositionFromFileRank (f : File) (r : Rank) : Position :=
  let f := u8 (f - FileA) in
  let r := u8 (r - Rank1) in
  if (f >? 7) || (r >? 7) then NoPosition
  else u64 (Z.shiftl 1 (u8 (r * 8) + f)).

Definition parsePosition (pstr : string) : Position * bool :=
  match pstr with
  | String c0 (String c1 EmptyString) =>
      let file := byte_of c0 in
      let file' :=
        if (byte_of "a" <=? file) && (file <=? byte_of "h") then Some file
        else if (byte_of "A" <=? file) && (file <=? byte_of "H")
             then Some (u8 (file + (byte_of "a" - byte_of "A")))
             else None in
      match file' with
      | None => (0, false)
      | Some file =>
          let rank := byte_of c1 in
          if (byte_of "1" <=? rank) && (rank <=? byte_of "8")
          then (PositionFromFileRank file rank, true)
          else (0, false)
      end
  | _ => (0, false)
  end.

Inductive error : Set :=
| ScanError                          (* the error of fmt.Sscanf *)
| InvalidColor                       (* "pgn: invalid color" *)
| InvalidPositionString (s : string) (* "pgn: invalid position string: %s" *).

Definition ParsePosition (pstr : string) : Position + error :=
  let (p, ok) := parsePosition pstr in
  if ok then inl p else inr (InvalidPositionString pstr).

Definition Position_String (p : Position) : string :=
  if NoPosition =? p then "-"
  else String (ascii_of (GetFile p)) (String (ascii_of (GetRank p)) EmptyString).

(** ** Colours, castling rights, pieces and moves *)

Inductive Color : Set := NoColor | Black | White.

Definition Color_eqb (a b : Color) : bool :=
  match a, b with
  | NoColor, NoColor | Black, Black | White, White => true
  | _, _ => false
  end.

Definition Color_String (c : Color) : string :=
  match c with
  | White => "w"
  | Black => "b"
  | NoColor => " "
  end.

Definition Opposite (c : Color) : Color :=
  match c with
  | Black => White
  | _ => Black
  end.

(** The Go constant [None] is spelled [NoCastle] here, [None] being the
    constructor of [option]. *)
Inductive CastleStatus : Set := Both | NoCastle | Kingside | Queenside.

Definition CastleStatus_eqb (a b : CastleStatus) : bool :=
  match a, b with
  | Both, Both | NoCastle, NoCastle
  | Kingside, Kingside | Queenside, Queenside => true
  | _, _ => false
  end.

Definition CastleStatus_String (cs : CastleStatus) (c : Color) : string :=
  match cs, c with
  | Both, Black => "kq"
  | Both, White => "KQ"
  | Kingside, Black => "k"
  | Kingside, White => "K"
  | Queenside, Black => "q"
  | Queenside, White => "Q"
  | NoCastle, _ => "-"
  | _, _ => ""
  end.

(** Modelled from the spec: the piece type of [piece.go], which is not
    among the sources.  A piece is the byte of its letter in the position
    text ([Piece(forStr[i])] in [ParseFEN], [byte(f.Board[pos])] in
    [FENString]): case is colour, the lower-case letter is the kind, and
    the empty marker is a blank. *)
Definition Piece := ascii.
Definition NormalizedPiece := ascii.

Definition NoPiece : Piece := " "%char.
Definition WhitePawn : Piece := "P"%char.
Definition WhiteKnight : Piece := "N"%char.
Definition WhiteBishop : Piece := "B"%char.
Definition WhiteRook : Piece := "R"%char.
Definition WhiteQueen : Piece := "Q"%char.
Definition WhiteKing : Piece := "K"%char.
Definition BlackPawn : Piece := "p"%char.
Definition BlackKnight : Piece := "n"%char.
Definition BlackBishop : Piece := "b"%char.
Definition BlackRook : Piece := "r"%char.
Definition BlackQueen : Piece := "q"%char.
Definition BlackKing : Piece := "k"%char.

Definition Pawn : NormalizedPiece := "p"%char.
Definition Knight : NormalizedPiece := "n"%char.
Definition Bishop : NormalizedPiece := "b"%char.
Definition Rook : NormalizedPiece := "r"%char.
Definition Queen : NormalizedPiece := "q"%char.
Definition King : NormalizedPiece := "k"%char.

Definition Piece_eqb (a b : Piece) : bool := Ascii.eqb a b.

Definition isUpper (c : ascii) : bool :=
  (byte_of "A" <=? byte_of c) && (byte_of c <=? byte_of "Z").
Definition isLower (c : ascii) : bool :=
  (byte_of "a" <=? byte_of c) && (byte_of c <=? byte_of "z").

Definition Piece_Color (p : Piece) : Color :=
  if isUpper p then White else if isLower p then Black else NoColor.

Definition ToNormalizedPiece (p : Piece) : NormalizedPiece :=
  if isUpper p then ascii_of (byte_of p + 32) else p.

(** [Knight.ToPiece(color)] *)
Definition ToPiece (k : NormalizedPiece) (c : Color) : Piece :=
  match c with
  | White => ascii_of (byte_of k - 32)
  | _ => k
  end.

Record Move : Set := mkMove {
  From : Position;
  To : Position;
  Promote : Piece
}.

(** Modelled from the spec: [NewMove] of [move.go] ("origin square,
    destination square, optional promotion piece"). *)
Definition NewMove (from to : Position) : Move := mkMove from to NoPiece.

Definition Move_eqb (a b : Move) : bool :=
  (From a =? From b) && (To a =? To b) && Piece_eqb (Promote a) (Promote b).

(** Modelled from the spec: [Move.ToPromotions] is not among the sources.
    "Any pawn move reaching the farthest rank expands into exactly four
    moves (queen/rook/bishop/knight), sharing From/To"; the order of the
    four is the one the first generation writes out. *)
Definition ToPromotions (m : Move) : list Move :=
  if GetRank (To m) =? byte_of "8" then
    map (mkMove (From m) (To m)) [WhiteKnight; WhiteQueen; WhiteRook; WhiteBishop]
  else if GetRank (To m) =? byte_of "1" then
    map (mkMove (From m) (To m)) [BlackKnight; BlackQueen; BlackRook; BlackBishop]
  else [].

(** ** Board geometry

    Modelled from the spec: the precomputed tables [PieceMoves],
    [MoveVectors], [PawnAttacks] and the methods [GetKnightMoves],
    [GetKingMoves], [GetDiagonals], [GetLines] are not among the sources.
    Knights and kings have "their fixed target sets", pawns "their two
    fixed diagonal targets" and advances of "one or, from the start rank,
    two squares"; a sliding piece has one ray per direction, listed from
    its square outwards to the edge of the board. *)

Definition onBoard (f r : Z) : bool :=
  (0 <=? f) && (f <? 8) && (0 <=? r) && (r <? 8).

Definition offsets (p : Position) (ds : list (Z * Z)) : list Position :=
  if (0 <=? p) && (p <? 64) then
    flat_map (fun d : Z * Z =>
                let f := p mod 8 + fst d in
                let r := p / 8 + snd d in
                if onBoard f r then [r * 8 + f] else []) ds
  else [].

Fixpoint rayFrom (n : nat) (f r df dr : Z) : list Position :=
  match n with
  | O => []
  | S n' =>
      let f' := f + df in
      let r' := r + dr in
      if onBoard f' r' then (r' * 8 + f') :: rayFrom n' f' r' df dr else []
  end.

Definition rays (p : Position) (ds : list (Z * Z)) : list (list Position) :=
  if (0 <=? p) && (p <? 64) then
    map (fun d : Z * Z => rayFrom 7 (p mod 8) (p / 8) (fst d) (snd d)) ds
  else [].

Definition knightDeltas : list (Z * Z) :=
  [(1, 2); (2, 1); (2, -1); (1, -2); (-1, -2); (-2, -1); (-2, 1); (-1, 2)].
Definition kingDeltas : list (Z * Z) :=
  [(0, 1); (1, 1); (1, 0); (1, -1); (0, -1); (-1, -1); (-1, 0); (-1, 1)].
Definition diagonalDeltas : list (Z * Z) := [(1, 1); (1, -1); (-1, -1); (-1, 1)].
Definition lineDeltas : list (Z * Z) := [(0, 1); (1, 0); (0, -1); (-1, 0)].

Definition GetKnightMoves (p : Position) : list Position := offsets p knightDeltas.
Definition GetKingMoves (p : Position) : list Position := offsets p kingDeltas.
Definition GetDiagonals (p : Position) : list (list Position) := rays p diagonalDeltas.
Definition GetLines (p : Position) : list (list Position) := rays p lineDeltas.

Definition PawnAttacks (c : Color) (p : Position) : list Position :=
  match c with
  | White => offsets p [(-1, 1); (1, 1)]
  | Black => offsets p [(1, -1); (-1, -1)]
  | NoColor => []
  end.

Definition pawnPushes (c : Color) (p : Position) : list Position :=
  match c with
  | White => offsets p ((0, 1) :: if GetRank p =? byte_of "2" then [(0, 2)] else [])
  | Black => offsets p ((0, -1) :: if GetRank p =? byte_of "7" then [(0, -2)] else [])
  | NoColor => []
  end.

(** [PieceMoves[piece][pos]]: pawns are looked up by their coloured piece,
    knights by [Piece(Knight)]. *)
Definition PieceMoves (piece : Piece) (p : Position) : list Position :=
  if Piece_eqb piece WhitePawn then pawnPushes White p
  else if Piece_eqb piece BlackPawn then pawnPushes Black p
  else if Piece_eqb (ToNormalizedPiece piece) Knight then GetKnightMoves p
  else if Piece_eqb (ToNormalizedPiece piece) King then GetKingMoves p
  else [].

(** [MoveVectors[piece][pos]] *)
Definition MoveVectors (piece : Piece) (p : Position) : list (list Position) :=
  if Piece_eqb (ToNormalizedPiece piece) Bishop then GetDiagonals p
  else if Piece_eqb (ToNormalizedPiece piece) Rook then GetLines p
  else if Piece_eqb (ToNormalizedPiece piece) Queen then GetDiagonals p ++ GetLines p
  else [].

(** ** The piece-location index

    Modelled from the spec: the type [PiecePositions] of the second
    generation, with [NewPiecePositions], [AddPosition], [Positions],
    [GetKingPos] and [ApplyMove], is not among the sources; the first
    generation has it as [map[Color]map[NormalizedPiece][]Position] and
    reads the king as [f.Pieces[f.ToMove][King][0]].  "A denormalized index
    mapping (color, piece-kind) -> set of occupied squares", updated
    "incrementally (remove-then-add)". *)
Definition PiecePositions := Color -> NormalizedPiece -> list Position.

Definition NewPiecePositions : PiecePositions := fun _ _ => [].

Definition Positions (pp : PiecePositions) (c : Color) (k : NormalizedPiece)
  : list Position := pp c k.

Definition setPositions (pp : PiecePositions) (c : Color) (k : NormalizedPiece)
    (l : list Position) : PiecePositions :=
  fun c' k' => if Color_eqb c c' && Piece_eqb k k' then l else pp c' k'.

Definition AddPosition (pp : PiecePositions) (piece : Piece) (p : Position)
  : PiecePositions :=
  let c := Piece_Color piece in
  let k := ToNormalizedPiece piece in
  setPositions pp c k (pp c k ++ [p]).

Definition removePosition (pp : PiecePositions) (c : Color) (k : NormalizedPiece)
    (p : Position) : PiecePositions :=
  setPositions pp c k (filter (fun q => negb (q =? p)) (pp c k)).

Definition GetKingPos (pp : PiecePositions) (c : Color) : res Position :=
  match pp c King with
  | k :: _ => Ret k
  | [] => Panic IndexOutOfRange
  end.

Definition PiecePositions_ApplyMove (pp : PiecePositions) (c : Color) (move : Move)
    (movingPiece capturedPiece : NormalizedPiece) : PiecePositions :=
  let pp1 := if Piece_eqb capturedPiece (ToNormalizedPiece NoPiece) then pp
             else removePosition pp (Opposite c) capturedPiece (To move) in
  let pp2 := removePosition pp1 c movingPiece (From move) in
  let k := if Piece_eqb (Promote move) NoPiece then movingPiece
           else ToNormalizedPiece (Promote move) in
  setPositions pp2 c k (pp2 c k ++ [To move]).

(** ** The position *)

Record FEN : Type := mkFEN {
  Board : list Piece;
  Pieces : PiecePositions;
  ToMove : Color;
  WhiteCastleStatus : CastleStatus;
  BlackCastleStatus : CastleStatus;
  EnPassantVulnerable : Position;
  HalfmoveClock : Z;   (* int *)
  Fullmove : Z;        (* int *)
  Line : list Move
}.

(** [board[p]] on a Go slice: indexing past the end panics. *)
Definition boardAt (b : list Piece) (p : Z) : res Piece :=
  if p <? 0 then Panic IndexOutOfRange
  else match nth_error b (Z.to_nat p) with
       | Some x => Ret x
       | None => Panic IndexOutOfRange
       end.

Fixpoint setNth {A} (l : list A) (n : nat) (x : A) : list A :=
  match l, n with
  | [], _ => []
  | _ :: t, O => x :: t
  | h :: t, S n' => h :: setNth t n' x
  end.

(** [board[p] = x] *)
Definition boardSet (b : list Piece) (p : Z) (x : Piece) : res (list Piece) :=
  if p <? 0 then Panic IndexOutOfRange
  else if (Z.to_nat p <? List.length b)%nat then Ret (setNth b (Z.to_nat p) x)
       else Panic IndexOutOfRange.

(** ** Go library functions used by the codec *)

(** *** [unicode/utf8]

    A text is a sequence of bytes, a rune an [int32]. *)

Definition RuneError : Z := 65533.  (* U+FFFD *)
Definition MaxRune : Z := 1114111.  (* U+10FFFF *)
Definition u32 (z : Z) : Z := z mod 2 ^ 32.

(** [lo <= b && b <= hi] on a byte *)
Definition within (lo hi : Z) (c : ascii) : bool :=
  (lo <=? byte_of c) && (byte_of c <=? hi).

(** [utf8.DecodeRuneInString]: the rune at the head of the text and its
    width in bytes.  The table [first] gives the width and the range of
    the second byte; an ill-formed or truncated sequence is read as
    [RuneError] of width 1, the empty text as [RuneError] of width 0. *)
Definition DecodeRuneInString (s : string) : Z * nat :=
  match s with
  | EmptyString => (RuneError, 0%nat)
  | String c0 s1 =>
      let s0 := byte_of c0 in
      let bad := (RuneError, 1%nat) in
      if s0 <? 128 then (s0, 1%nat)
      else if (s0 <? 194) || (244 <? s0) then bad
      else
        let lo := if s0 =? 224 then 160 else if s0 =? 240 then 144 else 128 in
        let hi := if s0 =? 237 then 159 else if s0 =? 244 then 143 else 191 in
        if s0 <? 224 then
          match s1 with
          | String c1 _ =>
              if negb (within lo hi c1) then bad
              else (Z.lor (Z.shiftl (Z.land s0 31) 6) (Z.land (byte_of c1) 63), 2%nat)
          | _ => bad
          end
        else if s0 <? 240 then
          match s1 with
          | String c1 (String c2 _) =>
              if negb (within lo hi c1) then bad
              else if negb (within 128 191 c2) then bad
              else (Z.lor (Z.lor (Z.shiftl (Z.land s0 15) 12)
                                 (Z.shiftl (Z.land (byte_of c1) 63) 6))
                          (Z.land (byte_of c2) 63), 3%nat)
          | _ => bad
          end
        else
          match s1 with
          | String c1 (String c2 (String c3 _)) =>
              if negb (within lo hi c1) then bad
              else if negb (within 128 191 c2) then bad
              else if negb (within 128 191 c3) then bad
              else (Z.lor (Z.lor (Z.lor (Z.shiftl (Z.land s0 7) 18)
                                        (Z.shiftl (Z.land (byte_of c1) 63) 12))
                                 (Z.shiftl (Z.land (byte_of c2) 63) 6))
                          (Z.land (byte_of c3) 63), 4%nat)
          | _ => bad
          end
  end.

(** The runes [ReadRune] returns for a text, one call after the other:
    each is decoded from the bytes the one before has left; [skip] counts
    the bytes of the last rune that are still to pass. *)
Fixpoint readRunes (skip : nat) (s : string) : list Z :=
  match s with
  | EmptyString => []
  | String _ s' =>
      match skip with
      | S k => readRunes k s'
      | O => let (r, size) := DecodeRuneInString s in r :: readRunes (size - 1) s'
      end
  end.

Definition bytes (l : list Z) : string := string_of_list_ascii (map ascii_of l).

(** [utf8.AppendRune] on an empty buffer *)
Definition EncodeRune (r : Z) : string :=
  let i := u32 r in
  let three (r : Z) :=
    bytes [Z.lor 224 (u8 (Z.shiftr r 12));
           Z.lor 128 (Z.land (u8 (Z.shiftr r 6)) 63);
           Z.lor 128 (Z.land (u8 r) 63)] in
  if i <=? 127 then bytes [u8 r]
  else if i <=? 2047 then
    bytes [Z.lor 192 (u8 (Z.shiftr r 6)); Z.lor 128 (Z.land (u8 r) 63)]
  else if (MaxRune <? i) || ((55296 <=? i) && (i <=? 57343)) then three RuneError
  else if i <=? 65535 then three r
  else
    bytes [Z.lor 240 (u8 (Z.shiftr r 18));
           Z.lor 128 (Z.land (u8 (Z.shiftr r 12)) 63);
           Z.lor 128 (Z.land (u8 (Z.shiftr r 6)) 63);
           Z.lor 128 (Z.land (u8 r) 63)].

(** The buffer after [writeRune] of each rune *)
Fixpoint writeRunes (rs : list Z) : string :=
  match rs with
  | [] => EmptyString
  | r :: rs' => (EncodeRune r ++ writeRunes rs')%string
  end.

(** *** [fmt]: the scanner of [Sscanf]

    [Sscanf] hands the text to the scanner as a reader of bytes, so the
    scanner decodes the runes itself.  [doScanf] then walks the format
    ["%s %s %s %s %d %d"]: each verb skips the space before it and calls
    [scanOne], each blank of the format goes through [advance].  An error
    of the scanner ends the call; [None] stands for it. *)

(** The table [space] and [isSpace] *)
Definition space : list (Z * Z) :=
  [(9, 13); (32, 32); (133, 133); (160, 160); (5760, 5760); (8192, 8202);
   (8232, 8233); (8239, 8239); (8287, 8287); (12288, 12288)].

Fixpoint inRanges (rx : Z) (l : list (Z * Z)) : bool :=
  match l with
  | [] => false
  | (lo, hi) :: l' =>
      if rx <? lo then false else if rx <=? hi then true else inRanges rx l'
  end.

Definition isSpace (r : Z) : bool :=
  if r >=? 65536 then false else inRanges (r mod 65536) space.

(** The scanner state [ss]: the runes read so far are counted, and a read
    at [hugeWid] or beyond reports the end of the input. *)
Definition hugeWid : Z := 2 ^ 30.

Record ss : Type := mkSs { ss_count : Z; ss_input : list Z }.

(** [getRune]; [None] is [eof].  [UnreadRune] is the state before. *)
Definition getRune (s : ss) : option (Z * ss) :=
  if ss_count s >=? hugeWid then None
  else match ss_input s with
       | [] => None
       | r :: input => Some (r, mkSs (ss_count s + 1) input)
       end.

Definition peek (ok : Z -> bool) (s : ss) : bool :=
  match getRune s with
  | Some (r, _) => ok r
  | None => false
  end.

(** [notEOF], which panics with [io.ErrUnexpectedEOF] at the end *)
Definition notEOF (s : ss) : bool :=
  match getRune s with
  | Some _ => true
  | None => false
  end.

(** [SkipSpace] of [Sscanf], where a newline is not a space: [None] is
    the error "unexpected newline". *)
Fixpoint skipSpaceFrom (count : Z) (input : list Z) : option ss :=
  match input with
  | [] => Some (mkSs count [])
  | r :: input' =>
      if count >=? hugeWid then Some (mkSs count input)
      else if (r =? 13) && peek (Z.eqb 10) (mkSs (count + 1) input')
      then skipSpaceFrom (count + 1) input'
      else if r =? 10 then None
      else if negb (isSpace r) then Some (mkSs count input)
      else skipSpaceFrom (count + 1) input'
  end.

Definition SkipSpace (s : ss) : option ss := skipSpaceFrom (ss_count s) (ss_input s).

(** The loops that read while a predicate holds and give the first other
    rune back: [for { r := s.getRune(); ... if !f(r) { s.UnreadRune();
    break }; s.buf.writeRune(r) }] of [token], [for s.accept(digits) {}]
    of [scanNumber], and the loop over the spaces of [advance]. *)
Fixpoint readWhile (f : Z -> bool) (count : Z) (input : list Z) : list Z * ss :=
  match input with
  | [] => ([], mkSs count [])
  | r :: input' =>
      if count >=? hugeWid then ([], mkSs count input)
      else if f r then
        let (rs, s) := readWhile f (count + 1) input' in (r :: rs, s)
      else ([], mkSs count input)
  end.

(** [accept]: the rune taken, if it is one of [ok] *)
Definition accept (ok : Z -> bool) (s : ss) : option (Z * ss) :=
  match getRune s with
  | Some (r, s') => if ok r then Some (r, s') else None
  | None => None
  end.

(** The runes of ["+-"] and of ["0123456789_"] *)
Definition isSign (r : Z) : bool := (r =? 43) || (r =? 45).
Definition isDigits (r : Z) : bool := ((48 <=? r) && (r <=? 57)) || (r =? 95).

Definition isDigit (c : ascii) : bool :=
  (byte_of "0" <=? byte_of c) && (byte_of c <=? byte_of "9").

Fixpoint digitsValue (acc : Z) (t : string) : option Z :=
  match t with
  | EmptyString => Some acc
  | String c t' =>
      if isDigit c then digitsValue (acc * 10 + (byte_of c - byte_of "0")) t'
      else None
  end.

(** [strconv.ParseInt(tok, 10, 64)]: an optional sign and decimal digits
    whose value is an [int64]; an underscore is refused in base 10. *)
Definition ParseInt (tok : string) : option Z :=
  let '(neg, t) :=
    match tok with
    | String c t' => if Ascii.eqb c "+" then (false, t')
                     else if Ascii.eqb c "-" then (true, t')
                     else (false, tok)
    | EmptyString => (false, tok)
    end in
  match t with
  | EmptyString => None
  | _ =>
      match digitsValue 0 t with
      | None => None
      | Some v =>
          let v := if neg : bool then - v else v in
          if (min_int <=? v) && (v <=? max_int) then Some v else None
      end
  end.

(** [convertString] for the verb [%s]: the next word *)
Definition convertString (s : ss) : option (string * ss) :=
  match SkipSpace s with
  | None => None
  | Some s =>
      if notEOF s then
        match SkipSpace s with
        | None => None
        | Some s =>
            let (rs, s) := readWhile (fun r => negb (isSpace r))
                                     (ss_count s) (ss_input s) in
            Some (writeRunes rs, s)
        end
      else None
  end.

(** [scanInt] for the verb [%d] and an [int] *)
Definition scanInt (s : ss) : option (Z * ss) :=
  match SkipSpace s with
  | None => None
  | Some s =>
      if notEOF s then
        let (sign, s) := match accept isSign s with
                         | Some (r, s') => ([r], s')
                         | None => ([], s)
                         end in
        if notEOF s then
          match accept isDigits s with
          | None => None
          | Some (d, s) =>
              let (ds, s) := readWhile isDigits (ss_count s) (ss_input s) in
              match ParseInt (writeRunes (sign ++ d :: ds)) with
              | Some v => Some (v, s)
              | None => None
              end
          end
        else None
      else None
  end.

(** A verb of [doScanf]: [SkipSpace], then [scanOne] *)
Definition verbS (s : ss) : option (string * ss) :=
  match SkipSpace s with
  | None => None
  | Some s => convertString s
  end.

Definition verbD (s : ss) : option (Z * ss) :=
  match SkipSpace s with
  | None => None
  | Some s => scanInt s
  end.

(** [advance] over a blank of the format: the input is at its end, or has
    at least one space and no newline there. *)
Definition advanceSpace (s : ss) : option ss :=
  match getRune s with
  | None => Some s
  | Some (r, s') =>
      if negb (isSpace r) then None
      else if r =? 10 then None
      else Some (snd (readWhile (fun r => isSpace r && negb (r =? 10))
                                (ss_count s') (ss_input s')))
  end.

Definition andThen {A B} (m : option A) (k : A -> option B) : option B :=
  match m with
  | Some a => k a
  | None => None
  end.

(** [fmt.Sscanf(str, "%s %s %s %s %d %d", ...)]; [None] is an error.
    Input left after the last verb is not read. *)
Definition Sscanf_ssssdd (str : string)
  : option (string * string * string * string * Z * Z) :=
  andThen (verbS (mkSs 0 (readRunes 0 str))) (fun '(a, s) =>
  andThen (advanceSpace s) (fun s =>
  andThen (verbS s) (fun '(b, s) =>
  andThen (advanceSpace s) (fun s =>
  andThen (verbS s) (fun '(c, s) =>
  andThen (advanceSpace s) (fun s =>
  andThen (verbS s) (fun '(d, s) =>
  andThen (advanceSpace s) (fun s =>
  andThen (verbD s) (fun '(h, s) =>
  andThen (advanceSpace s) (fun s =>
  andThen (verbD s) (fun '(m, _) =>
  Some (a, b, c, d, h, m)))))))))))).

(** [strings.Contains(s, string(c))] *)
Fixpoint containsChar (s : string) (c : ascii) : bool :=
  match s with
  | EmptyString => false
  | String d s' => Ascii.eqb c d || containsChar s' c
  end.

Fixpoint trimLeft (s : string) (c : ascii) : string :=
  match s with
  | String d s' => if Ascii.eqb c d then trimLeft s' c else s
  | EmptyString => s
  end.

Fixpoint revString (acc s : string) : string :=
  match s with
  | EmptyString => acc
  | String c s' => revString (String c acc) s'
  end.

(** [strings.Trim(s, string(c))] *)
Definition trimChar (s : string) (c : ascii) : string :=
  revString EmptyString (trimLeft (revString EmptyString (trimLeft s c)) c).

Fixpoint hasPrefix (prefix s : string) : bool :=
  match prefix with
  | EmptyString => true
  | String a prefix' =>
      match s with
      | String b s' => Ascii.eqb a b && hasPrefix prefix' s'
      | EmptyString => false
      end
  end.

(** [strconv.Itoa] and the [%d] verb of [fmt.Sprintf] *)
Definition Itoa (z : Z) : string := NilZero.string_of_int (Z.to_int z).

Definition string_of_piece (p : Piece) : string := String p EmptyString.

(** A target-square predicate; the one of [GetAttacks] indexes the board
    and can therefore panic. *)
Definition cond_t := Position -> res bool.

(** [for i := 0; i < 64; i++ { board[i] = f.Board[i] }] on a fresh
    [make([]Piece, 64)] *)
Definition copyBoard (b : list Piece) : res (list Piece) :=
  if (List.length b <? 64)%nat then Panic IndexOutOfRange else Ret (firstn 64 b).

Definition emptyBoard : list Piece := repeat NoPiece 64.

Definition downto7 : list Z := [7; 6; 5; 4; 3; 2; 1; 0].
Definition upto7 : list Z := [0; 1; 2; 3; 4; 5; 6; 7].
Definition upto63 : list Z := map Z.of_nat (seq 0 64).

(** ** ParseFEN

    The two generations parse the position text with the same code; they
    differ in how a piece enters the index: [fen.Pieces.AddPosition(piece,
    pos)] in the second, an update of [fen.Pieces[piece.Color()]] in the
    first.  [addPiece] stands for that statement. *)

Section Parse.

Variable addPiece : PiecePositions -> Piece -> Position -> res PiecePositions.


Record placement : Type := mkPlacement {
  pl_board : list Piece;
  pl_pieces : PiecePositions;
  pl_x : Z;
  pl_y : Z
}.

Definition parsePlacementStep (st : placement) (c : ascii) : res placement :=
  if Ascii.eqb c "/" then
    Ret (mkPlacement (pl_board st) (pl_pieces st) 0 (int64 (pl_y st - 1)))
  else if (byte_of "1" <=? byte_of c) && (byte_of c <=? byte_of "8") then
    let j := byte_of c - byte_of "0" in
    Ret (mkPlacement (pl_board st) (pl_pieces st) (int64 (pl_x st + j)) (pl_y st))
  else
    let pos := int64 (pl_y st * 8 + pl_x st) in
    let piece : Piece := c in
    board <- boardSet (pl_board st) pos piece ;;
    pieces <- addPiece (pl_pieces st) piece (u64 pos) ;;
    Ret (mkPlacement board pieces (int64 (pl_x st + 1)) (pl_y st)).

Definition parsePlacement (forStr : string) : res placement :=
  forM (list_ascii_of_string forStr) parsePlacementStep
       (mkPlacement emptyBoard NewPiecePositions 0 7).

Definition parseCastle (castleStr : string) (k q : ascii) : CastleStatus :=
  let cs := NoCastle in
  let cs := if containsChar castleStr k then Kingside else cs in
  if containsChar castleStr q then
    (if CastleStatus_eqb cs Kingside then Both else Queenside)
  else cs.

Definition ParseFEN_with (fenstr : string) : res (FEN + error) :=
  match Sscanf_ssssdd fenstr with
  | None => Ret (inr ScanError)
  | Some (forStr, colorStr, castleStr, enPassant, halfmove, fullmove) =>
      let toMove :=
        if String.eqb colorStr "w" then Some White
        else if String.eqb colorStr "b" then Some Black
        else None in
      match toMove with
      | None => Ret (inr InvalidColor)
      | Some toMove =>
          let bcs := parseCastle castleStr "k" "q" in
          let wcs := parseCastle castleStr "K" "Q" in
          let ep := if String.eqb enPassant "-" then inl NoPosition
                    else ParsePosition enPassant in
          match ep with
          | inr err => Ret (inr err)
          | inl ep =>
              st <- parsePlacement forStr ;;
              Ret (inl (mkFEN (pl_board st) (pl_pieces st) toMove wcs bcs ep
                              halfmove fullmove []))
          end
      end
  end.

End Parse.

(** * The second generation: [package chess_engine] *)

Module ChessEngine.

(** ** ParseFEN *)

Definition ParseFEN : string -> res (FEN + error) :=
  ParseFEN_with (fun pp piece p => Ret (AddPosition pp piece p)).

(** ** FENString *)

Definition FENString_square (b : list Piece) (y : Z) (st : string * Z) (x : Z)
  : res (string * Z) :=
  let '(forStr, empty) := st in
  let pos := y * 8 + x in
  p <- boardAt b pos ;;
  if negb (Piece_eqb p NoPiece) then
    let forStr := if negb (empty =? 0) then (forStr ++ Itoa empty)%string else forStr in
    Ret ((forStr ++ string_of_piece p)%string, 0)
  else Ret (forStr, empty + 1).

Definition FENString_rank (b : list Piece) (forStr : string) (y : Z) : res string :=
  st <- forM upto7 (FENString_square b y) (forStr, 0) ;;
  let '(forStr, empty) := st in
  let forStr := if negb (empty =? 0) then (forStr ++ Itoa empty)%string else forStr in
  Ret (if negb (y =? 0) then (forStr ++ "/")%string else forStr).

Definition FENString (f : FEN) : res string :=
  forStr <- forM downto7 (FENString_rank (Board f)) EmptyString ;;
  let castleStatus :=
    (CastleStatus_String (WhiteCastleStatus f) White
     ++ CastleStatus_String (BlackCastleStatus f) Black)%string in
  let castleStatus := if String.eqb castleStatus "--" then "-" else castleStatus in
  let castleStatus :=
    if negb (String.eqb castleStatus "-") && containsChar castleStatus "-"
    then trimChar castleStatus "-" else castleStatus in
  let enPassant :=
    if negb (EnPassantVulnerable f =? 0) then Position_String (EnPassantVulnerable f)
    else "-" in
  Ret (forStr ++ " " ++ Color_String (ToMove f) ++ " " ++ castleStatus ++ " "
         ++ enPassant ++ " " ++ Itoa (HalfmoveClock f) ++ " " ++ Itoa (Fullmove f))%string.

(** ** The attack primitive *)

Definition attackPawn (cond : cond_t) (color : Color)
    (result : list Move) (pawnPos : Position) : res (list Move) :=
  forM (PawnAttacks color pawnPos)
       (fun result p =>
          c <- cond p ;;
          if c then
            let move := NewMove pawnPos p in
            match ToPromotions move with
            | [] => Ret (result ++ [move])
            | promotions => Ret (result ++ promotions)
            end
          else Ret result)
       result.

Definition attackFixed (cond : cond_t) (piece : NormalizedPiece)
    (result : list Move) (fromPos : Position) : res (list Move) :=
  forM (PieceMoves piece fromPos)
       (fun result toPos =>
          c <- cond toPos ;;
          if c then Ret (result ++ [NewMove fromPos toPos]) else Ret result)
       result.

(** One ray: the hit ends it, an empty square continues it, anything else
    ends it. *)
Fixpoint attackLine (f : FEN) (cond : cond_t) (fromPos : Position)
    (line : list Position) (result : list Move) : res (list Move) :=
  match line with
  | [] => Ret result
  | toPos :: rest =>
      c <- cond toPos ;;
      if c then Ret (result ++ [NewMove fromPos toPos])
      else
        p <- boardAt (Board f) toPos ;;
        if Piece_eqb p NoPiece then attackLine f cond fromPos rest result
        else Ret result
  end.

Definition attackSlider (f : FEN) (cond : cond_t) (piece : NormalizedPiece)
    (result : list Move) (fromPos : Position) : res (list Move) :=
  forM (MoveVectors piece fromPos)
       (fun result line => attackLine f cond fromPos line result)
       result.

Definition GetAttacksOnCondition (f : FEN) (cond : cond_t) (color : Color)
  : res (list Move) :=
  result <- forM (Positions (Pieces f) color Pawn) (attackPawn cond color) [] ;;
  result <- forM [Knight]
              (fun result piece =>
                 forM (Positions (Pieces f) color piece) (attackFixed cond piece) result)
              result ;;
  forM [Bishop; Rook; Queen]
       (fun result piece =>
          forM (Positions (Pieces f) color piece) (attackSlider f cond piece) result)
       result.

Definition GetAttacks (f : FEN) (color : Color) : res (list Move) :=
  let cond : cond_t := fun p =>
    b <- boardAt (Board f) p ;;
    Ret (negb (Piece_eqb b NoPiece) && Color_eqb (Piece_Color b) (Opposite color)) in
  GetAttacksOnCondition f cond color.

Definition AttacksSquare (f : FEN) (color : Color) (square : Position) : res bool :=
  let cond : cond_t := fun p => Ret (p =? square) in
  attacks <- GetAttacksOnCondition f cond color ;;
  Ret (0 <? List.length attacks)%nat.

Definition GetIncomingAttacks (f : FEN) : res (list Move) :=
  GetAttacks f (Opposite (ToMove f)).

(** ** Moves out of check *)

(** The squares from the king back to the checker, the checker's own
    square included: [for pos != check.From { ...; i++; if i > 7 { panic } }].
    The guard fires in the eighth round at the latest, so eight rounds of
    fuel are never used up.  The fatal branch prints [f.Board[pos]] before
    it panics, and that index is checked like any other. *)
Fixpoint walkBlocks (board : list Piece) (fuel : nat) (from : Position) (step : Z)
    (pos : Position) (i : Z) (blocks : list Position) : res (list Position) :=
  if pos =? from then Ret blocks
  else
    match fuel with
    | O => Panic Wtf
    | S fuel' =>
        let pos := u64 (int64 pos + step) in
        let blocks := blocks ++ [pos] in
        let i := i + 1 in
        if i >? 7 then (_ <- boardAt board pos ;; Panic Wtf)
        else walkBlocks board fuel' from step pos i blocks
    end.

Definition blockSquares (board : list Piece) (check : Move) : res (list Position) :=
  let diffFile := GetFile (From check) - GetFile (To check) in
  let diffRank := GetRank (From check) - GetRank (To check) in
  let maxDiff := diffFile in
  let maxDiff := if maxDiff <? 0 then maxDiff * -1 else maxDiff in
  let maxDiff := if diffRank >? maxDiff then diffRank
                 else if diffRank * -1 >? maxDiff then diffRank * -1
                 else maxDiff in
  if maxDiff =? 0 then Panic DivideByZero
  else
    let normDiffFile := Z.quot diffFile maxDiff in
    let normDiffRank := Z.quot diffRank maxDiff in
    walkBlocks board 8 (From check) (normDiffFile + normDiffRank * 8) (To check) 0 [].

Definition kingEscapes (f : FEN) (result : list Move) (kingPos : Position)
  : res (list Move) :=
  forM (GetKingMoves kingPos)
       (fun result p =>
          b <- boardAt (Board f) p ;;
          if Piece_eqb b NoPiece
             || Color_eqb (Piece_Color b) (Opposite (ToMove f))
          then
            a <- AttacksSquare f (Opposite (ToMove f)) p ;;
            if negb a then Ret (result ++ [NewMove kingPos p]) else Ret result
          else Ret result)
       result.

Definition validMovesInCheck (f : FEN) (checks : list Move) : res (list Move) :=
  result <- forM (Positions (Pieces f) (ToMove f) King) (kingEscapes f) [] ;;
  match checks with
  | [check] =>
      attackingPiece <- boardAt (Board f) (From check) ;;
      if Piece_eqb (ToNormalizedPiece attackingPiece) Knight then Ret result
      else
        blocks <- blockSquares (Board f) check ;;
        let cond : cond_t := fun p => Ret (existsb (Z.eqb p) blocks) in
        ms <- GetAttacksOnCondition f cond (ToMove f) ;;
        Ret (result ++ ms)
  | _ => Ret result
  end.

(** The checks on the side to move, as [ValidMoves] and [IsMate] collect
    them from the incoming attacks. *)
Definition collectChecks (f : FEN) (incoming : list Move) : res (list Move) :=
  forM incoming
       (fun checks attack =>
          k <- GetKingPos (Pieces f) (ToMove f) ;;
          if To attack =? k then Ret (checks ++ [attack]) else Ret checks)
       [].

Definition IsMate (f : FEN) : res bool :=
  incoming <- GetIncomingAttacks f ;;
  checks <- collectChecks f incoming ;;
  if (0 <? List.length checks)%nat then
    moves <- validMovesInCheck f checks ;;
    Ret (List.length moves =? 0)%nat
  else Ret false.

(** ** ValidMoves *)

Definition quietPawn (f : FEN) (result : list Move) (pawnPos : Position)
  : res (list Move) :=
  pawn <- boardAt (Board f) pawnPos ;;
  forM (PieceMoves pawn pawnPos)
       (fun result targetPos =>
          b <- boardAt (Board f) targetPos ;;
          if Piece_eqb b NoPiece then
            let move := NewMove pawnPos targetPos in
            match ToPromotions move with
            | [] => Ret (result ++ [move])
            | promotions => Ret (result ++ promotions)
            end
          else Ret result)
       result.

Definition quietFixed (f : FEN) (piece : NormalizedPiece)
    (result : list Move) (fromPos : Position) : res (list Move) :=
  forM (PieceMoves piece fromPos)
       (fun result toPos =>
          b <- boardAt (Board f) toPos ;;
          if Piece_eqb b NoPiece then Ret (result ++ [NewMove fromPos toPos])
          else Ret result)
       result.

Fixpoint quietLine (f : FEN) (fromPos : Position)
    (line : list Position) (result : list Move) : res (list Move) :=
  match line with
  | [] => Ret result
  | toPos :: rest =>
      b <- boardAt (Board f) toPos ;;
      if Piece_eqb b NoPiece
      then quietLine f fromPos rest (result ++ [NewMove fromPos toPos])
      else Ret result
  end.

Definition quietSlider (f : FEN) (piece : NormalizedPiece)
    (result : list Move) (fromPos : Position) : res (list Move) :=
  forM (MoveVectors piece fromPos)
       (fun result line => quietLine f fromPos line result)
       result.

Definition quietKing (f : FEN) (result : list Move) (kingPos : Position)
  : res (list Move) :=
  forM (GetKingMoves kingPos)
       (fun result p =>
          b <- boardAt (Board f) p ;;
          if Piece_eqb b NoPiece then Ret (result ++ [NewMove kingPos p])
          else Ret result)
       result.

Definition ValidMoves (f : FEN) : res (list Move) :=
  incoming <- GetIncomingAttacks f ;;
  checks <- collectChecks f incoming ;;
  if (0 <? List.length checks)%nat then validMovesInCheck f checks
  else
    attacks <- GetAttacks f (ToMove f) ;;
    let result := [] ++ attacks in
    result <- forM (Positions (Pieces f) (ToMove f) Pawn) (quietPawn f) result ;;
    result <- forM [Knight]
                (fun result piece =>
                   forM (Positions (Pieces f) (ToMove f) piece)
                        (quietFixed f piece) result)
                result ;;
    result <- forM [Bishop; Rook; Queen]
                (fun result piece =>
                   forM (Positions (Pieces f) (ToMove f) piece)
                        (quietSlider f piece) result)
                result ;;
    kingPos <- GetKingPos (Pieces f) (ToMove f) ;;
    quietKing f result kingPos.

(** ** ApplyMove *)

Definition rookLeaves (from home_q home_k : Position) (cs : CastleStatus)
  : CastleStatus :=
  if from =? home_q then
    match cs with
    | Both => Kingside
    | Queenside => NoCastle
    | _ => cs
    end
  else if from =? home_k then
    match cs with
    | Both => Queenside
    | Kingside => NoCastle
    | _ => cs
    end
  else cs.

Definition kingLeaves (move : Move) (e g c : Position) (cs : CastleStatus)
  : res CastleStatus :=
  if (From move =? e) && (To move =? g) then
    if negb (CastleStatus_eqb cs Kingside) && negb (CastleStatus_eqb cs Both)
    then Panic InvalidCastle else Ret NoCastle
  else if (From move =? e) && (To move =? c) then
    if negb (CastleStatus_eqb cs Queenside) && negb (CastleStatus_eqb cs Both)
    then Panic InvalidCastle else Ret NoCastle
  else Ret NoCastle.

Definition castleUpdate (movingPiece : Piece) (move : Move)
    (wCastle bCastle : CastleStatus) : res (CastleStatus * CastleStatus) :=
  if Piece_eqb movingPiece BlackRook then
    Ret (wCastle, rookLeaves (From move) A8 H8 bCastle)
  else if Piece_eqb movingPiece BlackKing then
    b <- kingLeaves move E8 G8 C8 bCastle ;; Ret (wCastle, b)
  else if Piece_eqb movingPiece WhiteRook then
    Ret (rookLeaves (From move) A1 H1 wCastle, bCastle)
  else if Piece_eqb movingPiece WhiteKing then
    w <- kingLeaves move E1 G1 C1 wCastle ;; Ret (w, bCastle)
  else Ret (wCastle, bCastle).

Definition ApplyMove (f : FEN) (move : Move) : res FEN :=
  let line := Line f ++ [move] in
  board <- copyBoard (Board f) ;;
  movingPiece <- boardAt board (From move) ;;
  board <- boardSet board (From move) NoPiece ;;
  captured <- boardAt board (To move) ;;
  let capturedPiece := ToNormalizedPiece captured in
  board <- boardSet board (To move) movingPiece ;;
  let normalizedMovingPiece := ToNormalizedPiece movingPiece in
  board <- (if negb (Piece_eqb (Promote move) NoPiece)
            then boardSet board (To move) (Promote move) else Ret board) ;;
  castle <- castleUpdate movingPiece move (WhiteCastleStatus f) (BlackCastleStatus f) ;;
  let '(wCastle, bCastle) := castle in
  let pieces := PiecePositions_ApplyMove (Pieces f) (ToMove f) move
                  normalizedMovingPiece capturedPiece in
  let fullMove := Fullmove f in
  let fullMove := if Color_eqb (ToMove f) Black then int64 (fullMove + 1) else fullMove in
  Ret (mkFEN board pieces (Opposite (ToMove f)) wCastle bCastle NoPosition
             (int64 (HalfmoveClock f + 1)) fullMove line).

Definition NextFENs (f : FEN) : res (list FEN) :=
  moves <- ValidMoves f ;;
  forM moves (fun result m => g <- ApplyMove f m ;; Ret (result ++ [g])) [].

End ChessEngine.

(** * The first generation: [package main]

    The same position record, with the index spelled out as a map of maps
    ([f.Pieces[color][piece]]) and the pawn geometry computed in place. *)

Module Main.

(** [pieces := fen.Pieces[piece.Color()]; ...; pieces[normPiece] = positions]:
    the outer map has the keys [White] and [Black] only, and assigning into
    the nil map of any other colour panics. *)
Definition addToIndex (pp : PiecePositions) (piece : Piece) (p : Position)
  : res PiecePositions :=
  match Piece_Color piece with
  | NoColor => Panic NilMapAssignment
  | _ => Ret (AddPosition pp piece p)
  end.

Definition ParseFEN : string -> res (FEN + error) := ParseFEN_with addToIndex.

Definition whitePromotions : list Piece :=
  [WhiteKnight; WhiteQueen; WhiteRook; WhiteBishop].
Definition blackPromotions : list Piece :=
  [BlackKnight; BlackQueen; BlackRook; BlackBishop].

Definition pawnTargets (color : Color) (pawnPos : Position) : list Position :=
  let file := GetFile pawnPos in
  if Color_eqb color White then
    (if file >? byte_of "a" then [u64 (pawnPos + 7)] else [])
    ++ (if file <? byte_of "h" then [u64 (pawnPos + 9)] else [])
  else
    (if file <? byte_of "h" then [u64 (pawnPos - 7)] else [])
    ++ (if file >? byte_of "a" then [u64 (pawnPos - 9)] else []).

Definition attackPawn (cond : cond_t) (color : Color)
    (result : list Move) (pawnPos : Position) : res (list Move) :=
  let rank := GetRank pawnPos in
  forM (pawnTargets color pawnPos)
       (fun result p =>
          c <- cond p ;;
          if c then
            if Color_eqb color White && (rank =? byte_of "7") then
              Ret (result ++ map (mkMove pawnPos p) whitePromotions)
            else if Color_eqb color Black && (rank =? byte_of "2") then
              Ret (result ++ map (mkMove pawnPos p) blackPromotions)
            else Ret (result ++ [NewMove pawnPos p])
          else Ret result)
       result.

Definition attackKnight (cond : cond_t)
    (result : list Move) (knightPos : Position) : res (list Move) :=
  forM (GetKnightMoves knightPos)
       (fun result p =>
          c <- cond p ;;
          if c then Ret (result ++ [NewMove knightPos p]) else Ret result)
       result.

Fixpoint attackLine (f : FEN) (cond : cond_t) (fromPos : Position)
    (line : list Position) (result : list Move) : res (list Move) :=
  match line with
  | [] => Ret result
  | p :: rest =>
      c <- cond p ;;
      if c then Ret (result ++ [NewMove fromPos p])
      else
        b <- boardAt (Board f) p ;;
        if Piece_eqb b NoPiece then attackLine f cond fromPos rest result
        else Ret result
  end.

Definition attackLines (f : FEN) (cond : cond_t) (lines : Position -> list (list Position))
    (result : list Move) (fromPos : Position) : res (list Move) :=
  forM (lines fromPos)
       (fun result line => attackLine f cond fromPos line result)
       result.

Definition attackQueen (f : FEN) (cond : cond_t)
    (result : list Move) (queenPos : Position) : res (list Move) :=
  result <- attackLines f cond GetDiagonals result queenPos ;;
  attackLines f cond GetLines result queenPos.

Definition GetAttacksOnCondition (f : FEN) (cond : cond_t) (color : Color)
  : res (list Move) :=
  result <- forM (Pieces f color Pawn) (attackPawn cond color) [] ;;
  result <- forM (Pieces f color Knight) (attackKnight cond) result ;;
  result <- forM (Pieces f color Bishop) (attackLines f cond GetDiagonals) result ;;
  result <- forM (Pieces f color Rook) (attackLines f cond GetLines) result ;;
  forM (Pieces f color Queen) (attackQueen f cond) result.

Definition GetAttacks (f : FEN) (color : Color) : res (list Move) :=
  let cond : cond_t := fun p =>
    b <- boardAt (Board f) p ;;
    Ret (negb (Piece_eqb b NoPiece) && Color_eqb (Piece_Color b) (Opposite color)) in
  GetAttacksOnCondition f cond color.

Definition AttacksSquare (f : FEN) (color : Color) (square : Position) : res bool :=
  let cond : cond_t := fun p => Ret (p =? square) in
  attacks <- GetAttacksOnCondition f cond color ;;
  Ret (0 <? List.length attacks)%nat.

Definition GetIncomingAttacks (f : FEN) : res (list Move) :=
  GetAttacks f (Opposite (ToMove f)).

(** The walk from the king back to the checker is the same text in both
    generations. *)
Definition blockSquares : list Piece -> Move -> res (list Position) :=
  ChessEngine.blockSquares.

Definition kingEscapes (f : FEN) (result : list Move) (kingPos : Position)
  : res (list Move) :=
  forM (GetKingMoves kingPos)
       (fun result p =>
          a <- AttacksSquare f (Opposite (ToMove f)) p ;;
          if negb a then Ret (result ++ [NewMove kingPos p]) else Ret result)
       result.

Definition validMovesInCheck (f : FEN) (checks : list Move) : res (list Move) :=
  result <- forM (Pieces f (ToMove f) King) (kingEscapes f) [] ;;
  match checks with
  | [check] =>
      attackingPiece <- boardAt (Board f) (From check) ;;
      if Piece_eqb (ToNormalizedPiece attackingPiece) Knight then Ret result
      else
        blocks <- blockSquares (Board f) check ;;
        let cond : cond_t := fun p => Ret (existsb (Z.eqb p) blocks) in
        ms <- GetAttacksOnCondition f cond (ToMove f) ;;
        Ret (result ++ ms)
  | _ => Ret result
  end.

(** [f.Pieces[f.ToMove][King][0]] *)
Definition firstKing (f : FEN) : res Position :=
  match Pieces f (ToMove f) King with
  | k :: _ => Ret k
  | [] => Panic IndexOutOfRange
  end.

Definition collectChecks (f : FEN) (incoming : list Move) : res (list Move) :=
  forM incoming
       (fun checks attack =>
          k <- firstKing f ;;
          if To attack =? k then Ret (checks ++ [attack]) else Ret checks)
       [].

Definition pawnSkips (f : FEN) (pawnPos : Position) : list Z :=
  if Color_eqb (ToMove f) White then
    1 :: (if GetRank pawnPos =? byte_of "2" then [2] else [])
  else
    -1 :: (if GetRank pawnPos =? byte_of "6" then [-2] else []).

Definition quietPawn (f : FEN) (result : list Move) (pawnPos : Position)
  : res (list Move) :=
  forM (pawnSkips f pawnPos)
       (fun result rankDiff =>
          let targetPos := u64 (int64 pawnPos + rankDiff * 8) in
          b <- boardAt (Board f) targetPos ;;
          if Piece_eqb b NoPiece then
            if Color_eqb (ToMove f) White && (GetRank targetPos =? byte_of "8") then
              Ret (result ++ map (mkMove pawnPos targetPos) whitePromotions)
            else if Color_eqb (ToMove f) Black && (GetRank targetPos =? byte_of "1") then
              Ret (result ++ map (mkMove pawnPos targetPos) blackPromotions)
            else Ret (result ++ [NewMove pawnPos targetPos])
          else Ret result)
       result.

Definition quietStep (f : FEN) (result : list Move) (fromPos : Position)
    (targets : list Position) : res (list Move) :=
  forM targets
       (fun result p =>
          b <- boardAt (Board f) p ;;
          if Piece_eqb b NoPiece then Ret (result ++ [NewMove fromPos p])
          else Ret result)
       result.

(** [for _, p := range line { if empty { append }; break }]: the first
    square of the ray only. *)
Definition quietLine (f : FEN) (fromPos : Position)
    (line : list Position) (result : list Move) : res (list Move) :=
  match line with
  | [] => Ret result
  | p :: _ =>
      b <- boardAt (Board f) p ;;
      if Piece_eqb b NoPiece then Ret (result ++ [NewMove fromPos p])
      else Ret result
  end.

Definition quietLines (f : FEN) (lines : Position -> list (list Position))
    (result : list Move) (fromPos : Position) : res (list Move) :=
  forM (lines fromPos)
       (fun result line => quietLine f fromPos line result)
       result.

Definition quietQueen (f : FEN) (result : list Move) (queenPos : Position)
  : res (list Move) :=
  result <- quietLines f GetDiagonals result queenPos ;;
  quietLines f GetLines result queenPos.

Definition ValidMoves (f : FEN) : res (list Move) :=
  incoming <- GetIncomingAttacks f ;;
  checks <- collectChecks f incoming ;;
  if (0 <? List.length checks)%nat then validMovesInCheck f checks
  else
    attacks <- GetAttacks f (ToMove f) ;;
    let result := [] ++ attacks in
    result <- forM (Pieces f (ToMove f) Pawn) (quietPawn f) result ;;
    result <- forM (Pieces f (ToMove f) Knight)
                (fun result knightPos =>
                   quietStep f result knightPos (GetKnightMoves knightPos))
                result ;;
    result <- forM (Pieces f (ToMove f) Bishop) (quietLines f GetDiagonals) result ;;
    result <- forM (Pieces f (ToMove f) Rook) (quietLines f GetLines) result ;;
    result <- forM (Pieces f (ToMove f) Queen) (quietQueen f) result ;;
    forM (Pieces f (ToMove f) King)
         (fun result kingPos => quietStep f result kingPos (GetKingMoves kingPos))
         result.

(** ** ApplyMove

    The first generation rebuilds the index key by key, for the colours
    [White] and [Black]: the entry of the moving piece is replaced by the
    target square (dropped on a promotion), the entries of the other
    colour under the kind of the captured piece are skipped, every other
    entry is kept.  A key without entries and an absent key read alike
    wherever the index is read ([range], [positions, ok := ...]), so the
    index stays a function here. *)
Definition movedEntry (f : FEN) (move : Move)
    (normalizedMovingPiece capturedPiece : NormalizedPiece)
    (color : Color) (piece : NormalizedPiece) (pos : Position) : list Position :=
  if Color_eqb color (ToMove f) && Piece_eqb piece normalizedMovingPiece
     && (pos =? From move)
  then (if Piece_eqb (Promote move) NoPiece then [To move] else [])
  else if negb (Color_eqb color (ToMove f)) && Piece_eqb piece capturedPiece
       then []
       else [pos].

Definition rebuildIndex (f : FEN) (move : Move)
    (normalizedMovingPiece capturedPiece : NormalizedPiece) : PiecePositions :=
  fun color piece =>
    match color with
    | NoColor => []
    | _ => flat_map (movedEntry f move normalizedMovingPiece capturedPiece color piece)
                    (Pieces f color piece)
    end.

(** [pieces[f.ToMove][normPromote] = append(beforePromote, move.To)] *)
Definition addPromoted (pieces : PiecePositions) (toMove : Color) (move : Move)
  : res PiecePositions :=
  let normPromote := ToNormalizedPiece (Promote move) in
  match toMove with
  | NoColor => Panic NilMapAssignment
  | _ => Ret (setPositions pieces toMove normPromote
                           (pieces toMove normPromote ++ [To move]))
  end.

Definition ApplyMove (f : FEN) (move : Move) : res FEN :=
  let line := Line f ++ [move] in
  board <- copyBoard (Board f) ;;
  movingPiece <- boardAt board (From move) ;;
  board <- boardSet board (From move) NoPiece ;;
  captured <- boardAt board (To move) ;;
  let capturedPiece := ToNormalizedPiece captured in
  board <- boardSet board (To move) movingPiece ;;
  let normalizedMovingPiece := ToNormalizedPiece movingPiece in
  board <- (if negb (Piece_eqb (Promote move) NoPiece)
            then boardSet board (To move) (Promote move) else Ret board) ;;
  let pieces := rebuildIndex f move normalizedMovingPiece capturedPiece in
  pieces <- (if negb (Piece_eqb (Promote move) NoPiece)
             then addPromoted pieces (ToMove f) move else Ret pieces) ;;
  Ret (mkFEN board pieces (Opposite (ToMove f))
             (WhiteCastleStatus f) (BlackCastleStatus f) NoPosition
             (int64 (HalfmoveClock f + 1)) (Fullmove f) line).

Definition NextFENs (f : FEN) : res (list FEN) :=
  moves <- ValidMoves f ;;
  forM moves (fun result m => g <- ApplyMove f m ;; Ret (result ++ [g])) [].

End Main.

Definition startpos : string :=
  "rnbqkbnr/pppppppp/8/8/8/8/PPPPPPPP/RNBQKBNR w KQkq - 0 1".

(** * ApplyMove on the store

    A [*FEN] is a pointer, and its board, line and index are references to
    arrays and maps that several positions could share.  To state what
    [ApplyMove] writes, the same function is given here over an explicit
    store: objects live at addresses, [make] and [&FEN{}] allocate,
    [x[i] = v] and [result.F = v] store. *)

Module Store.

Definition loc := nat.

(** The [FEN] struct as it lies in memory: slices and the index are
    references, [None] is [nil]. *)
Record FENobj : Type := mkFENobj {
  oBoard : option loc;
  oPieces : option loc;
  oToMove : Color;
  oWhiteCastleStatus : CastleStatus;
  oBlackCastleStatus : CastleStatus;
  oEnPassantVulnerable : Position;
  oHalfmoveClock : Z;
  oFullmove : Z;
  oLine : option loc
}.

Inductive object : Type :=
| OBoard (b : list Piece)          (* the array behind a []Piece *)
| OLine (l : list (option loc))    (* the array behind a []*Move *)
| OMove (m : Move)
| OPieces (pp : PiecePositions)
| OFEN (f : FENobj).

Definition heap := list object.

(** The zero value of the struct: [Both] is the first [CastleStatus]. *)
Definition zeroFEN : FENobj :=
  mkFENobj None None NoColor Both Both 0 0 0 None.

Definition zeroPiece : Piece := "000"%char.

(** Computations on the store that may panic. *)
Definition M (A : Type) : Type := heap -> res (A * heap).

Definition retM {A} (a : A) : M A := fun h => Ret (a, h).

Definition bindM {A B} (m : M A) (k : A -> M B) : M B :=
  fun h => match m h with
           | Ret (a, h') => k a h'
           | Panic p => Panic p
           end.

Definition liftM {A} (r : res A) : M A :=
  fun h => match r with
           | Ret a => Ret (a, h)
           | Panic p => Panic p
           end.

Notation "x <~ m ;; k" := (bindM m (fun x => k))
  (at level 61, m at next level, right associativity).

Fixpoint forS {A} (xs : list A) (body : A -> M unit) : M unit :=
  match xs with
  | [] => retM tt
  | x :: xs' => _ <~ body x ;; forS xs' body
  end.

Definition alloc (o : object) : M loc :=
  fun h => Ret (List.length h, h ++ [o]).

Definition load (l : loc) : M object :=
  fun h => match nth_error h l with
           | Some o => Ret (o, h)
           | None => Panic NilDereference
           end.

Definition store (l : loc) (o : object) : M unit :=
  fun h => if (l <? List.length h)%nat then Ret (tt, setNth h l o)
           else Panic NilDereference.

Definition deref (l : option loc) : M object :=
  match l with
  | Some l => load l
  | None => liftM (Panic NilDereference)
  end.

Definition loadFEN (l : loc) : M FENobj :=
  o <~ load l ;;
  match o with
  | OFEN f => retM f
  | _ => liftM (Panic NilDereference)
  end.

Definition loadMove (l : loc) : M Move :=
  o <~ load l ;;
  match o with
  | OMove m => retM m
  | _ => liftM (Panic NilDereference)
  end.

(** The elements of a slice; a nil slice has none. *)
Definition boardOf (s : option loc) : M (list Piece) :=
  match s with
  | None => retM []
  | Some l =>
      o <~ load l ;;
      match o with
      | OBoard b => retM b
      | _ => liftM (Panic NilDereference)
      end
  end.

Definition lineOf (s : option loc) : M (list (option loc)) :=
  match s with
  | None => retM []
  | Some l =>
      o <~ load l ;;
      match o with
      | OLine b => retM b
      | _ => liftM (Panic NilDereference)
      end
  end.

Definition piecesOf (s : option loc) : M PiecePositions :=
  o <~ deref s ;;
  match o with
  | OPieces pp => retM pp
  | _ => liftM (Panic NilDereference)
  end.

(** [s[i]] and [s[i] = x] *)
Definition boardIndex (s : option loc) (i : Z) : M Piece :=
  b <~ boardOf s ;; liftM (boardAt b i).

Definition boardStore (l : loc) (i : Z) (x : Piece) : M unit :=
  b <~ boardOf (Some l) ;;
  b' <~ liftM (boardSet b i x) ;;
  store l (OBoard b').

Definition lineStore (l : loc) (i : nat) (x : option loc) : M unit :=
  b <~ lineOf (Some l) ;;
  if (i <? List.length b)%nat then store l (OLine (setNth b i x))
  else liftM (Panic IndexOutOfRange).

Fixpoint indexed {A} (i : nat) (l : list A) : list (nat * A) :=
  match l with
  | [] => []
  | x :: l' => (i, x) :: indexed (S i) l'
  end.

(** Modelled from the spec: [PiecePositions.ApplyMove] is not among the
    sources.  It returns the index of the new position and, every
    transition producing "a new Position", leaves the receiver's index as
    it is: the updated index is a new object. *)
Definition Pieces_ApplyMove (pieces : option loc) (c : Color) (move : Move)
    (movingPiece capturedPiece : NormalizedPiece) : M loc :=
  pp <~ piecesOf pieces ;;
  alloc (OPieces (PiecePositions_ApplyMove pp c move movingPiece capturedPiece)).

Definition ApplyMove (f : loc) (move : loc) : M loc :=
  result <~ alloc (OFEN zeroFEN) ;;
  (* line := make([]*Move, len(f.Line)+1); copy; line[len(f.Line)] = move *)
  fo <~ loadFEN f ;;
  fLine <~ lineOf (oLine fo) ;;
  line <~ alloc (OLine (repeat None (List.length fLine + 1))) ;;
  _ <~ forS (indexed 0 fLine) (fun im => lineStore line (fst im) (snd im)) ;;
  fo <~ loadFEN f ;;
  fLine <~ lineOf (oLine fo) ;;
  _ <~ lineStore line (List.length fLine) (Some move) ;;
  (* board := make([]Piece, 64); for i < 64 { board[i] = f.Board[i] } *)
  board <~ alloc (OBoard (repeat zeroPiece 64)) ;;
  _ <~ forS upto63
         (fun i => fo <~ loadFEN f ;;
                   x <~ boardIndex (oBoard fo) i ;;
                   boardStore board i x) ;;
  mv <~ loadMove move ;;
  movingPiece <~ boardIndex (Some board) (From mv) ;;
  _ <~ boardStore board (From mv) NoPiece ;;
  captured <~ boardIndex (Some board) (To mv) ;;
  let capturedPiece := ToNormalizedPiece captured in
  _ <~ boardStore board (To mv) movingPiece ;;
  let normalizedMovingPiece := ToNormalizedPiece movingPiece in
  _ <~ (if negb (Piece_eqb (Promote mv) NoPiece)
        then boardStore board (To mv) (Promote mv) else retM tt) ;;
  fo <~ loadFEN f ;;
  castle <~ liftM (ChessEngine.castleUpdate movingPiece mv
                     (oWhiteCastleStatus fo) (oBlackCastleStatus fo)) ;;
  pieces <~ Pieces_ApplyMove (oPieces fo) (oToMove fo) mv
              normalizedMovingPiece capturedPiece ;;
  fo <~ loadFEN f ;;
  let fullMove := oFullmove fo in
  let fullMove := if Color_eqb (oToMove fo) Black
                  then int64 (fullMove + 1) else fullMove in
  (* result.Board = board; ...; result.Line = line *)
  _ <~ store result
         (OFEN (mkFENobj (Some board) (Some pieces) (Opposite (oToMove fo))
                         (fst castle) (snd castle) NoPosition
                         (int64 (oHalfmoveClock fo + 1)) fullMove (Some line))) ;;
  retM result.

(** The position a pointer stands for: the struct with its references
    followed. *)
Fixpoint readMoves (h : heap) (l : list (option loc)) : option (list Move) :=
  match l with
  | [] => Some []
  | Some a :: l' =>
      match nth_error h a, readMoves h l' with
      | Some (OMove m), Some ms => Some (m :: ms)
      | _, _ => None
      end
  | None :: _ => None
  end.

Definition readBoard (h : heap) (s : option loc) : option (list Piece) :=
  match s with
  | None => Some []
  | Some a => match nth_error h a with
              | Some (OBoard b) => Some b
              | _ => None
              end
  end.

Definition readLine (h : heap) (s : option loc) : option (list Move) :=
  match s with
  | None => Some []
  | Some a => match nth_error h a with
              | Some (OLine l) => readMoves h l
              | _ => None
              end
  end.

Definition readPieces (h : heap) (s : option loc) : option PiecePositions :=
  match s with
  | Some a => match nth_error h a with
              | Some (OPieces pp) => Some pp
              | _ => None
              end
  | None => None
  end.

Definition readFEN (h : heap) (f : loc) : option FEN :=
  match nth_error h f with
  | Some (OFEN fo) =>
      match readBoard h (oBoard fo), readPieces h (oPieces fo),
            readLine h (oLine fo) with
      | Some b, Some pp, Some l =>
          Some (mkFEN b pp (oToMove fo) (oWhiteCastleStatus fo)
                      (oBlackCastleStatus fo) (oEnPassantVulnerable fo)
                      (oHalfmoveClock fo) (oFullmove fo) l)
      | _, _, _ => None
      end
  | _ => None
  end.

(** The addresses below [n] hold in [h'] what they hold in [h]. *)
Definition frame (n : nat) (h h' : heap) : Prop :=
  forall a, (a < n)%nat -> nth_error h' a = nth_error h a.

(** A reference to an object that did not exist among the first [n]. *)
Definition fresh (n : nat) (s : option loc) : Prop :=
  exists a, s = Some a /\ (n <= a)%nat.

(** [hoare n c Q]: started on a store with at least [n] objects, [c]
    leaves the first [n] as they are, does not shrink the store, and
    establishes [Q]. *)
Definition hoare {A} (n : nat) (c : M A) (Q : A -> heap -> Prop) : Prop :=
  forall h a h', (n <= List.length h)%nat -> c h = Ret (a, h') ->
    (List.length h <= List.length h')%nat /\ frame n h h' /\ Q a h'.

End Store.

(** * The search loop: [DFSEngine.start]

    Modelled from the spec: the evaluation tree ([NewEvalTree], [Insert],
    [UpdateBestLine], [BestLine], [GetBestLine]), [FEN.IsDraw],
    [FEN.InCheck], the text of a move and of a line, and the evaluator
    functions are not among the sources.  They are the fields of
    [SearchEnv]: "Insert(line, score)" extends the tree, "UpdateBestLine"
    recomputes the best children, "GetBestLine()" returns the move
    sequence and its score, an evaluator is "a pure function, Position ->
    real-valued score".  The scores are [float64]s; the loop only adds
    them, multiplies by [-1] and writes the literals [0.0] and [58008], so
    the number type is a field as well. *)

Record SearchEnv : Type := mkSearchEnv {
  float64 : Type;
  fconst : Z -> float64;                     (* a numeric literal *)
  fadd : float64 -> float64 -> float64;
  fmul : float64 -> float64 -> float64;
  centipawns : float64 -> Z;                 (* int(math.Round(score * 100)) *)
  IsDraw : FEN -> bool;
  InCheck : FEN -> bool;
  EvalTree : Type;
  Insert : EvalTree -> list Move -> float64 -> EvalTree;
  UpdateBestLine : EvalTree -> EvalTree;
  (* b.EvalTree.BestLine.Move.String(); BestLine may be nil *)
  BestLineMove : EvalTree -> res string;
  (* b.EvalTree.BestLine.GetBestLine() *)
  GetBestLine : EvalTree -> res (list Move * float64);
  Line_String : list Move -> string
}.

Inductive event : Set :=
| CtxDone       (* <-ctx.Done() *)
| TimerFired    (* <-timer.C *)
| NoneReady.    (* default *)

Inductive control : Set := Continue | Stop.

Section Search.

Variable E : SearchEnv.

Definition Evaluator : Type := FEN -> float64 E.

Record DFSEngine : Type := mkDFSEngine {
  Evaluators : list Evaluator;
  SelDepth : Z
}.

(** The variables of [start] that live across iterations. *)
Record loopState : Type := mkLoopState {
  seen : list string;       (* map[string]bool, the keys set to true *)
  tree : EvalTree E;        (* b.EvalTree *)
  depth : Z;
  nodes : Z;
  totalNodes : Z;
  queue : list FEN          (* container/list, front first *)
}.

Definition len {A} (l : list A) : Z := Z.of_nat (List.length l).

Definition heuristicScorePosition (b : DFSEngine) (f : FEN) : float64 E :=
  let score := fold_left (fun score eval => fadd E score (eval f))
                         (Evaluators b) (fconst E 0) in
  if Color_eqb (ToMove f) Black then fmul E score (fconst E (-1)) else score.

Definition ShouldCheckPosition (position : FEN) : res bool :=
  valid <- ChessEngine.ValidMoves position ;;
  Ret (InCheck E position || (len valid <=? 1)).

Definition inSeen (seen : list string) (s : string) : bool :=
  existsb (String.eqb s) seen.

Definition infoNodes (nodes totalNodes depth : Z) : string :=
  ("info ns " ++ Itoa nodes ++ " nodes " ++ Itoa totalNodes
     ++ " depth " ++ Itoa depth)%string.

Definition infoNodesQueue (nodes totalNodes depth queueLen : Z) : string :=
  (infoNodes nodes totalNodes depth ++ " queue " ++ Itoa queueLen)%string.

Definition infoPV (bestResult : list Move * float64 E) : string :=
  ("info depth " ++ Itoa (len (fst bestResult)) ++ " score cp "
     ++ Itoa (centipawns E (snd bestResult)) ++ " pv "
     ++ Line_String E (fst bestResult))%string.

Definition bestmove (t : EvalTree E) : res string :=
  m <- BestLineMove E t ;; Ret ("bestmove " ++ m)%string.

(** The body of [if len(game.Line) < b.SelDepth { ... }]. *)
Definition expand (b : DFSEngine) (seen : list string) (game : FEN)
    (queue : list FEN) : res (list FEN) :=
  nextFENs <- ChessEngine.NextFENs game ;;
  let wasForced := len nextFENs =? 1 in
  forM nextFENs
       (fun queue f =>
          skip <- (if negb wasForced
                   then c <- ShouldCheckPosition f ;; Ret (negb c)
                   else Ret false) ;;
          if skip : bool then Ret queue
          else
            fenStr <- ChessEngine.FENString f ;;
            if negb (inSeen seen fenStr) then Ret (f :: queue) else Ret queue)
       queue.

(** One round of [for { select { ... } }]: the state after it, the lines
    sent to [output], and whether the loop goes on. *)
Definition iteration (b : DFSEngine) (maxNodes : Z) (ev : event) (st : loopState)
  : res (loopState * list string * control) :=
  match ev with
  | CtxDone =>
      best <- bestmove (tree st) ;;
      Ret (st, [best], Stop)
  | TimerFired =>
      let totalNodes := int64 (totalNodes st + nodes st) in
      let line1 := infoNodesQueue (nodes st) totalNodes (depth st) (len (queue st)) in
      bestResult <- GetBestLine E (tree st) ;;
      Ret (mkLoopState (seen st) (tree st) (depth st) 0 totalNodes (queue st),
           [line1; infoPV bestResult], Continue)
  | NoneReady =>
      match queue st with
      | game :: queue =>
          let nodes := int64 (nodes st + 1) in
          let tree := if len (Line game) <? depth st
                      then UpdateBestLine E (tree st) else tree st in
          let depth := len (Line game) in
          fenStr <- ChessEngine.FENString game ;;
          let seen := fenStr :: seen st in
          score <- (if IsDraw E game then Ret (fconst E 0)
                    else
                      mate <- ChessEngine.IsMate game ;;
                      if mate : bool then Ret (fconst E 58008)
                      else Ret (heuristicScorePosition b game)) ;;
          let tree := Insert E tree (Line game) score in
          queue <- (if len (Line game) <? SelDepth b
                    then expand b seen game queue else Ret queue) ;;
          let st' := mkLoopState seen tree depth nodes (totalNodes st) queue in
          if (maxNodes >? 0) && (int64 (totalNodes st + nodes) >=? maxNodes) then
            best <- bestmove tree ;;
            Ret (st', [infoNodes nodes (totalNodes st) depth; best], Stop)
          else Ret (st', [], Continue)
      | [] =>
          bestResult <- GetBestLine E (tree st) ;;
          best <- bestmove (tree st) ;;
          Ret (st, [infoPV bestResult;
                    infoNodes (nodes st) (totalNodes st) (depth st);
                    best], Stop)
      end
  end.

(** The loop over the events of a run: everything sent to [output], and
    whether the loop has stopped. *)
Fixpoint run (b : DFSEngine) (maxNodes : Z) (evs : list event) (st : loopState)
  : res (list string * bool) :=
  match evs with
  | [] => Ret ([], false)
  | ev :: evs' =>
      r <- iteration b maxNodes ev st ;;
      let '(st', out, c) := r in
      match c with
      | Stop => Ret (out, true)
      | Continue =>
          rest <- run b maxNodes evs' st' ;;
          Ret (out ++ fst rest, snd rest)
      end
  end.

(** The score of a position in the words of the specification: 0 if the
    position is a draw, the mate constant if it is checkmate, otherwise
    the sum of the evaluator outputs, negated when Black is to move. *)
Definition sumOutputs (outputs : list (float64 E)) : float64 E :=
  fold_left (fadd E) outputs (fconst E 0).

Definition negated (x : float64 E) : float64 E := fmul E x (fconst E (-1)).

Definition mateScore : float64 E := fconst E 58008.

Definition specifiedScore (b : DFSEngine) (game : FEN) : res (float64 E) :=
  if IsDraw E game then Ret (fconst E 0)
  else
    mate <- ChessEngine.IsMate game ;;
    if mate : bool then Ret mateScore
    else
      let total := sumOutputs (map (fun eval => eval game) (Evaluators b)) in
      Ret (if Color_eqb (ToMove game) Black then negated total else total).

Definition isTelemetry (s : string) : bool := hasPrefix "info ns " s.
Definition isBestmove (s : string) : bool := hasPrefix "bestmove " s.

End Search.

Arguments Evaluators {E} _.
Arguments SelDepth {E} _.
Arguments seen {E} _.
Arguments tree {E} _.
Arguments depth {E} _.
Arguments nodes {E} _.
Arguments totalNodes {E} _.
Arguments queue {E} _.

(** ** Vocabulary of the statements *)

(** A move within the fixed 64-slot board. *)
Definition inRange (f : FEN) (m : Move) : Prop :=
  List.length (Board f) = 64%nat /\ 0 <= From m < 64 /\ 0 <= To m < 64.

(** The values of a Go [int]. *)
Definition isInt (z : Z) : Prop := min_int <= z <= max_int.

Definition holdsKingside (cs : CastleStatus) : bool :=
  CastleStatus_eqb cs Kingside || CastleStatus_eqb cs Both.
Definition holdsQueenside (cs : CastleStatus) : bool :=
  CastleStatus_eqb cs Queenside || CastleStatus_eqb cs Both.

(** A king move from e1 to g1 or c1 (from e8 to g8 or c8 for Black) whose
    side does not hold the corresponding castling right. *)
Definition castleWithoutRight (e g c : Position) (cs : CastleStatus) (m : Move) : bool :=
  (From m =? e)
  && (((To m =? g) && negb (holdsKingside cs))
      || ((To m =? c) && negb (holdsQueenside cs))).

Definition illegalCastle (f : FEN) (m : Move) : bool :=
  match boardAt (Board f) (From m) with
  | Ret piece =>
      (Piece_eqb piece WhiteKing && castleWithoutRight E1 G1 C1 (WhiteCastleStatus f) m)
      || (Piece_eqb piece BlackKing && castleWithoutRight E8 G8 C8 (BlackCastleStatus f) m)
  | Panic _ => false
  end.

(** ** Example positions *)

Definition noPosition : FEN :=
  mkFEN emptyBoard NewPiecePositions NoColor NoCastle NoCastle NoPosition 0 0 [].

Definition position_of (s : string) : FEN :=
  match ChessEngine.ParseFEN s with
  | Ret (inl f) => f
  | _ => noPosition
  end.

(** Kings and rooks on their home squares, no castling rights left. *)
Definition rightsLost : FEN :=
  Eval vm_compute in position_of "r3k2r/8/8/8/8/8/8/R3K2R w - - 0 1".
(** The same with Black to move and all rights held. *)
Definition rightsHeld : FEN :=
  Eval vm_compute in position_of "r3k2r/8/8/8/8/8/8/R3K2R b KQkq - 3 7".

(** Two checks at once: the black rook on e8 and the black knight on f3
    both attack the white king on e1. *)
Definition doubleCheck : FEN :=
  Eval vm_compute in position_of "4r2k/8/8/8/8/5n2/8/4K3 w - - 0 1".

(** A move of a king of the side to move: from a square the index lists
    for that king to one of the king targets of that square, without
    promotion. *)
Definition kingMove (f : FEN) (m : Move) : Prop :=
  In (From m) (Positions (Pieces f) (ToMove f) King)
  /\ In (To m) (GetKingMoves (From m))
  /\ Promote m = NoPiece.

(** ** The data-model invariant

    "A fixed 64-slot board" and an index "which must always agree with the
    board contents": every square the index lists for a colour and a kind
    holds, on the board, a piece of that colour and kind. *)

Definition colors : list Color := [White; Black].
Definition kinds : list NormalizedPiece := [Pawn; Knight; Bishop; Rook; Queen; King].

Definition indexEntryOk (f : FEN) (c : Color) (k : NormalizedPiece) (p : Position)
  : bool :=
  match boardAt (Board f) p with
  | Ret piece => Piece_eqb (ToNormalizedPiece piece) k && Color_eqb (Piece_Color piece) c
  | Panic _ => false
  end.

Definition indexSound (f : FEN) : bool :=
  forallb (fun c => forallb (fun k => forallb (indexEntryOk f c k) (Pieces f c k)) kinds)
          colors.

Definition wellFormed (f : FEN) : Prop :=
  List.length (Board f) = 64%nat /\ indexSound f = true.

(** ** The geometry of an attack *)

Definition squares : list Position := map Z.of_nat (seq 0 64).

Definition sliderTargets (from : Position) : list Position :=
  List.concat (GetDiagonals from ++ GetLines from).

(** Where the moves of the attack primitive come from: a pawn and one of
    its diagonal targets, a knight and one of its targets, or a bishop,
    rook or queen and a square on one of the rays of its square. *)
Definition attackShape (f : FEN) (color : Color)
    (pawnTargets : Color -> Position -> list Position) (from to : Position) : Prop :=
  (In from (Pieces f color Pawn) /\ In to (pawnTargets color from))
  \/ (In from (Pieces f color Knight) /\ In to (GetKnightMoves from))
  \/ (exists k, In k [Bishop; Rook; Queen] /\ In from (Pieces f color k)
                /\ In to (sliderTargets from)).



(** A single check by a rook from the far end of the e-file. *)
Definition rookCheck : FEN :=
  Eval vm_compute in position_of "4r2k/8/8/8/8/8/8/4K3 w - - 0 1".

(** A move of the attack primitive hits a square that satisfies the
    predicate and has the shape of an attack. *)
Definition hit (f : FEN) (color : Color)
    (pawnTargets : Color -> Position -> list Position) (cond : cond_t) (m : Move)
  : Prop :=
  cond (To m) = Ret true /\ attackShape f color pawnTargets (From m) (To m).



(** ** An instance of the search environment

    Integer scores, a tree that keeps the inserted lines (the latest
    first), and two constant evaluators. *)
Definition listEnv : SearchEnv :=
  mkSearchEnv Z (fun z => z) Z.add Z.mul (fun z => z * 100)
    (fun _ => false) (fun _ => false)
    (list (list Move * Z))
    (fun t line score => (line, score) :: t)
    (fun t => t)
    (fun t => match t with
              | [] => Panic NilDereference
              | _ :: _ => Ret "e8g8"
              end)
    (fun t => match t with
              | [] => Panic NilDereference
              | r :: _ => Ret r
              end)
    (fun _ => "").

Definition twoEvaluators : DFSEngine listEnv :=
  mkDFSEngine listEnv [(fun _ => 3); (fun _ => 4)] 0.

Definition oneQueued : loopState listEnv :=
  mkLoopState listEnv [] [] 1 0 0 [rightsHeld; rightsLost].

(** A store with one position, the one of [rightsHeld], and the move
    e8g8. *)
Definition smallStore : Store.heap :=
  [ Store.OBoard (Board rightsHeld);
    Store.OPieces (Pieces rightsHeld);
    Store.OLine [];
    Store.OFEN (Store.mkFENobj (Some 0%nat) (Some 1%nat) Black Both Both 0 3 7
                               (Some 2%nat));
    Store.OMove (NewMove E8 G8) ].

(** A position text whose en-passant field names the square g1. *)
Definition enPassantG1 : string := "4k3/8/8/8/8/8/8/4K3 w - g1 0 1".

(** The position text after 1. e4 e5, with the en-passant target e6. *)
Definition afterE4E5 : string :=
  "rnbqkbnr/pppp1ppp/8/4p3/4P3/8/PPPP1PPP/RNBQKBNR w KQkq e6 0 2".

(** A white rook on a1 with the a-file and the first rank open. *)
Definition rookEnding : FEN :=
  Eval vm_compute in position_of "4k3/8/8/8/8/8/8/R3K3 w - - 0 1".

(** Black pawns on a7 and b6, Black to move. *)
Definition blackPawns : FEN :=
  Eval vm_compute in position_of "4k3/p7/1p6/8/8/8/8/4K3 b - - 0 1".

(** The white king on e1 checked by the rook on e8, its own queen on d1. *)
Definition queenBesideKing : FEN :=
  Eval vm_compute in position_of "4r2k/8/8/8/8/8/8/3QK3 w - - 0 1".

Definition movesOf (r : res (list Move)) : list Move :=
  match r with
  | Ret ms => ms
  | Panic _ => []
  end.

Definition hasMove (ms : list Move) (from to : Position) : bool :=
  existsb (Move_eqb (NewMove from to)) ms.

(** ** Vocabulary of the codec *)

(** The value of a decimal numeral, read from the left. *)
Fixpoint uintValue (acc : Z) (d : Decimal.uint) : Z :=
  match d with
  | Decimal.Nil => acc
  | Decimal.D0 l => uintValue (acc * 10 + 0) l
  | Decimal.D1 l => uintValue (acc * 10 + 1) l
  | Decimal.D2 l => uintValue (acc * 10 + 2) l
  | Decimal.D3 l => uintValue (acc * 10 + 3) l
  | Decimal.D4 l => uintValue (acc * 10 + 4) l
  | Decimal.D5 l => uintValue (acc * 10 + 5) l
  | Decimal.D6 l => uintValue (acc * 10 + 6) l
  | Decimal.D7 l => uintValue (acc * 10 + 7) l
  | Decimal.D8 l => uintValue (acc * 10 + 8) l
  | Decimal.D9 l => uintValue (acc * 10 + 9) l
  end.

(** The bytes of a text, as runes. *)
Definition codes (s : string) : list Z := map byte_of (list_ascii_of_string s).

(** The values of a rune the decoder returns. *)
Definition runeOk (r : Z) : Prop := 0 <= r < 2 ^ 32.

(** At the end of the input, or before a rune that satisfies [P]. *)
Definition headIs (P : Z -> bool) (l : list Z) : bool :=
  match l with
  | [] => true
  | r :: _ => P r
  end.

(** The white space of ASCII: tab, newline, vertical tab, form feed,
    carriage return and blank. *)
Definition blankByte (c : ascii) : bool :=
  ((9 <=? byte_of c) && (byte_of c <=? 13)) || (byte_of c =? 32).

(** A text without white space of ASCII. *)
Fixpoint noBlank (s : string) : bool :=
  match s with
  | EmptyString => true
  | String c s' => negb (blankByte c) && noBlank s'
  end.

(** A byte that [%s] reads as a rune of its own and writes back as
    itself: a byte of ASCII that is no white space. *)
Definition plainByte (c : ascii) : bool := (byte_of c <? 128) && negb (blankByte c).

Fixpoint plain (s : string) : bool :=
  match s with
  | EmptyString => true
  | String c s' => plainByte c && plain s'
  end.

(** A byte that [ParseFEN] stores as a piece: no white space of ASCII,
    not the rank separator, not a digit from 1 to 8. *)
Definition pieceChar (c : ascii) : bool :=
  negb (blankByte c || Ascii.eqb c "/"
        || ((byte_of "1" <=? byte_of c) && (byte_of c <=? byte_of "8"))).

Definition cleanSquare (p : Piece) : bool := Piece_eqb p NoPiece || pieceChar p.

(** A square that [FENString] writes and [ParseFEN] reads back as it is:
    empty, or a piece byte of ASCII. *)
Definition plainSquare (p : Piece) : bool :=
  Piece_eqb p NoPiece || (pieceChar p && (byte_of p <? 128)).

(** The squares [FENString] has written when it stands at file [x] of
    rank [y]: the ranks above [y] and the files of [y] before [x]. *)
Definition written (y x i : Z) : Prop :=
  8 * (y + 1) <= i \/ (8 * y <= i < 8 * y + x).

Definition parseFrom (st : placement) (s : string) : res placement :=
  forM (list_ascii_of_string s)
       (parsePlacementStep (fun pp piece p => Ret (AddPosition pp piece p))) st.

(** The parser has read [forStr] and stands where the serializer stands
    at file [x] of rank [y] with [empty] empty squares pending. *)
Definition inStep (b : list Piece) (y x empty : Z) (forStr : string) : Prop :=
  exists st, parseFrom (mkPlacement emptyBoard NewPiecePositions 0 7) forStr = Ret st
    /\ pl_x st = x - empty /\ pl_y st = y
    /\ List.length (pl_board st) = 64%nat
    /\ 0 <= empty <= x
    /\ plain forStr = true
    /\ (forall i, (i < 64)%nat ->
          (written y x (Z.of_nat i) -> nth_error (pl_board st) i = nth_error b i)
          /\ (~ written y x (Z.of_nat i) -> nth_error (pl_board st) i = Some NoPiece)).

(** A board of 64 squares, each empty or a piece byte. *)
Definition cleanBoard (b : list Piece) : Prop :=
  List.length b = 64%nat /\ forallb cleanSquare b = true.

(** A board [FENString] and [ParseFEN] agree on: 64 squares, each empty
    or a piece byte of ASCII. *)
Definition plainBoard (b : list Piece) : Prop :=
  List.length b = 64%nat /\ forallb plainSquare b = true.

(** A field of the position text: not empty, bytes of ASCII, no white
    space. *)
Definition isField (s : string) : bool :=
  negb (String.eqb s EmptyString) && plain s.

(** The en-passant square is absent, or [FENString] writes it as a square
    [ParsePosition] accepts. *)
Definition enPassantReadable (f : FEN) : bool :=
  (EnPassantVulnerable f =? 0)
  || snd (parsePosition (Position_String (EnPassantVulnerable f))).

(** A position the codec can carry: 64 squares, each empty or a piece
    byte of ASCII, a side to move, clocks that are [int]s. *)
Definition codecPosition (f : FEN) : Prop :=
  plainBoard (Board f) /\ ToMove f <> NoColor
  /\ isInt (HalfmoveClock f) /\ isInt (Fullmove f).

(** The castling field [FENString] writes. *)
Definition castleField (w b : CastleStatus) : string :=
  let castleStatus :=
    (CastleStatus_String w White ++ CastleStatus_String b Black)%string in
  let castleStatus := if String.eqb castleStatus "--" then "-" else castleStatus in
  if negb (String.eqb castleStatus "-") && containsChar castleStatus "-"
  then trimChar castleStatus "-" else castleStatus.

(** The en-passant field [FENString] writes. *)
Definition enPassantField (ep : Position) : string :=
  if negb (ep =? 0) then Position_String ep else "-".

(** The fields the codec is to carry over. *)
Definition sameCodecFields (f g : FEN) : Prop :=
  Board g = Board f
  /\ WhiteCastleStatus g = WhiteCastleStatus f
  /\ BlackCastleStatus g = BlackCastleStatus f
  /\ ToMove g = ToMove f
  /\ HalfmoveClock g = HalfmoveClock f
  /\ Fullmove g = Fullmove f.

(** The en-passant square [ParseFEN] reads from the field [FENString]
    writes for the square [ep]. *)
Definition enPassantReadBack (ep : Position) : Position :=
  if ep =? 0 then NoPosition else fst (parsePosition (Position_String ep)).

(** A placement that stays on the board: at most eight ranks, a digit
    never takes a rank beyond its eighth file, and every piece byte is
    written on one of the eight files.  The result is the file and rank
    after the last byte. *)
Fixpoint scanPlacement (x y : Z) (s : list ascii) : option (Z * Z) :=
  match s with
  | [] => Some (x, y)
  | c :: s' =>
      if Ascii.eqb c "/" then
        if 0 <? y then scanPlacement 0 (y - 1) s' else None
      else if (byte_of "1" <=? byte_of c) && (byte_of c <=? byte_of "8") then
        let x' := x + (byte_of c - byte_of "0") in
        if x' <=? 8 then scanPlacement x' y s' else None
      else
        if x <? 8 then scanPlacement (x + 1) y s' else None
  end.

Definition properPlacement (forStr : string) : bool :=
  match scanPlacement 0 7 (list_ascii_of_string forStr) with
  | Some _ => true
  | None => false
  end.

(** The promotion piece of a move is absent or a piece byte of ASCII. *)
Definition promotionOk (m : Move) : bool := plainSquare (Promote m).

(** Valid position text: [Sscanf] reads its six fields, the placement
    is made of letters, digits from 1 to 8 and [/], and the en-passant
    field is [-] or names a target square, a file from a to h on rank 3
    or 6.  The side to move is left to [ParseFEN], which refuses all but
    [w] and [b]; of the castling field [ParseFEN] reads the letters
    [KQkq] and nothing else. *)
Definition letter (c : ascii) : bool := within 65 90 c || within 97 122 c.

Definition placementByte (c : ascii) : bool :=
  letter c || within 49 56 c || Ascii.eqb c "/".

Definition targetField (s : string) : bool :=
  String.eqb s "-"
  || match s with
     | String c0 (String c1 EmptyString) =>
         (within 97 104 c0 || within 65 72 c0)
         && (Ascii.eqb c1 "3" || Ascii.eqb c1 "6")
     | _ => false
     end.

Definition validPositionText (text : string) : bool :=
  match Sscanf_ssssdd text with
  | Some (forStr, _, _, enPassant, _, _) =>
      forallb placementByte (list_ascii_of_string forStr) && targetField enPassant
  | None => false
  end.

(** The positions the program can reach: parsed from valid position
    text, or produced from a reachable position by [ApplyMove]. *)
Inductive reachable : FEN -> Prop :=
| reachable_parsed (text : string) (f : FEN) :
    validPositionText text = true ->
    ChessEngine.ParseFEN text = Ret (inl f) -> reachable f
| reachable_applied (f g : FEN) (m : Move) :
    reachable f -> promotionOk m = true ->
    ChessEngine.ApplyMove f m = Ret g -> reachable g.

(** ** Vocabulary of the further properties *)

(** The bytes of the file letters [a] to [h] and of the rank digits [1]
    to [8]. *)
Definition onFiles (f : File) : bool := (byte_of "a" <=? f) && (f <=? byte_of "h").
Definition onRanks (r : Rank) : bool := (byte_of "1" <=? r) && (r <=? byte_of "8").

(** A file letter in either case, and its lower-case byte. *)
Definition fileLetter (c : ascii) : bool :=
  onFiles (byte_of c) || ((byte_of "A" <=? byte_of c) && (byte_of c <=? byte_of "H")).
Definition rankDigit (c : ascii) : bool := onRanks (byte_of c).
Definition lowerFile (c : ascii) : File :=
  if onFiles (byte_of c) then byte_of c else byte_of c + 32.

(** The bit [PositionFromFileRank] sets for a file and a rank. *)
Definition squareBit (f : File) (r : Rank) : Z :=
  2 ^ (8 * (r - byte_of "1") + (f - byte_of "a")).

(** The statements of [ApplyMove] on the board, which both generations
    share: the moving piece, the piece on the target square, and the new
    board. *)
Definition movedBoard (b : list Piece) (move : Move)
  : res (Piece * Piece * list Piece) :=
  board <- copyBoard b ;;
  movingPiece <- boardAt board (From move) ;;
  board <- boardSet board (From move) NoPiece ;;
  captured <- boardAt board (To move) ;;
  board <- boardSet board (To move) movingPiece ;;
  board <- (if negb (Piece_eqb (Promote move) NoPiece)
            then boardSet board (To move) (Promote move) else Ret board) ;;
  Ret (movingPiece, captured, board).

(** A move outside the 64 squares of the board, or a board that is
    shorter. *)
Definition outside (f : FEN) (m : Move) : Prop :=
  (List.length (Board f) < 64)%nat \/ ~ 0 <= From m < 64 \/ ~ 0 <= To m < 64.

(** The piece [ApplyMove] leaves on the target square. *)
Definition arriving (moving : Piece) (m : Move) : Piece :=
  if Piece_eqb (Promote m) NoPiece then moving else Promote m.

(** The castling rights of [a] are among those of [b]. *)
Definition rightsWithin (a b : CastleStatus) : Prop :=
  (holdsKingside a = true -> holdsKingside b = true)
  /\ (holdsQueenside a = true -> holdsQueenside b = true).

(** Black pawns on a7 and b6 and a white rook on a1, White to move. *)
Definition rookTakesPawn : FEN :=
  Eval vm_compute in position_of "4k3/p7/1p6/8/8/8/8/R3K3 w - - 0 1".

(** The placement field of a position text: the first word [Sscanf]
    reads. *)
Definition placementField (text : string) : string :=
  match verbS (mkSs 0 (readRunes 0 text)) with
  | Some (forStr, _) => forStr
  | None => EmptyString
  end.

(** The bits of the 64 squares. *)
Definition isSquareBit (p : Position) : Prop :=
  exists k, 0 <= k < 64 /\ p = 2 ^ k.

(** The index of a parser state agrees with its board. *)
Definition placementSound (st : placement) : Prop :=
  forall c k p, In p (pl_pieces st c k) ->
    exists piece, boardAt (pl_board st) p = Ret piece
                  /\ ToNormalizedPiece piece = k /\ Piece_Color piece = c.

(** The squares of a ray before the target: empty, and not satisfying the
    predicate of the attack. *)
Definition clearBefore (f : FEN) (cond : cond_t) (before : list Position) : Prop :=
  forall q, In q before -> boardAt (Board f) q = Ret NoPiece /\ cond q = Ret false.

(** A move of a bishop, rook or queen the index lists, along one of the
    rays of its square and over clear squares. *)
Definition sliderPath (f : FEN) (cond : cond_t) (color : Color) (m : Move) : Prop :=
  exists k line before after,
    In k [Bishop; Rook; Queen] /\ In (From m) (Pieces f color k)
    /\ In line (MoveVectors k (From m)) /\ line = before ++ To m :: after
    /\ clearBefore f cond before /\ Promote m = NoPiece.

(** The moves of the attack primitive: the target satisfies the predicate,
    and the move is one of a listed pawn to one of its targets, of a
    listed knight to one of its targets, or of a slider along a clear
    ray. *)
Definition attackMove (f : FEN) (cond : cond_t) (color : Color)
    (pawnTargets : Color -> Position -> list Position) (m : Move) : Prop :=
  cond (To m) = Ret true
  /\ ((In (From m) (Pieces f color Pawn) /\ In (To m) (pawnTargets color (From m)))
      \/ (In (From m) (Pieces f color Knight) /\ In (To m) (GetKnightMoves (From m))
          /\ Promote m = NoPiece)
      \/ sliderPath f cond color m).

(** The predicate of [GetAttacks]: the square holds a piece of the other
    colour. *)
Definition holdsEnemy (f : FEN) (color : Color) (p : Position) : Prop :=
  exists piece, boardAt (Board f) p = Ret piece
                /\ piece <> NoPiece /\ Piece_Color piece = Opposite color.

(** The predicate [GetAttacks] passes to the attack primitive. *)
Definition enemyCond (f : FEN) (color : Color) : cond_t :=
  fun p =>
    b <- boardAt (Board f) p ;;
    Ret (negb (Piece_eqb b NoPiece) && Color_eqb (Piece_Color b) (Opposite color)).

(** The predicate [AttacksSquare] passes to the attack primitive. *)
Definition squareCond (square : Position) : cond_t := fun p => Ret (p =? square).

(** A loop body that only appends to its accumulator. *)
Definition grows {A B} (body : list B -> A -> res (list B)) : Prop :=
  forall s x s', body s x = Ret s' -> exists t, s' = s ++ t.

(** The predicate of the moves that block a check or capture the checker:
    the target is one of the squares of the walk. *)
Definition blockCond (blocks : list Position) : cond_t :=
  fun p => Ret (existsb (Z.eqb p) blocks).

(** The square is empty or holds a piece of the other colour. *)
Definition freeFor (f : FEN) (p : Position) : Prop :=
  exists b, boardAt (Board f) p = Ret b
            /\ (b = NoPiece \/ Piece_Color b = Opposite (ToMove f)).

(** A king move out of check as the second generation grants it: to a
    square that is free for the side to move and that [AttacksSquare]
    does not report for the other side. *)
Definition kingEscape (f : FEN) (m : Move) : Prop :=
  kingMove f m /\ freeFor f (To m)
  /\ ChessEngine.AttacksSquare f (Opposite (ToMove f)) (To m) = Ret false.

(** The same in the first generation, which does not look at the target
    square. *)
Definition kingEscapeMain (f : FEN) (m : Move) : Prop :=
  kingMove f m
  /\ Main.AttacksSquare f (Opposite (ToMove f)) (To m) = Ret false.

(** The origin is a square the index lists for the side to move. *)
Definition ownPiece (f : FEN) (m : Move) : Prop :=
  exists k, In k kinds /\ In (From m) (Pieces f (ToMove f) k).

(** A single check by a knight: the black knight on f3 and the white king
    on e1. *)
Definition knightCheck : FEN :=
  Eval vm_compute in position_of "7k/8/8/8/8/5n2/8/4K3 w - - 0 1".

(** The walk of [validMovesInCheck] returns the squares [l]. *)
Fixpoint sameSquares (a b : list Position) : bool :=
  match a, b with
  | [], [] => true
  | x :: a', y :: b' => (x =? y) && sameSquares a' b'
  | _, _ => false
  end.

Definition walkIs (from to : Position) (l : list Position) : bool :=
  match ChessEngine.blockSquares [] (NewMove from to) with
  | Ret blocks => sameSquares blocks l
  | Panic _ => false
  end.

(** From a target on a ray back to the origin of the ray, the walk
    returns the squares of the ray before the target, nearest to the
    target first, and then the origin. *)
Definition rayWalksOk (from : Position) (line : list Position) : bool :=
  forallb (fun i => walkIs from (nth i line 0) (rev (firstn i line) ++ [from]))
          (seq 0 (List.length line)).

(** From the target of a pawn back to the pawn the walk returns the
    square of the pawn. *)
Definition pawnWalkIs (from : Position) (c : Color) : bool :=
  forallb (fun to => walkIs from to [from]) (PawnAttacks c from).

(** No line of the output is a best-move line. *)
Definition noBestmove (out : list string) : bool :=
  forallb (fun s => negb (isBestmove s)) out.

(** The positions a round takes off the queue: one in the default branch
    with a non-empty queue, none otherwise. *)
Definition dequeued {E : SearchEnv} (ev : event) (st : loopState E) : Z :=
  match ev, queue st with
  | NoneReady, _ :: _ => 1
  | _, _ => 0
  end.


(** * Properties *)

(** C1. From the standard opening position, the position parsed from
    [startpos], [ValidMoves] returns a list of exactly 20 moves, in the
    second generation of the generator and in the first. *)
Theorem ValidMoves_startpos_20 :
  (exists f ms, ChessEngine.ParseFEN startpos = Ret (inl f)
                /\ ChessEngine.ValidMoves f = Ret ms
                /\ List.length ms = 20%nat)
  /\ (exists f ms, Main.ParseFEN startpos = Ret (inl f)
                   /\ Main.ValidMoves f = Ret ms
                   /\ List.length ms = 20%nat).
Proof.
  split; do 2 eexists; (split; [vm_compute; reflexivity |]);
    (split; [vm_compute; reflexivity | reflexivity]).
Qed.

(** ** Generalities on the result monad and on boards *)

Lemma bind_Ret {A B} (m : res A) (k : A -> res B) (b : B) :
  bind m k = Ret b -> exists a, m = Ret a /\ k a = Ret b.
Proof. destruct m as [a|p]; simpl; intros H; [eauto | discriminate]. Qed.

Ltac bind_inv H :=
  let a := fresh "a" in
  let E := fresh "E" in
  apply bind_Ret in H; destruct H as (a & E & H).

Tactic Notation "bind_split" hyp(H) "as" ident(a) ident(E) :=
  apply bind_Ret in H; destruct H as (a & E & H).

Lemma int64_id (z : Z) : isInt z -> int64 z = z.
Proof.
  unfold isInt, int64, min_int, max_int. intros H.
  rewrite Z.mod_small by lia. lia.
Qed.

Lemma length_setNth {A} (l : list A) (n : nat) (x : A) :
  List.length (setNth l n x) = List.length l.
Proof.
  revert n; induction l as [|h t IH]; intros [|n]; simpl; auto.
Qed.

Lemma boardAt_defined (b : list Piece) (p : Z) :
  0 <= p < Z.of_nat (List.length b) -> exists x, boardAt b p = Ret x.
Proof.
  intros H. unfold boardAt.
  destruct (p <? 0) eqn:E; [apply Z.ltb_lt in E; lia|].
  destruct (nth_error b (Z.to_nat p)) eqn:N; [eauto|].
  apply nth_error_None in N. lia.
Qed.

Lemma boardSet_defined (b : list Piece) (p : Z) (x : Piece) :
  0 <= p < Z.of_nat (List.length b) ->
  exists b', boardSet b p x = Ret b' /\ List.length b' = List.length b.
Proof.
  intros H. unfold boardSet.
  destruct (p <? 0) eqn:E; [apply Z.ltb_lt in E; lia|].
  destruct (Z.to_nat p <? List.length b)%nat eqn:L.
  - eexists; split; [reflexivity | apply length_setNth].
  - apply Nat.ltb_ge in L. lia.
Qed.

Lemma boardSet_length (b b' : list Piece) (p : Z) (x : Piece) :
  boardSet b p x = Ret b' -> List.length b' = List.length b.
Proof.
  unfold boardSet. destruct (p <? 0); [discriminate|].
  destruct (Z.to_nat p <? List.length b)%nat; [|discriminate].
  intros H; injection H as <-. apply length_setNth.
Qed.

Lemma copyBoard_64 (b : list Piece) :
  List.length b = 64%nat -> copyBoard b = Ret b.
Proof.
  intros H. unfold copyBoard.
  replace (List.length b <? 64)%nat with false by (rewrite H; reflexivity).
  f_equal. rewrite <- H. apply firstn_all.
Qed.

(** ** ApplyMove: castling rights, clocks, line and side to move *)

Ltac piece_cases piece :=
  unfold Piece_eqb, BlackRook, BlackKing, WhiteRook, WhiteKing in *;
  destruct (Ascii.eqb_spec piece "r");
  [subst piece|
   destruct (Ascii.eqb_spec piece "k");
   [subst piece|
    destruct (Ascii.eqb_spec piece "R");
    [subst piece|
     destruct (Ascii.eqb_spec piece "K"); [subst piece|]]]].

Lemma castleUpdate_panic (piece : Piece) (m : Move) (w b : CastleStatus) (p : panic) :
  ChessEngine.castleUpdate piece m w b = Panic p ->
  p = InvalidCastle
  /\ (Piece_eqb piece WhiteKing && castleWithoutRight E1 G1 C1 w m)
     || (Piece_eqb piece BlackKing && castleWithoutRight E8 G8 C8 b m) = true.
Proof.
  unfold ChessEngine.castleUpdate, ChessEngine.kingLeaves, castleWithoutRight,
    holdsKingside, holdsQueenside.
  piece_cases piece; simpl; try discriminate.
  - destruct (From m =? E8), (To m =? G8), (To m =? C8), b; simpl;
      intros H; inversion H; auto.
  - destruct (From m =? E1), (To m =? G1), (To m =? C1), w; simpl;
      intros H; inversion H; auto.
Qed.

Lemma castleUpdate_illegal (piece : Piece) (m : Move) (w b : CastleStatus) :
  (Piece_eqb piece WhiteKing && castleWithoutRight E1 G1 C1 w m)
  || (Piece_eqb piece BlackKing && castleWithoutRight E8 G8 C8 b m) = true ->
  ChessEngine.castleUpdate piece m w b = Panic InvalidCastle.
Proof.
  unfold ChessEngine.castleUpdate, ChessEngine.kingLeaves, castleWithoutRight,
    holdsKingside, holdsQueenside.
  piece_cases piece; simpl; try discriminate.
  - destruct (From m =? E8), (Z.eqb_spec (To m) G8), (Z.eqb_spec (To m) C8), b;
      simpl; intros H; try discriminate; try reflexivity;
      unfold G8, C8 in *; lia.
  - destruct (From m =? E1), (Z.eqb_spec (To m) G1), (Z.eqb_spec (To m) C1), w;
      simpl; intros H; try discriminate; try reflexivity;
      unfold G1, C1 in *; lia.
Qed.

(** What [ApplyMove] does up to the castling switch, on a move in range. *)
Lemma ApplyMove_prefix (f : FEN) (m : Move) :
  inRange f m ->
  exists movingPiece captured board,
    boardAt (Board f) (From m) = Ret movingPiece
    /\ ChessEngine.ApplyMove f m =
       (castle <- ChessEngine.castleUpdate movingPiece m
                    (WhiteCastleStatus f) (BlackCastleStatus f) ;;
        let '(wCastle, bCastle) := castle in
        Ret (mkFEN board
               (PiecePositions_ApplyMove (Pieces f) (ToMove f) m
                  (ToNormalizedPiece movingPiece) (ToNormalizedPiece captured))
               (Opposite (ToMove f)) wCastle bCastle NoPosition
               (int64 (HalfmoveClock f + 1))
               (if Color_eqb (ToMove f) Black then int64 (Fullmove f + 1)
                else Fullmove f)
               (Line f ++ [m]))).
Proof.
  intros (L & HF & HT).
  unfold ChessEngine.ApplyMove. rewrite (copyBoard_64 _ L). simpl bind.
  destruct (boardAt_defined (Board f) (From m)) as (mp & Emp); [lia|].
  rewrite Emp. simpl bind.
  destruct (boardSet_defined (Board f) (From m) NoPiece) as (b1 & E1 & L1); [lia|].
  rewrite E1. simpl bind.
  destruct (boardAt_defined b1 (To m)) as (cp & Ecp); [lia|].
  rewrite Ecp. simpl bind.
  destruct (boardSet_defined b1 (To m) mp) as (b2 & E2 & L2); [lia|].
  rewrite E2. simpl bind.
  destruct (negb (Piece_eqb (Promote m) NoPiece)).
  - destruct (boardSet_defined b2 (To m) (Promote m)) as (b3 & E3 & L3); [lia|].
    rewrite E3. simpl bind. exists mp, cp, b3. split; reflexivity.
  - simpl bind. exists mp, cp, b2. split; reflexivity.
Qed.

(** C9. On a move within the board, [ApplyMove] panics with "invalid
    castle" exactly when the move takes a king from e1 to g1 or c1 (from
    e8 to g8 or c8 for the black king) and the side's castling status
    does not include the corresponding side; in every other case, in
    particular when the right is held, it returns. *)
Theorem ApplyMove_invalid_castle (f : FEN) (m : Move) :
  inRange f m ->
  (forall p, ChessEngine.ApplyMove f m = Panic p ->
             p = InvalidCastle /\ illegalCastle f m = true)
  /\ (illegalCastle f m = true -> ChessEngine.ApplyMove f m = Panic InvalidCastle)
  /\ (illegalCastle f m = false -> exists g, ChessEngine.ApplyMove f m = Ret g).
Proof.
  intros R. destruct (ApplyMove_prefix f m R) as (mp & cp & board & Emp & EA).
  unfold illegalCastle. rewrite Emp, EA. clear EA.
  split; [|split].
  - intros p H.
    destruct (ChessEngine.castleUpdate mp m (WhiteCastleStatus f) (BlackCastleStatus f))
      as [[w b]|q] eqn:E; simpl in H; [discriminate|].
    injection H as ->. apply castleUpdate_panic in E. exact E.
  - intros H. rewrite (castleUpdate_illegal _ _ _ _ H). reflexivity.
  - intros H.
    destruct (ChessEngine.castleUpdate mp m (WhiteCastleStatus f) (BlackCastleStatus f))
      as [[w b]|q] eqn:E; simpl.
    + eauto.
    + apply castleUpdate_panic in E. destruct E as [_ E]. congruence.
Qed.

Lemma ApplyMove_invalid_castle_witness :
  inRange rightsLost (NewMove E1 G1)
  /\ ChessEngine.ApplyMove rightsLost (NewMove E1 G1) = Panic InvalidCastle.
Proof.
  assert (R : inRange rightsLost (NewMove E1 G1))
    by (unfold inRange; repeat split; vm_compute; congruence).
  split; [exact R|].
  apply (ApplyMove_invalid_castle rightsLost (NewMove E1 G1) R).
  vm_compute; reflexivity.
Defined.

(** C5. [ApplyMove] returns on every move within the board that is not a
    castle without the right, and the position it returns has the
    halfmove clock of the receiver plus one, the fullmove number plus one
    exactly when Black was to move (unchanged otherwise), the receiver's
    line with the move appended, and the opposite side to move.  The
    clocks are Go [int]s: "plus one" is the machine addition, which is the
    integer successor below the largest [int]. *)
Theorem ApplyMove_clocks_line_side (f : FEN) (m : Move) :
  (inRange f m -> illegalCastle f m = false ->
   exists g, ChessEngine.ApplyMove f m = Ret g)
  /\ (forall g, ChessEngine.ApplyMove f m = Ret g ->
        HalfmoveClock g = int64 (HalfmoveClock f + 1)
        /\ Fullmove g = (if Color_eqb (ToMove f) Black
                         then int64 (Fullmove f + 1) else Fullmove f)
        /\ Line g = Line f ++ [m]
        /\ ToMove g = Opposite (ToMove f)
        /\ (isInt (HalfmoveClock f + 1) -> HalfmoveClock g = HalfmoveClock f + 1)
        /\ (isInt (Fullmove f + 1) ->
            (Fullmove g = Fullmove f + 1 <-> ToMove f = Black)
            /\ (ToMove f <> Black -> Fullmove g = Fullmove f))).
Proof.
  split.
  - intros R H. apply (ApplyMove_invalid_castle f m R). exact H.
  - intros g H. unfold ChessEngine.ApplyMove in H.
    repeat bind_inv H.
    destruct a5 as [w b]. injection H as <-. simpl.
    repeat split; auto.
    + intros I. apply int64_id, I.
    + destruct (ToMove f); simpl; intros Hx; try reflexivity; exfalso; lia.
    + intros ->. simpl. apply int64_id. assumption.
    + intros N. destruct (ToMove f); simpl; congruence.
Qed.

Lemma ApplyMove_clocks_line_side_witness :
  exists g, ChessEngine.ApplyMove rightsHeld (NewMove E8 G8) = Ret g
            /\ HalfmoveClock g = 4 /\ Fullmove g = 8
            /\ Line g = [NewMove E8 G8] /\ ToMove g = White.
Proof.
  assert (R : inRange rightsHeld (NewMove E8 G8))
    by (unfold inRange; repeat split; vm_compute; congruence).
  assert (C : illegalCastle rightsHeld (NewMove E8 G8) = false)
    by (vm_compute; reflexivity).
  destruct (proj1 (ApplyMove_clocks_line_side rightsHeld (NewMove E8 G8)) R C)
    as (g & E).
  exists g. split; [exact E|].
  destruct (proj2 (ApplyMove_clocks_line_side rightsHeld (NewMove E8 G8)) g E)
    as (H1 & H2 & H3 & H4 & _).
  rewrite H1, H2, H3, H4. repeat split; vm_compute; reflexivity.
Defined.

(** ** Loops *)

Lemma forM_invariant {A S} (P : S -> Prop) (xs : list A) (body : S -> A -> res S) :
  (forall s x s', In x xs -> P s -> body s x = Ret s' -> P s') ->
  forall s s', P s -> forM xs body s = Ret s' -> P s'.
Proof.
  induction xs as [|x xs IH]; simpl; intros Hbody s s' Hs H.
  - injection H as <-. exact Hs.
  - bind_inv H. apply (IH (fun s x s' Hx => Hbody s x s' (or_intror Hx)) a s'); auto.
    apply (Hbody s x a); auto.
Qed.

Lemma Forall_snoc {A} (P : A -> Prop) (l : list A) (x : A) :
  Forall P l -> P x -> Forall P (l ++ [x]).
Proof. intros Hl Hx. apply Forall_app. split; [exact Hl | constructor; auto]. Qed.

(** ** Double check *)

Lemma kingEscapes_kingMoves (f : FEN) (k : Position) (result result' : list Move) :
  In k (Positions (Pieces f) (ToMove f) King) ->
  Forall (kingMove f) result ->
  ChessEngine.kingEscapes f result k = Ret result' ->
  Forall (kingMove f) result'.
Proof.
  intros Hk. unfold ChessEngine.kingEscapes.
  apply forM_invariant. intros s p s' Hp Hs H.
  bind_inv H.
  destruct (Piece_eqb a NoPiece || Color_eqb (Piece_Color a) (Opposite (ToMove f))).
  - bind_inv H. destruct (negb a0); injection H as <-; auto.
    apply Forall_snoc; auto. repeat split; auto.
  - injection H as <-; auto.
Qed.

Lemma Main_kingEscapes_kingMoves (f : FEN) (k : Position) (result result' : list Move) :
  In k (Positions (Pieces f) (ToMove f) King) ->
  Forall (kingMove f) result ->
  Main.kingEscapes f result k = Ret result' ->
  Forall (kingMove f) result'.
Proof.
  intros Hk. unfold Main.kingEscapes.
  apply forM_invariant. intros s p s' Hp Hs H.
  bind_inv H. destruct (negb a); injection H as <-; auto.
  apply Forall_snoc; auto. repeat split; auto.
Qed.

Lemma validMovesInCheck_double (f : FEN) (checks ms : list Move) :
  (2 <= List.length checks)%nat ->
  ChessEngine.validMovesInCheck f checks = Ret ms ->
  Forall (kingMove f) ms.
Proof.
  intros L H. unfold ChessEngine.validMovesInCheck in H. bind_inv H.
  assert (K : Forall (kingMove f) a).
  { revert E. apply forM_invariant; [|constructor].
    intros s k s' Hk Hs. apply kingEscapes_kingMoves; auto. }
  destruct checks as [|c1 [|c2 rest]]; simpl in L; try lia.
  injection H as <-. exact K.
Qed.

Lemma Main_validMovesInCheck_double (f : FEN) (checks ms : list Move) :
  (2 <= List.length checks)%nat ->
  Main.validMovesInCheck f checks = Ret ms ->
  Forall (kingMove f) ms.
Proof.
  intros L H. unfold Main.validMovesInCheck in H. bind_inv H.
  assert (K : Forall (kingMove f) a).
  { revert E. apply forM_invariant; [|constructor].
    intros s k s' Hk Hs. apply Main_kingEscapes_kingMoves; auto. }
  destruct checks as [|c1 [|c2 rest]]; simpl in L; try lia.
  injection H as <-. exact K.
Qed.

(** C2. In a position where two or more checks on the king of the side to
    move are detected, every move [ValidMoves] returns is a king move: its
    origin is a king square of the side to move (the king's square, when
    the index lists one king), and it goes to a king target without
    promotion.  This holds in both generations. *)
Theorem double_check_only_king_moves (f : FEN) :
  (forall incoming checks ms,
      ChessEngine.GetIncomingAttacks f = Ret incoming ->
      ChessEngine.collectChecks f incoming = Ret checks ->
      (2 <= List.length checks)%nat ->
      ChessEngine.ValidMoves f = Ret ms ->
      forall m, In m ms ->
        kingMove f m
        /\ (forall k, Positions (Pieces f) (ToMove f) King = [k] -> From m = k))
  /\ (forall incoming checks ms,
        Main.GetIncomingAttacks f = Ret incoming ->
        Main.collectChecks f incoming = Ret checks ->
        (2 <= List.length checks)%nat ->
        Main.ValidMoves f = Ret ms ->
        forall m, In m ms ->
          kingMove f m
          /\ (forall k, Positions (Pieces f) (ToMove f) King = [k] -> From m = k)).
Proof.
  assert (single : forall m, kingMove f m ->
            forall k, Positions (Pieces f) (ToMove f) King = [k] -> From m = k).
  { intros m (H & _) k E. rewrite E in H. destruct H as [H|[]]. auto. }
  split; intros incoming checks ms Hi Hc L H m Hm.
  - unfold ChessEngine.ValidMoves in H. rewrite Hi in H. simpl bind in H.
    rewrite Hc in H. simpl bind in H.
    replace (0 <? List.length checks)%nat with true in H
      by (symmetry; apply Nat.ltb_lt; lia).
    apply (validMovesInCheck_double f checks ms L) in H.
    rewrite Forall_forall in H. split; [|apply single]; apply H, Hm.
  - unfold Main.ValidMoves in H. rewrite Hi in H. simpl bind in H.
    rewrite Hc in H. simpl bind in H.
    replace (0 <? List.length checks)%nat with true in H
      by (symmetry; apply Nat.ltb_lt; lia).
    apply (Main_validMovesInCheck_double f checks ms L) in H.
    rewrite Forall_forall in H. split; [|apply single]; apply H, Hm.
Qed.

Lemma double_check_only_king_moves_witness :
  exists ms, ChessEngine.ValidMoves doubleCheck = Ret ms
             /\ ms <> []
             /\ Forall (fun m => From m = E1) ms.
Proof.
  eexists. split; [vm_compute; reflexivity|]. split; [discriminate|].
  apply Forall_forall. intros m Hm.
  eapply (proj1 (double_check_only_king_moves doubleCheck));
    [ vm_compute; reflexivity
    | vm_compute; reflexivity
    | vm_compute; lia
    | vm_compute; reflexivity
    | exact Hm
    | vm_compute; reflexivity ].
Defined.

(** ** The walk from the king back to the checker *)



Lemma in_squares (p : Position) : 0 <= p < 64 -> In p squares.
Proof.
  intros H. unfold squares. rewrite <- (Z2Nat.id p) by lia.
  apply in_map. apply in_seq. lia.
Qed.

Lemma boardAt_bound (b : list Piece) (p : Z) (x : Piece) :
  boardAt b p = Ret x -> 0 <= p < Z.of_nat (List.length b).
Proof.
  unfold boardAt. destruct (Z.ltb_spec p 0); [discriminate|].
  destruct (nth_error b (Z.to_nat p)) eqn:N; [|discriminate].
  intros _. assert (Z.to_nat p < List.length b)%nat
    by (apply nth_error_Some; congruence).
  lia.
Qed.


Lemma Opposite_colors (c : Color) : In (Opposite c) colors.
Proof. destruct c; simpl; auto. Qed.

Lemma ToPromotions_squares (m m' : Move) :
  In m' (ToPromotions m) -> From m' = From m /\ To m' = To m.
Proof.
  unfold ToPromotions.
  destruct (GetRank (To m) =? byte_of "8");
    [|destruct (GetRank (To m) =? byte_of "1")]; simpl;
    intuition (subst; auto).
Qed.


Lemma MoveVectors_lines (k : NormalizedPiece) (from : Position) (line : list Position) :
  In k [Bishop; Rook; Queen] -> In line (MoveVectors k from) ->
  In line (GetDiagonals from ++ GetLines from).
Proof.
  intros [<-|[<-|[<-|[]]]]; intros H.
  - change (MoveVectors Bishop from) with (GetDiagonals from) in H.
    apply in_or_app; auto.
  - change (MoveVectors Rook from) with (GetLines from) in H.
    apply in_or_app; auto.
  - exact H.
Qed.

Section AttackShape.

Variable f : FEN.
Variable cond : cond_t.
Variable color : Color.

Let P := Forall (hit f color PawnAttacks cond).






End AttackShape.

Section MainAttackShape.

Variable f : FEN.
Variable cond : cond_t.
Variable color : Color.

Let P := Forall (hit f color Main.pawnTargets cond).






End MainAttackShape.

Lemma collectChecks_incl (f : FEN) (incoming checks : list Move) :
  ChessEngine.collectChecks f incoming = Ret checks -> incl checks incoming.
Proof.
  unfold ChessEngine.collectChecks. intros H.
  assert (G : forall acc, incl acc incoming ->
                forall l, incl l incoming ->
                forall r, forM l (fun checks attack =>
                     k <- GetKingPos (Pieces f) (ToMove f) ;;
                     if To attack =? k then Ret (checks ++ [attack]) else Ret checks)
                   acc = Ret r -> incl r incoming).
  { intros acc Hacc l. revert acc Hacc.
    induction l as [|x l IH]; simpl; intros acc Hacc Hl r Hr.
    - injection Hr as <-. exact Hacc.
    - bind_split Hr as acc' E. bind_split E as k Ek.
      apply (IH acc'); auto.
      + destruct (To x =? k); injection E as <-; auto.
        apply incl_app; auto. intros y [<-|[]]. apply Hl. left; reflexivity.
      + intros y Hy. apply Hl. right; exact Hy. }
  apply (G [] (incl_nil_l _) incoming (incl_refl _) checks H).
Qed.















Lemma walkBlocks_board (fuel : nat) (from : Position) (step : Z) (pos : Position)
    (i : Z) (acc blocks : list Position) :
  ChessEngine.walkBlocks [] fuel from step pos i acc = Ret blocks ->
  forall board, ChessEngine.walkBlocks board fuel from step pos i acc = Ret blocks.
Proof.
  revert pos i acc. induction fuel as [|fuel IH]; simpl; intros pos i acc H board.
  - destruct (pos =? from); [exact H | discriminate].
  - destruct (pos =? from); [exact H|].
    destruct (i + 1 >? 7).
    + unfold boardAt in H. destruct (u64 (int64 pos + step) <? 0);
        [discriminate|].
      destruct (Z.to_nat (u64 (int64 pos + step))); discriminate.
    + apply IH, H.
Qed.

Lemma blockSquares_board (check : Move) (blocks : list Position) :
  ChessEngine.blockSquares [] check = Ret blocks ->
  forall board, ChessEngine.blockSquares board check = Ret blocks.
Proof.
  unfold ChessEngine.blockSquares.
  match goal with |- context [if ?c then Panic DivideByZero else _] =>
    destruct c end; [discriminate|].
  apply walkBlocks_board.
Qed.







(** ** The search loop *)

Section SearchProperties.

Variable E : SearchEnv.
Variable b : DFSEngine E.

Lemma heuristicScorePosition_sum (game : FEN) :
  heuristicScorePosition E b game =
  let total := sumOutputs E (map (fun eval => eval game) (Evaluators b)) in
  if Color_eqb (ToMove game) Black then negated E total else total.
Proof.
  unfold heuristicScorePosition, sumOutputs, negated.
  assert (F : forall (l : list (Evaluator E)) acc,
             fold_left (fun score eval => fadd E score (eval game)) l acc
             = fold_left (fadd E) (map (fun eval => eval game) l) acc).
  { induction l as [|e l IH]; simpl; intros acc; [reflexivity | apply IH]. }
  rewrite F. reflexivity.
Qed.

(** C7. A round of the loop that takes a position off the queue inserts
    its line into the evaluation tree with the specified score: 0 if the
    position is a draw, 58008 if it is checkmate, and otherwise the sum of
    the outputs of the registered evaluators, negated exactly when Black
    is to move in the position. *)
Theorem loop_scores_dequeued_position (maxNodes : Z) (st : loopState E)
    (game : FEN) (rest : list FEN) (st' : loopState E) (out : list string)
    (c : control) :
  queue st = game :: rest ->
  iteration E b maxNodes NoneReady st = Ret (st', out, c) ->
  exists score,
    specifiedScore E b game = Ret score
    /\ tree st' =
       Insert E (if len (Line game) <? depth st
                 then UpdateBestLine E (tree st) else tree st)
              (Line game) score.
Proof.
  intros Q H. unfold iteration in H. rewrite Q in H.
  bind_split H as fenStr Ef. bind_split H as score Es.
  bind_split H as queue' Eq.
  exists score. split.
  - unfold specifiedScore. destruct (IsDraw E game); [exact Es|].
    bind_split Es as mate Em. rewrite Em. simpl bind.
    destruct mate; [exact Es|].
    rewrite <- heuristicScorePosition_sum. exact Es.
  - destruct ((maxNodes >? 0)
              && (int64 (totalNodes st + int64 (nodes st + 1)) >=? maxNodes)).
    + bind_split H as best Eb. injection H as <- _ _. reflexivity.
    + injection H as <- _ _. reflexivity.
Qed.

(** C8. With a positive node cap, a round that takes a position off the
    queue and finds the cumulative node count at or above the cap sends a
    telemetry line and one best-move line and stops the loop, whatever
    else is queued and whatever events would follow. *)
Theorem node_cap_stops_the_loop (maxNodes : Z) (st : loopState E)
    (game : FEN) (rest : list FEN) (r : loopState E * list string * control)
    (evs : list event) :
  queue st = game :: rest ->
  0 < maxNodes ->
  maxNodes <= int64 (totalNodes st + int64 (nodes st + 1)) ->
  iteration E b maxNodes NoneReady st = Ret r ->
  exists st' telemetry best,
    r = (st', [telemetry; best], Stop)
    /\ telemetry = infoNodes (nodes st') (totalNodes st') (depth st')
    /\ isTelemetry telemetry = true /\ isBestmove telemetry = false
    /\ Ret best = bestmove E (tree st') /\ isBestmove best = true
    /\ run E b maxNodes (NoneReady :: evs) st = Ret ([telemetry; best], true).
Proof.
  intros Q Hpos Hcap H. cbn [run]. rewrite H. cbn [bind].
  unfold iteration in H. rewrite Q in H.
  bind_split H as fenStr Ef. bind_split H as score Es.
  bind_split H as queue' Eq.
  replace ((maxNodes >? 0)
           && (int64 (totalNodes st + int64 (nodes st + 1)) >=? maxNodes))
    with true in H.
  2:{ symmetry. apply andb_true_intro. split.
      - apply Z.gtb_lt. exact Hpos.
      - apply Z.geb_le. exact Hcap. }
  bind_split H as best Eb. injection H as <-.
  do 3 eexists. split; [reflexivity|]. simpl.
  split; [reflexivity|]. split; [reflexivity|]. split; [reflexivity|].
  split; [symmetry; exact Eb|]. split; [|reflexivity].
  unfold bestmove in Eb. bind_split Eb as m Em. injection Eb as <-. reflexivity.
Qed.

End SearchProperties.

Lemma loop_scores_dequeued_position_witness :
  exists st' out c,
    iteration listEnv twoEvaluators 0 NoneReady oneQueued = Ret (st', out, c)
    /\ tree st' = [([], -7)].
Proof.
  destruct (iteration listEnv twoEvaluators 0 NoneReady oneQueued)
    as [[[st' out] c]|] eqn:H; [|vm_compute in H; discriminate H].
  exists st', out, c. split; [reflexivity|].
  destruct (loop_scores_dequeued_position listEnv twoEvaluators 0 oneQueued
              rightsHeld [rightsLost] st' out c eq_refl H) as (score & Hs & Ht).
  rewrite Ht. vm_compute in Hs. injection Hs as <-. reflexivity.
Defined.

Lemma node_cap_stops_the_loop_witness :
  run listEnv twoEvaluators 1 [NoneReady; NoneReady; CtxDone] oneQueued
  = Ret (["info ns 1 nodes 0 depth 0"; "bestmove e8g8"], true).
Proof.
  destruct (iteration listEnv twoEvaluators 1 NoneReady oneQueued)
    as [r|] eqn:H; [|vm_compute in H; discriminate H].
  assert (P : 0 < 1) by lia.
  assert (C : 1 <= int64 (totalNodes oneQueued + int64 (nodes oneQueued + 1)))
    by (vm_compute; discriminate).
  destruct (node_cap_stops_the_loop listEnv twoEvaluators 1 oneQueued
              rightsHeld [rightsLost] r [NoneReady; CtxDone] eq_refl P C H)
    as (st' & telemetry & best & Hr & Ht & _ & _ & Hb & _ & Hrun).
  rewrite Hrun. subst r. vm_compute in H. injection H as <- <- <-.
  reflexivity.
Defined.

(** ** ApplyMove writes to new objects only *)

Module StoreFacts.
Import Store.

Lemma hoare_weaken {A} (n : nat) (c : M A) (Q Q' : A -> heap -> Prop) :
  hoare n c Q -> (forall a h, Q a h -> Q' a h) -> hoare n c Q'.
Proof.
  intros H W h a h' L E. destruct (H h a h' L E) as (H1 & H2 & H3). auto.
Qed.

Lemma hoare_bind {A B} (n : nat) (m : M A) (k : A -> M B)
    (P : A -> Prop) (Q : B -> heap -> Prop) :
  hoare n m (fun a _ => P a) ->
  (forall a, P a -> hoare n (k a) Q) ->
  hoare n (bindM m k) Q.
Proof.
  intros Hm Hk h b h'' L E. unfold bindM in E.
  destruct (m h) as [[a h']|] eqn:Em; [|discriminate].
  destruct (Hm h a h' L Em) as (L1 & F1 & Pa).
  destruct (Hk a Pa h' b h'' ltac:(lia) E) as (L2 & F2 & Qb).
  split; [lia|]. split; [|exact Qb].
  intros i Hi. rewrite (F2 i Hi). apply F1, Hi.
Qed.

Lemma hoare_readonly {A} (n : nat) (c : M A) :
  (forall h a h', c h = Ret (a, h') -> h' = h) ->
  hoare n c (fun _ _ => True).
Proof.
  intros R h a h' L E. apply R in E. subst h'.
  split; [lia|]. split; [intros i _; reflexivity | exact I].
Qed.

Lemma hoare_ret {A} (n : nat) (a : A) (Q : A -> heap -> Prop) :
  (forall h, Q a h) -> hoare n (retM a) Q.
Proof.
  intros HQ h x h' L E. injection E as <- <-.
  split; [lia|]. split; [intros i _; reflexivity | apply HQ].
Qed.

Lemma hoare_alloc (n : nat) (o : object) :
  hoare n (alloc o) (fun a _ => (n <= a)%nat).
Proof.
  intros h a h' L E. injection E as <- <-.
  rewrite length_app. simpl. split; [lia|]. split; [|exact L].
  intros i Hi. apply nth_error_app1. lia.
Qed.

Lemma nth_error_setNth {A} (l : list A) (i j : nat) (x : A) :
  nth_error (setNth l i x) j
  = if (i =? j)%nat then (if (i <? List.length l)%nat then Some x else None)
    else nth_error l j.
Proof.
  revert i j. induction l as [|y l IH]; intros [|i] [|j]; simpl; auto.
  destruct (i =? j)%nat; reflexivity.
Qed.

Lemma hoare_store (n : nat) (l : loc) (o : object) :
  (n <= l)%nat ->
  hoare n (store l o) (fun _ h' => nth_error h' l = Some o).
Proof.
  intros Hl h a h' L E. unfold store in E.
  destruct (l <? List.length h)%nat eqn:B; [|discriminate].
  injection E as _ <-. rewrite length_setNth. split; [lia|]. split.
  - intros i Hi. rewrite nth_error_setNth.
    destruct (Nat.eqb_spec l i); [lia | reflexivity].
  - rewrite nth_error_setNth, Nat.eqb_refl, B. reflexivity.
Qed.

Lemma bindM_readonly {A B} (m : M A) (k : A -> M B) :
  (forall h a h', m h = Ret (a, h') -> h' = h) ->
  (forall x h a h', k x h = Ret (a, h') -> h' = h) ->
  forall h a h', bindM m k h = Ret (a, h') -> h' = h.
Proof.
  intros Hm Hk h b h'' E. unfold bindM in E.
  destruct (m h) as [[a h']|] eqn:Em; [|discriminate].
  apply Hm in Em. subst h'. apply (Hk a h b h'' E).
Qed.

Lemma retM_readonly {A} (x : A) h a h' : retM x h = Ret (a, h') -> h' = h.
Proof. intros E. injection E as _ <-. reflexivity. Qed.

Lemma liftM_readonly {A} (r : res A) h a h' : liftM r h = Ret (a, h') -> h' = h.
Proof. destruct r; simpl; intros E; [injection E as _ <-; reflexivity | discriminate]. Qed.

Lemma load_readonly (l : loc) h a h' : load l h = Ret (a, h') -> h' = h.
Proof.
  unfold load. destruct (nth_error h l); intros E;
    [injection E as _ <-; reflexivity | discriminate].
Qed.

Ltac readonly :=
  repeat first
    [ apply retM_readonly
    | apply liftM_readonly
    | apply load_readonly
    | apply bindM_readonly; [|intros ?]
    | match goal with
      | |- forall h a h', (match ?x with _ => _ end) h = _ -> _ => destruct x
      end ].

Lemma loadFEN_readonly (l : loc) h a h' : loadFEN l h = Ret (a, h') -> h' = h.
Proof. revert h a h'. unfold loadFEN. readonly. Qed.

Lemma loadMove_readonly (l : loc) h a h' : loadMove l h = Ret (a, h') -> h' = h.
Proof. revert h a h'. unfold loadMove. readonly. Qed.

Lemma boardOf_readonly (s : option loc) h a h' : boardOf s h = Ret (a, h') -> h' = h.
Proof. revert h a h'. unfold boardOf. readonly. Qed.

Lemma lineOf_readonly (s : option loc) h a h' : lineOf s h = Ret (a, h') -> h' = h.
Proof. revert h a h'. unfold lineOf. readonly. Qed.

Lemma piecesOf_readonly (s : option loc) h a h' : piecesOf s h = Ret (a, h') -> h' = h.
Proof. revert h a h'. unfold piecesOf, deref. readonly. Qed.

Lemma boardIndex_readonly (s : option loc) (i : Z) h a h' :
  boardIndex s i h = Ret (a, h') -> h' = h.
Proof.
  revert h a h'. unfold boardIndex. apply bindM_readonly.
  - apply boardOf_readonly.
  - intros b. apply liftM_readonly.
Qed.

Lemma hoare_boardStore (n : nat) (l : loc) (i : Z) (x : Piece) :
  (n <= l)%nat -> hoare n (boardStore l i x) (fun _ _ => True).
Proof.
  intros Hl. unfold boardStore.
  apply (hoare_bind n _ _ (fun _ => True));
    [apply hoare_readonly, boardOf_readonly|]. intros b _.
  apply (hoare_bind n _ _ (fun _ => True));
    [apply hoare_readonly; intros h a h'; apply liftM_readonly|]. intros b' _.
  apply (hoare_weaken n _ _ _ (hoare_store n l _ Hl)). auto.
Qed.

Lemma hoare_lineStore (n : nat) (l : loc) (i : nat) (x : option loc) :
  (n <= l)%nat -> hoare n (lineStore l i x) (fun _ _ => True).
Proof.
  intros Hl. unfold lineStore.
  apply (hoare_bind n _ _ (fun _ => True));
    [apply hoare_readonly, lineOf_readonly|]. intros b _.
  destruct (i <? List.length b)%nat.
  - apply (hoare_weaken n _ _ _ (hoare_store n l _ Hl)). auto.
  - apply hoare_readonly. intros h a h'. apply liftM_readonly.
Qed.

Lemma hoare_forS {A} (n : nat) (xs : list A) (body : A -> M unit) :
  (forall x, hoare n (body x) (fun _ _ => True)) ->
  hoare n (forS xs body) (fun _ _ => True).
Proof.
  intros Hb. induction xs as [|x xs IH]; simpl.
  - apply hoare_ret. auto.
  - apply (hoare_bind n _ _ (fun _ => True)); [apply Hb | intros _ _; exact IH].
Qed.

Lemma hoare_store_ret (n : nat) (l : loc) (o : object) :
  (n <= l)%nat ->
  hoare n (bindM (store l o) (fun _ => retM l))
        (fun a h' => a = l /\ nth_error h' l = Some o).
Proof.
  intros Hl h a h' L E. unfold bindM in E.
  destruct (store l o h) as [[u h1]|] eqn:Es; [|discriminate].
  injection E as <- <-.
  destruct (hoare_store n l o Hl h u h1 L Es) as (L1 & F1 & N1). auto.
Qed.

Lemma hoare_Pieces_ApplyMove (n : nat) (pieces : option loc) (c : Color)
    (move : Move) (movingPiece capturedPiece : NormalizedPiece) :
  hoare n (Store.Pieces_ApplyMove pieces c move movingPiece capturedPiece)
        (fun a _ => (n <= a)%nat).
Proof.
  unfold Store.Pieces_ApplyMove.
  apply (hoare_bind n _ _ (fun _ => True));
    [apply hoare_readonly, piecesOf_readonly|]. intros pp _.
  apply hoare_alloc.
Qed.

Ltac step_readonly L :=
  apply (hoare_bind _ _ _ (fun _ => True));
  [apply hoare_readonly; intros ? ? ?; apply L | intros ? _].

Tactic Notation "step_alloc" constr(n) ident(x) ident(Hx) :=
  apply (hoare_bind n _ _ (fun a => (n <= a)%nat));
  [apply hoare_alloc | intros x Hx].

Ltac step_write tac :=
  apply (hoare_bind _ _ _ (fun _ => True)); [tac | intros _ _].

(** What [ApplyMove] does to the store: the objects that existed are as
    they were, and the struct it returns is a new object whose board,
    index and line are new objects. *)
Lemma hoare_ApplyMove (n : nat) (f move : loc) :
  hoare n (Store.ApplyMove f move)
        (fun result h' =>
           (n <= result)%nat
           /\ exists g, nth_error h' result = Some (OFEN g)
                        /\ fresh n (oBoard g) /\ fresh n (oPieces g)
                        /\ fresh n (oLine g)).
Proof.
  unfold Store.ApplyMove.
  step_alloc n result Hresult.
  step_readonly loadFEN_readonly.
  step_readonly lineOf_readonly.
  step_alloc n line Hline.
  step_write ltac:(apply hoare_forS; intros im; apply hoare_lineStore, Hline).
  step_readonly loadFEN_readonly.
  step_readonly lineOf_readonly.
  step_write ltac:(apply hoare_lineStore, Hline).
  step_alloc n board Hboard.
  step_write ltac:(apply hoare_forS; intros i;
                   step_readonly loadFEN_readonly;
                   step_readonly boardIndex_readonly;
                   apply hoare_boardStore, Hboard).
  step_readonly loadMove_readonly.
  step_readonly boardIndex_readonly.
  step_write ltac:(apply hoare_boardStore, Hboard).
  step_readonly boardIndex_readonly.
  step_write ltac:(apply hoare_boardStore, Hboard).
  apply (hoare_bind _ _ _ (fun _ => True)).
  { match goal with
    | |- hoare _ (if ?c then _ else _) _ => destruct c
    end.
    - apply hoare_boardStore, Hboard.
    - apply hoare_ret. auto. }
  intros _ _.
  step_readonly loadFEN_readonly.
  step_readonly (@liftM_readonly (CastleStatus * CastleStatus)).
  apply (hoare_bind _ _ _ (fun a => (n <= a)%nat));
    [apply hoare_Pieces_ApplyMove | intros pieces Hpieces].
  step_readonly loadFEN_readonly.
  apply (hoare_weaken _ _ _ _ (hoare_store_ret n result _ Hresult)).
  intros r h (-> & Hn). split; [exact Hresult|].
  eexists. split; [exact Hn|]. simpl.
  repeat split; eexists; split; try reflexivity; assumption.
Qed.

Lemma frame_lookup (h h' : heap) (a : loc) (o : object) :
  frame (List.length h) h h' -> nth_error h a = Some o -> nth_error h' a = Some o.
Proof.
  intros F E. rewrite F; [exact E|]. apply nth_error_Some. congruence.
Qed.

Lemma readMoves_frame (h h' : heap) (l : list (option loc)) (ms : list Move) :
  frame (List.length h) h h' -> readMoves h l = Some ms -> readMoves h' l = Some ms.
Proof.
  intros F. revert ms. induction l as [|[a|] l IH]; simpl; intros ms E; auto.
  destruct (nth_error h a) as [[| |m| |]|] eqn:Ea; try discriminate.
  rewrite (frame_lookup h h' a _ F Ea).
  destruct (readMoves h l) as [ms'|]; [|discriminate].
  rewrite (IH ms' eq_refl). exact E.
Qed.

Lemma readFEN_frame (h h' : heap) (f : loc) (p : FEN) :
  frame (List.length h) h h' -> readFEN h f = Some p -> readFEN h' f = Some p.
Proof.
  intros F. unfold readFEN.
  destruct (nth_error h f) as [[| | | |fo]|] eqn:Ef; try discriminate.
  rewrite (frame_lookup h h' f _ F Ef).
  assert (B : forall b, readBoard h (oBoard fo) = Some b ->
                        readBoard h' (oBoard fo) = Some b).
  { unfold readBoard. destruct (oBoard fo) as [a|]; auto.
    destruct (nth_error h a) as [o|] eqn:Ea; [|discriminate].
    rewrite (frame_lookup h h' a _ F Ea). auto. }
  assert (P : forall pp, readPieces h (oPieces fo) = Some pp ->
                         readPieces h' (oPieces fo) = Some pp).
  { unfold readPieces. destruct (oPieces fo) as [a|]; auto.
    destruct (nth_error h a) as [o|] eqn:Ea; [|discriminate].
    rewrite (frame_lookup h h' a _ F Ea). auto. }
  assert (L : forall l, readLine h (oLine fo) = Some l ->
                        readLine h' (oLine fo) = Some l).
  { unfold readLine. destruct (oLine fo) as [a|]; auto.
    destruct (nth_error h a) as [[|l0| | |]|] eqn:Ea; try discriminate.
    rewrite (frame_lookup h h' a _ F Ea). intros l. apply readMoves_frame, F. }
  destruct (readBoard h (oBoard fo)) as [b|]; [|discriminate].
  destruct (readPieces h (oPieces fo)) as [pp|]; [|discriminate].
  destruct (readLine h (oLine fo)) as [l|]; [|discriminate].
  rewrite (B b eq_refl), (P pp eq_refl), (L l eq_refl). auto.
Qed.

End StoreFacts.

(** ** The codec *)

Lemma digitsValue_uint (d : Decimal.uint) (acc : Z) :
  digitsValue acc (NilEmpty.string_of_uint d) = Some (uintValue acc d).
Proof.
  revert acc. induction d; intros acc; simpl; try reflexivity; apply IHd.
Qed.

Lemma uintValue_pos (d : Decimal.uint) (acc : positive) :
  uintValue (Z.pos acc) d = Z.pos (Pos.of_uint_acc d acc).
Proof.
  revert acc. induction d; intros acc; cbn [uintValue Pos.of_uint_acc];
    try reflexivity; rewrite <- IHd; f_equal; lia.
Qed.

Lemma uintValue_0 (d : Decimal.uint) :
  uintValue 0 d = Z.of_N (Pos.of_uint d).
Proof.
  induction d; cbn [uintValue Pos.of_uint]; try reflexivity; try exact IHd;
    apply (uintValue_pos d).
Qed.

Lemma uintValue_to_uint (p : positive) : uintValue 0 (Pos.to_uint p) = Z.pos p.
Proof. rewrite uintValue_0, DecimalPos.Unsigned.of_to. reflexivity. Qed.

Lemma digit_not_sign (c : ascii) :
  isDigit c = true -> Ascii.eqb c "-" = false /\ Ascii.eqb c "+" = false.
Proof.
  intros D. split.
  - destruct (Ascii.eqb_spec c "-"); [subst; discriminate | reflexivity].
  - destruct (Ascii.eqb_spec c "+"); [subst; discriminate | reflexivity].
Qed.

Lemma uint_leading_digit (d : Decimal.uint) :
  d <> Decimal.Nil ->
  exists c s, NilEmpty.string_of_uint d = String c s /\ isDigit c = true.
Proof. destruct d; simpl; try congruence; eauto. Qed.

Lemma inInt_leb (z : Z) : isInt z -> (min_int <=? z) && (z <=? max_int) = true.
Proof.
  unfold isInt. intros I. apply andb_true_intro. split; apply Z.leb_le; lia.
Qed.

Lemma to_uint_not_Nil (p : positive) : Pos.to_uint p <> Decimal.Nil.
Proof.
  intros E. pose proof (DecimalPos.Unsigned.of_to p) as H.
  rewrite E in H. discriminate.
Qed.

(** ** The scanner *)

Lemma byte_of_range (c : ascii) : 0 <= byte_of c < 256.
Proof.
  unfold byte_of. pose proof (N_ascii_bounded c) as H. lia.
Qed.

Lemma byte_of_ascii_of (b : Z) : 0 <= b < 256 -> byte_of (ascii_of b) = b.
Proof.
  intros H. unfold byte_of, ascii_of, u8.
  rewrite Z.mod_small by lia.
  rewrite N_ascii_embedding by lia. lia.
Qed.

Lemma ascii_of_byte_of (c : ascii) : ascii_of (byte_of c) = c.
Proof.
  pose proof (byte_of_range c) as H. unfold ascii_of, u8.
  rewrite Z.mod_small by lia. unfold byte_of. rewrite N2Z.id.
  apply ascii_N_embedding.
Qed.

Lemma lor_below (n a b : Z) :
  0 <= n -> 0 <= a < 2 ^ n -> 0 <= b < 2 ^ n -> 0 <= Z.lor a b < 2 ^ n.
Proof.
  intros Hn Ha Hb. split; [apply Z.lor_nonneg; lia|].
  destruct (Z.eq_dec (Z.lor a b) 0) as [E|N]; [rewrite E; lia|].
  assert (P : 0 < Z.lor a b)
    by (pose proof (proj2 (Z.lor_nonneg a b) (conj (proj1 Ha) (proj1 Hb))); lia).
  apply Z.log2_lt_pow2; [exact P|].
  rewrite Z.log2_lor by lia.
  assert (La : Z.log2 a < n \/ a = 0).
  { destruct (Z.eq_dec a 0); [auto|]. left. apply Z.log2_lt_pow2; lia. }
  assert (Lb : Z.log2 b < n \/ b = 0).
  { destruct (Z.eq_dec b 0); [auto|]. left. apply Z.log2_lt_pow2; lia. }
  assert (n <> 0).
  { intros ->. change (2 ^ 0) with 1 in *. assert (a = 0) by lia. assert (b = 0) by lia.
    subst. apply N. reflexivity. }
  destruct La as [La| ->], Lb as [Lb| ->]; simpl Z.log2 in *; lia.
Qed.

Lemma land_mask (x k : Z) : 0 <= k -> 0 <= Z.land x (Z.ones k) < 2 ^ k.
Proof. intros H. rewrite Z.land_ones by lia. apply Z.mod_pos_bound. lia. Qed.

Lemma shiftl_below (x k n : Z) :
  0 <= k -> 0 <= n -> 0 <= x < 2 ^ n -> 0 <= Z.shiftl x k < 2 ^ (n + k).
Proof.
  intros Hk Hn Hx. rewrite Z.shiftl_mul_pow2 by lia. rewrite Z.pow_add_r by lia.
  assert (0 < 2 ^ k) by (apply Z.pow_pos_nonneg; lia). nia.
Qed.

Lemma below_mono (x n m : Z) : 0 <= n <= m -> 0 <= x < 2 ^ n -> 0 <= x < 2 ^ m.
Proof.
  intros H Hx. split; [lia|].
  apply Z.lt_le_trans with (2 ^ n); [lia|]. apply Z.pow_le_mono_r; lia.
Qed.

Lemma DecodeRune_range (s : string) : 0 <= fst (DecodeRuneInString s) < 2 ^ 21.
Proof.
  assert (B : 0 <= RuneError < 2 ^ 21) by (unfold RuneError; lia).
  assert (M6 : forall x, 0 <= Z.land x 63 < 2 ^ 6) by (intros x; apply (land_mask x 6); lia).
  assert (M5 : forall x, 0 <= Z.land x 31 < 2 ^ 5) by (intros x; apply (land_mask x 5); lia).
  assert (M4 : forall x, 0 <= Z.land x 15 < 2 ^ 4) by (intros x; apply (land_mask x 4); lia).
  assert (M3 : forall x, 0 <= Z.land x 7 < 2 ^ 3) by (intros x; apply (land_mask x 3); lia).
  destruct s as [|c0 s1]; [exact B|]. cbn [DecodeRuneInString].
  pose proof (byte_of_range c0) as R0.
  destruct (byte_of c0 <? 128) eqn:A; [simpl; apply Z.ltb_lt in A; lia|].
  destruct ((byte_of c0 <? 194) || (244 <? byte_of c0)); [exact B|].
  destruct (byte_of c0 <? 224).
  { destruct s1 as [|c1 s2]; [exact B|].
    destruct (negb _); [exact B|]. cbn [fst].
    apply (below_mono _ 11); [lia|]. apply lor_below; [lia| |].
    - apply (shiftl_below _ 6 5); [lia|lia|apply M5].
    - apply (below_mono _ 6); [lia|apply M6]. }
  destruct (byte_of c0 <? 240).
  { destruct s1 as [|c1 [|c2 s3]]; try exact B.
    destruct (negb _); [exact B|]. destruct (negb _); [exact B|]. cbn [fst].
    apply (below_mono _ 16); [lia|]. apply lor_below; [lia| |].
    - apply lor_below; [lia| |].
      + apply (shiftl_below _ 12 4); [lia|lia|apply M4].
      + apply (below_mono _ 12); [lia|]. apply (shiftl_below _ 6 6); [lia|lia|apply M6].
    - apply (below_mono _ 6); [lia|apply M6]. }
  destruct s1 as [|c1 [|c2 [|c3 s4]]]; try exact B.
  destruct (negb _); [exact B|]. destruct (negb _); [exact B|].
  destruct (negb _); [exact B|]. cbn [fst].
  apply lor_below; [lia| |].
  - apply lor_below; [lia| |].
    + apply lor_below; [lia| |].
      * apply (shiftl_below _ 18 3); [lia|lia|apply M3].
      * apply (below_mono _ 18); [lia|]. apply (shiftl_below _ 12 6); [lia|lia|apply M6].
    + apply (below_mono _ 12); [lia|]. apply (shiftl_below _ 6 6); [lia|lia|apply M6].
  - apply (below_mono _ 6); [lia|apply M6].
Qed.

Lemma readRunes_ok (s : string) (k : nat) : Forall runeOk (readRunes k s).
Proof.
  revert k. induction s as [|c s IH]; intros k; [constructor|].
  cbn [readRunes]. destruct k as [|k]; [|apply IH].
  pose proof (DecodeRune_range (String c s)) as R.
  destruct (DecodeRuneInString (String c s)) as [r size]. cbn [fst] in R.
  constructor; [|apply IH]. unfold runeOk. split; [lia|].
  apply Z.lt_trans with (2 ^ 21); lia.
Qed.

Lemma byte_of_ascii_of_mod (b : Z) : byte_of (ascii_of b) = b mod 256.
Proof.
  unfold ascii_of, u8. pose proof (Z.mod_pos_bound b 256 ltac:(lia)) as H.
  unfold byte_of. rewrite N_ascii_embedding by lia. lia.
Qed.

Lemma high_byte (k x : Z) :
  Z.testbit k 7 = true -> 128 <= byte_of (ascii_of (Z.lor k x)).
Proof.
  intros K. rewrite byte_of_ascii_of_mod.
  pose proof (Z.mod_pos_bound (Z.lor k x) 256 ltac:(lia)) as B.
  destruct (Z_lt_le_dec (Z.lor k x mod 256) 128) as [L|L]; [|exact L].
  exfalso.
  assert (T : Z.testbit (Z.lor k x mod 256) 7 = true).
  { change 256 with (2 ^ 8). rewrite <- Z.land_ones by lia.
    rewrite Z.land_spec, Z.lor_spec, K. reflexivity. }
  apply Z.testbit_true in T; [|lia].
  change (2 ^ 7) with 128 in T. rewrite Z.div_small in T by lia. discriminate T.
Qed.

Lemma high_noBlank (c : ascii) : 128 <= byte_of c -> blankByte c = false.
Proof.
  intros H. unfold blankByte.
  destruct (Z.leb_spec (byte_of c) 13); [lia|].
  destruct (Z.eqb_spec (byte_of c) 32); [lia|].
  rewrite andb_false_r. reflexivity.
Qed.

Lemma low_runes :
  forallb (fun r => isSpace r || negb (blankByte (ascii_of r)))
          (map Z.of_nat (seq 0 128)) = true.
Proof. vm_compute. reflexivity. Qed.

Lemma low_noBlank (r : Z) :
  0 <= r <= 127 -> isSpace r = false -> blankByte (ascii_of r) = false.
Proof.
  intros R S. pose proof low_runes as H. rewrite forallb_forall in H.
  assert (I : In r (map Z.of_nat (seq 0 128))).
  { apply in_map_iff. exists (Z.to_nat r). split; [lia|]. apply in_seq. lia. }
  specialize (H r I). rewrite S in H. apply negb_true_iff. exact H.
Qed.

Lemma noBlank_app (s t : string) :
  noBlank (s ++ t) = noBlank s && noBlank t.
Proof.
  induction s as [|c s IH]; simpl; [reflexivity|]. rewrite IH.
  rewrite andb_assoc. reflexivity.
Qed.

Lemma EncodeRune_noBlank (r : Z) :
  runeOk r -> isSpace r = false -> noBlank (EncodeRune r) = true.
Proof.
  intros R S. unfold EncodeRune, u32. unfold runeOk in R.
  rewrite Z.mod_small by lia.
  assert (H : forall k x, Z.testbit k 7 = true ->
                          negb (blankByte (ascii_of (Z.lor k x))) = true).
  { intros k x K. apply negb_true_iff, high_noBlank, high_byte, K. }
  destruct (Z.leb_spec r 127) as [L|L].
  { unfold bytes. cbn [map string_of_list_ascii noBlank]. unfold u8.
    rewrite Z.mod_small by lia.
    rewrite (low_noBlank r) by (auto; lia). reflexivity. }
  destruct (r <=? 2047).
  { unfold bytes. cbn [map string_of_list_ascii noBlank]. rewrite !H by reflexivity. reflexivity. }
  destruct ((MaxRune <? r) || ((55296 <=? r) && (r <=? 57343))).
  { unfold bytes. cbn [map string_of_list_ascii noBlank]. rewrite !H by reflexivity. reflexivity. }
  destruct (r <=? 65535).
  { unfold bytes. cbn [map string_of_list_ascii noBlank]. rewrite !H by reflexivity. reflexivity. }
  unfold bytes. cbn [map string_of_list_ascii noBlank]. rewrite !H by reflexivity. reflexivity.
Qed.

Lemma writeRunes_noBlank (rs : list Z) :
  Forall runeOk rs -> Forall (fun r => isSpace r = false) rs ->
  noBlank (writeRunes rs) = true.
Proof.
  induction rs as [|r rs IH]; intros R S; [reflexivity|].
  inversion R; subst. inversion S; subst. cbn [writeRunes].
  rewrite noBlank_app, EncodeRune_noBlank, IH; auto.
Qed.

(** What [readWhile] returns: the longest run of runes that satisfy the
    predicate and can be read, and the input after it. *)
Lemma readWhile_spec (f : Z -> bool) (l : list Z) :
  forall n rs s, readWhile f n l = (rs, s) ->
    Forall (fun r => f r = true) rs
    /\ l = rs ++ ss_input s /\ ss_count s = n + len rs.
Proof.
  induction l as [|r l IH]; intros n rs s H; cbn [readWhile] in H.
  - injection H as <- <-. split; [constructor|]. split; [reflexivity|].
    unfold len. simpl. lia.
  - destruct (n >=? hugeWid).
    { injection H as <- <-. split; [constructor|]. split; [reflexivity|].
      unfold len. simpl. lia. }
    destruct (f r) eqn:F.
    + destruct (readWhile f (n + 1) l) as [rs' s'] eqn:E. injection H as <- <-.
      destruct (IH _ _ _ E) as (A & B & C).
      split; [constructor; assumption|]. split; [simpl; f_equal; exact B|].
      unfold len in *. cbn [List.length]. lia.
    + injection H as <- <-. split; [constructor|]. split; [reflexivity|].
      unfold len. simpl. lia.
Qed.

Lemma skipSpaceFrom_suffix (l : list Z) :
  forall n s, skipSpaceFrom n l = Some s -> exists pre, l = pre ++ ss_input s.
Proof.
  induction l as [|r l IH]; intros n s H; cbn [skipSpaceFrom] in H.
  - injection H as <-. exists []. reflexivity.
  - destruct (n >=? hugeWid); [injection H as <-; exists []; reflexivity|].
    destruct ((r =? 13) && peek (Z.eqb 10) (mkSs (n + 1) l)).
    { destruct (IH _ _ H) as (pre & E). exists (r :: pre). simpl. f_equal. exact E. }
    destruct (r =? 10); [discriminate|].
    destruct (negb (isSpace r)); [injection H as <-; exists []; reflexivity|].
    destruct (IH _ _ H) as (pre & E). exists (r :: pre). simpl. f_equal. exact E.
Qed.

Lemma Forall_suffix {A} (P : A -> Prop) (pre l : list A) :
  Forall P (pre ++ l) -> Forall P l.
Proof. intros H. apply Forall_app in H. apply H. Qed.

Lemma SkipSpace_ok (s s' : ss) :
  SkipSpace s = Some s' -> Forall runeOk (ss_input s) -> Forall runeOk (ss_input s').
Proof.
  unfold SkipSpace. intros H F. destruct (skipSpaceFrom_suffix _ _ _ H) as (pre & E).
  rewrite E in F. apply (Forall_suffix _ _ _ F).
Qed.

(** The word [%s] reads holds no white space of ASCII. *)
Lemma verbS_noBlank (s s' : ss) (t : string) :
  Forall runeOk (ss_input s) -> verbS s = Some (t, s') -> noBlank t = true.
Proof.
  unfold verbS, convertString. intros F H.
  destruct (SkipSpace s) as [s1|] eqn:E1; [|discriminate].
  destruct (SkipSpace s1) as [s2|] eqn:E2; [|discriminate].
  destruct (notEOF s2); [|discriminate].
  destruct (SkipSpace s2) as [s3|] eqn:E3; [|discriminate].
  destruct (readWhile (fun r => negb (isSpace r)) (ss_count s3) (ss_input s3))
    as [rs s4] eqn:E4.
  injection H as <- _.
  pose proof (SkipSpace_ok _ _ E3 (SkipSpace_ok _ _ E2 (SkipSpace_ok _ _ E1 F))) as F3.
  destruct (readWhile_spec _ _ _ _ _ E4) as (A & B & _).
  apply writeRunes_noBlank.
  - rewrite B in F3. apply Forall_app in F3. apply F3.
  - revert A. apply Forall_impl. intros r Hr. apply negb_true_iff in Hr. exact Hr.
Qed.

Lemma ParseInt_isInt (tok : string) (v : Z) : ParseInt tok = Some v -> isInt v.
Proof.
  unfold ParseInt.
  destruct (match tok with
            | String c t' => if Ascii.eqb c "+" then (false, t')
                             else if Ascii.eqb c "-" then (true, t') else (false, tok)
            | EmptyString => (false, tok)
            end) as [neg t].
  destruct t as [|c t]; [discriminate|].
  destruct (digitsValue 0 (String c t)) as [v0|]; [|discriminate].
  destruct ((min_int <=? (if neg then - v0 else v0))
            && ((if neg then - v0 else v0) <=? max_int)) eqn:R; [|discriminate].
  intros H. injection H as <-.
  apply andb_prop in R. destruct R as (R1 & R2).
  apply Z.leb_le in R1. apply Z.leb_le in R2. split; assumption.
Qed.

(** The number [%d] reads is an [int]. *)
Lemma verbD_isInt (s s' : ss) (v : Z) : verbD s = Some (v, s') -> isInt v.
Proof.
  unfold verbD, scanInt. intros H.
  destruct (SkipSpace s) as [s1|]; [|discriminate].
  destruct (SkipSpace s1) as [s2|]; [|discriminate].
  destruct (notEOF s2); [|discriminate].
  destruct (match accept isSign s2 with
            | Some (r, s'0) => ([r], s'0)
            | None => ([], s2)
            end) as [sign s3].
  destruct (notEOF s3); [|discriminate].
  destruct (accept isDigits s3) as [[d s4]|]; [|discriminate].
  destruct (readWhile isDigits (ss_count s4) (ss_input s4)) as [ds s5].
  destruct (ParseInt (writeRunes (sign ++ d :: ds))) as [v0|] eqn:P; [|discriminate].
  injection H as <- _. apply (ParseInt_isInt _ _ P).
Qed.

(** *** Reading back a text of plain fields *)

Lemma low_bytes :
  forallb (fun r => blankByte (ascii_of r) || negb (isSpace r))
          (map Z.of_nat (seq 0 128)) = true.
Proof. vm_compute. reflexivity. Qed.

Lemma plainByte_code (c : ascii) :
  plainByte c = true -> 0 <= byte_of c < 128 /\ isSpace (byte_of c) = false.
Proof.
  unfold plainByte. intros H. apply andb_prop in H. destruct H as (A & B).
  apply Z.ltb_lt in A. apply negb_true_iff in B.
  pose proof (byte_of_range c) as R. split; [lia|].
  pose proof low_bytes as H. rewrite forallb_forall in H.
  assert (I : In (byte_of c) (map Z.of_nat (seq 0 128))).
  { apply in_map_iff. exists (Z.to_nat (byte_of c)). split; [lia|]. apply in_seq. lia. }
  specialize (H _ I). rewrite ascii_of_byte_of, B in H.
  apply negb_true_iff. exact H.
Qed.

Lemma length_append (s t : string) :
  String.length (s ++ t) = (String.length s + String.length t)%nat.
Proof. induction s as [|c s IH]; simpl; [reflexivity | rewrite IH; reflexivity]. Qed.

Lemma codes_app (s t : string) : codes (s ++ t) = codes s ++ codes t.
Proof.
  unfold codes. induction s as [|c s IH]; simpl; [reflexivity | rewrite IH; reflexivity].
Qed.

Lemma len_codes (s : string) : len (codes s) = Z.of_nat (String.length s).
Proof.
  unfold len, codes. rewrite length_map. f_equal.
  induction s as [|c s IH]; simpl; [reflexivity | rewrite IH; reflexivity].
Qed.

Lemma readRunes_plain (a rest : string) :
  plain a = true -> readRunes 0 (a ++ rest) = codes a ++ readRunes 0 rest.
Proof.
  induction a as [|c a IH]; intros P; [reflexivity|].
  cbn [plain] in P. apply andb_prop in P. destruct P as (Pc & Pa).
  destruct (plainByte_code c Pc) as (R & _).
  cbn [append readRunes DecodeRuneInString].
  replace (byte_of c <? 128) with true by (symmetry; apply Z.ltb_lt; lia).
  cbn [Nat.sub]. rewrite (IH Pa). reflexivity.
Qed.

Lemma readRunes_blank (rest : string) :
  readRunes 0 (String " " rest) = 32 :: readRunes 0 rest.
Proof. reflexivity. Qed.

Lemma readRunes_end (a : string) : plain a = true -> readRunes 0 a = codes a.
Proof.
  intros P. rewrite <- (app_nil_r (codes a)).
  change (@nil Z) with (readRunes 0 EmptyString).
  rewrite <- (readRunes_plain a EmptyString P). f_equal.
  induction a as [|c a IH]; simpl; [reflexivity|]. f_equal. apply IH.
  cbn [plain] in P. apply andb_prop in P. apply P.
Qed.

Lemma EncodeRune_byte (c : ascii) :
  byte_of c < 128 -> EncodeRune (byte_of c) = String c EmptyString.
Proof.
  intros H. pose proof (byte_of_range c) as R. unfold EncodeRune, u32.
  rewrite Z.mod_small by lia.
  replace (byte_of c <=? 127) with true by (symmetry; apply Z.leb_le; lia).
  unfold bytes, u8. cbn [map string_of_list_ascii].
  rewrite Z.mod_small by lia. rewrite ascii_of_byte_of. reflexivity.
Qed.

Lemma writeRunes_codes (a : string) : plain a = true -> writeRunes (codes a) = a.
Proof.
  induction a as [|c a IH]; intros P; [reflexivity|].
  cbn [plain] in P. apply andb_prop in P. destruct P as (Pc & Pa).
  destruct (plainByte_code c Pc) as (R & _).
  unfold codes. cbn [list_ascii_of_string map writeRunes].
  rewrite EncodeRune_byte by lia. fold (codes a). rewrite (IH Pa). reflexivity.
Qed.

Lemma plain_notSpace (a : string) :
  plain a = true -> Forall (fun r => negb (isSpace r) = true) (codes a).
Proof.
  induction a as [|c a IH]; intros P; [constructor|].
  cbn [plain] in P. apply andb_prop in P. destruct P as (Pc & Pa).
  destruct (plainByte_code c Pc) as (_ & S).
  unfold codes. cbn [list_ascii_of_string map]. constructor; [|apply (IH Pa)].
  rewrite S. reflexivity.
Qed.

(** A run of runes that satisfy the predicate, ended by the end of the
    input or by a rune that does not, is read as a whole. *)
Lemma readWhile_run (f : Z -> bool) (l rest : list Z) :
  forall n, Forall (fun r => f r = true) l ->
            headIs (fun r => negb (f r)) rest = true ->
            n + len l <= hugeWid ->
            readWhile f n (l ++ rest) = (l, mkSs (n + len l) rest).
Proof.
  induction l as [|r l IH]; intros n F Hd B.
  - replace (n + len (@nil Z)) with n by (unfold len; simpl; lia).
    destruct rest as [|r rest]; [reflexivity|]. cbn [app readWhile].
    destruct (n >=? hugeWid); [reflexivity|].
    simpl in Hd. apply negb_true_iff in Hd. rewrite Hd. reflexivity.
  - inversion F as [|? ? Fr Fl]; subst. cbn [app readWhile].
    assert (L : len (r :: l) = len l + 1) by (unfold len; cbn [List.length]; lia).
    assert (0 <= len l) by (unfold len; lia).
    replace (n >=? hugeWid) with false
      by (symmetry; rewrite Z.geb_leb; apply Z.leb_gt; lia).
    rewrite Fr. rewrite (IH (n + 1) Fl Hd) by lia.
    f_equal. f_equal. lia.
Qed.

Lemma notSpace_codes (r : Z) : isSpace r = false -> (r =? 13) = false /\ (r =? 10) = false.
Proof.
  intros S. split.
  - destruct (Z.eqb_spec r 13) as [->|]; [discriminate S | reflexivity].
  - destruct (Z.eqb_spec r 10) as [->|]; [discriminate S | reflexivity].
Qed.

(** [SkipSpace] before a rune that is no space changes nothing. *)
Lemma SkipSpace_head (n : Z) (r : Z) (l : list Z) :
  isSpace r = false -> SkipSpace (mkSs n (r :: l)) = Some (mkSs n (r :: l)).
Proof.
  intros S. destruct (notSpace_codes r S) as (A & B).
  unfold SkipSpace. cbn [ss_count ss_input skipSpaceFrom].
  destruct (n >=? hugeWid); [reflexivity|].
  rewrite A, B, S. reflexivity.
Qed.

Lemma notEOF_head (n : Z) (r : Z) (l : list Z) :
  n < hugeWid -> notEOF (mkSs n (r :: l)) = true.
Proof.
  intros H. unfold notEOF, getRune. cbn [ss_count ss_input].
  replace (n >=? hugeWid) with false
    by (symmetry; rewrite Z.geb_leb; apply Z.leb_gt; lia).
  reflexivity.
Qed.

(** [%s] on a field that is followed by a space or by the end. *)
Lemma verbS_field (n : Z) (a : string) (rest : list Z) :
  isField a = true -> headIs isSpace rest = true ->
  n + Z.of_nat (String.length a) <= hugeWid ->
  verbS (mkSs n (codes a ++ rest))
  = Some (a, mkSs (n + Z.of_nat (String.length a)) rest).
Proof.
  unfold isField. intros F Hd B. apply andb_prop in F. destruct F as (Ne & P).
  destruct a as [|c a]; [discriminate Ne|].
  pose proof P as P'. cbn [plain] in P'. apply andb_prop in P'. destruct P' as (Pc & _).
  destruct (plainByte_code c Pc) as (_ & Sc).
  assert (E : codes (String c a) ++ rest = byte_of c :: (codes a ++ rest)) by reflexivity.
  unfold verbS. rewrite E, (SkipSpace_head _ _ _ Sc). cbv beta iota.
  unfold convertString. rewrite (SkipSpace_head _ _ _ Sc). cbv beta iota.
  rewrite notEOF_head by (cbn [String.length] in B; lia).
  rewrite (SkipSpace_head _ _ _ Sc). cbv beta iota. cbn [ss_count ss_input].
  rewrite <- E.
  rewrite (readWhile_run _ (codes (String c a)) rest n).
  - rewrite (writeRunes_codes _ P), len_codes. reflexivity.
  - apply (plain_notSpace _ P).
  - destruct rest as [|r rest]; [reflexivity|]. simpl in *. rewrite Hd. reflexivity.
  - rewrite len_codes. exact B.
Qed.

(** [advance] over the blank of the format, on one blank of the input. *)
Lemma advanceSpace_blank (n : Z) (rest : list Z) :
  n < hugeWid -> headIs (fun r => negb (isSpace r)) rest = true ->
  advanceSpace (mkSs n (32 :: rest)) = Some (mkSs (n + 1) rest).
Proof.
  intros B Hd. unfold advanceSpace, getRune. cbn [ss_count ss_input].
  replace (n >=? hugeWid) with false
    by (symmetry; rewrite Z.geb_leb; apply Z.leb_gt; lia).
  change (negb (isSpace 32)) with false. change (32 =? 10) with false. cbv iota.
  cbn [ss_count ss_input].
  destruct rest as [|r rest]; [reflexivity|].
  cbn [readWhile]. destruct (n + 1 >=? hugeWid); [reflexivity|].
  simpl in Hd. apply negb_true_iff in Hd. rewrite Hd. reflexivity.
Qed.

(** *** Numbers *)

(** A decimal digit, as a byte and as a rune. *)
Lemma digit_facts (c : ascii) :
  isDigit c = true ->
  isDigits (byte_of c) = true /\ isSign (byte_of c) = false
  /\ plainByte c = true /\ isSpace (byte_of c) = false.
Proof.
  unfold isDigit. change (byte_of "0") with 48. change (byte_of "9") with 57.
  intros D. apply andb_prop in D. destruct D as (D1 & D2).
  assert (P : plainByte c = true).
  { unfold plainByte, blankByte. apply Z.leb_le in D1, D2.
    destruct (Z.ltb_spec (byte_of c) 128); [|lia].
    destruct (Z.leb_spec (byte_of c) 13); [lia|].
    destruct (Z.eqb_spec (byte_of c) 32); [lia|].
    rewrite andb_false_r. reflexivity. }
  split; [unfold isDigits; rewrite D1, D2; reflexivity|].
  split; [|split; [exact P | apply (plainByte_code c P)]].
  unfold isSign. apply Z.leb_le in D1.
  destruct (Z.eqb_spec (byte_of c) 43); [lia|].
  destruct (Z.eqb_spec (byte_of c) 45); [lia|]. reflexivity.
Qed.

Lemma uint_digits (d : Decimal.uint) :
  plain (NilEmpty.string_of_uint d) = true
  /\ Forall (fun r => isDigits r = true) (codes (NilEmpty.string_of_uint d)).
Proof.
  induction d as [|d [P F]|d [P F]|d [P F]|d [P F]|d [P F]|d [P F]|d [P F]
                  |d [P F]|d [P F]|d [P F]];
    [split; [reflexivity | constructor]|..];
    (split; [cbn [NilEmpty.string_of_uint plain]; rewrite P; reflexivity
            | unfold codes in *; cbn [NilEmpty.string_of_uint list_ascii_of_string map];
              constructor; [reflexivity | exact F]]).
Qed.

Lemma accept_head (ok : Z -> bool) (n r : Z) (l : list Z) :
  n < hugeWid ->
  accept ok (mkSs n (r :: l)) = if ok r then Some (r, mkSs (n + 1) l) else None.
Proof.
  intros H. unfold accept, getRune. cbn [ss_count ss_input].
  replace (n >=? hugeWid) with false
    by (symmetry; rewrite Z.geb_leb; apply Z.leb_gt; lia).
  reflexivity.
Qed.

Lemma ParseInt_uint (d : Decimal.uint) :
  d <> Decimal.Nil -> isInt (uintValue 0 d) ->
  ParseInt (NilEmpty.string_of_uint d) = Some (uintValue 0 d).
Proof.
  intros N I. destruct (uint_leading_digit d N) as (c & s & E & D).
  destruct (digit_not_sign c D) as (S1 & S2).
  unfold ParseInt. rewrite E, S1, S2. rewrite <- E.
  rewrite digitsValue_uint, (inInt_leb _ I). reflexivity.
Qed.

Lemma ParseInt_neg_uint (d : Decimal.uint) :
  d <> Decimal.Nil -> isInt (- uintValue 0 d) ->
  ParseInt (String "-" (NilEmpty.string_of_uint d)) = Some (- uintValue 0 d).
Proof.
  intros N I. destruct (uint_leading_digit d N) as (c & s & E & D).
  unfold ParseInt. cbn [Ascii.eqb Bool.eqb]. cbv iota.
  rewrite digitsValue_uint, (inInt_leb _ I). rewrite E. reflexivity.
Qed.

(** [%d] on a decimal numeral that is followed by the end of the input
    or by a rune that is no digit. *)
Lemma verbD_uint (n : Z) (d : Decimal.uint) (rest : list Z) :
  d <> Decimal.Nil -> isInt (uintValue 0 d) ->
  headIs (fun r => negb (isDigits r)) rest = true ->
  n + Z.of_nat (String.length (NilEmpty.string_of_uint d)) <= hugeWid ->
  verbD (mkSs n (codes (NilEmpty.string_of_uint d) ++ rest))
  = Some (uintValue 0 d,
          mkSs (n + Z.of_nat (String.length (NilEmpty.string_of_uint d))) rest).
Proof.
  intros N I Hd B. destruct (uint_leading_digit d N) as (c & s & E & D).
  destruct (digit_facts c D) as (Dg & Sg & Pc & Sp).
  destruct (uint_digits d) as (P & F).
  pose proof (ParseInt_uint d N I) as PI.
  rewrite E in *. cbn [String.length] in B.
  assert (Ec : codes (String c s) ++ rest = byte_of c :: (codes s ++ rest)) by reflexivity.
  unfold verbD. rewrite Ec, (SkipSpace_head _ _ _ Sp). cbv beta iota.
  unfold scanInt. rewrite (SkipSpace_head _ _ _ Sp). cbv beta iota.
  rewrite notEOF_head by lia. rewrite accept_head by lia. rewrite Sg.
  rewrite notEOF_head by lia. rewrite accept_head by lia. rewrite Dg.
  cbn [ss_count ss_input].
  unfold codes in F. cbn [list_ascii_of_string map] in F.
  inversion F as [|? ? _ Fs]; subst.
  rewrite (readWhile_run isDigits (codes s) rest (n + 1) Fs Hd)
    by (rewrite len_codes; lia).
  cbn [app].
  change (byte_of c :: codes s) with (codes (String c s)).
  rewrite (writeRunes_codes _ P), PI. rewrite len_codes. cbn [String.length].
  replace (n + 1 + Z.of_nat (String.length s))
    with (n + Z.of_nat (S (String.length s))) by lia.
  reflexivity.
Qed.

Lemma verbD_neg_uint (n : Z) (d : Decimal.uint) (rest : list Z) :
  d <> Decimal.Nil -> isInt (- uintValue 0 d) ->
  headIs (fun r => negb (isDigits r)) rest = true ->
  n + Z.of_nat (String.length (String "-" (NilEmpty.string_of_uint d))) <= hugeWid ->
  verbD (mkSs n (codes (String "-" (NilEmpty.string_of_uint d)) ++ rest))
  = Some (- uintValue 0 d,
          mkSs (n + Z.of_nat (String.length (String "-" (NilEmpty.string_of_uint d))))
               rest).
Proof.
  intros N I Hd B. destruct (uint_leading_digit d N) as (c & s & E & D).
  destruct (digit_facts c D) as (Dg & Sg & Pc & Sp).
  destruct (uint_digits d) as (P & F).
  pose proof (ParseInt_neg_uint d N I) as PI.
  rewrite E in *. cbn [String.length] in B.
  assert (Ec : codes (String "-" (String c s)) ++ rest
               = 45 :: byte_of c :: (codes s ++ rest)) by reflexivity.
  assert (S45 : isSpace 45 = false) by reflexivity.
  unfold verbD. rewrite Ec, (SkipSpace_head _ _ _ S45). cbv beta iota.
  unfold scanInt. rewrite (SkipSpace_head _ _ _ S45). cbv beta iota.
  rewrite notEOF_head by lia. rewrite accept_head by lia.
  change (isSign 45) with true. cbv beta iota.
  rewrite notEOF_head by lia. rewrite accept_head by lia. rewrite Dg.
  cbn [ss_count ss_input].
  unfold codes in F. cbn [list_ascii_of_string map] in F.
  inversion F as [|? ? _ Fs]; subst.
  rewrite (readWhile_run isDigits (codes s) rest (n + 1 + 1) Fs Hd)
    by (rewrite len_codes; lia).
  cbn [app].
  change (45 :: byte_of c :: codes s) with (codes (String "-" (String c s))).
  rewrite writeRunes_codes by (cbn [plain]; rewrite <- (andb_true_l (plain _)); exact P).
  rewrite PI. rewrite len_codes. cbn [String.length].
  replace (n + 1 + 1 + Z.of_nat (String.length s))
    with (n + Z.of_nat (S (S (String.length s)))) by lia.
  reflexivity.
Qed.

(** The text [Itoa] writes: a numeral, with a sign if negative. *)
Lemma Itoa_cases (z : Z) :
  (exists d, d <> Decimal.Nil /\ Itoa z = NilEmpty.string_of_uint d
             /\ z = uintValue 0 d)
  \/ (exists d, d <> Decimal.Nil /\ Itoa z = String "-" (NilEmpty.string_of_uint d)
                /\ z = - uintValue 0 d).
Proof.
  unfold Itoa. destruct z as [|p|p]; cbn [Z.to_int NilZero.string_of_int].
  - left. exists (Decimal.D0 Decimal.Nil). repeat split. discriminate.
  - left. exists (Pos.to_uint p). pose proof (to_uint_not_Nil p) as N.
    split; [exact N|]. split; [|rewrite uintValue_to_uint; reflexivity].
    destruct (Pos.to_uint p); try reflexivity; congruence.
  - right. exists (Pos.to_uint p). pose proof (to_uint_not_Nil p) as N.
    split; [exact N|]. split; [|rewrite uintValue_to_uint; reflexivity].
    cbn [append]. f_equal.
    destruct (Pos.to_uint p); try reflexivity; congruence.
Qed.

Lemma verbD_Itoa (n z : Z) (rest : list Z) :
  isInt z -> headIs (fun r => negb (isDigits r)) rest = true ->
  n + Z.of_nat (String.length (Itoa z)) <= hugeWid ->
  verbD (mkSs n (codes (Itoa z) ++ rest))
  = Some (z, mkSs (n + Z.of_nat (String.length (Itoa z))) rest).
Proof.
  intros I Hd B.
  destruct (Itoa_cases z) as [(d & N & E & V)|(d & N & E & V)]; rewrite E in *; subst z.
  - apply verbD_uint; assumption.
  - apply verbD_neg_uint; assumption.
Qed.

Lemma Itoa_field (z : Z) :
  isField (Itoa z) = true
  /\ headIs (fun r => negb (isSpace r)) (codes (Itoa z)) = true.
Proof.
  destruct (Itoa_cases z) as [(d & N & E & V)|(d & N & E & V)]; rewrite E;
    destruct (uint_leading_digit d N) as (c & s & Ed & D);
    destruct (digit_facts c D) as (_ & _ & _ & Sp);
    destruct (uint_digits d) as (P & _).
  - split; [|rewrite Ed; simpl; rewrite Sp; reflexivity].
    unfold isField. rewrite P. rewrite Ed. reflexivity.
  - split; [|reflexivity]. unfold isField. cbn [plain String.eqb negb].
    rewrite P. reflexivity.
Qed.


(** *** The length of a numeral *)

Lemma uint_length (d : Decimal.uint) :
  String.length (NilEmpty.string_of_uint d) = Decimal.nb_digits d.
Proof. induction d; simpl; try reflexivity; rewrite IHd; reflexivity. Qed.

Lemma double_length (d : Decimal.uint) :
  (Decimal.nb_digits (Decimal.Little.double d) <= S (Decimal.nb_digits d))%nat
  /\ (Decimal.nb_digits (Decimal.Little.succ_double d) <= S (Decimal.nb_digits d))%nat.
Proof.
  induction d as [|d [A B]|d [A B]|d [A B]|d [A B]|d [A B]|d [A B]|d [A B]
                  |d [A B]|d [A B]|d [A B]]; simpl; lia.
Qed.

Lemma little_uint_length (p : positive) :
  (Decimal.nb_digits (Pos.to_little_uint p) <= Pos.size_nat p)%nat.
Proof.
  induction p as [p IH|p IH|]; simpl.
  - pose proof (proj2 (double_length (Pos.to_little_uint p))). lia.
  - pose proof (proj1 (double_length (Pos.to_little_uint p))). lia.
  - lia.
Qed.

Lemma size_nat_pow (p : positive) : 2 ^ (Z.of_nat (Pos.size_nat p) - 1) <= Z.pos p.
Proof.
  induction p as [p IH|p IH|]; cbn [Pos.size_nat]; [| |simpl; lia].
  - replace (Z.of_nat (S (Pos.size_nat p)) - 1) with (Z.succ (Z.of_nat (Pos.size_nat p) - 1))
      by lia.
    assert (1 <= Pos.size_nat p)%nat by (destruct p; simpl; lia).
    rewrite Z.pow_succ_r by lia. lia.
  - replace (Z.of_nat (S (Pos.size_nat p)) - 1) with (Z.succ (Z.of_nat (Pos.size_nat p) - 1))
      by lia.
    assert (1 <= Pos.size_nat p)%nat by (destruct p; simpl; lia).
    rewrite Z.pow_succ_r by lia. lia.
Qed.

Lemma to_uint_length (p : positive) :
  Z.pos p <= 2 ^ 63 -> (String.length (NilEmpty.string_of_uint (Pos.to_uint p)) <= 64)%nat.
Proof.
  intros H. rewrite uint_length. unfold Pos.to_uint. rewrite DecimalFacts.nb_digits_rev.
  pose proof (little_uint_length p) as L. pose proof (size_nat_pow p) as S.
  assert (Z.of_nat (Pos.size_nat p) - 1 <= 63); [|lia].
  apply (Z.pow_le_mono_r_iff 2); lia.
Qed.

Lemma Itoa_length (z : Z) : isInt z -> (String.length (Itoa z) <= 65)%nat.
Proof.
  unfold isInt, min_int, max_int, Itoa. intros I.
  destruct z as [|p|p]; cbn [Z.to_int NilZero.string_of_int].
  - simpl. lia.
  - pose proof (to_uint_not_Nil p) as N.
    replace (NilZero.string_of_uint (Pos.to_uint p))
      with (NilEmpty.string_of_uint (Pos.to_uint p))
      by (destruct (Pos.to_uint p); try reflexivity; congruence).
    pose proof (to_uint_length p ltac:(lia)). lia.
  - pose proof (to_uint_not_Nil p) as N.
    replace (NilZero.string_of_uint (Pos.to_uint p))
      with (NilEmpty.string_of_uint (Pos.to_uint p))
      by (destruct (Pos.to_uint p); try reflexivity; congruence).
    cbn [append String.length].
    pose proof (to_uint_length p ltac:(lia)). lia.
Qed.

(** *** The six fields *)

Lemma field_head (a : string) (rest : list Z) :
  isField a = true -> headIs (fun r => negb (isSpace r)) (codes a ++ rest) = true.
Proof.
  unfold isField. intros F. apply andb_prop in F. destruct F as (Ne & P).
  destruct a as [|c a]; [discriminate Ne|].
  cbn [plain] in P. apply andb_prop in P. destruct P as (Pc & _).
  destruct (plainByte_code c Pc) as (_ & S). simpl. rewrite S. reflexivity.
Qed.

Lemma isField_plain (a : string) : isField a = true -> plain a = true.
Proof. unfold isField. intros F. apply andb_prop in F. apply F. Qed.

(** [Sscanf] reads six fields back that a single blank separates, in a
    text that is shorter than the scanner's limit. *)
Lemma Sscanf_fields (a b c d : string) (h m : Z) :
  isField a = true -> isField b = true -> isField c = true -> isField d = true ->
  isInt h -> isInt m ->
  Z.of_nat (String.length a + String.length b + String.length c + String.length d)
    + 140 <= hugeWid ->
  Sscanf_ssssdd
    (a ++ String " " (b ++ String " " (c ++ String " " (d ++ String " "
       (Itoa h ++ String " " (Itoa m))))))%string
  = Some (a, b, c, d, h, m).
Proof.
  intros Ha Hb Hc Hd Hh Hm B.
  pose proof (Itoa_length h Hh) as Lh. pose proof (Itoa_length m Hm) as Lm.
  destruct (Itoa_field h) as (Fh & Sh). destruct (Itoa_field m) as (Fm & Sm).
  unfold Sscanf_ssssdd.
  rewrite (readRunes_plain a _ (isField_plain a Ha)), readRunes_blank.
  rewrite (readRunes_plain b _ (isField_plain b Hb)), readRunes_blank.
  rewrite (readRunes_plain c _ (isField_plain c Hc)), readRunes_blank.
  rewrite (readRunes_plain d _ (isField_plain d Hd)), readRunes_blank.
  rewrite (readRunes_plain _ _ (isField_plain _ Fh)), readRunes_blank.
  rewrite (readRunes_end _ (isField_plain _ Fm)).
  rewrite (verbS_field 0 a) by (auto; lia). cbn [andThen].
  rewrite advanceSpace_blank by (try apply field_head; auto; lia). cbn [andThen].
  rewrite (verbS_field _ b) by (auto; lia). cbn [andThen].
  rewrite advanceSpace_blank by (try apply field_head; auto; lia). cbn [andThen].
  rewrite (verbS_field _ c) by (auto; lia). cbn [andThen].
  rewrite advanceSpace_blank by (try apply field_head; auto; lia). cbn [andThen].
  rewrite (verbS_field _ d) by (auto; lia). cbn [andThen].
  rewrite advanceSpace_blank by (try apply field_head; auto; lia). cbn [andThen].
  rewrite (verbD_Itoa _ h) by (auto; lia). cbn [andThen].
  rewrite advanceSpace_blank by (auto; lia). cbn [andThen].
  rewrite <- (app_nil_r (codes (Itoa m))).
  rewrite (verbD_Itoa _ m) by (auto; lia). reflexivity.
Qed.

Lemma forM_steps {A St} (I : nat -> St -> Prop) (xs : list A)
    (body : St -> A -> res St) :
  (forall k x s, nth_error xs k = Some x -> I k s ->
                 exists s', body s x = Ret s' /\ I (S k) s') ->
  forall s0, I 0%nat s0 ->
  exists s', forM xs body s0 = Ret s' /\ I (List.length xs) s'.
Proof.
  revert I. induction xs as [|x xs IH]; intros I Hstep s0 H0; simpl.
  - eauto.
  - destruct (Hstep 0%nat x s0 eq_refl H0) as (s1 & E1 & H1).
    rewrite E1. simpl.
    apply (IH (fun k => I (S k))); [|exact H1].
    intros k y s Hk Hs. apply (Hstep (S k) y s Hk Hs).
Qed.

Lemma forM_app {A St} (xs ys : list A) (body : St -> A -> res St) (s : St) :
  forM (xs ++ ys) body s = (s' <- forM xs body s ;; forM ys body s').
Proof.
  revert s. induction xs as [|x xs IH]; intros s; simpl; [reflexivity|].
  destruct (body s x); simpl; [apply IH | reflexivity].
Qed.

Lemma list_ascii_of_string_app (s t : string) :
  list_ascii_of_string (s ++ t) = list_ascii_of_string s ++ list_ascii_of_string t.
Proof. induction s as [|c s IH]; simpl; [reflexivity | rewrite IH; reflexivity]. Qed.

Lemma parseFrom_app (st st' : placement) (s t : string) :
  parseFrom st s = Ret st' -> parseFrom st (s ++ t) = parseFrom st' t.
Proof.
  unfold parseFrom. intros E. rewrite list_ascii_of_string_app, forM_app, E.
  reflexivity.
Qed.

Lemma plain_app (s t : string) :
  plain (s ++ t) = plain s && plain t.
Proof.
  induction s as [|c s IH]; simpl; [reflexivity|]. rewrite IH.
  rewrite andb_assoc. reflexivity.
Qed.

Lemma Itoa_digit (e : Z) :
  1 <= e <= 8 ->
  exists c, Itoa e = String c EmptyString
            /\ byte_of c - byte_of "0" = e
            /\ (byte_of "1" <=? byte_of c) && (byte_of c <=? byte_of "8") = true
            /\ Ascii.eqb c "/" = false
            /\ plain (String c EmptyString) = true.
Proof.
  intros H.
  assert (C : e = 1 \/ e = 2 \/ e = 3 \/ e = 4 \/ e = 5 \/ e = 6 \/ e = 7 \/ e = 8)
    by lia.
  destruct C as [->|[->|[->|[->|[->|[->|[->| ->]]]]]]];
    eexists; repeat split; reflexivity.
Qed.

Lemma int64_small (z : Z) : -64 <= z <= 64 -> int64 z = z.
Proof.
  intros H. apply int64_id. unfold isInt, min_int, max_int. lia.
Qed.

Lemma parseFrom_digit (st : placement) (e : Z) :
  1 <= e <= 8 -> 0 <= pl_x st <= 8 ->
  parseFrom st (Itoa e)
  = Ret (mkPlacement (pl_board st) (pl_pieces st) (pl_x st + e) (pl_y st)).
Proof.
  intros He Hx. destruct (Itoa_digit e He) as (c & -> & Hv & Hd & Hs & _).
  unfold parseFrom. simpl. unfold parsePlacementStep.
  rewrite Hs, Hd, Hv. simpl. rewrite int64_small by lia. reflexivity.
Qed.

Lemma parseFrom_slash (st : placement) :
  0 <= pl_y st <= 8 ->
  parseFrom st "/"
  = Ret (mkPlacement (pl_board st) (pl_pieces st) 0 (pl_y st - 1)).
Proof.
  intros Hy. unfold parseFrom. simpl. rewrite int64_small by lia. reflexivity.
Qed.

Lemma pieceChar_facts (c : ascii) :
  pieceChar c = true ->
  Ascii.eqb c "/" = false
  /\ (byte_of "1" <=? byte_of c) && (byte_of c <=? byte_of "8") = false
  /\ noBlank (String c EmptyString) = true
  /\ Piece_eqb c NoPiece = false.
Proof.
  unfold pieceChar. intros H. apply negb_true_iff in H.
  apply orb_false_iff in H. destruct H as (H & H3).
  apply orb_false_iff in H. destruct H as (H1 & H2).
  repeat split; auto.
  - simpl. rewrite H1. reflexivity.
  - unfold Piece_eqb, NoPiece.
    destruct (Ascii.eqb_spec c " ") as [->|]; [discriminate H1 | reflexivity].
Qed.

Lemma plainSquare_facts (p : Piece) :
  plainSquare p = true -> Piece_eqb p NoPiece = false ->
  pieceChar p = true /\ plain (String p EmptyString) = true.
Proof.
  unfold plainSquare. intros H N. rewrite N in H. simpl in H.
  apply andb_prop in H. destruct H as (H1 & H2). split; [exact H1|].
  unfold pieceChar in H1. apply negb_true_iff in H1.
  apply orb_false_iff in H1. destruct H1 as (H1 & _).
  apply orb_false_iff in H1. destruct H1 as (H1 & _).
  simpl. unfold plainByte. rewrite H2, H1. reflexivity.
Qed.

Lemma plainSquare_clean (p : Piece) : plainSquare p = true -> cleanSquare p = true.
Proof.
  unfold plainSquare, cleanSquare. destruct (Piece_eqb p NoPiece); [reflexivity|].
  simpl. intros H. apply andb_prop in H. apply H.
Qed.

Lemma plainBoard_clean (b : list Piece) : plainBoard b -> cleanBoard b.
Proof.
  intros (L & P). split; [exact L|]. rewrite forallb_forall in *.
  intros p Hp. apply plainSquare_clean, P, Hp.
Qed.

Lemma parseFrom_piece (st : placement) (c : ascii) :
  pieceChar c = true ->
  0 <= pl_x st < 8 -> 0 <= pl_y st < 8 ->
  List.length (pl_board st) = 64%nat ->
  parseFrom st (String c EmptyString)
  = Ret (mkPlacement (setNth (pl_board st) (Z.to_nat (pl_y st * 8 + pl_x st)) c)
                     (AddPosition (pl_pieces st) c (pl_y st * 8 + pl_x st))
                     (pl_x st + 1) (pl_y st)).
Proof.
  intros Hc Hx Hy HL. destruct (pieceChar_facts c Hc) as (H1 & H2 & _ & _).
  unfold parseFrom. simpl. unfold parsePlacementStep. rewrite H1, H2.
  rewrite !int64_small by lia.
  unfold boardSet.
  replace (pl_y st * 8 + pl_x st <? 0) with false by (symmetry; apply Z.ltb_ge; lia).
  replace (Z.to_nat (pl_y st * 8 + pl_x st) <? List.length (pl_board st))%nat
    with true by (symmetry; apply Nat.ltb_lt; lia).
  simpl. unfold u64. rewrite Z.mod_small by lia. reflexivity.
Qed.

Lemma cleanBoard_square (b : list Piece) (i : nat) (p : Piece) :
  cleanBoard b -> nth_error b i = Some p ->
  if Piece_eqb p NoPiece then p = NoPiece else pieceChar p = true.
Proof.
  intros (_ & C) E. rewrite forallb_forall in C.
  specialize (C p (nth_error_In _ _ E)). unfold cleanSquare in C.
  destruct (Piece_eqb p NoPiece) eqn:N.
  - apply Ascii.eqb_eq in N. exact N.
  - exact C.
Qed.

Lemma plainBoard_square (b : list Piece) (i : nat) (p : Piece) :
  plainBoard b -> nth_error b i = Some p ->
  if Piece_eqb p NoPiece then p = NoPiece
  else pieceChar p = true /\ plain (String p EmptyString) = true.
Proof.
  intros (_ & C) E. rewrite forallb_forall in C.
  specialize (C p (nth_error_In _ _ E)).
  destruct (Piece_eqb p NoPiece) eqn:N.
  - apply Ascii.eqb_eq in N. exact N.
  - apply (plainSquare_facts p C N).
Qed.

Lemma boardAt_nth (b : list Piece) (pos : Z) :
  0 <= pos < Z.of_nat (List.length b) ->
  exists p, boardAt b pos = Ret p /\ nth_error b (Z.to_nat pos) = Some p.
Proof.
  intros H. unfold boardAt.
  replace (pos <? 0) with false by (symmetry; apply Z.ltb_ge; lia).
  destruct (nth_error b (Z.to_nat pos)) as [p|] eqn:E; [eauto|].
  apply nth_error_None in E. lia.
Qed.

Lemma square_step (b : list Piece) (y x e : Z) (forStr : string) :
  plainBoard b -> 0 <= y < 8 -> 0 <= x < 8 ->
  inStep b y x e forStr ->
  exists forStr' e',
    ChessEngine.FENString_square b y (forStr, e) x = Ret (forStr', e')
    /\ inStep b y (x + 1) e' forStr'.
Proof.
  intros C Hy Hx (st & Ep & Ex & Ey & EL & He & Hn & Hb).
  pose proof C as (CL & _).
  destruct (boardAt_nth b (y * 8 + x)) as (p & Eat & Enth); [lia|].
  unfold ChessEngine.FENString_square. rewrite Eat. simpl bind.
  pose proof (plainBoard_square b _ p C Enth) as Hp.
  assert (Hpos : (Z.to_nat (y * 8 + x) < 64)%nat) by lia.
  assert (Hnw : ~ written y x (y * 8 + x)) by (unfold written; lia).
  destruct (Piece_eqb p NoPiece) eqn:N; simpl negb; cbv iota.
  - (* an empty square: one more pending *)
    subst p. do 2 eexists. split; [reflexivity|].
    exists st. repeat split; try assumption; try lia.
    + intros W. destruct (Z.eq_dec (Z.of_nat i) (y * 8 + x)) as [Ei|Ni].
      * replace i with (Z.to_nat (y * 8 + x)) by lia.
        rewrite Enth. apply (Hb _ Hpos). rewrite Z2Nat.id by lia. exact Hnw.
      * apply (Hb i H). unfold written in *. lia.
    + intros W. apply (Hb i H). unfold written in *. lia.
  - (* a piece: the pending count, then the piece *)
    destruct Hp as (Hp & Hnb).
    set (st1 := mkPlacement (pl_board st) (pl_pieces st) x y).
    assert (E1 : exists s1, parseFrom (mkPlacement emptyBoard NewPiecePositions 0 7) s1
                            = Ret st1
                            /\ plain s1 = true
                            /\ s1 = if negb (e =? 0) then (forStr ++ Itoa e)%string
                                    else forStr).
    { destruct (Z.eqb_spec e 0) as [->|Ne]; simpl negb; cbv iota.
      - exists forStr. split; [|auto]. rewrite Ep. f_equal.
        destruct st; simpl in *. unfold st1. simpl. f_equal; lia.
      - exists (forStr ++ Itoa e)%string. split; [|split; [|reflexivity]].
        + rewrite (parseFrom_app _ st _ _ Ep).
          rewrite parseFrom_digit by lia. unfold st1. rewrite Ey. f_equal.
          f_equal. lia.
        + rewrite plain_app, Hn.
          destruct (Itoa_digit e) as (c & -> & _ & _ & _ & Hc); [lia|]. exact Hc. }
    destruct E1 as (s1 & Es1 & Hn1 & ->).
    do 2 eexists. split; [reflexivity|].
    eexists. split.
    { unfold string_of_piece. rewrite (parseFrom_app _ st1 _ _ Es1).
      apply parseFrom_piece; simpl; auto; lia. }
    simpl pl_x. simpl pl_y. simpl pl_board.
    repeat split; try lia.
    + rewrite length_setNth. exact EL.
    + unfold string_of_piece. rewrite plain_app, Hn1. exact Hnb.
    + intros W. rewrite StoreFacts.nth_error_setNth.
      destruct (Nat.eqb_spec (Z.to_nat (y * 8 + x)) i) as [Ei|Ni].
      * subst i. rewrite EL.
        replace (Z.to_nat (y * 8 + x) <? 64)%nat with true
          by (symmetry; apply Nat.ltb_lt; lia).
        symmetry. exact Enth.
      * apply (Hb i H). unfold written in *. lia.
    + intros W. rewrite StoreFacts.nth_error_setNth.
      destruct (Nat.eqb_spec (Z.to_nat (y * 8 + x)) i) as [Ei|Ni].
      * exfalso. apply W. unfold written. lia.
      * apply (Hb i H). unfold written in *. lia.
Qed.

Lemma nth_error_upto7 (k : nat) (x : Z) :
  nth_error upto7 k = Some x -> x = Z.of_nat k /\ (k < 8)%nat.
Proof.
  unfold upto7. do 8 (destruct k as [|k]; [intros E; injection E as <-; split; [reflexivity|lia]|]).
  destruct k; discriminate.
Qed.

Lemma nth_error_downto7 (k : nat) (y : Z) :
  nth_error downto7 k = Some y -> y = 7 - Z.of_nat k /\ (k < 8)%nat.
Proof.
  unfold downto7. do 8 (destruct k as [|k]; [intros E; injection E as <-; split; [reflexivity|lia]|]).
  destruct k; discriminate.
Qed.

(** After rank [y]: the serializer is at the start of the next rank, or,
    after rank 0, at the end of the board. *)
Lemma rank_step (b : list Piece) (y : Z) (forStr : string) :
  plainBoard b -> 0 <= y < 8 ->
  inStep b y 0 0 forStr ->
  exists forStr',
    ChessEngine.FENString_rank b forStr y = Ret forStr'
    /\ if y =? 0 then inStep b 0 8 0 forStr' else inStep b (y - 1) 0 0 forStr'.
Proof.
  intros C Hy H0. unfold ChessEngine.FENString_rank.
  destruct (forM_steps
              (fun k (s : string * Z) => inStep b y (Z.of_nat k) (snd s) (fst s))
              upto7 (ChessEngine.FENString_square b y)) with (s0 := (forStr, 0))
    as ([s e] & E & I).
  { intros k x [s e] Hk Hs. apply nth_error_upto7 in Hk. destruct Hk as (-> & Hk).
    destruct (square_step b y (Z.of_nat k) e s C Hy ltac:(lia) Hs)
      as (s' & e' & E' & I').
    exists (s', e'). split; [exact E'|]. cbn [fst snd].
    replace (Z.of_nat (S k)) with (Z.of_nat k + 1) by lia. exact I'. }
  { exact H0. }
  rewrite E. simpl bind. simpl in I.
  change (Z.of_nat 8) with 8 in I.
  destruct I as (st & Ep & Ex & Ey & EL & He & Hn & Hb).
  (* the pending empty squares of the rank *)
  set (st1 := mkPlacement (pl_board st) (pl_pieces st) 8 y).
  assert (E1 : exists s1, parseFrom (mkPlacement emptyBoard NewPiecePositions 0 7) s1
                          = Ret st1
                          /\ plain s1 = true
                          /\ s1 = if negb (e =? 0) then (s ++ Itoa e)%string else s).
  { destruct (Z.eqb_spec e 0) as [->|Ne]; simpl negb; cbv iota.
    - exists s. split; [|auto]. rewrite Ep. f_equal.
      destruct st; simpl in *. unfold st1. simpl. f_equal; lia.
    - exists (s ++ Itoa e)%string. split; [|split; [|reflexivity]].
      + rewrite (parseFrom_app _ st _ _ Ep).
        rewrite parseFrom_digit by lia. unfold st1. rewrite Ey. f_equal.
        f_equal. lia.
      + rewrite plain_app, Hn.
        destruct (Itoa_digit e) as (c & -> & _ & _ & _ & Hc); [lia|]. exact Hc. }
  destruct E1 as (s1 & Es1 & Hn1 & <-).
  eexists. split; [reflexivity|].
  destruct (Z.eqb_spec y 0) as [->|Ny]; simpl negb; cbv iota.
  - exists st1. unfold st1. simpl. repeat split; try assumption; try lia.
    + intros W. apply (Hb i H). unfold written in *. lia.
    + intros W. apply (Hb i H). unfold written in *. lia.
  - eexists. split.
    { rewrite (parseFrom_app _ st1 _ _ Es1). apply parseFrom_slash. simpl. lia. }
    simpl. repeat split; try assumption; try lia.
    + rewrite plain_app, Hn1. reflexivity.
    + intros W. apply (Hb i H). unfold written in *. lia.
    + intros W. apply (Hb i H). unfold written in *. lia.
Qed.

Lemma nth_error_repeat_lt {A} (x : A) (n i : nat) :
  (i < n)%nat -> nth_error (repeat x n) i = Some x.
Proof.
  revert i. induction n as [|n IH]; intros [|i] H; simpl; try lia; auto.
  apply IH. lia.
Qed.

Lemma nth_error_eq {A} (l l' : list A) :
  (forall i, nth_error l i = nth_error l' i) -> l = l'.
Proof.
  revert l'. induction l as [|x l IH]; intros [|y l'] H.
  - reflexivity.
  - specialize (H 0%nat). discriminate.
  - specialize (H 0%nat). discriminate.
  - pose proof (H 0%nat) as H0. injection H0 as ->. f_equal.
    apply IH. intros i. apply (H (S i)).
Qed.

(** The placement field: [FENString] writes it, and [ParseFEN] reads the
    board back from it. *)
Lemma placement_roundtrip (b : list Piece) :
  plainBoard b ->
  exists forStr st,
    forM downto7 (ChessEngine.FENString_rank b) EmptyString = Ret forStr
    /\ parseFrom (mkPlacement emptyBoard NewPiecePositions 0 7) forStr = Ret st
    /\ pl_board st = b
    /\ pl_y st = 0
    /\ plain forStr = true.
Proof.
  intros C.
  destruct (forM_steps
              (fun k (s : string) =>
                 if (k <? 8)%nat then inStep b (7 - Z.of_nat k) 0 0 s
                 else inStep b 0 8 0 s)
              downto7 (ChessEngine.FENString_rank b)) with (s0 := EmptyString)
    as (forStr & E & I).
  { intros k y s Hk Hs. apply nth_error_downto7 in Hk. destruct Hk as (-> & Hk).
    replace (k <? 8)%nat with true in Hs by (symmetry; apply Nat.ltb_lt; lia).
    destruct (rank_step b (7 - Z.of_nat k) s C ltac:(lia) Hs) as (s' & E' & I').
    exists s'. split; [exact E'|].
    destruct (Z.eqb_spec (7 - Z.of_nat k) 0) as [E0|N0].
    - replace (S k <? 8)%nat with false by (symmetry; apply Nat.ltb_ge; lia).
      exact I'.
    - replace (S k <? 8)%nat with true by (symmetry; apply Nat.ltb_lt; lia).
      replace (7 - Z.of_nat (S k)) with (7 - Z.of_nat k - 1) by lia. exact I'. }
  { simpl. exists (mkPlacement emptyBoard NewPiecePositions 0 7).
    repeat split; try reflexivity; try lia.
    - intros W. unfold written in W. lia.
    - intros _. apply nth_error_repeat_lt. exact H. }
  simpl in I. destruct I as (st & Ep & Ex & Ey & EL & He & Hn & Hb).
  exists forStr, st. split; [exact E|]. split; [exact Ep|].
  split; [|split; [exact Ey | exact Hn]].
  destruct C as (CL & _). apply nth_error_eq. intros i.
  destruct (Nat.lt_ge_cases i 64) as [Hi|Hi].
  - apply (Hb i Hi). unfold written. lia.
  - transitivity (@None Piece); [|symmetry]; apply nth_error_None; lia.
Qed.

(** ** The placement FENString writes stays on the board *)

Lemma forM_indexed {A St} (I : nat -> St -> Prop) (xs : list A)
    (body : St -> A -> res St) :
  (forall k x s s', nth_error xs k = Some x -> I k s -> body s x = Ret s' ->
                    I (S k) s') ->
  forall s0 s', I 0%nat s0 -> forM xs body s0 = Ret s' -> I (List.length xs) s'.
Proof.
  revert I. induction xs as [|x xs IH]; intros I Hstep s0 s' H0 H; simpl in *.
  - injection H as <-. exact H0.
  - bind_split H as s1 E1.
    apply (IH (fun k => I (S k))) with (s0 := s1); [|exact (Hstep 0%nat x s0 s1 eq_refl H0 E1)|exact H].
    intros k y s t Hk Hs Ht. apply (Hstep (S k) y s t Hk Hs Ht).
Qed.

Lemma scanPlacement_app (l1 l2 : list ascii) (x y : Z) :
  scanPlacement x y (l1 ++ l2)
  = match scanPlacement x y l1 with
    | Some (x', y') => scanPlacement x' y' l2
    | None => None
    end.
Proof.
  revert x y. induction l1 as [|c l1 IH]; intros x y; simpl; [reflexivity|].
  destruct (Ascii.eqb c "/").
  - destruct (0 <? y); [apply IH | reflexivity].
  - destruct ((byte_of "1" <=? byte_of c) && (byte_of c <=? byte_of "8")).
    + destruct (x + (byte_of c - byte_of "0") <=? 8); [apply IH | reflexivity].
    + destruct (x <? 8); [apply IH | reflexivity].
Qed.

(** The scan of the text [s] ends on file [x] of rank [y]. *)
Lemma scan_snoc (s t : string) (x y x' y' : Z) :
  scanPlacement 0 7 (list_ascii_of_string s) = Some (x, y) ->
  scanPlacement x y (list_ascii_of_string t) = Some (x', y') ->
  scanPlacement 0 7 (list_ascii_of_string (s ++ t)) = Some (x', y').
Proof.
  intros Hs Ht. rewrite list_ascii_of_string_app, scanPlacement_app, Hs. exact Ht.
Qed.

Lemma scan_pending (s : string) (x y e : Z) :
  0 <= e <= x -> x <= 8 ->
  scanPlacement 0 7 (list_ascii_of_string s) = Some (x - e, y) ->
  scanPlacement 0 7
    (list_ascii_of_string (if negb (e =? 0) then (s ++ Itoa e)%string else s))
  = Some (x, y).
Proof.
  intros He Hx Hs. destruct (Z.eqb_spec e 0) as [->|Ne]; simpl negb; cbv iota.
  - rewrite Hs. f_equal. f_equal. lia.
  - apply (scan_snoc _ _ _ _ _ _ Hs).
    destruct (Itoa_digit e) as (c & -> & Hv & Hd & Hsl & _); [lia|].
    simpl. rewrite Hsl, Hd, Hv.
    replace (x - e + e) with x by lia.
    destruct (Z.leb_spec x 8); [reflexivity | lia].
Qed.

Lemma boardAt_nth_error (b : list Piece) (pos : Z) (p : Piece) :
  boardAt b pos = Ret p -> nth_error b (Z.to_nat pos) = Some p.
Proof.
  unfold boardAt. destruct (pos <? 0); [discriminate|].
  destruct (nth_error b (Z.to_nat pos)); congruence.
Qed.

Lemma square_scan (b : list Piece) (y x e : Z) (forStr forStr' : string) (e' : Z) :
  cleanBoard b -> 0 <= x < 8 ->
  0 <= e <= x ->
  scanPlacement 0 7 (list_ascii_of_string forStr) = Some (x - e, y) ->
  ChessEngine.FENString_square b y (forStr, e) x = Ret (forStr', e') ->
  0 <= e' <= x + 1
  /\ scanPlacement 0 7 (list_ascii_of_string forStr') = Some (x + 1 - e', y).
Proof.
  intros C Hx He Hs. unfold ChessEngine.FENString_square.
  intros H. bind_split H as p Ep.
  pose proof (cleanBoard_square b _ p C (boardAt_nth_error _ _ _ Ep)) as Hp.
  destruct (Piece_eqb p NoPiece); simpl negb in H; cbv iota in H.
  - injection H as <- <-. split; [lia|]. rewrite Hs. f_equal. f_equal. lia.
  - injection H as <- <-. split; [lia|].
    destruct (pieceChar_facts p Hp) as (Hsl & Hd & _ & _).
    apply (scan_snoc _ _ x y).
    + apply scan_pending; [lia | lia | exact Hs].
    + unfold string_of_piece. simpl. rewrite Hsl, Hd.
      destruct (Z.ltb_spec x 8); [|lia]. f_equal. f_equal. lia.
Qed.

Lemma rank_scan (b : list Piece) (y : Z) (forStr forStr' : string) :
  cleanBoard b -> 0 <= y < 8 ->
  scanPlacement 0 7 (list_ascii_of_string forStr) = Some (0, y) ->
  ChessEngine.FENString_rank b forStr y = Ret forStr' ->
  scanPlacement 0 7 (list_ascii_of_string forStr')
  = Some (if y =? 0 then (8, 0) else (0, y - 1)).
Proof.
  intros C Hy Hs. unfold ChessEngine.FENString_rank. intros H.
  bind_split H as st Est. destruct st as [s e].
  assert (I : 0 <= e <= 8
              /\ scanPlacement 0 7 (list_ascii_of_string s) = Some (8 - e, y)).
  { revert Est.
    apply (forM_indexed
             (fun k (st : string * Z) =>
                0 <= snd st <= Z.of_nat k
                /\ scanPlacement 0 7 (list_ascii_of_string (fst st))
                   = Some (Z.of_nat k - snd st, y))
             upto7 (ChessEngine.FENString_square b y) ) with (s0 := (forStr, 0)).
    - intros k x [s0 e0] [s1 e1] Hk (He0 & Hs0) E. cbn [fst snd] in *.
      apply nth_error_upto7 in Hk. destruct Hk as (-> & Hk).
      destruct (square_scan b y (Z.of_nat k) e0 s0 s1 e1 C ltac:(lia) He0 Hs0 E)
        as (He1 & Hs1).
      replace (Z.of_nat (S k)) with (Z.of_nat k + 1) by lia. auto.
    - cbn [fst snd]. split; [lia|]. rewrite Hs. reflexivity. }
  destruct I as (He & Hse).
  pose proof (scan_pending s 8 y e He ltac:(lia) Hse) as Hp.
  injection H as <-.
  destruct (Z.eqb_spec y 0) as [->|Ny]; simpl negb; cbv iota.
  - exact Hp.
  - apply (scan_snoc _ _ 8 y _ _ Hp). simpl.
    destruct (Z.ltb_spec 0 y); [reflexivity | lia].
Qed.

Lemma FENString_placement_proper (b : list Piece) (forStr : string) :
  cleanBoard b ->
  forM downto7 (ChessEngine.FENString_rank b) EmptyString = Ret forStr ->
  properPlacement forStr = true.
Proof.
  intros C H. unfold properPlacement.
  assert (I : scanPlacement 0 7 (list_ascii_of_string forStr) = Some (8, 0)).
  { revert H.
    apply (forM_indexed
             (fun k (s : string) =>
                scanPlacement 0 7 (list_ascii_of_string s)
                = Some (if (k <? 8)%nat then (0, 7 - Z.of_nat k) else (8, 0)))
             downto7 (ChessEngine.FENString_rank b)) with (s0 := EmptyString).
    - intros k y s s' Hk Hs E.
      apply nth_error_downto7 in Hk. destruct Hk as (-> & Hk).
      replace (k <? 8)%nat with true in Hs by (symmetry; apply Nat.ltb_lt; lia).
      rewrite (rank_scan b (7 - Z.of_nat k) s s' C ltac:(lia) Hs E).
      destruct (Z.eqb_spec (7 - Z.of_nat k) 0) as [E0|N0].
      + replace (S k <? 8)%nat with false by (symmetry; apply Nat.ltb_ge; lia).
        reflexivity.
      + replace (S k <? 8)%nat with true by (symmetry; apply Nat.ltb_lt; lia).
        f_equal. f_equal. lia.
    - reflexivity. }
  rewrite I. reflexivity.
Qed.


(** ** The text FENString writes *)

Lemma length_list_ascii (s : string) :
  List.length (list_ascii_of_string s) = String.length s.
Proof. induction s as [|c s IH]; simpl; [reflexivity | rewrite IH; reflexivity]. Qed.

(** A placement that stays on the board has at most 71 bytes. *)
Lemma scanPlacement_length (l : list ascii) :
  forall x y last, 0 <= x <= 8 -> 0 <= y ->
    scanPlacement x y l = Some last -> len l <= (8 - x) + 9 * y.
Proof.
  induction l as [|c l IH]; intros x y last Hx Hy H.
  - unfold len. cbn [List.length]. lia.
  - cbn [scanPlacement] in H.
    assert (L : len (c :: l) = len l + 1) by (unfold len; cbn [List.length]; lia).
    rewrite L. destruct (Ascii.eqb c "/").
    + destruct (Z.ltb_spec 0 y); [|discriminate].
      specialize (IH 0 (y - 1) last ltac:(lia) ltac:(lia) H). lia.
    + destruct ((byte_of "1" <=? byte_of c) && (byte_of c <=? byte_of "8")) eqn:D.
      * apply andb_prop in D. destruct D as (D1 & _). apply Z.leb_le in D1.
        change (byte_of "1") with 49 in D1. change (byte_of "0") with 48 in *.
        destruct (Z.leb_spec (x + (byte_of c - 48)) 8); [|discriminate].
        specialize (IH (x + (byte_of c - 48)) y last ltac:(lia) Hy H). lia.
      * destruct (Z.ltb_spec x 8); [|discriminate].
        specialize (IH (x + 1) y last ltac:(lia) Hy H). lia.
Qed.

Lemma castleField_roundtrip (w b : CastleStatus) :
  isField (castleField w b) = true
  /\ parseCastle (castleField w b) "K" "Q" = w
  /\ parseCastle (castleField w b) "k" "q" = b.
Proof. destruct w, b; vm_compute; auto. Qed.

Lemma Color_String_roundtrip (c : Color) :
  c <> NoColor ->
  isField (Color_String c) = true
  /\ (if String.eqb (Color_String c) "w" then Some White
      else if String.eqb (Color_String c) "b" then Some Black else None) = Some c.
Proof. destruct c; [congruence | |]; intros _; vm_compute; auto. Qed.


Lemma castleField_length (w b : CastleStatus) :
  (String.length (castleField w b) <= 4)%nat.
Proof. destruct w, b; vm_compute; lia. Qed.

Lemma Color_String_length (c : Color) : (String.length (Color_String c) <= 1)%nat.
Proof. destruct c; vm_compute; lia. Qed.

Lemma enPassantField_length (ep : Position) :
  (String.length (enPassantField ep) <= 2)%nat.
Proof.
  unfold enPassantField, Position_String.
  destruct (negb (ep =? 0)); [|simpl; lia].
  destruct (NoPosition =? ep); simpl; lia.
Qed.

Lemma plainByte_bounds (c : ascii) : 33 <= byte_of c < 128 -> plainByte c = true.
Proof.
  intros H. unfold plainByte, blankByte.
  destruct (Z.ltb_spec (byte_of c) 128); [|lia].
  destruct (Z.leb_spec (byte_of c) 13); [lia|].
  destruct (Z.eqb_spec (byte_of c) 32); [lia|].
  rewrite andb_false_r. reflexivity.
Qed.

Lemma parsePosition_chars (c0 c1 : ascii) :
  snd (parsePosition (String c0 (String c1 EmptyString))) = true ->
  65 <= byte_of c0 <= 104 /\ 49 <= byte_of c1 <= 56.
Proof.
  unfold parsePosition.
  change (byte_of "a") with 97. change (byte_of "h") with 104.
  change (byte_of "A") with 65. change (byte_of "H") with 72.
  change (byte_of "1") with 49. change (byte_of "8") with 56.
  destruct ((97 <=? byte_of c0) && (byte_of c0 <=? 104)) eqn:L.
  - apply andb_prop in L. destruct L as (L1 & L2). apply Z.leb_le in L1, L2.
    destruct ((49 <=? byte_of c1) && (byte_of c1 <=? 56)) eqn:R; [|discriminate].
    apply andb_prop in R. destruct R as (R1 & R2). apply Z.leb_le in R1, R2.
    intros _. lia.
  - destruct ((65 <=? byte_of c0) && (byte_of c0 <=? 72)) eqn:U; [|discriminate].
    apply andb_prop in U. destruct U as (U1 & U2). apply Z.leb_le in U1, U2.
    destruct ((49 <=? byte_of c1) && (byte_of c1 <=? 56)) eqn:R; [|discriminate].
    apply andb_prop in R. destruct R as (R1 & R2). apply Z.leb_le in R1, R2.
    intros _. lia.
Qed.

Lemma enPassantField_readable (f : FEN) :
  enPassantReadable f = true ->
  isField (enPassantField (EnPassantVulnerable f)) = true
  /\ exists q,
       (if String.eqb (enPassantField (EnPassantVulnerable f)) "-"
        then inl NoPosition
        else ParsePosition (enPassantField (EnPassantVulnerable f))) = inl q.
Proof.
  unfold enPassantReadable, enPassantField.
  destruct (Z.eqb_spec (EnPassantVulnerable f) 0) as [E|N]; simpl negb; cbv iota.
  - intros _. split; [reflexivity|]. exists NoPosition. reflexivity.
  - simpl orb. unfold Position_String.
    replace (NoPosition =? EnPassantVulnerable f) with false
      by (symmetry; apply Z.eqb_neq; unfold NoPosition; lia).
    set (c0 := ascii_of (GetFile (EnPassantVulnerable f))).
    set (c1 := ascii_of (GetRank (EnPassantVulnerable f))).
    intros H. destruct (parsePosition_chars c0 c1 H) as (H0 & H1).
    split.
    + unfold isField. simpl.
      rewrite (plainByte_bounds c0) by lia. rewrite (plainByte_bounds c1) by lia.
      reflexivity.
    + assert (Ne : String.eqb (String c0 (String c1 EmptyString)) "-" = false).
      { simpl. destruct (Ascii.eqb c0 "-"); reflexivity. }
      rewrite Ne. unfold ParsePosition.
      destruct (parsePosition (String c0 (String c1 EmptyString))) as [q ok].
      simpl in H. subst ok. exists q. reflexivity.
Qed.

Lemma placement_field (b : list Piece) :
  plainBoard b ->
  exists forStr st,
    forM downto7 (ChessEngine.FENString_rank b) EmptyString = Ret forStr
    /\ parseFrom (mkPlacement emptyBoard NewPiecePositions 0 7) forStr = Ret st
    /\ pl_board st = b
    /\ isField forStr = true
    /\ (String.length forStr <= 71)%nat.
Proof.
  intros C. destruct (placement_roundtrip b C) as (forStr & st & E & P & B & Y & N).
  exists forStr, st. repeat split; auto.
  - unfold isField. rewrite N.
    destruct forStr; [|reflexivity].
    exfalso. injection P as <-. discriminate Y.
  - pose proof (FENString_placement_proper b forStr (plainBoard_clean b C) E) as Pr.
    unfold properPlacement in Pr.
    destruct (scanPlacement 0 7 (list_ascii_of_string forStr)) as [last|] eqn:Sc;
      [|discriminate].
    pose proof (scanPlacement_length _ 0 7 last ltac:(lia) ltac:(lia) Sc) as L.
    unfold len in L. rewrite length_list_ascii in L. lia.
Qed.

(** What [Sscanf] reads in the text [FENString] writes for a position the
    codec can carry: the six fields, as they were written. *)
Lemma FENString_scanned (f : FEN) :
  codecPosition f -> enPassantReadable f = true ->
  exists forStr st text,
    forM downto7 (ChessEngine.FENString_rank (Board f)) EmptyString = Ret forStr
    /\ parseFrom (mkPlacement emptyBoard NewPiecePositions 0 7) forStr = Ret st
    /\ pl_board st = Board f
    /\ ChessEngine.FENString f = Ret text
    /\ text = (forStr ++ String " " (Color_String (ToMove f) ++ String " "
                 (castleField (WhiteCastleStatus f) (BlackCastleStatus f) ++ String " "
                 (enPassantField (EnPassantVulnerable f) ++ String " "
                 (Itoa (HalfmoveClock f) ++ String " " (Itoa (Fullmove f)))))))%string
    /\ Sscanf_ssssdd text
       = Some (forStr, Color_String (ToMove f),
               castleField (WhiteCastleStatus f) (BlackCastleStatus f),
               enPassantField (EnPassantVulnerable f),
               HalfmoveClock f, Fullmove f).
Proof.
  intros (C & T & Hh & Hm) Hep.
  destruct (placement_field (Board f) C) as (forStr & st & E & P & B & Ff & Lf).
  destruct (castleField_roundtrip (WhiteCastleStatus f) (BlackCastleStatus f))
    as (Fc & _).
  destruct (Color_String_roundtrip (ToMove f) T) as (Ft & _).
  destruct (enPassantField_readable f Hep) as (Fe & _).
  pose proof (castleField_length (WhiteCastleStatus f) (BlackCastleStatus f)) as Lc.
  pose proof (Color_String_length (ToMove f)) as Lt.
  pose proof (enPassantField_length (EnPassantVulnerable f)) as Le.
  exists forStr, st. eexists. split; [exact E|]. split; [exact P|]. split; [exact B|].
  split; [unfold ChessEngine.FENString; rewrite E; cbn [bind]; reflexivity|].
  split; [reflexivity|].
  apply (Sscanf_fields _ _ _ _ _ _ Ff Ft Fc Fe Hh Hm).
  unfold hugeWid. lia.
Qed.

(** Writing a position the codec can carry and reading the text back
    succeeds and reproduces board, castling rights, side to move and
    clocks, provided the en-passant field is readable; the line read back
    is empty, and the en-passant square is what [ParsePosition] makes of
    the field. *)
Lemma codec_roundtrip (f : FEN) :
  codecPosition f -> enPassantReadable f = true ->
  exists s g, ChessEngine.FENString f = Ret s
              /\ ChessEngine.ParseFEN s = Ret (inl g)
              /\ sameCodecFields f g
              /\ EnPassantVulnerable g = enPassantReadBack (EnPassantVulnerable f)
              /\ Line g = [].
Proof.
  intros C Hep.
  destruct (FENString_scanned f C Hep) as (forStr & st & text & E & P & B & Es & _ & S).
  destruct C as (C & T & Hh & Hm).
  destruct (castleField_roundtrip (WhiteCastleStatus f) (BlackCastleStatus f))
    as (Fc & Cw & Cb).
  destruct (Color_String_roundtrip (ToMove f) T) as (Ft & Ct).
  destruct (enPassantField_readable f Hep) as (Fe & q & Eq).
  exists text. eexists. split; [exact Es|].
  unfold ChessEngine.ParseFEN, ParseFEN_with.
  rewrite S. cbv iota beta. rewrite Ct, Eq.
  change (parsePlacement _ forStr)
    with (parseFrom (mkPlacement emptyBoard NewPiecePositions 0 7) forStr).
  rewrite P. cbn [bind]. refine (conj eq_refl _).
  split; [unfold sameCodecFields; simpl; rewrite Cw, Cb; repeat split; exact B|].
  split; [|reflexivity]. simpl.
  unfold enPassantReadBack. unfold enPassantField in Eq.
  destruct (Z.eqb_spec (EnPassantVulnerable f) 0) as [E0|N0]; simpl negb in Eq;
    cbv iota in Eq.
  - simpl in Eq. congruence.
  - unfold Position_String in *.
    replace (NoPosition =? EnPassantVulnerable f) with false in *
      by (symmetry; apply Z.eqb_neq; unfold NoPosition; lia).
    set (c0 := ascii_of (GetFile (EnPassantVulnerable f))) in *.
    set (c1 := ascii_of (GetRank (EnPassantVulnerable f))) in *.
    assert (Ne : String.eqb (String c0 (String c1 EmptyString)) "-" = false).
    { simpl. destruct (Ascii.eqb c0 "-"); reflexivity. }
    rewrite Ne in Eq. unfold ParsePosition in Eq.
    destruct (parsePosition (String c0 (String c1 EmptyString))) as [q' ok].
    destruct ok; [|discriminate]. simpl. congruence.
Qed.

(** ** What ParseFEN returns *)

(** The fields [Sscanf] returns: the first is the word [%s] reads at the
    start of the text and holds no white space of ASCII, the numbers are
    [int]s. *)
Lemma Sscanf_inv (text a b c d : string) (h m : Z) :
  Sscanf_ssssdd text = Some (a, b, c, d, h, m) ->
  (exists s, verbS (mkSs 0 (readRunes 0 text)) = Some (a, s))
  /\ noBlank a = true /\ isInt h /\ isInt m.
Proof.
  unfold Sscanf_ssssdd, andThen. intros H.
  destruct (verbS (mkSs 0 (readRunes 0 text))) as [[a' s1]|] eqn:Ea; [|discriminate].
  destruct (advanceSpace s1) as [s2|]; [|discriminate].
  destruct (verbS s2) as [[b' s3]|]; [|discriminate].
  destruct (advanceSpace s3) as [s4|]; [|discriminate].
  destruct (verbS s4) as [[c' s5]|]; [|discriminate].
  destruct (advanceSpace s5) as [s6|]; [|discriminate].
  destruct (verbS s6) as [[d' s7]|]; [|discriminate].
  destruct (advanceSpace s7) as [s8|]; [|discriminate].
  destruct (verbD s8) as [[h' s9]|] eqn:Eh; [|discriminate].
  destruct (advanceSpace s9) as [s10|]; [|discriminate].
  destruct (verbD s10) as [[m' s11]|] eqn:Em; [|discriminate].
  injection H as <- <- <- <- <- <-.
  split; [exists s1; reflexivity|].
  split; [apply (verbS_noBlank (mkSs 0 (readRunes 0 text)) _ _ (readRunes_ok text 0) Ea)|].
  split; [apply (verbD_isInt _ _ _ Eh) | apply (verbD_isInt _ _ _ Em)].
Qed.

Lemma noBlank_In (s : string) (c : ascii) :
  noBlank s = true -> In c (list_ascii_of_string s) -> blankByte c = false.
Proof.
  induction s as [|d s IH]; simpl; intros H I; [contradiction|].
  apply andb_prop in H. destruct H as (Hd & Hs). destruct I as [E|I].
  - subst d. apply negb_true_iff in Hd. exact Hd.
  - apply IH; assumption.
Qed.

Lemma forallb_setNth {A} (P : A -> bool) (l : list A) (n : nat) (x : A) :
  forallb P l = true -> P x = true -> forallb P (setNth l n x) = true.
Proof.
  revert n. induction l as [|y l IH]; intros [|n] Hl Hx; simpl in *; auto;
    apply andb_prop in Hl; destruct Hl as (Hy & Hl); apply andb_true_intro; auto.
Qed.


Lemma boardSet_keeps (P : Piece -> bool) (b b' : list Piece) (p : Z) (x : Piece) :
  List.length b = 64%nat -> forallb P b = true ->
  P x = true -> boardSet b p x = Ret b' ->
  List.length b' = 64%nat /\ forallb P b' = true.
Proof.
  intros L C Hx E. split.
  - rewrite (boardSet_length _ _ _ _ E). exact L.
  - unfold boardSet in E. destruct (p <? 0); [discriminate|].
    destruct (Z.to_nat p <? List.length b)%nat; [|discriminate].
    injection E as <-. apply forallb_setNth; assumption.
Qed.

(** The board the placement loop builds holds the bytes of the field
    that are no separator and no digit from 1 to 8. *)
Lemma parsePlacement_keeps (P : Piece -> bool) (forStr : string) (st : placement) :
  P NoPiece = true ->
  (forall c, In c (list_ascii_of_string forStr) -> Ascii.eqb c "/" = false ->
             (byte_of "1" <=? byte_of c) && (byte_of c <=? byte_of "8") = false ->
             P c = true) ->
  parseFrom (mkPlacement emptyBoard NewPiecePositions 0 7) forStr = Ret st ->
  List.length (pl_board st) = 64%nat /\ forallb P (pl_board st) = true.
Proof.
  intros P0 HP. unfold parseFrom.
  apply (forM_invariant
           (fun st => List.length (pl_board st) = 64%nat
                      /\ forallb P (pl_board st) = true)).
  - intros s c s' Hc (L & C) E. unfold parsePlacementStep in E.
    destruct (Ascii.eqb c "/") eqn:Sl; [injection E as <-; split; assumption|].
    destruct ((byte_of "1" <=? byte_of c) && (byte_of c <=? byte_of "8")) eqn:Dg;
      [injection E as <-; split; assumption|].
    bind_split E as board Eb. simpl in E. injection E as <-. simpl.
    apply (boardSet_keeps P _ _ _ c L C (HP c Hc Sl Dg) Eb).
  - split; [reflexivity|]. simpl. rewrite P0. reflexivity.
Qed.

Lemma parsePlacement_clean (forStr : string) (st : placement) :
  noBlank forStr = true ->
  parseFrom (mkPlacement emptyBoard NewPiecePositions 0 7) forStr = Ret st ->
  cleanBoard (pl_board st).
Proof.
  intros N. apply parsePlacement_keeps; [reflexivity|].
  intros c Hc Sl Dg. unfold cleanSquare, pieceChar.
  rewrite (noBlank_In forStr c N Hc), Sl, Dg. simpl. apply orb_true_r.
Qed.

(** What [ParseFEN] returns: a board of 64 squares, each empty or a piece
    byte, a side to move and clocks that are [int]s. *)
Lemma ParseFEN_clean (text : string) (f : FEN) :
  ChessEngine.ParseFEN text = Ret (inl f) ->
  cleanBoard (Board f) /\ ToMove f <> NoColor
  /\ isInt (HalfmoveClock f) /\ isInt (Fullmove f).
Proof.
  unfold ChessEngine.ParseFEN, ParseFEN_with.
  destruct (Sscanf_ssssdd text) as [[[[[[a b] c] d] h] m]|] eqn:S; [|discriminate].
  destruct (Sscanf_inv _ _ _ _ _ _ _ S) as (_ & Na & Hh & Hm).
  destruct (if String.eqb b "w" then Some White
            else if String.eqb b "b" then Some Black else None) as [toMove|] eqn:Et;
    [|discriminate].
  destruct (if String.eqb d "-" then inl NoPosition else ParsePosition d)
    as [ep|err]; [|discriminate].
  intros H. bind_split H as st Est. injection H as <-.
  simpl. split; [apply (parsePlacement_clean a st Na Est)|].
  split; [|split; assumption].
  destruct (String.eqb b "w"); [injection Et as <-; discriminate|].
  destruct (String.eqb b "b"); [injection Et as <-; discriminate | discriminate].
Qed.

Lemma int64_isInt (z : Z) : isInt (int64 z).
Proof.
  unfold isInt, int64, min_int, max_int.
  pose proof (Z.mod_pos_bound (z + 2 ^ 63) (2 ^ 64) ltac:(lia)). lia.
Qed.


Lemma boardAt_keeps (P : Piece -> bool) (b : list Piece) (p : Z) (x : Piece) :
  forallb P b = true -> boardAt b p = Ret x -> P x = true.
Proof.
  intros C E. unfold boardAt in E. destruct (p <? 0); [discriminate|].
  destruct (nth_error b (Z.to_nat p)) as [y|] eqn:N; [|discriminate].
  injection E as <-. rewrite forallb_forall in C.
  apply C, (nth_error_In _ _ N).
Qed.

(** ** The positions the program can reach *)

Lemma ApplyMove_codecPosition (f g : FEN) (m : Move) :
  codecPosition f -> promotionOk m = true ->
  ChessEngine.ApplyMove f m = Ret g ->
  codecPosition g /\ EnPassantVulnerable g = 0.
Proof.
  intros ((L & C) & T & Hh & Hm) Pm H. unfold ChessEngine.ApplyMove in H.
  rewrite (copyBoard_64 _ L) in H. simpl bind in H.
  bind_split H as mp Emp. bind_split H as b1 E1. bind_split H as cp Ecp.
  bind_split H as b2 E2. bind_split H as b3 E3. bind_split H as castle Ec.
  destruct castle as [w b]. injection H as <-.
  destruct (boardSet_keeps plainSquare _ _ _ NoPiece L C eq_refl E1) as (L1 & C1).
  destruct (boardSet_keeps plainSquare _ _ _ _ L1 C1 (boardAt_keeps _ _ _ _ C Emp) E2)
    as (L2 & C2).
  assert (B3 : List.length b3 = 64%nat /\ forallb plainSquare b3 = true).
  { destruct (negb (Piece_eqb (Promote m) NoPiece)).
    - apply (boardSet_keeps plainSquare _ _ _ _ L2 C2 Pm E3).
    - injection E3 as <-. auto. }
  split; [|reflexivity]. unfold codecPosition. simpl. repeat split.
  - apply B3.
  - apply B3.
  - destruct (ToMove f); discriminate.
  - apply int64_isInt.
  - apply int64_isInt.
  - destruct (Color_eqb (ToMove f) Black); [apply int64_isInt | apply Hm].
  - destruct (Color_eqb (ToMove f) Black); [apply int64_isInt | apply Hm].
Qed.

(** A byte of a valid placement that the loop stores is a letter. *)
Lemma placementByte_plain (c : ascii) :
  placementByte c = true -> Ascii.eqb c "/" = false ->
  (byte_of "1" <=? byte_of c) && (byte_of c <=? byte_of "8") = false ->
  plainSquare c = true.
Proof.
  unfold placementByte, letter, within.
  change (byte_of "1") with 49. change (byte_of "8") with 56.
  intros H Sl Dg. rewrite Sl, Dg, !orb_false_r in H.
  assert (B : 65 <= byte_of c <= 122).
  { apply orb_prop in H. destruct H as [H|H]; apply andb_prop in H;
      destruct H as (H1 & H2); apply Z.leb_le in H1, H2; lia. }
  unfold plainSquare, pieceChar, blankByte.
  change (byte_of "1") with 49. change (byte_of "8") with 56. rewrite Sl, Dg.
  destruct (Z.leb_spec (byte_of c) 13); [lia|].
  destruct (Z.eqb_spec (byte_of c) 32); [lia|].
  destruct (Z.ltb_spec (byte_of c) 128); [|lia].
  rewrite andb_false_r. simpl. apply orb_true_r.
Qed.

(** The squares of the en-passant field of a valid text: the field
    [FENString] writes for the square [ParsePosition] returns is one
    [ParsePosition] accepts. *)
Lemma targets_readable :
  forallb (fun k =>
             forallb (fun c1 =>
                        match ParsePosition (String (ascii_of k) (String c1 EmptyString)) with
                        | inl ep => (ep =? 0) || snd (parsePosition (Position_String ep))
                        | inr _ => false
                        end) ["3"; "6"]%char)
          [97; 98; 99; 100; 101; 102; 103; 104; 65; 66; 67; 68; 69; 70; 71; 72] = true.
Proof. vm_compute. reflexivity. Qed.

Lemma targetField_readable (d : string) (ep : Position) :
  targetField d = true ->
  (if String.eqb d "-" then inl NoPosition else ParsePosition d) = inl ep ->
  (ep =? 0) || snd (parsePosition (Position_String ep)) = true.
Proof.
  unfold targetField. destruct (String.eqb d "-").
  { intros _ H. injection H as <-. reflexivity. }
  simpl orb. destruct d as [|c0 [|c1 [|c2 d]]]; try discriminate.
  intros V H. apply andb_prop in V. destruct V as (V0 & V1).
  pose proof targets_readable as A. rewrite forallb_forall in A.
  assert (I0 : In (byte_of c0)
                  [97; 98; 99; 100; 101; 102; 103; 104; 65; 66; 67; 68; 69; 70; 71; 72]).
  { unfold within in V0. apply orb_prop in V0.
    destruct V0 as [V0|V0]; apply andb_prop in V0; destruct V0 as (A1 & A2);
      apply Z.leb_le in A1, A2; simpl; lia. }
  specialize (A _ I0). rewrite ascii_of_byte_of in A. rewrite forallb_forall in A.
  assert (I1 : In c1 ["3"; "6"]%char).
  { apply orb_prop in V1. destruct V1 as [V1|V1]; apply Ascii.eqb_eq in V1; subst c1;
      simpl; auto. }
  specialize (A _ I1). rewrite H in A. exact A.
Qed.

Lemma valid_text_codecPosition (text : string) (f : FEN) :
  validPositionText text = true ->
  ChessEngine.ParseFEN text = Ret (inl f) ->
  codecPosition f /\ enPassantReadable f = true.
Proof.
  unfold validPositionText, ChessEngine.ParseFEN, ParseFEN_with.
  destruct (Sscanf_ssssdd text) as [[[[[[a b] c] d] h] m]|] eqn:S; [|discriminate].
  destruct (Sscanf_inv _ _ _ _ _ _ _ S) as (_ & _ & Hh & Hm).
  intros V. apply andb_prop in V. destruct V as (Va & Vd).
  destruct (if String.eqb b "w" then Some White
            else if String.eqb b "b" then Some Black else None) as [toMove|] eqn:Et;
    [|discriminate].
  destruct (if String.eqb d "-" then inl NoPosition else ParsePosition d)
    as [ep|err] eqn:Ee; [|discriminate].
  intros H. bind_split H as st Est. injection H as <-.
  split.
  - unfold codecPosition. simpl. split; [|split; [|split; assumption]].
    + apply (parsePlacement_keeps plainSquare a st eq_refl); [|exact Est].
      intros c0 Hc Sl Dg. rewrite forallb_forall in Va.
      apply (placementByte_plain c0 (Va c0 Hc) Sl Dg).
    + destruct (String.eqb b "w"); [injection Et as <-; discriminate|].
      destruct (String.eqb b "b"); [injection Et as <-; discriminate | discriminate].
  - unfold enPassantReadable. simpl. apply (targetField_readable d ep Vd Ee).
Qed.

Lemma reachable_codecPosition (f : FEN) :
  reachable f -> codecPosition f /\ enPassantReadable f = true.
Proof.
  induction 1 as [text f V H | f g m R (IH & _) Pm H].
  - apply (valid_text_codecPosition text f V H).
  - destruct (ApplyMove_codecPosition f g m IH Pm H) as (C & E).
    split; [exact C|]. unfold enPassantReadable. rewrite E. reflexivity.
Qed.

(** ** The codec on the reachable positions *)

(** C3. For every reachable position, one parsed from valid position
    text or produced from a reachable position by [ApplyMove], [ParseFEN]
    accepts the text [FENString] writes, and the position read back has
    the same board, castling rights, side to move and clocks. *)
Theorem reachable_roundtrip (f : FEN) :
  reachable f ->
  exists s g, ChessEngine.FENString f = Ret s
              /\ ChessEngine.ParseFEN s = Ret (inl g)
              /\ sameCodecFields f g.
Proof.
  intros R. destruct (reachable_codecPosition f R) as (C & E).
  destruct (codec_roundtrip f C E) as (s & g & Es & Eg & S & _).
  exists s, g. auto.
Qed.

Lemma reachable_roundtrip_witness :
  exists f g, ChessEngine.ParseFEN afterE4E5 = Ret (inl f)
              /\ ChessEngine.ApplyMove f (NewMove G1 21) = Ret g
              /\ exists s g', ChessEngine.FENString g = Ret s
                              /\ ChessEngine.ParseFEN s = Ret (inl g')
                              /\ sameCodecFields g g'.
Proof.
  destruct (ChessEngine.ParseFEN afterE4E5) as [[f|]|] eqn:E;
    try (vm_compute in E; discriminate).
  destruct (ChessEngine.ApplyMove f (NewMove G1 21)) as [g|] eqn:A;
    [|vm_compute in E; injection E as <-; vm_compute in A; discriminate].
  exists f, g. split; [reflexivity|]. split; [exact A|].
  apply (reachable_roundtrip g).
  apply (reachable_applied f g (NewMove G1 21)); [|reflexivity|exact A].
  apply (reachable_parsed afterE4E5 f); [vm_compute; reflexivity | exact E].
Defined.

(** ** The codec on an en-passant square off the ranks 3 and 6 *)

(** A text whose en-passant field names g1 is accepted by [ParseFEN],
    and the position is written back with the en-passant field "a9",
    which [ParseFEN] refuses: [PositionFromFileRank] returns the bit
    [1 << 6] for g1 where [GetFile] and [GetRank] read a square index.
    No target square of a valid text is concerned. *)
Remark FENString_of_en_passant_g1_is_refused :
  exists p s,
    ChessEngine.ParseFEN enPassantG1 = Ret (inl p)
    /\ EnPassantVulnerable p = 64
    /\ ChessEngine.FENString p = Ret s
    /\ s = "4k3/8/8/8/8/8/8/4K3 w - a9 0 1"
    /\ ChessEngine.ParseFEN s = Ret (inr (InvalidPositionString "a9")).
Proof.
  do 2 eexists. split; [vm_compute; reflexivity|].
  split; [reflexivity|]. split; [vm_compute; reflexivity|].
  split; [reflexivity|]. vm_compute. reflexivity.
Qed.

(** ** The two generations of the move generator *)

(** C10. The two generations of [ValidMoves] differ.  In [rookEnding] the
    second returns the ten moves of the rook on a1 and the first only its
    two one-square moves; in [blackPawns] the second gives the double step
    to the pawn on a7 and the first to the pawn on b6; in
    [queenBesideKing] the first lets the checked king step onto its own
    queen. *)
Theorem ValidMoves_generations_differ :
  (List.length (movesOf (ChessEngine.ValidMoves rookEnding)) = 15%nat
   /\ List.length (movesOf (Main.ValidMoves rookEnding)) = 7%nat
   /\ hasMove (movesOf (ChessEngine.ValidMoves rookEnding)) 0 16 = true
   /\ hasMove (movesOf (Main.ValidMoves rookEnding)) 0 16 = false)
  /\ (hasMove (movesOf (ChessEngine.ValidMoves blackPawns)) 48 32 = true
      /\ hasMove (movesOf (Main.ValidMoves blackPawns)) 48 32 = false
      /\ hasMove (movesOf (ChessEngine.ValidMoves blackPawns)) 41 25 = false
      /\ hasMove (movesOf (Main.ValidMoves blackPawns)) 41 25 = true)
  /\ (hasMove (movesOf (ChessEngine.ValidMoves queenBesideKing)) 4 3 = false
      /\ hasMove (movesOf (Main.ValidMoves queenBesideKing)) 4 3 = true).
Proof. vm_compute. repeat split. Qed.

(** ** The store-level ApplyMove computes the position of the pure one *)

Module StoreRefinement.
Import Store.

Lemma bindM_step {A B} (m : M A) (k : A -> M B) (h h1 : heap) (a : A) :
  m h = Ret (a, h1) -> bindM m k h = k a h1.
Proof. intros E. unfold bindM. rewrite E. reflexivity. Qed.

Lemma alloc_new (h ext : heap) (o : object) :
  alloc o (h ++ ext) = Ret ((List.length h + List.length ext)%nat, h ++ (ext ++ [o])).
Proof. unfold alloc. rewrite length_app, app_assoc. reflexivity. Qed.

Lemma nth_error_new (h ext : heap) (i : nat) :
  nth_error (h ++ ext) (List.length h + i)%nat = nth_error ext i.
Proof.
  rewrite nth_error_app2 by lia. f_equal. lia.
Qed.

Lemma nth_error_new0 (h ext : heap) (o : object) :
  nth_error (h ++ o :: ext) (List.length h) = Some o.
Proof. rewrite nth_error_app2, Nat.sub_diag by lia. reflexivity. Qed.

Lemma nth_error_old (h ext : heap) (a : loc) (o : object) :
  nth_error h a = Some o -> nth_error (h ++ ext) a = Some o.
Proof.
  intros E. rewrite nth_error_app1; [exact E|]. apply nth_error_Some. congruence.
Qed.

Lemma setNth_new {A} (l ext : list A) (i : nat) (x : A) :
  setNth (l ++ ext) (List.length l + i)%nat x = l ++ setNth ext i x.
Proof.
  induction l as [|y l IH]; simpl; [reflexivity|]. rewrite IH. reflexivity.
Qed.

Lemma setNth_middle {A} (l rest : list A) (j : nat) (y x : A) :
  List.length l = j -> setNth (l ++ y :: rest) j x = l ++ x :: rest.
Proof.
  intros <-. rewrite <- (Nat.add_0_r (List.length l)).
  rewrite setNth_new. reflexivity.
Qed.

Lemma firstn_snoc {A} (l : list A) (j : nat) (x : A) :
  nth_error l j = Some x -> firstn (S j) l = firstn j l ++ [x].
Proof.
  revert j. induction l as [|y l IH]; intros [|j] E; simpl in *; try discriminate.
  - injection E as ->. reflexivity.
  - f_equal. apply IH, E.
Qed.

Lemma store_new (h ext : heap) (i : nat) (o : object) :
  (i < List.length ext)%nat ->
  store (List.length h + i)%nat o (h ++ ext) = Ret (tt, h ++ setNth ext i o).
Proof.
  intros L. unfold store. rewrite length_app.
  replace (List.length h + i <? List.length h + List.length ext)%nat with true
    by (symmetry; apply Nat.ltb_lt; lia).
  rewrite setNth_new. reflexivity.
Qed.

Section Pointers.

Variable h : heap.
Variables f move : loc.
Variable p : FEN.
Variable m : Move.
Hypothesis Hf : readFEN h f = Some p.
Hypothesis Hmove : nth_error h move = Some (OMove m).

Lemma receiver_object :
  exists fo, nth_error h f = Some (OFEN fo)
    /\ readBoard h (oBoard fo) = Some (Board p)
    /\ readPieces h (oPieces fo) = Some (Pieces p)
    /\ readLine h (oLine fo) = Some (Line p)
    /\ oToMove fo = ToMove p
    /\ oWhiteCastleStatus fo = WhiteCastleStatus p
    /\ oBlackCastleStatus fo = BlackCastleStatus p
    /\ oHalfmoveClock fo = HalfmoveClock p
    /\ oFullmove fo = Fullmove p.
Proof.
  pose proof Hf as H. unfold readFEN in H.
  destruct (nth_error h f) as [[| | | |fo]|]; try discriminate.
  destruct (readBoard h (oBoard fo)) as [b|] eqn:Eb; [|discriminate].
  destruct (readPieces h (oPieces fo)) as [pp|] eqn:Ep; [|discriminate].
  destruct (readLine h (oLine fo)) as [l|] eqn:El; [|discriminate].
  injection H as <-. exists fo. simpl. repeat split; assumption.
Qed.

Lemma loadFEN_old (fo : FENobj) (ext : heap) :
  nth_error h f = Some (OFEN fo) ->
  loadFEN f (h ++ ext) = Ret (fo, h ++ ext).
Proof.
  intros E. unfold loadFEN, bindM, load.
  rewrite (nth_error_old h ext f _ E). reflexivity.
Qed.

Lemma loadMove_old (ext : heap) :
  loadMove move (h ++ ext) = Ret (m, h ++ ext).
Proof.
  unfold loadMove, bindM, load.
  rewrite (nth_error_old h ext move _ Hmove). reflexivity.
Qed.

Lemma boardIndex_old (s : option loc) (b : list Piece) (i : Z) (x : Piece)
    (ext : heap) :
  readBoard h s = Some b -> boardAt b i = Ret x ->
  boardIndex s i (h ++ ext) = Ret (x, h ++ ext).
Proof.
  intros R E. unfold boardIndex, boardOf. unfold readBoard in R.
  destruct s as [a|]; unfold bindM.
  - unfold load. destruct (nth_error h a) as [[b0| | | |]|] eqn:Ea; try discriminate.
    injection R as ->. rewrite (nth_error_old h ext a _ Ea).
    simpl. rewrite E. reflexivity.
  - injection R as <-. simpl. rewrite E. reflexivity.
Qed.

Lemma piecesOf_old (s : option loc) (pp : PiecePositions) (ext : heap) :
  readPieces h s = Some pp -> piecesOf s (h ++ ext) = Ret (pp, h ++ ext).
Proof.
  intros R. unfold piecesOf, bindM, deref. unfold readPieces in R.
  destruct s as [a|]; [|discriminate]. unfold load.
  destruct (nth_error h a) as [[| | |pp0|]|] eqn:Ea; try discriminate.
  injection R as ->. rewrite (nth_error_old h ext a _ Ea). reflexivity.
Qed.

(** The line of the receiver as an array of pointers. *)
Lemma lineOf_old (s : option loc) (l : list Move) :
  readLine h s = Some l ->
  exists ptrs, (forall ext, lineOf s (h ++ ext) = Ret (ptrs, h ++ ext))
               /\ readMoves h ptrs = Some l.
Proof.
  intros R. unfold lineOf, bindM. unfold readLine in R.
  destruct s as [a|].
  - unfold load. destruct (nth_error h a) as [[|ptrs| | |]|] eqn:Ea; try discriminate.
    exists ptrs. split; [|exact R].
    intros ext. rewrite (nth_error_old h ext a _ Ea). reflexivity.
  - exists []. auto.
Qed.

Lemma readMoves_old (ext : heap) (ptrs : list (option loc)) (l : list Move) :
  readMoves h ptrs = Some l -> readMoves (h ++ ext) ptrs = Some l.
Proof.
  revert l. induction ptrs as [|[a|] ptrs IH]; simpl; intros l E; auto.
  destruct (nth_error h a) as [[| |x| |]|] eqn:Ea; try discriminate.
  rewrite (nth_error_old h ext a _ Ea).
  destruct (readMoves h ptrs) as [l'|]; [|discriminate].
  rewrite (IH l' eq_refl). exact E.
Qed.

Lemma readMoves_snoc (ext : heap) (ptrs : list (option loc)) (l : list Move) :
  readMoves h ptrs = Some l ->
  readMoves (h ++ ext) (ptrs ++ [Some move]) = Some (l ++ [m]).
Proof.
  revert l. induction ptrs as [|[a|] ptrs IH]; simpl; intros l E.
  - injection E as <-. rewrite (nth_error_old h ext move _ Hmove). reflexivity.
  - destruct (nth_error h a) as [[| |x| |]|] eqn:Ea; try discriminate.
    rewrite (nth_error_old h ext a _ Ea).
    destruct (readMoves h ptrs) as [l'|]; [|discriminate].
    rewrite (IH l' eq_refl). injection E as <-. reflexivity.
  - discriminate.
Qed.

Lemma readMoves_length (ptrs : list (option loc)) (l : list Move) :
  readMoves h ptrs = Some l -> List.length ptrs = List.length l.
Proof.
  revert l. induction ptrs as [|[a|] ptrs IH]; simpl; intros l E.
  - injection E as <-. reflexivity.
  - destruct (nth_error h a) as [[| |x| |]|]; try discriminate.
    destruct (readMoves h ptrs) as [l'|]; [|discriminate].
    injection E as <-. simpl. f_equal. apply IH. reflexivity.
  - discriminate.
Qed.

(** The objects [ApplyMove] allocates lie behind [h]: the struct, the
    line, the board, in this order. *)
Lemma lineStore_new (r : object) (l : list (option loc)) (j : nat) (x : option loc) :
  (j < List.length l)%nat ->
  lineStore (List.length h + 1)%nat j x (h ++ [r; OLine l])
  = Ret (tt, h ++ [r; OLine (setNth l j x)]).
Proof.
  intros L. unfold lineStore, lineOf, bindM, load.
  rewrite nth_error_new. simpl.
  replace (j <? List.length l)%nat with true by (symmetry; apply Nat.ltb_lt; lia).
  rewrite store_new by (simpl; lia). reflexivity.
Qed.

Lemma boardIndex_new (r li : object) (b : list Piece) (i : Z) (x : Piece) :
  boardAt b i = Ret x ->
  boardIndex (Some (List.length h + 2)%nat) i (h ++ [r; li; OBoard b])
  = Ret (x, h ++ [r; li; OBoard b]).
Proof.
  intros E. unfold boardIndex, boardOf, bindM, load.
  rewrite nth_error_new. simpl. rewrite E. reflexivity.
Qed.

Lemma boardStore_new (r li : object) (b b' : list Piece) (i : Z) (x : Piece) :
  boardSet b i x = Ret b' ->
  boardStore (List.length h + 2)%nat i x (h ++ [r; li; OBoard b])
  = Ret (tt, h ++ [r; li; OBoard b']).
Proof.
  intros E. unfold boardStore, boardOf, bindM, load.
  rewrite nth_error_new. simpl. rewrite E. simpl.
  rewrite store_new by (simpl; lia). reflexivity.
Qed.

Lemma copyLine_new (r : object) (xs pre : list (option loc)) :
  forS (indexed (List.length pre) xs)
       (fun im => lineStore (List.length h + 1)%nat (fst im) (snd im))
       (h ++ [r; OLine (pre ++ repeat None (List.length xs + 1))])
  = Ret (tt, h ++ [r; OLine (pre ++ xs ++ [None])]).
Proof.
  revert pre. induction xs as [|x xs IH]; intros pre; simpl.
  - reflexivity.
  - erewrite bindM_step.
    2:{ apply lineStore_new. rewrite length_app. simpl. lia. }
    rewrite (setNth_middle pre _ _ None x eq_refl).
    replace (S (List.length pre)) with (List.length (pre ++ [x]))
      by (rewrite length_app; simpl; lia).
    replace (pre ++ x :: repeat None (List.length xs + 1))
      with ((pre ++ [x]) ++ repeat None (List.length xs + 1))
      by (rewrite <- app_assoc; reflexivity).
    rewrite IH. rewrite <- app_assoc. reflexivity.
Qed.

Lemma copyBoard_new (fo : FENobj) (r li : object) (cnt j : nat) :
  nth_error h f = Some (OFEN fo) ->
  readBoard h (oBoard fo) = Some (Board p) ->
  (j + cnt <= List.length (Board p))%nat ->
  forS (map Z.of_nat (seq j cnt))
       (fun i => fo <~ loadFEN f ;;
                 x <~ boardIndex (oBoard fo) i ;;
                 boardStore (List.length h + 2)%nat i x)
       (h ++ [r; li; OBoard (firstn j (Board p) ++ repeat zeroPiece cnt)])
  = Ret (tt, h ++ [r; li; OBoard (firstn (j + cnt) (Board p))]).
Proof.
  intros Ef Eb. revert j. induction cnt as [|cnt IH]; intros j L; simpl.
  - rewrite Nat.add_0_r, app_nil_r. reflexivity.
  - destruct (nth_error (Board p) j) as [x|] eqn:Ex;
      [|apply nth_error_None in Ex; lia].
    assert (Lj : List.length (firstn j (Board p)) = j)
      by (apply firstn_length_le; lia).
    erewrite bindM_step.
    2:{ erewrite bindM_step; [|apply (loadFEN_old fo _ Ef)].
        erewrite bindM_step.
        2:{ apply (boardIndex_old (oBoard fo) (Board p) _ x _ Eb).
            unfold boardAt.
            replace (Z.of_nat j <? 0) with false by (symmetry; apply Z.ltb_ge; lia).
            rewrite Nat2Z.id, Ex. reflexivity. }
        apply boardStore_new. unfold boardSet.
        replace (Z.of_nat j <? 0) with false by (symmetry; apply Z.ltb_ge; lia).
        rewrite Nat2Z.id.
        replace (j <? List.length (firstn j (Board p) ++ zeroPiece :: repeat zeroPiece cnt))%nat
          with true
          by (symmetry; apply Nat.ltb_lt; rewrite length_app, Lj; simpl; lia).
        reflexivity. }
    rewrite (setNth_middle _ _ j zeroPiece x Lj).
    replace (firstn j (Board p) ++ x :: repeat zeroPiece cnt)
      with (firstn (S j) (Board p) ++ repeat zeroPiece cnt).
    2:{ rewrite (firstn_snoc _ _ x Ex), <- app_assoc. reflexivity. }
    replace (j + S cnt)%nat with (S j + cnt)%nat by lia.
    apply IH. lia.
Qed.

Lemma copyBoard_inv (b b0 : list Piece) :
  copyBoard b = Ret b0 -> (64 <= List.length b)%nat /\ b0 = firstn 64 b.
Proof.
  unfold copyBoard. destruct (List.length b <? 64)%nat eqn:L; [discriminate|].
  apply Nat.ltb_ge in L. intros E. split; [exact L | congruence].
Qed.

Lemma liftM_Ret {A} (r : res A) (a : A) (h0 : heap) :
  r = Ret a -> liftM r h0 = Ret (a, h0).
Proof. intros ->. reflexivity. Qed.

(** Whenever the pure [ApplyMove] returns a position, [ApplyMove] on the
    store returns a pointer to that position. *)
Lemma ApplyMove_refines (g : FEN) :
  ChessEngine.ApplyMove p m = Ret g ->
  exists h', Store.ApplyMove f move h = Ret (List.length h, h')
             /\ readFEN h' (List.length h) = Some g.
Proof.
  intros H.
  destruct receiver_object
    as (fo & Ef & Eb & Ep & El & ET & EW & EB & EH & EF).
  destruct (lineOf_old (oLine fo) (Line p) El) as (ptrs & Eptrs & Emoves).
  unfold ChessEngine.ApplyMove in H.
  bind_split H as board0 E0.
  apply copyBoard_inv in E0. destruct E0 as (L64 & ->).
  bind_split H as mp Emp. bind_split H as b1 E1. bind_split H as cp Ecp.
  bind_split H as b2 E2. bind_split H as b3 E3. bind_split H as castle Ec.
  destruct castle as [w b]. injection H as <-.
  assert (R : Store.ApplyMove f move (h ++ []) =
              Ret (List.length h,
                   h ++ [OFEN (mkFENobj (Some (List.length h + 2)%nat)
                                        (Some (List.length h + 3)%nat)
                                        (Opposite (ToMove p)) w b NoPosition
                                        (int64 (HalfmoveClock p + 1))
                                        (if Color_eqb (ToMove p) Black
                                         then int64 (Fullmove p + 1)
                                         else Fullmove p)
                                        (Some (List.length h + 1)%nat));
                         OLine (ptrs ++ [Some move]);
                         OBoard b3;
                         OPieces (PiecePositions_ApplyMove (Pieces p) (ToMove p) m
                                    (ToNormalizedPiece mp) (ToNormalizedPiece cp))])).
  { unfold Store.ApplyMove.
    erewrite bindM_step; [|apply alloc_new]. simpl List.length. simpl app.
    erewrite bindM_step; [|apply (loadFEN_old fo _ Ef)].
    erewrite bindM_step; [|apply Eptrs].
    erewrite bindM_step; [|apply alloc_new]. simpl List.length. simpl app.
    erewrite bindM_step; [|apply (copyLine_new _ ptrs [])].
    erewrite bindM_step; [|apply (loadFEN_old fo _ Ef)].
    erewrite bindM_step; [|apply Eptrs].
    erewrite bindM_step.
    2:{ apply lineStore_new. simpl app. rewrite length_app. simpl. lia. }
    simpl app. rewrite (setNth_middle ptrs [] _ None (Some move) eq_refl).
    erewrite bindM_step; [|apply alloc_new]. simpl List.length. simpl app.
    erewrite bindM_step.
    2:{ apply (copyBoard_new fo _ _ 64 0 Ef Eb). simpl. exact L64. }
    simpl Nat.add.
    erewrite bindM_step; [|apply loadMove_old].
    erewrite bindM_step; [|apply (boardIndex_new _ _ _ _ _ Emp)].
    erewrite bindM_step; [|apply (boardStore_new _ _ _ _ _ _ E1)].
    erewrite bindM_step; [|apply (boardIndex_new _ _ _ _ _ Ecp)].
    erewrite bindM_step; [|apply (boardStore_new _ _ _ _ _ _ E2)].
    erewrite bindM_step.
    2:{ destruct (negb (Piece_eqb (Promote m) NoPiece)).
        - apply (boardStore_new _ _ _ _ _ _ E3).
        - injection E3 as <-. reflexivity. }
    erewrite bindM_step; [|apply (loadFEN_old fo _ Ef)].
    erewrite bindM_step; [|apply liftM_Ret; rewrite EW, EB; exact Ec].
    erewrite bindM_step.
    2:{ unfold Store.Pieces_ApplyMove.
        erewrite bindM_step; [|apply (piecesOf_old _ _ _ Ep)].
        apply alloc_new. }
    simpl List.length. simpl app.
    erewrite bindM_step; [|apply (loadFEN_old fo _ Ef)].
    erewrite bindM_step; [|apply store_new; simpl; lia].
    simpl setNth. rewrite ET, EH, EF, Nat.add_0_r. reflexivity. }
  rewrite app_nil_r in R. eexists. split; [exact R|].
  unfold readFEN.
  rewrite nth_error_new0. unfold readBoard, readPieces, readLine. simpl.
  rewrite !nth_error_new. simpl nth_error.
  cbv beta iota.
  rewrite (readMoves_snoc _ ptrs (Line p) Emoves). reflexivity.
Qed.

End Pointers.

End StoreRefinement.

(** C6. [ApplyMove] is pure with respect to its receiver.  On a store in
    which [f] points to the position [p] and [move] to the move [m],
    [ApplyMove] returns whenever the function on positions does, and then
    with a pointer to the position that function returns; and whenever it
    returns, every object of the store it started on is as it was, so that
    [f] still points to [p] with its board, index, side to move, castling
    statuses, en-passant square, clocks and line, while the struct it
    returns did not exist before, nor did its board, index or line. *)
Theorem ApplyMove_leaves_receiver (h : Store.heap) (f move : Store.loc)
    (p : FEN) (m : Move) :
  Store.readFEN h f = Some p ->
  nth_error h move = Some (Store.OMove m) ->
  (forall g, ChessEngine.ApplyMove p m = Ret g ->
     exists result h', Store.ApplyMove f move h = Ret (result, h')
                       /\ Store.readFEN h' result = Some g)
  /\ (forall result h', Store.ApplyMove f move h = Ret (result, h') ->
        Store.readFEN h' f = Some p
        /\ Store.frame (List.length h) h h'
        /\ (List.length h <= result)%nat
        /\ exists g, nth_error h' result = Some (Store.OFEN g)
                     /\ Store.fresh (List.length h) (Store.oBoard g)
                     /\ Store.fresh (List.length h) (Store.oPieces g)
                     /\ Store.fresh (List.length h) (Store.oLine g)).
Proof.
  intros R Hm. split.
  - intros g Hg.
    destruct (StoreRefinement.ApplyMove_refines h f move p m R Hm g Hg)
      as (h' & E & G).
    exists (List.length h), h'. auto.
  - intros result h' E.
    destruct (StoreFacts.hoare_ApplyMove (List.length h) f move h result h'
                (Nat.le_refl _) E) as (_ & F & L & G).
    split; [apply (StoreFacts.readFEN_frame h h' f p F R)|].
    split; [exact F|]. split; [exact L | exact G].
Qed.

Lemma ApplyMove_leaves_receiver_witness :
  exists result h' g,
    Store.ApplyMove 3%nat 4%nat smallStore = Ret (result, h')
    /\ Store.readFEN smallStore 3%nat = Some rightsHeld
    /\ Store.readFEN h' 3%nat = Some rightsHeld
    /\ ChessEngine.ApplyMove rightsHeld (NewMove E8 G8) = Ret g
    /\ Store.readFEN h' result = Some g
    /\ (List.length smallStore <= result)%nat.
Proof.
  assert (R : Store.readFEN smallStore 3%nat = Some rightsHeld)
    by (vm_compute; reflexivity).
  assert (Hm : nth_error smallStore 4%nat = Some (Store.OMove (NewMove E8 G8)))
    by reflexivity.
  destruct (ChessEngine.ApplyMove rightsHeld (NewMove E8 G8)) as [g|] eqn:Eg;
    [|vm_compute in Eg; discriminate Eg].
  destruct (ApplyMove_leaves_receiver smallStore 3%nat 4%nat rightsHeld
              (NewMove E8 G8) R Hm) as (Sim & Pure).
  destruct (Sim g Eg) as (result & h' & E & G).
  destruct (Pure result h' E) as (H1 & _ & H3 & _).
  exists result, h', g. repeat split; assumption.
Defined.
(** * Further properties *)

(** ** Squares and their texts *)

Lemma squareBit_u64 (n : Z) : 0 <= n < 64 -> u64 (Z.shiftl 1 n) = 2 ^ n.
Proof.
  intros H. rewrite Z.shiftl_1_l. unfold u64. apply Z.mod_small.
  split; [apply Z.pow_nonneg; lia | apply Z.pow_lt_mono_r; lia].
Qed.

Lemma onFiles_bounds (f : File) : onFiles f = true <-> 97 <= f <= 104.
Proof.
  unfold onFiles. change (byte_of "a") with 97. change (byte_of "h") with 104.
  rewrite andb_true_iff, !Z.leb_le. reflexivity.
Qed.

Lemma onRanks_bounds (r : Rank) : onRanks r = true <-> 49 <= r <= 56.
Proof.
  unfold onRanks. change (byte_of "1") with 49. change (byte_of "8") with 56.
  rewrite andb_true_iff, !Z.leb_le. reflexivity.
Qed.

Lemma PositionFromFileRank_on (f : File) (r : Rank) :
  onFiles f = true -> onRanks r = true ->
  PositionFromFileRank f r = squareBit f r.
Proof.
  intros F R. apply onFiles_bounds in F. apply onRanks_bounds in R.
  unfold PositionFromFileRank, squareBit, FileA, Rank1, u8.
  change (byte_of "a") with 97. change (byte_of "1") with 49.
  rewrite (Z.mod_small (f - 97)) by lia. rewrite (Z.mod_small (r - 49)) by lia.
  replace ((f - 97 >? 7) || (r - 49 >? 7)) with false
    by (symmetry; rewrite !Z.gtb_ltb; apply orb_false_intro; apply Z.ltb_ge; lia).
  rewrite (Z.mod_small ((r - 49) * 8)) by lia.
  rewrite squareBit_u64 by lia. f_equal. lia.
Qed.

Lemma u8_small (z : Z) : 0 <= z < 256 -> u8 z = z.
Proof. intros H. apply Z.mod_small. lia. Qed.

Lemma u8_below (z : Z) : -256 <= z < 0 -> u8 z = z + 256.
Proof.
  intros H. unfold u8. rewrite <- (Z.mod_add z 1 256) by lia.
  apply Z.mod_small. lia.
Qed.

Lemma PositionFromFileRank_off (f : File) (r : Rank) :
  0 <= f < 256 -> 0 <= r < 256 ->
  onFiles f && onRanks r = false -> PositionFromFileRank f r = NoPosition.
Proof.
  intros Hf Hr H. unfold PositionFromFileRank, FileA, Rank1.
  change (byte_of "a") with 97. change (byte_of "1") with 49.
  destruct (u8 (f - 97) >? 7) eqn:A; [reflexivity|].
  destruct (u8 (r - 49) >? 7) eqn:B; [reflexivity|].
  exfalso. rewrite Z.gtb_ltb in A, B. apply Z.ltb_ge in A, B.
  assert (F : onFiles f = true).
  { apply onFiles_bounds. destruct (Z_lt_ge_dec f 97).
    - rewrite u8_below in A by lia. lia.
    - rewrite u8_small in A by lia. lia. }
  assert (R : onRanks r = true).
  { apply onRanks_bounds. destruct (Z_lt_ge_dec r 49).
    - rewrite u8_below in B by lia. lia.
    - rewrite u8_small in B by lia. lia. }
  rewrite F, R in H. discriminate.
Qed.

Lemma squareBit_positive (f : File) (r : Rank) :
  onFiles f = true -> onRanks r = true -> 0 < squareBit f r.
Proof.
  intros F R. apply onFiles_bounds in F. apply onRanks_bounds in R.
  unfold squareBit. change (byte_of "a") with 97. change (byte_of "1") with 49.
  apply Z.pow_pos_nonneg; lia.
Qed.

(** X4. [PositionFromFileRank], on bytes: for a file from [a] to [h] and a
    rank from [1] to [8] it returns the single bit [1 << (8 * rank + file)]
    (ranks and files counted from 0), which is never [NoPosition]; for
    every other pair of bytes, those below [a] and [1] included, it
    returns [NoPosition]. *)
Theorem PositionFromFileRank_bit (f : File) (r : Rank) :
  0 <= f < 256 -> 0 <= r < 256 ->
  (onFiles f && onRanks r = true ->
   PositionFromFileRank f r = squareBit f r /\ PositionFromFileRank f r <> NoPosition)
  /\ (onFiles f && onRanks r = false -> PositionFromFileRank f r = NoPosition).
Proof.
  intros Hf Hr. split; intros H.
  - apply andb_prop in H. destruct H as [F R].
    rewrite (PositionFromFileRank_on f r F R). split; [reflexivity|].
    pose proof (squareBit_positive f r F R). unfold NoPosition. lia.
  - apply PositionFromFileRank_off; assumption.
Qed.

Lemma PositionFromFileRank_bit_witness :
  PositionFromFileRank (byte_of "e") (byte_of "4") = 2 ^ 28
  /\ PositionFromFileRank (byte_of "e") (byte_of "4") <> NoPosition.
Proof.
  apply (PositionFromFileRank_bit (byte_of "e") (byte_of "4")).
  - vm_compute. split; [discriminate | reflexivity].
  - vm_compute. split; [discriminate | reflexivity].
  - reflexivity.
Defined.

Lemma GetFile_square (p : Position) : 0 <= p < 64 -> GetFile p = p mod 8 + 97.
Proof.
  intros H. unfold GetFile, u8, u64. change (byte_of "a") with 97.
  pose proof (Z.mod_pos_bound p 8 ltac:(lia)).
  rewrite (Z.mod_small (p mod 8 + 97)) by lia. apply Z.mod_small. lia.
Qed.

Lemma GetRank_square (p : Position) : 0 <= p < 64 -> GetRank p = p / 8 + 49.
Proof.
  intros H. unfold GetRank, u8, u64. change (byte_of "0") with 48.
  assert (0 <= p / 8 < 8) by (split; [apply Z.div_pos | apply Z.div_lt_upper_bound]; lia).
  rewrite (Z.mod_small (p / 8 + 1)) by lia.
  rewrite (Z.mod_small (p / 8 + 1 + 48)) by lia.
  rewrite Z.mod_small by lia. lia.
Qed.

Lemma square_parts (p : Position) :
  0 <= p < 64 -> 0 <= p mod 8 < 8 /\ 0 <= p / 8 < 8 /\ p = 8 * (p / 8) + p mod 8.
Proof.
  intros H. split; [apply Z.mod_pos_bound; lia|].
  split; [split; [apply Z.div_pos | apply Z.div_lt_upper_bound]; lia|].
  apply Z.div_mod. lia.
Qed.

(** X2. On the 64 squares [GetFile] and [GetRank] return a file letter
    and a rank digit, the square is [8 * (rank - '1') + (file - 'a')], and
    two squares with the same text are the same square. *)
Theorem square_file_rank (p q : Position) :
  0 <= p < 64 -> 0 <= q < 64 ->
  onFiles (GetFile p) = true /\ onRanks (GetRank p) = true
  /\ p = 8 * (GetRank p - byte_of "1") + (GetFile p - byte_of "a")
  /\ (Position_String p = Position_String q -> p = q).
Proof.
  intros Hp Hq.
  destruct (square_parts p Hp) as (Mp & Dp & Ep).
  destruct (square_parts q Hq) as (Mq & Dq & Eq).
  split; [apply onFiles_bounds; rewrite (GetFile_square p Hp); lia|].
  split; [apply onRanks_bounds; rewrite (GetRank_square p Hp); lia|].
  split.
  { rewrite (GetFile_square p Hp), (GetRank_square p Hp).
    change (byte_of "a") with 97. change (byte_of "1") with 49. lia. }
  unfold Position_String, NoPosition.
  destruct (Z.eqb_spec 0 p) as [<-|Np]; destruct (Z.eqb_spec 0 q) as [<-|Nq];
    try reflexivity; try discriminate.
  rewrite (GetFile_square p Hp), (GetRank_square p Hp),
    (GetFile_square q Hq), (GetRank_square q Hq).
  intros H. injection H as Hr Hf.
  apply (f_equal byte_of) in Hr, Hf.
  rewrite !byte_of_ascii_of in Hr, Hf by lia. lia.
Qed.

Lemma square_file_rank_witness :
  onFiles (GetFile 28) = true /\ onRanks (GetRank 28) = true
  /\ 28 = 8 * (GetRank 28 - byte_of "1") + (GetFile 28 - byte_of "a")
  /\ (Position_String 28 = Position_String 28 -> 28 = 28).
Proof. apply (square_file_rank 28 28); lia. Defined.

Lemma parsePosition_letters (c0 c1 : ascii) :
  parsePosition (String c0 (String c1 EmptyString))
  = if fileLetter c0 && rankDigit c1
    then (squareBit (lowerFile c0) (byte_of c1), true) else (0, false).
Proof.
  pose proof (byte_of_range c0) as R0. pose proof (byte_of_range c1) as R1.
  unfold parsePosition, fileLetter, rankDigit, lowerFile.
  change ((byte_of "a" <=? byte_of c0) && (byte_of c0 <=? byte_of "h"))
    with (onFiles (byte_of c0)).
  change ((byte_of "1" <=? byte_of c1) && (byte_of c1 <=? byte_of "8"))
    with (onRanks (byte_of c1)).
  destruct (onFiles (byte_of c0)) eqn:F; simpl orb.
  - destruct (onRanks (byte_of c1)) eqn:R; [|reflexivity]. simpl andb.
    rewrite (PositionFromFileRank_on _ _ F R). reflexivity.
  - destruct ((byte_of "A" <=? byte_of c0) && (byte_of c0 <=? byte_of "H")) eqn:U;
      [|reflexivity].
    destruct (onRanks (byte_of c1)) eqn:R; [|reflexivity]. simpl andb.
    apply andb_prop in U. destruct U as [U1 U2].
    change (byte_of "A") with 65 in *. change (byte_of "H") with 72 in *.
    change (byte_of "a") with 97.
    apply Z.leb_le in U1, U2.
    replace (u8 (byte_of c0 + (97 - 65))) with (byte_of c0 + 32)
      by (symmetry; apply u8_small; lia).
    rewrite (PositionFromFileRank_on (byte_of c0 + 32) (byte_of c1));
      [reflexivity | apply onFiles_bounds; lia | exact R].
Qed.

(** X1. [ParsePosition] accepts exactly the texts of two bytes, a file
    letter from [a] to [h] in either case and a rank digit from [1] to
    [8]; it then returns the single bit of that square, and for every other
    text it returns the error that carries the text. *)
Theorem ParsePosition_accepts (s : string) :
  (forall p, ParsePosition s = inl p <->
             exists c0 c1, s = String c0 (String c1 EmptyString)
                           /\ fileLetter c0 = true /\ rankDigit c1 = true
                           /\ p = squareBit (lowerFile c0) (byte_of c1))
  /\ (forall e, ParsePosition s = inr e -> e = InvalidPositionString s).
Proof.
  split.
  - intros p. split.
    + destruct s as [|c0 [|c1 [|c2 s]]]; try (unfold ParsePosition; simpl; discriminate).
      unfold ParsePosition. rewrite parsePosition_letters.
      destruct (fileLetter c0) eqn:F; [|discriminate].
      destruct (rankDigit c1) eqn:R; [|discriminate]. simpl.
      intros H. injection H as <-. exists c0, c1. auto.
    + intros (c0 & c1 & -> & F & R & ->).
      unfold ParsePosition. rewrite parsePosition_letters, F, R. reflexivity.
  - intros e. unfold ParsePosition.
    destruct (parsePosition s) as [p [|]]; [discriminate|].
    intros H. injection H as <-. reflexivity.
Qed.

Lemma ParsePosition_accepts_witness :
  ParsePosition "E4" = inl (2 ^ 28)
  /\ ParsePosition "e9" = inr (InvalidPositionString "e9").
Proof.
  split.
  - apply (proj1 (ParsePosition_accepts "E4")).
    exists "E"%char, "4"%char. repeat split; reflexivity.
  - destruct (ParsePosition "e9") as [p|e] eqn:E.
    + vm_compute in E. discriminate.
    + f_equal. apply (proj2 (ParsePosition_accepts "e9") e E).
Defined.

(** X3. Reading back the text of a square: for every square but a1,
    [ParsePosition] accepts what [String] writes, and returns the bit
    [1 << p] of the square [p], not [p]; the text of a1, which is the text
    of [NoPosition], is refused. *)
Theorem ParsePosition_of_String (p : Position) :
  0 <= p < 64 ->
  ParsePosition (Position_String p)
  = if p =? 0 then inr (InvalidPositionString "-") else inl (2 ^ p).
Proof.
  intros Hp. destruct (Z.eqb_spec p 0) as [->|N]; [reflexivity|].
  destruct (square_parts p Hp) as (Mp & Dp & Ep).
  unfold Position_String, NoPosition.
  destruct (Z.eqb_spec 0 p) as [E0|_]; [lia|].
  unfold ParsePosition. rewrite parsePosition_letters.
  unfold fileLetter, rankDigit, lowerFile.
  rewrite (GetFile_square p Hp), (GetRank_square p Hp).
  rewrite !byte_of_ascii_of by lia.
  replace (onFiles (p mod 8 + 97)) with true by (symmetry; apply onFiles_bounds; lia).
  replace (onRanks (p / 8 + 49)) with true by (symmetry; apply onRanks_bounds; lia).
  simpl. unfold squareBit. change (byte_of "a") with 97. change (byte_of "1") with 49.
  do 2 f_equal. lia.
Qed.

Lemma ParsePosition_of_String_witness :
  ParsePosition (Position_String 6) = inl 64.
Proof. apply (ParsePosition_of_String 6). lia. Defined.

(** ** ApplyMove on the board *)

Lemma boardAt_boardSet (b b' : list Piece) (p q : Z) (x : Piece) :
  boardSet b p x = Ret b' ->
  boardAt b' q = if q =? p then Ret x else boardAt b q.
Proof.
  unfold boardSet. destruct (Z.ltb_spec p 0) as [|Hp]; [discriminate|].
  destruct (Nat.ltb_spec (Z.to_nat p) (List.length b)) as [Hl|]; [|discriminate].
  intros H. injection H as <-. unfold boardAt.
  destruct (Z.ltb_spec q 0) as [Hq|Hq].
  - destruct (Z.eqb_spec q p); [lia | reflexivity].
  - rewrite StoreFacts.nth_error_setNth.
    destruct (Z.eqb_spec q p) as [->|N].
    + rewrite Nat.eqb_refl.
      destruct (Nat.ltb_spec (Z.to_nat p) (List.length b)); [reflexivity | lia].
    + destruct (Nat.eqb_spec (Z.to_nat p) (Z.to_nat q)) as [E|_]; [lia | reflexivity].
Qed.

Lemma boardAt_firstn (b : list Piece) (p : Z) :
  p < 64 -> boardAt (firstn 64 b) p = boardAt b p.
Proof.
  intros H. unfold boardAt. destruct (Z.ltb_spec p 0); [reflexivity|].
  rewrite nth_error_firstn.
  destruct (Nat.ltb_spec (Z.to_nat p) 64); [reflexivity | lia].
Qed.

Lemma movedBoard_Ret (b : list Piece) (m : Move) (mp cp : Piece) (b' : list Piece) :
  movedBoard b m = Ret (mp, cp, b') ->
  ((64 <= List.length b)%nat /\ 0 <= From m < 64 /\ 0 <= To m < 64)
  /\ List.length b' = 64%nat
  /\ boardAt b (From m) = Ret mp
  /\ boardAt b' (To m) = Ret (arriving mp m)
  /\ (From m <> To m -> boardAt b' (From m) = Ret NoPiece /\ boardAt b (To m) = Ret cp)
  /\ (From m = To m -> cp = NoPiece)
  /\ (forall p, p < 64 -> p <> From m -> p <> To m -> boardAt b' p = boardAt b p).
Proof.
  unfold movedBoard, copyBoard. intros H.
  destruct (Nat.ltb_spec (List.length b) 64) as [|L]; [discriminate|].
  cbn [bind] in H.
  assert (L0 : List.length (firstn 64 b) = 64%nat) by (rewrite length_firstn; lia).
  bind_split H as mp' Emp. bind_split H as b1 E1. bind_split H as cp' Ecp.
  bind_split H as b2 E2. bind_split H as b3 E3. injection H as -> -> ->.
  pose proof (boardAt_bound _ _ _ Emp) as BF. rewrite L0 in BF.
  pose proof (boardSet_length _ _ _ _ E1) as L1. rewrite L0 in L1.
  pose proof (boardAt_bound _ _ _ Ecp) as BT. rewrite L1 in BT.
  pose proof (boardSet_length _ _ _ _ E2) as L2. rewrite L1 in L2.
  rewrite boardAt_firstn in Emp by lia.
  assert (A3 : forall q, boardAt b' q
                 = if q =? To m then Ret (arriving mp m) else boardAt b2 q).
  { intros q. unfold arriving.
    destruct (Piece_eqb (Promote m) NoPiece); simpl negb in E3; cbv iota in E3.
    - injection E3 as <-. rewrite (boardAt_boardSet _ _ _ q _ E2).
      destruct (q =? To m); reflexivity.
    - rewrite (boardAt_boardSet _ _ _ q _ E3). reflexivity. }
  assert (L3 : List.length b' = 64%nat).
  { destruct (negb (Piece_eqb (Promote m) NoPiece)).
    - rewrite (boardSet_length _ _ _ _ E3). exact L2.
    - injection E3 as <-. exact L2. }
  split; [lia|]. split; [exact L3|]. split; [exact Emp|].
  split; [rewrite A3, Z.eqb_refl; reflexivity|].
  split.
  - intros N. split.
    + rewrite A3. destruct (Z.eqb_spec (From m) (To m)) as [|_]; [contradiction|].
      rewrite (boardAt_boardSet _ _ _ _ _ E2).
      destruct (Z.eqb_spec (From m) (To m)) as [|_]; [contradiction|].
      rewrite (boardAt_boardSet _ _ _ _ _ E1), Z.eqb_refl. reflexivity.
    + rewrite (boardAt_boardSet _ _ _ _ _ E1) in Ecp.
      destruct (Z.eqb_spec (To m) (From m)) as [E|_]; [congruence|].
      rewrite boardAt_firstn in Ecp by lia. exact Ecp.
  - split.
    { intros E. rewrite (boardAt_boardSet _ _ _ _ _ E1), E, Z.eqb_refl in Ecp.
      congruence. }
    intros p Hp NF NT. rewrite A3.
    destruct (Z.eqb_spec p (To m)) as [|_]; [contradiction|].
    rewrite (boardAt_boardSet _ _ _ _ _ E2).
    destruct (Z.eqb_spec p (To m)) as [|_]; [contradiction|].
    rewrite (boardAt_boardSet _ _ _ _ _ E1).
    destruct (Z.eqb_spec p (From m)) as [|_]; [contradiction|].
    apply boardAt_firstn. exact Hp.
Qed.

Lemma movedBoard_defined (b : list Piece) (m : Move) :
  (64 <= List.length b)%nat -> 0 <= From m < 64 -> 0 <= To m < 64 ->
  exists r, movedBoard b m = Ret r.
Proof.
  intros L HF HT. unfold movedBoard, copyBoard.
  destruct (Nat.ltb_spec (List.length b) 64) as [|_]; [lia|]. cbn [bind].
  assert (L0 : List.length (firstn 64 b) = 64%nat) by (rewrite length_firstn; lia).
  destruct (boardAt_defined (firstn 64 b) (From m)) as (mp & Emp); [lia|].
  rewrite Emp. cbn [bind].
  destruct (boardSet_defined (firstn 64 b) (From m) NoPiece) as (b1 & E1 & L1); [lia|].
  rewrite E1. cbn [bind].
  destruct (boardAt_defined b1 (To m)) as (cp & Ecp); [lia|].
  rewrite Ecp. cbn [bind].
  destruct (boardSet_defined b1 (To m) mp) as (b2 & E2 & L2); [lia|].
  rewrite E2. cbn [bind].
  destruct (negb (Piece_eqb (Promote m) NoPiece)).
  - destruct (boardSet_defined b2 (To m) (Promote m)) as (b3 & E3 & L3); [lia|].
    rewrite E3. cbn [bind]. eauto.
  - cbn [bind]. eauto.
Qed.

Lemma boardAt_panic (b : list Piece) (p : Z) (q : panic) :
  boardAt b p = Panic q -> q = IndexOutOfRange.
Proof.
  unfold boardAt. destruct (p <? 0); [congruence|].
  destruct (nth_error b (Z.to_nat p)); congruence.
Qed.

Lemma boardSet_panic (b : list Piece) (p : Z) (x : Piece) (q : panic) :
  boardSet b p x = Panic q -> q = IndexOutOfRange.
Proof.
  unfold boardSet. destruct (p <? 0); [congruence|].
  destruct (Z.to_nat p <? List.length b)%nat; congruence.
Qed.

Lemma movedBoard_panic (b : list Piece) (m : Move) (q : panic) :
  movedBoard b m = Panic q -> q = IndexOutOfRange.
Proof.
  unfold movedBoard, copyBoard.
  destruct (List.length b <? 64)%nat; [simpl; congruence|]. cbn [bind].
  destruct (boardAt (firstn 64 b) (From m)) as [mp|] eqn:E0;
    [|simpl; intros H; injection H as <-; apply (boardAt_panic _ _ _ E0)].
  cbn [bind].
  destruct (boardSet (firstn 64 b) (From m) NoPiece) as [b1|] eqn:E1;
    [|simpl; intros H; injection H as <-; apply (boardSet_panic _ _ _ _ E1)].
  cbn [bind].
  destruct (boardAt b1 (To m)) as [cp|] eqn:E2;
    [|simpl; intros H; injection H as <-; apply (boardAt_panic _ _ _ E2)].
  cbn [bind].
  destruct (boardSet b1 (To m) mp) as [b2|] eqn:E3;
    [|simpl; intros H; injection H as <-; apply (boardSet_panic _ _ _ _ E3)].
  cbn [bind].
  destruct (negb (Piece_eqb (Promote m) NoPiece)).
  - destruct (boardSet b2 (To m) (Promote m)) as [b3|] eqn:E4;
      [simpl; discriminate|simpl; intros H; injection H as <-; apply (boardSet_panic _ _ _ _ E4)].
  - simpl. discriminate.
Qed.

(** Both generations start with the statements of [movedBoard]. *)
Lemma ApplyMove_movedBoard (f : FEN) (m : Move) :
  ChessEngine.ApplyMove f m =
  (r <- movedBoard (Board f) m ;;
   let '(movingPiece, captured, board) := r in
   castle <- ChessEngine.castleUpdate movingPiece m
               (WhiteCastleStatus f) (BlackCastleStatus f) ;;
   let '(wCastle, bCastle) := castle in
   Ret (mkFEN board
          (PiecePositions_ApplyMove (Pieces f) (ToMove f) m
             (ToNormalizedPiece movingPiece) (ToNormalizedPiece captured))
          (Opposite (ToMove f)) wCastle bCastle NoPosition
          (int64 (HalfmoveClock f + 1))
          (if Color_eqb (ToMove f) Black then int64 (Fullmove f + 1) else Fullmove f)
          (Line f ++ [m]))).
Proof.
  unfold ChessEngine.ApplyMove, movedBoard.
  destruct (copyBoard (Board f)) as [b0|]; [|reflexivity]. cbn [bind].
  destruct (boardAt b0 (From m)) as [mp|]; [|reflexivity]. cbn [bind].
  destruct (boardSet b0 (From m) NoPiece) as [b1|]; [|reflexivity]. cbn [bind].
  destruct (boardAt b1 (To m)) as [cp|]; [|reflexivity]. cbn [bind].
  destruct (boardSet b1 (To m) mp) as [b2|]; [|reflexivity]. cbn [bind].
  destruct (negb (Piece_eqb (Promote m) NoPiece)).
  - destruct (boardSet b2 (To m) (Promote m)) as [b3|]; reflexivity.
  - reflexivity.
Qed.

Lemma Main_ApplyMove_movedBoard (f : FEN) (m : Move) :
  Main.ApplyMove f m =
  (r <- movedBoard (Board f) m ;;
   let '(movingPiece, captured, board) := r in
   let pieces := Main.rebuildIndex f m (ToNormalizedPiece movingPiece)
                                   (ToNormalizedPiece captured) in
   pieces <- (if negb (Piece_eqb (Promote m) NoPiece)
              then Main.addPromoted pieces (ToMove f) m else Ret pieces) ;;
   Ret (mkFEN board pieces (Opposite (ToMove f))
              (WhiteCastleStatus f) (BlackCastleStatus f) NoPosition
              (int64 (HalfmoveClock f + 1)) (Fullmove f) (Line f ++ [m]))).
Proof.
  unfold Main.ApplyMove, movedBoard.
  destruct (copyBoard (Board f)) as [b0|]; [|reflexivity]. cbn [bind].
  destruct (boardAt b0 (From m)) as [mp|]; [|reflexivity]. cbn [bind].
  destruct (boardSet b0 (From m) NoPiece) as [b1|]; [|reflexivity]. cbn [bind].
  destruct (boardAt b1 (To m)) as [cp|]; [|reflexivity]. cbn [bind].
  destruct (boardSet b1 (To m) mp) as [b2|]; [|reflexivity]. cbn [bind].
  destruct (negb (Piece_eqb (Promote m) NoPiece)).
  - destruct (boardSet b2 (To m) (Promote m)) as [b3|]; reflexivity.
  - reflexivity.
Qed.

Lemma movedBoard_outside (f : FEN) (m : Move) :
  outside f m <-> movedBoard (Board f) m = Panic IndexOutOfRange.
Proof.
  unfold outside. split.
  - intros H. destruct (movedBoard (Board f) m) as [[[mp cp] b']|q] eqn:E.
    + apply movedBoard_Ret in E. destruct E as (R & _). lia.
    + f_equal. apply (movedBoard_panic _ _ _ E).
  - intros H.
    destruct (Nat.ltb_spec (List.length (Board f)) 64) as [|L]; [auto|].
    destruct (Z_lt_ge_dec (From m) 0); [right; left; lia|].
    destruct (Z_lt_ge_dec (From m) 64); [|right; left; lia].
    destruct (Z_lt_ge_dec (To m) 0); [right; right; lia|].
    destruct (Z_lt_ge_dec (To m) 64); [|right; right; lia].
    destruct (movedBoard_defined (Board f) m) as (r & E); try lia. congruence.
Qed.

Lemma castleUpdate_not_index (mp : Piece) (m : Move) (w b : CastleStatus) :
  ChessEngine.castleUpdate mp m w b <> Panic IndexOutOfRange.
Proof.
  intros H. apply castleUpdate_panic in H. destruct H as [H _]. discriminate.
Qed.

(** X5. [ApplyMove] panics with an index out of range exactly when the
    board has fewer than 64 squares or the origin or the target of the
    move lies outside the 64 squares; this holds in both generations. *)
Theorem ApplyMove_out_of_range (f : FEN) (m : Move) :
  (ChessEngine.ApplyMove f m = Panic IndexOutOfRange <-> outside f m)
  /\ (Main.ApplyMove f m = Panic IndexOutOfRange <-> outside f m).
Proof.
  rewrite ApplyMove_movedBoard, Main_ApplyMove_movedBoard, movedBoard_outside.
  destruct (movedBoard (Board f) m) as [[[mp cp] b']|q] eqn:E; cbn [bind].
  - split; (split; [|discriminate]); intros H; exfalso.
    + destruct (ChessEngine.castleUpdate mp m (WhiteCastleStatus f) (BlackCastleStatus f))
        as [[w b]|q] eqn:C; simpl in H; [discriminate|].
      apply (castleUpdate_not_index mp m (WhiteCastleStatus f) (BlackCastleStatus f)).
      congruence.
    + destruct (negb (Piece_eqb (Promote m) NoPiece)); simpl in H; [|discriminate].
      unfold Main.addPromoted in H. destruct (ToMove f); simpl in H; discriminate.
  - pose proof (movedBoard_panic _ _ _ E) as ->.
    split; split; reflexivity.
Qed.

Lemma ApplyMove_out_of_range_witness :
  ChessEngine.ApplyMove rightsHeld (NewMove E8 64) = Panic IndexOutOfRange
  /\ Main.ApplyMove rightsHeld (NewMove E8 64) = Panic IndexOutOfRange.
Proof.
  assert (O : outside rightsHeld (NewMove E8 64))
    by (right; right; simpl; lia).
  split.
  - apply (proj1 (ApplyMove_out_of_range rightsHeld (NewMove E8 64))), O.
  - apply (proj2 (ApplyMove_out_of_range rightsHeld (NewMove E8 64))), O.
Defined.

Lemma ApplyMove_Ret_board (f g : FEN) (m : Move) :
  ChessEngine.ApplyMove f m = Ret g \/ Main.ApplyMove f m = Ret g ->
  exists mp cp, movedBoard (Board f) m = Ret (mp, cp, Board g).
Proof.
  rewrite ApplyMove_movedBoard, Main_ApplyMove_movedBoard.
  destruct (movedBoard (Board f) m) as [[[mp cp] b']|q];
    [|intros [H|H]; discriminate].
  cbn [bind]. intros [H|H]; exists mp, cp.
  - bind_split H as c Ec. destruct c as [w b]. injection H as <-. reflexivity.
  - bind_split H as pp Ep. injection H as <-. reflexivity.
Qed.

(** X6. The board [ApplyMove] returns, in both generations: it has 64
    squares; the target square holds the piece that stood on the origin,
    or the promotion piece of the move if there is one; the origin is
    empty; every other square is as before.  A castle moves the king
    only, and an en-passant capture leaves the captured pawn in place. *)
Theorem ApplyMove_board (f g : FEN) (m : Move) :
  ChessEngine.ApplyMove f m = Ret g \/ Main.ApplyMove f m = Ret g ->
  exists moving,
    boardAt (Board f) (From m) = Ret moving
    /\ List.length (Board g) = 64%nat
    /\ boardAt (Board g) (To m) = Ret (arriving moving m)
    /\ (From m <> To m -> boardAt (Board g) (From m) = Ret NoPiece)
    /\ (forall p, p < 64 -> p <> From m -> p <> To m ->
                  boardAt (Board g) p = boardAt (Board f) p).
Proof.
  intros H. destruct (ApplyMove_Ret_board f g m H) as (mp & cp & E).
  apply movedBoard_Ret in E. destruct E as (_ & L & A & B & C & _ & D).
  exists mp. split; [exact A|]. split; [exact L|]. split; [exact B|].
  split; [|exact D]. intros N. apply (C N).
Qed.

Lemma ApplyMove_board_witness :
  exists g, ChessEngine.ApplyMove rightsHeld (NewMove E8 G8) = Ret g
            /\ boardAt (Board g) G8 = Ret BlackKing
            /\ boardAt (Board g) E8 = Ret NoPiece
            /\ boardAt (Board g) H8 = Ret BlackRook.
Proof.
  destruct (ChessEngine.ApplyMove rightsHeld (NewMove E8 G8)) as [g|] eqn:E;
    [|vm_compute in E; discriminate].
  exists g. split; [reflexivity|].
  destruct (ApplyMove_board rightsHeld g (NewMove E8 G8) (or_introl E))
    as (moving & A & _ & B & C & D).
  vm_compute in A. injection A as <-.
  split; [exact B|]. split; [apply C; discriminate|].
  rewrite (D H8); [reflexivity | reflexivity | discriminate | discriminate].
Defined.

(** ** ApplyMove and the castling rights *)

Lemma rookLeaves_within (from q k : Position) (cs : CastleStatus) :
  rightsWithin (ChessEngine.rookLeaves from q k cs) cs.
Proof.
  unfold ChessEngine.rookLeaves, rightsWithin.
  destruct (from =? q); [|destruct (from =? k)]; destruct cs; simpl; auto.
Qed.

Lemma rookLeaves_home (from q k : Position) (cs : CastleStatus) :
  (from = q -> holdsQueenside (ChessEngine.rookLeaves from q k cs) = false)
  /\ (from <> q -> from = k ->
      holdsKingside (ChessEngine.rookLeaves from q k cs) = false).
Proof.
  unfold ChessEngine.rookLeaves. split.
  - intros ->. rewrite Z.eqb_refl. destruct cs; reflexivity.
  - intros N ->. destruct (Z.eqb_spec k q); [congruence|].
    rewrite Z.eqb_refl. destruct cs; reflexivity.
Qed.

Lemma kingLeaves_none (m : Move) (e g c : Position) (cs cs' : CastleStatus) :
  ChessEngine.kingLeaves m e g c cs = Ret cs' -> cs' = NoCastle.
Proof.
  unfold ChessEngine.kingLeaves.
  destruct ((From m =? e) && (To m =? g)).
  - destruct (negb (CastleStatus_eqb cs Kingside) && negb (CastleStatus_eqb cs Both));
      congruence.
  - destruct ((From m =? e) && (To m =? c)); [|congruence].
    destruct (negb (CastleStatus_eqb cs Queenside) && negb (CastleStatus_eqb cs Both));
      congruence.
Qed.

Lemma rightsWithin_refl (cs : CastleStatus) : rightsWithin cs cs.
Proof. split; auto. Qed.

Lemma rightsWithin_none (cs : CastleStatus) : rightsWithin NoCastle cs.
Proof. split; discriminate. Qed.

(** X7. [ApplyMove] of the second generation never grants a castling
    right.  A king move leaves its colour without rights; a rook that
    leaves a1 or h1 (a8 or h8) takes the right of that side with it; the
    move of any other piece changes nothing, also when it captures a rook
    on its home square. *)
Theorem ApplyMove_castling_rights (f g : FEN) (m : Move) (moving : Piece) :
  ChessEngine.ApplyMove f m = Ret g ->
  boardAt (Board f) (From m) = Ret moving ->
  rightsWithin (WhiteCastleStatus g) (WhiteCastleStatus f)
  /\ rightsWithin (BlackCastleStatus g) (BlackCastleStatus f)
  /\ (moving = WhiteKing -> WhiteCastleStatus g = NoCastle)
  /\ (moving = BlackKing -> BlackCastleStatus g = NoCastle)
  /\ (moving = WhiteRook ->
      (From m = A1 -> holdsQueenside (WhiteCastleStatus g) = false)
      /\ (From m = H1 -> holdsKingside (WhiteCastleStatus g) = false))
  /\ (moving = BlackRook ->
      (From m = A8 -> holdsQueenside (BlackCastleStatus g) = false)
      /\ (From m = H8 -> holdsKingside (BlackCastleStatus g) = false))
  /\ (moving <> WhiteKing -> moving <> WhiteRook ->
      WhiteCastleStatus g = WhiteCastleStatus f)
  /\ (moving <> BlackKing -> moving <> BlackRook ->
      BlackCastleStatus g = BlackCastleStatus f).
Proof.
  intros H Hm. rewrite ApplyMove_movedBoard in H.
  bind_split H as r Er. destruct r as [[mp cp] b'].
  apply movedBoard_Ret in Er. destruct Er as (_ & _ & A & _).
  assert (mp = moving) by congruence. subst mp.
  bind_split H as c Ec. destruct c as [w b]. injection H as <-. simpl.
  unfold ChessEngine.castleUpdate, Piece_eqb in Ec.
  destruct (Ascii.eqb_spec moving BlackRook) as [->|N1].
  { injection Ec as <- <-.
    pose proof (rookLeaves_within (From m) A8 H8 (BlackCastleStatus f)) as RW.
    pose proof (rookLeaves_home (From m) A8 H8 (BlackCastleStatus f)) as [Q K].
    split; [apply rightsWithin_refl|]. split; [exact RW|].
    split; [intros E0; discriminate E0|]. split; [intros E0; discriminate E0|].
    split; [intros E0; discriminate E0|].
    split; [intros _; split; [exact Q | intros E; apply K; [rewrite E; discriminate | exact E]]|].
    split; [reflexivity|]. intros _ N. congruence. }
  destruct (Ascii.eqb_spec moving BlackKing) as [->|N2].
  { bind_split Ec as b0 Eb. injection Ec as <- <-.
    apply kingLeaves_none in Eb. subst b0.
    split; [apply rightsWithin_refl|]. split; [apply rightsWithin_none|].
    split; [intros E0; discriminate E0|]. split; [reflexivity|].
    split; [intros E0; discriminate E0|]. split; [intros E0; discriminate E0|].
    split; [reflexivity|]. intros N. congruence. }
  destruct (Ascii.eqb_spec moving WhiteRook) as [->|N3].
  { injection Ec as <- <-.
    pose proof (rookLeaves_within (From m) A1 H1 (WhiteCastleStatus f)) as RW.
    pose proof (rookLeaves_home (From m) A1 H1 (WhiteCastleStatus f)) as [Q K].
    split; [exact RW|]. split; [apply rightsWithin_refl|].
    split; [intros E0; discriminate E0|]. split; [intros E0; discriminate E0|].
    split; [intros _; split; [exact Q | intros E; apply K; [rewrite E; discriminate | exact E]]|].
    split; [intros E0; discriminate E0|].
    split; [intros _ N; congruence|]. reflexivity. }
  destruct (Ascii.eqb_spec moving WhiteKing) as [->|N4].
  { bind_split Ec as w0 Ew. injection Ec as <- <-.
    apply kingLeaves_none in Ew. subst w0.
    split; [apply rightsWithin_none|]. split; [apply rightsWithin_refl|].
    split; [reflexivity|]. split; [intros E0; discriminate E0|].
    split; [intros E0; discriminate E0|]. split; [intros E0; discriminate E0|].
    split; [intros N; congruence|]. reflexivity. }
  injection Ec as <- <-.
  split; [apply rightsWithin_refl|]. split; [apply rightsWithin_refl|].
  split; [intros E0; congruence|]. split; [intros E0; congruence|].
  split; [intros E0; congruence|]. split; [intros E0; congruence|].
  split; reflexivity.
Qed.

Lemma ApplyMove_castling_rights_witness :
  exists g, ChessEngine.ApplyMove rightsHeld (NewMove H8 G8) = Ret g
            /\ BlackCastleStatus g = Queenside
            /\ WhiteCastleStatus g = Both.
Proof.
  destruct (ChessEngine.ApplyMove rightsHeld (NewMove H8 G8)) as [g|] eqn:E;
    [|vm_compute in E; discriminate].
  exists g. split; [reflexivity|].
  assert (A : boardAt (Board rightsHeld) (From (NewMove H8 G8)) = Ret BlackRook)
    by reflexivity.
  destruct (ApplyMove_castling_rights rightsHeld g (NewMove H8 G8) BlackRook E A)
    as (_ & (_ & Q) & _ & _ & _ & R & W & _).
  split.
  - destruct (R eq_refl) as [_ K]. specialize (K eq_refl).
    assert (Hq : holdsQueenside (BlackCastleStatus g) = true).
    { vm_compute in E. injection E as <-. reflexivity. }
    destruct (BlackCastleStatus g); try discriminate. reflexivity.
  - rewrite W; [reflexivity | discriminate | discriminate].
Defined.

(** ** ApplyMove of the first generation *)

Lemma Main_ApplyMove_fields (f g : FEN) (m : Move) :
  Main.ApplyMove f m = Ret g ->
  exists mp cp,
    movedBoard (Board f) m = Ret (mp, cp, Board g)
    /\ (if negb (Piece_eqb (Promote m) NoPiece)
        then Main.addPromoted
               (Main.rebuildIndex f m (ToNormalizedPiece mp) (ToNormalizedPiece cp))
               (ToMove f) m
        else Ret (Main.rebuildIndex f m (ToNormalizedPiece mp) (ToNormalizedPiece cp)))
       = Ret (Pieces g)
    /\ WhiteCastleStatus g = WhiteCastleStatus f
    /\ BlackCastleStatus g = BlackCastleStatus f
    /\ Fullmove g = Fullmove f
    /\ HalfmoveClock g = int64 (HalfmoveClock f + 1)
    /\ ToMove g = Opposite (ToMove f)
    /\ Line g = Line f ++ [m]
    /\ EnPassantVulnerable g = NoPosition.
Proof.
  rewrite Main_ApplyMove_movedBoard. intros H.
  bind_split H as r Er. destruct r as [[mp cp] b'].
  bind_split H as pp Ep. injection H as <-. simpl.
  exists mp, cp. repeat split; assumption.
Qed.

(** X8. [ApplyMove] of the first generation has no castling switch: it
    returns on every move within the board (a promotion needs a side to
    move), keeps both castling statuses and the fullmove number whoever
    moves, and builds the board the second generation builds. *)
Theorem Main_ApplyMove_keeps_rights (f : FEN) (m : Move) :
  (~ outside f m -> Promote m = NoPiece \/ ToMove f <> NoColor ->
   exists g, Main.ApplyMove f m = Ret g)
  /\ (forall g, Main.ApplyMove f m = Ret g ->
        WhiteCastleStatus g = WhiteCastleStatus f
        /\ BlackCastleStatus g = BlackCastleStatus f
        /\ Fullmove g = Fullmove f
        /\ HalfmoveClock g = int64 (HalfmoveClock f + 1)
        /\ ToMove g = Opposite (ToMove f)
        /\ Line g = Line f ++ [m]
        /\ EnPassantVulnerable g = NoPosition
        /\ forall g2, ChessEngine.ApplyMove f m = Ret g2 -> Board g2 = Board g).
Proof.
  split.
  - intros O P. rewrite Main_ApplyMove_movedBoard.
    destruct (movedBoard (Board f) m) as [[[mp cp] b']|q] eqn:E.
    + cbn [bind].
      destruct (Ascii.eqb_spec (Promote m) NoPiece) as [Pm|Pm];
        unfold Piece_eqb;
        destruct (Ascii.eqb_spec (Promote m) NoPiece) as [Pm'|Pm']; try contradiction;
        cbn [negb bind].
      * eauto.
      * destruct P as [P|P]; [contradiction|].
        unfold Main.addPromoted. destruct (ToMove f); [contradiction| |]; cbn [bind]; eauto.
    + exfalso. apply O. apply movedBoard_outside.
      rewrite E. f_equal. apply (movedBoard_panic _ _ _ E).
  - intros g H. destruct (Main_ApplyMove_fields f g m H)
      as (mp & cp & B & _ & W & Bl & Fm & Hc & T & L & Ep).
    repeat (split; [assumption|]).
    intros g2 H2. destruct (ApplyMove_Ret_board f g2 m (or_introl H2)) as (mp2 & cp2 & B2).
    congruence.
Qed.

Lemma Main_ApplyMove_keeps_rights_witness :
  exists g, Main.ApplyMove rightsLost (NewMove E1 G1) = Ret g
            /\ WhiteCastleStatus g = NoCastle /\ Fullmove g = 1.
Proof.
  destruct (proj1 (Main_ApplyMove_keeps_rights rightsLost (NewMove E1 G1))) as (g & E).
  - intros [A|[A|A]].
    + apply Nat.ltb_lt in A. vm_compute in A. discriminate.
    + apply A. vm_compute. split; [discriminate | reflexivity].
    + apply A. vm_compute. split; [discriminate | reflexivity].
  - left. reflexivity.
  - exists g. split; [exact E|].
    destruct (proj2 (Main_ApplyMove_keeps_rights rightsLost (NewMove E1 G1)) g E)
      as (W & _ & Fm & _).
    rewrite W, Fm. split; reflexivity.
Defined.

(** ** The index of the first generation under ApplyMove *)

Lemma Color_eqb_eq (a b : Color) : Color_eqb a b = true <-> a = b.
Proof. destruct a, b; simpl; split; congruence. Qed.

Lemma Opposite_neq (c : Color) : Opposite c <> c.
Proof. destruct c; discriminate. Qed.

Lemma indexSound_iff (f : FEN) :
  indexSound f = true <->
  forall c k p, In c colors -> In k kinds -> In p (Pieces f c k) ->
                indexEntryOk f c k p = true.
Proof.
  unfold indexSound. rewrite forallb_forall. split.
  - intros H c k p Hc Hk Hp. specialize (H c Hc).
    rewrite forallb_forall in H. specialize (H k Hk).
    rewrite forallb_forall in H. apply (H p Hp).
  - intros H c Hc. apply forallb_forall. intros k Hk.
    apply forallb_forall. intros p Hp. apply (H c k p Hc Hk Hp).
Qed.

Lemma indexEntryOk_iff (f : FEN) (c : Color) (k : NormalizedPiece) (p : Position) :
  indexEntryOk f c k p = true <->
  exists piece, boardAt (Board f) p = Ret piece
                /\ ToNormalizedPiece piece = k /\ Piece_Color piece = c.
Proof.
  unfold indexEntryOk. destruct (boardAt (Board f) p) as [piece|q]; split.
  - intros H. apply andb_prop in H. destruct H as [H1 H2].
    exists piece. split; [reflexivity|].
    split; [apply Ascii.eqb_eq, H1 | apply Color_eqb_eq, H2].
  - intros (piece' & E & K & C). injection E as <-.
    apply andb_true_intro. split; [apply Ascii.eqb_eq, K | apply Color_eqb_eq, C].
  - discriminate.
  - intros (piece' & E & _). discriminate.
Qed.

Lemma rebuildIndex_In (f : FEN) (m : Move) (nm nc : NormalizedPiece)
    (c : Color) (k : NormalizedPiece) (p : Position) :
  In p (Main.rebuildIndex f m nm nc c k) ->
  exists pos, In pos (Pieces f c k) /\ In p (Main.movedEntry f m nm nc c k pos).
Proof.
  unfold Main.rebuildIndex. destruct c; [intros []| |]; apply in_flat_map.
Qed.

Lemma addPromoted_In (pieces pieces' : PiecePositions) (toMove : Color) (m : Move)
    (c : Color) (k : NormalizedPiece) (p : Position) :
  Main.addPromoted pieces toMove m = Ret pieces' ->
  In p (pieces' c k) ->
  In p (pieces c k)
  \/ (c = toMove /\ k = ToNormalizedPiece (Promote m) /\ p = To m).
Proof.
  unfold Main.addPromoted, setPositions. intros H.
  assert (E : pieces' = fun c' k' =>
                if Color_eqb toMove c' && Piece_eqb (ToNormalizedPiece (Promote m)) k'
                then pieces toMove (ToNormalizedPiece (Promote m)) ++ [To m]
                else pieces c' k')
    by (destruct toMove; [discriminate| |]; injection H as <-; reflexivity).
  subst pieces'. cbv beta.
  destruct (Color_eqb toMove c && Piece_eqb (ToNormalizedPiece (Promote m)) k) eqn:B;
    [|auto].
  apply andb_prop in B. destruct B as [B1 B2].
  apply Color_eqb_eq in B1. apply Ascii.eqb_eq in B2. subst c k.
  intros Hin. apply in_app_or in Hin. destruct Hin as [Hin|[<-|[]]]; auto.
Qed.

(** X9. [ApplyMove] of the first generation keeps the index in agreement
    with the board: if every square the index lists holds a piece of the
    listed colour and kind, and the move takes a piece of the side to move
    to a square that is empty or holds a piece of the other colour
    (promoting, if at all, to a piece of the side to move), then the same
    is true of the position returned. *)
Theorem Main_ApplyMove_keeps_index_sound (f g : FEN) (m : Move) (moving target : Piece) :
  wellFormed f ->
  boardAt (Board f) (From m) = Ret moving -> Piece_Color moving = ToMove f ->
  boardAt (Board f) (To m) = Ret target ->
  target = NoPiece \/ Piece_Color target = Opposite (ToMove f) ->
  Promote m = NoPiece \/ Piece_Color (Promote m) = ToMove f ->
  Main.ApplyMove f m = Ret g ->
  wellFormed g.
Proof.
  intros (L & S) Hm Cm Ht Ctarget Cp H.
  destruct (Main_ApplyMove_fields f g m H) as (mp & cp & B & P & _).
  apply movedBoard_Ret in B. destruct B as (_ & Lg & A & BT & C & C0 & D).
  assert (mp = moving) by congruence. subst mp.
  split; [exact Lg|]. apply indexSound_iff. intros c k p Hc Hk Hin.
  rewrite indexSound_iff in S.
  apply indexEntryOk_iff.
  assert (cp = target).
  { destruct (Z.eq_dec (From m) (To m)) as [E|NFT].
    - rewrite (C0 E). rewrite E in Hm.
      assert (moving = target) by congruence. subst target.
      destruct Ctarget as [->|Ct]; [reflexivity|].
      rewrite Cm in Ct. symmetry in Ct. destruct (Opposite_neq _ Ct).
    - destruct (C NFT) as [_ Ecp]. congruence. }
  subst cp.
  assert (Hri : In p (Main.rebuildIndex f m (ToNormalizedPiece moving)
                        (ToNormalizedPiece target) c k)
                \/ (negb (Piece_eqb (Promote m) NoPiece) = true
                    /\ c = ToMove f /\ k = ToNormalizedPiece (Promote m) /\ p = To m)).
  { destruct (negb (Piece_eqb (Promote m) NoPiece)).
    - destruct (addPromoted_In _ _ _ _ c k p P Hin) as [I|I]; auto.
    - injection P as P'. rewrite <- P' in Hin. auto. }
  destruct Hri as [Hri|(Pm & -> & -> & ->)].
  - apply rebuildIndex_In in Hri. destruct Hri as (pos & Hpos & Hp).
    specialize (S c k pos Hc Hk Hpos). apply indexEntryOk_iff in S.
    destruct S as (piece & Epiece & Kp & Cpc).
    unfold Main.movedEntry in Hp.
    destruct (Color_eqb c (ToMove f) && Piece_eqb k (ToNormalizedPiece moving)
              && (pos =? From m)) eqn:B1.
    + apply andb_prop in B1. destruct B1 as [B1 B3]. apply andb_prop in B1.
      destruct B1 as [B1 B2]. apply Color_eqb_eq in B1. apply Ascii.eqb_eq in B2.
      destruct (Piece_eqb (Promote m) NoPiece) eqn:Pm; [|destruct Hp].
      destruct Hp as [<-|[]]. exists moving. unfold arriving in BT. rewrite Pm in BT.
      split; [exact BT|]. split; congruence.
    + destruct (negb (Color_eqb c (ToMove f)) && Piece_eqb k (ToNormalizedPiece target))
        eqn:B2; [destruct Hp|].
      destruct Hp as [<-|[]].
      assert (NF : pos <> From m).
      { intros E. subst pos. assert (piece = moving) by congruence. subst piece.
        rewrite <- Cpc, Cm, <- Kp in B1.
        assert (T : Color_eqb (ToMove f) (ToMove f) = true) by (apply Color_eqb_eq; reflexivity).
        unfold Piece_eqb in B1. rewrite T, Ascii.eqb_refl, Z.eqb_refl in B1. discriminate. }
      assert (NT : pos <> To m).
      { intros E. subst pos. assert (piece = target) by congruence. subst piece.
        destruct Ctarget as [->|Ct].
        - rewrite <- Cpc in Hc. destruct Hc as [Hc|[Hc|[]]]; discriminate Hc.
        - assert (F : Color_eqb c (ToMove f) = false).
          { destruct (Color_eqb c (ToMove f)) eqn:F; [|reflexivity].
            apply Color_eqb_eq in F. rewrite <- Cpc, Ct in F.
            exfalso. apply (Opposite_neq _ F). }
          unfold Piece_eqb in B2. rewrite F, <- Kp, Ascii.eqb_refl in B2. discriminate. }
      exists piece. split; [|auto].
      rewrite D; [exact Epiece | | exact NF | exact NT].
      apply boardAt_bound in Epiece. rewrite L in Epiece. lia.
  - exists (Promote m). unfold arriving in BT.
    apply negb_true_iff in Pm. rewrite Pm in BT.
    split; [exact BT|]. split; [reflexivity|].
    destruct Cp as [Cp|Cp]; [|exact Cp].
    rewrite Cp in Pm. discriminate.
Qed.

Lemma Main_ApplyMove_keeps_index_sound_witness :
  wellFormed rookEnding
  /\ exists g, Main.ApplyMove rookEnding (NewMove A1 A8) = Ret g /\ wellFormed g.
Proof.
  assert (W : wellFormed rookEnding) by (split; vm_compute; reflexivity).
  split; [exact W|].
  destruct (Main.ApplyMove rookEnding (NewMove A1 A8)) as [g|] eqn:E;
    [|vm_compute in E; discriminate].
  exists g. split; [reflexivity|].
  apply (Main_ApplyMove_keeps_index_sound rookEnding g (NewMove A1 A8)
           WhiteRook NoPiece W);
    [ reflexivity | reflexivity | reflexivity | left; reflexivity
    | left; reflexivity | exact E ].
Defined.

(** X10. What the first generation's [ApplyMove] does to the index on a
    capture: the entries of the other colour under the kind of the piece
    on the target square are skipped whatever their square, so the index
    returned lists no square for that colour and kind, also when other
    pieces of the kind remain on the board. *)
Theorem Main_ApplyMove_capture_clears_kind (f g : FEN) (m : Move)
    (target : Piece) (c : Color) :
  Main.ApplyMove f m = Ret g ->
  From m <> To m -> boardAt (Board f) (To m) = Ret target ->
  c <> ToMove f ->
  Pieces g c (ToNormalizedPiece target) = [].
Proof.
  intros H NFT Ht Hc.
  destruct (Main_ApplyMove_fields f g m H) as (mp & cp & B & P & _).
  apply movedBoard_Ret in B. destruct B as (_ & _ & _ & _ & C & _).
  destruct (C NFT) as [_ Ecp]. assert (cp = target) by congruence. subst cp.
  assert (F : Color_eqb c (ToMove f) = false).
  { destruct (Color_eqb c (ToMove f)) eqn:F; [|reflexivity].
    apply Color_eqb_eq in F. contradiction. }
  assert (R : Main.rebuildIndex f m (ToNormalizedPiece mp) (ToNormalizedPiece target)
                c (ToNormalizedPiece target) = []).
  { unfold Main.rebuildIndex. destruct c; [reflexivity| |];
      (induction (Pieces f _ (ToNormalizedPiece target)) as [|pos l IH];
       [reflexivity|]; simpl; rewrite IH; unfold Main.movedEntry;
       rewrite F; unfold Piece_eqb; rewrite Ascii.eqb_refl; reflexivity). }
  destruct (negb (Piece_eqb (Promote m) NoPiece)).
  - unfold Main.addPromoted in P.
    assert (E : Pieces g = setPositions
                  (Main.rebuildIndex f m (ToNormalizedPiece mp) (ToNormalizedPiece target))
                  (ToMove f) (ToNormalizedPiece (Promote m))
                  (Main.rebuildIndex f m (ToNormalizedPiece mp) (ToNormalizedPiece target)
                     (ToMove f) (ToNormalizedPiece (Promote m)) ++ [To m]))
      by (destruct (ToMove f); [discriminate| |]; injection P as <-; reflexivity).
    rewrite E. unfold setPositions.
    destruct (Color_eqb (ToMove f) c) eqn:F'.
    + apply Color_eqb_eq in F'. congruence.
    + exact R.
  - injection P as <-. exact R.
Qed.

Lemma Main_ApplyMove_capture_clears_kind_witness :
  exists g, Main.ApplyMove rookTakesPawn (NewMove A1 48) = Ret g
            /\ Pieces g Black Pawn = []
            /\ boardAt (Board g) 41 = Ret BlackPawn.
Proof.
  destruct (Main.ApplyMove rookTakesPawn (NewMove A1 48)) as [g|] eqn:E;
    [|vm_compute in E; discriminate].
  exists g. split; [reflexivity|]. split.
  - apply (Main_ApplyMove_capture_clears_kind rookTakesPawn g (NewMove A1 48)
             BlackPawn Black E);
      [vm_compute; discriminate | reflexivity | vm_compute; discriminate].
  - vm_compute in E. injection E as <-. reflexivity.
Defined.

(** ** The codec, with the en-passant square and the line *)

(** X11. The codec: for a position with a board of 64 squares, each
    empty or a piece byte of ASCII (no white space, no [/], no digit from
    1 to 8), a side to move and clocks that are [int]s, whose en-passant
    square is absent or written as a text [ParsePosition] accepts,
    [FENString] returns a text, [ParseFEN] accepts it, and the position
    read back has the same board, castling rights, side to move and
    clocks; its line is empty, and its en-passant square is what
    [ParsePosition] makes of the text of the original one. *)
Theorem FENString_ParseFEN_roundtrip (f : FEN) :
  codecPosition f -> enPassantReadable f = true ->
  exists s g, ChessEngine.FENString f = Ret s
              /\ ChessEngine.ParseFEN s = Ret (inl g)
              /\ sameCodecFields f g
              /\ EnPassantVulnerable g = enPassantReadBack (EnPassantVulnerable f)
              /\ Line g = [].
Proof. apply codec_roundtrip. Qed.

Lemma codecPosition_rightsHeld : codecPosition rightsHeld.
Proof.
  split; [split; vm_compute; reflexivity|].
  split; [discriminate|]. split; vm_compute; split; discriminate.
Qed.

Lemma FENString_ParseFEN_roundtrip_witness :
  exists s g, ChessEngine.FENString rightsHeld = Ret s
              /\ ChessEngine.ParseFEN s = Ret (inl g)
              /\ sameCodecFields rightsHeld g
              /\ EnPassantVulnerable g = 0
              /\ Line g = [].
Proof.
  apply (FENString_ParseFEN_roundtrip rightsHeld codecPosition_rightsHeld).
  reflexivity.
Defined.

(** X12. For a position the codec can carry (64 squares, each empty or
    a piece byte of ASCII, a side to move, clocks that are [int]s) that
    has no en-passant square, the text [FENString] writes is a fixed
    point: [ParseFEN] accepts it, and [FENString] of the position read
    back is the same text. *)
Theorem FENString_fixed_point (f : FEN) :
  codecPosition f -> EnPassantVulnerable f = NoPosition ->
  exists s g, ChessEngine.FENString f = Ret s
              /\ ChessEngine.ParseFEN s = Ret (inl g)
              /\ ChessEngine.FENString g = Ret s.
Proof.
  intros C E0.
  destruct (codec_roundtrip f C) as (s & g & Es & Eg & (B & W & Bl & T & H & M) & Ep & _).
  { unfold enPassantReadable. rewrite E0. reflexivity. }
  exists s, g. split; [exact Es|]. split; [exact Eg|].
  rewrite <- Es. unfold ChessEngine.FENString.
  rewrite B, W, Bl, T, H, M, Ep, E0. reflexivity.
Qed.

Lemma FENString_fixed_point_witness :
  exists s g, ChessEngine.FENString rightsHeld = Ret s
              /\ ChessEngine.ParseFEN s = Ret (inl g)
              /\ ChessEngine.FENString g = Ret s.
Proof.
  apply (FENString_fixed_point rightsHeld codecPosition_rightsHeld). reflexivity.
Defined.

(** ** ParseFEN *)

Lemma parsePlacementStep_Main (st st' : placement) (c : ascii) :
  parsePlacementStep Main.addToIndex st c = Ret st' ->
  parsePlacementStep (fun pp piece p => Ret (AddPosition pp piece p)) st c = Ret st'.
Proof.
  unfold parsePlacementStep.
  destruct (Ascii.eqb c "/"); [auto|].
  destruct ((byte_of "1" <=? byte_of c) && (byte_of c <=? byte_of "8")); [auto|].
  destruct (boardSet (pl_board st) (int64 (pl_y st * 8 + pl_x st)) c) as [b|];
    [|auto]. cbn [bind]. unfold Main.addToIndex.
  destruct (Piece_Color c); [discriminate | |]; auto.
Qed.

Lemma parsePlacementStep_second (st st' : placement) (c : ascii) :
  parsePlacementStep (fun pp piece p => Ret (AddPosition pp piece p)) st c = Ret st' ->
  parsePlacementStep Main.addToIndex st c = Ret st'
  \/ parsePlacementStep Main.addToIndex st c = Panic NilMapAssignment.
Proof.
  unfold parsePlacementStep.
  destruct (Ascii.eqb c "/"); [auto|].
  destruct ((byte_of "1" <=? byte_of c) && (byte_of c <=? byte_of "8")); [auto|].
  destruct (boardSet (pl_board st) (int64 (pl_y st * 8 + pl_x st)) c) as [b|];
    [|auto]. cbn [bind]. unfold Main.addToIndex.
  destruct (Piece_Color c); auto.
Qed.

Lemma parsePlacement_Main (l : list ascii) (st st' : placement) :
  forM l (parsePlacementStep Main.addToIndex) st = Ret st' ->
  forM l (parsePlacementStep (fun pp piece p => Ret (AddPosition pp piece p))) st = Ret st'.
Proof.
  revert st. induction l as [|c l IH]; intros st; simpl; [auto|].
  intros H. bind_split H as st1 E1.
  rewrite (parsePlacementStep_Main _ _ _ E1). cbn [bind]. apply IH, H.
Qed.

Lemma parsePlacement_second (l : list ascii) (st st' : placement) :
  forM l (parsePlacementStep (fun pp piece p => Ret (AddPosition pp piece p))) st = Ret st' ->
  forM l (parsePlacementStep Main.addToIndex) st = Ret st'
  \/ forM l (parsePlacementStep Main.addToIndex) st = Panic NilMapAssignment.
Proof.
  revert st. induction l as [|c l IH]; intros st; simpl; [auto|].
  intros H. bind_split H as st1 E1.
  destruct (parsePlacementStep_second _ _ _ E1) as [E|E]; rewrite E; cbn [bind]; auto.
Qed.

(** X14. The two generations of [ParseFEN]: wherever the first returns,
    the second returns the same; where the second returns and the first
    does not, the first has panicked on the assignment into the index of
    a colour it does not hold, which a piece byte that is not a letter
    brings about. *)
Theorem ParseFEN_generations (text : string) :
  (forall r, Main.ParseFEN text = Ret r -> ChessEngine.ParseFEN text = Ret r)
  /\ (forall r, ChessEngine.ParseFEN text = Ret r ->
                Main.ParseFEN text = Ret r
                \/ Main.ParseFEN text = Panic NilMapAssignment).
Proof.
  unfold Main.ParseFEN, ChessEngine.ParseFEN, ParseFEN_with.
  destruct (Sscanf_ssssdd text) as [[[[[[a b] c] d] h] m]|]; [|auto].
  destruct (if String.eqb b "w" then Some White
            else if String.eqb b "b" then Some Black else None) as [toMove|];
    [|auto].
  destruct (if String.eqb d "-" then inl NoPosition else ParsePosition d)
    as [ep|err]; [|auto].
  unfold parsePlacement. split; intros r H.
  - bind_split H as st E. rewrite (parsePlacement_Main _ _ _ E). exact H.
  - bind_split H as st E.
    destruct (parsePlacement_second _ _ _ E) as [E'|E']; rewrite E'; cbn [bind]; auto.
Qed.

Lemma ParseFEN_generations_witness :
  Main.ParseFEN "4k3/8/8/8/8/8/8/4K2* w - - 0 1" = Panic NilMapAssignment
  /\ exists f, ChessEngine.ParseFEN startpos = Ret (inl f).
Proof.
  split.
  - destruct (ChessEngine.ParseFEN "4k3/8/8/8/8/8/8/4K2* w - - 0 1") as [r|] eqn:E;
      [|vm_compute in E; discriminate].
    destruct (proj2 (ParseFEN_generations _) r E) as [H|H]; [|exact H].
    vm_compute in H. discriminate.
  - destruct (Main.ParseFEN startpos) as [[f|]|] eqn:E;
      try (vm_compute in E; discriminate).
    exists f. apply (proj1 (ParseFEN_generations startpos)), E.
Defined.

Lemma ParseFEN_second (text : string) (f : FEN) :
  ChessEngine.ParseFEN text = Ret (inl f) \/ Main.ParseFEN text = Ret (inl f) ->
  ChessEngine.ParseFEN text = Ret (inl f).
Proof.
  intros [H|H]; [exact H|].
  unfold Main.ParseFEN, ChessEngine.ParseFEN, ParseFEN_with in *.
  destruct (Sscanf_ssssdd text) as [[[[[[a b] c] d] h] m]|]; [|auto].
  destruct (if String.eqb b "w" then Some White
            else if String.eqb b "b" then Some Black else None) as [toMove|];
    [|auto].
  destruct (if String.eqb d "-" then inl NoPosition else ParsePosition d)
    as [ep|err]; [|auto].
  unfold parsePlacement in *.
  bind_split H as st E. rewrite (parsePlacement_Main _ _ _ E). exact H.
Qed.

(** What [ParseFEN] returns, in terms of the fields [Sscanf] has read. *)
Lemma ParseFEN_fields (text : string) (f : FEN) :
  ChessEngine.ParseFEN text = Ret (inl f) ->
  exists forStr colorStr castleStr enPassant st,
    Sscanf_ssssdd text
    = Some (forStr, colorStr, castleStr, enPassant, HalfmoveClock f, Fullmove f)
    /\ forStr = placementField text
    /\ (if String.eqb colorStr "w" then Some White
        else if String.eqb colorStr "b" then Some Black else None) = Some (ToMove f)
    /\ (if String.eqb enPassant "-" then inl NoPosition else ParsePosition enPassant)
       = inl (EnPassantVulnerable f)
    /\ parseFrom (mkPlacement emptyBoard NewPiecePositions 0 7) forStr = Ret st
    /\ Board f = pl_board st /\ Pieces f = pl_pieces st
    /\ WhiteCastleStatus f = parseCastle castleStr "K" "Q"
    /\ BlackCastleStatus f = parseCastle castleStr "k" "q"
    /\ Line f = [].
Proof.
  unfold ChessEngine.ParseFEN, ParseFEN_with, placementField.
  destruct (Sscanf_ssssdd text) as [[[[[[a b] c] d] h] m]|] eqn:S; [|discriminate].
  assert (Fa : match verbS (mkSs 0 (readRunes 0 text)) with
               | Some (forStr, _) => forStr
               | None => EmptyString
               end = a).
  { destruct (Sscanf_inv _ _ _ _ _ _ _ S) as ((s1 & Ea) & _). rewrite Ea. reflexivity. }
  destruct (if String.eqb b "w" then Some White
            else if String.eqb b "b" then Some Black else None) as [toMove|] eqn:Et;
    [|discriminate].
  destruct (if String.eqb d "-" then inl NoPosition else ParsePosition d)
    as [ep|err] eqn:Ee; [|discriminate].
  intros H. bind_split H as st Est. injection H as <-. simpl.
  exists a, b, c, d, st. rewrite Fa, Et, Ee. repeat split. exact Est.
Qed.

Lemma squareBit_isSquareBit (c0 c1 : ascii) :
  fileLetter c0 = true -> rankDigit c1 = true ->
  isSquareBit (squareBit (lowerFile c0) (byte_of c1)).
Proof.
  intros F R. unfold isSquareBit, squareBit.
  exists (8 * (byte_of c1 - byte_of "1") + (lowerFile c0 - byte_of "a")).
  split; [|reflexivity].
  apply onRanks_bounds in R. unfold fileLetter in F. unfold lowerFile.
  change (byte_of "a") with 97. change (byte_of "1") with 49.
  destruct (onFiles (byte_of c0)) eqn:O.
  - apply onFiles_bounds in O. lia.
  - simpl in F. apply andb_prop in F. destruct F as [F1 F2].
    change (byte_of "A") with 65 in F1. change (byte_of "H") with 72 in F2.
    apply Z.leb_le in F1, F2. lia.
Qed.

(** X13. Every position [ParseFEN] returns, in either generation, has a
    board of 64 squares, each empty or holding a byte of the placement
    field that is no blank, no [/] and no digit from 1 to 8; White or
    Black is to move; the clocks are [int]s; the line is empty; and the
    en-passant square is [NoPosition] or the bit of one of the 64
    squares. *)
Theorem ParseFEN_invariants (text : string) (f : FEN) :
  ChessEngine.ParseFEN text = Ret (inl f) \/ Main.ParseFEN text = Ret (inl f) ->
  cleanBoard (Board f)
  /\ (ToMove f = White \/ ToMove f = Black)
  /\ isInt (HalfmoveClock f) /\ isInt (Fullmove f)
  /\ Line f = []
  /\ (EnPassantVulnerable f = NoPosition \/ isSquareBit (EnPassantVulnerable f)).
Proof.
  intros H. apply ParseFEN_second in H.
  destruct (ParseFEN_clean text f H) as (C & T & Hh & Hm).
  destruct (ParseFEN_fields text f H)
    as (a & b & c & d & st & _ & _ & _ & Ee & _ & _ & _ & _ & _ & L).
  split; [exact C|].
  split; [destruct (ToMove f); [congruence | auto | auto]|].
  split; [exact Hh|]. split; [exact Hm|]. split; [exact L|].
  destruct (String.eqb d "-"); [left; congruence|]. right.
  unfold ParsePosition in Ee.
  destruct d as [|c0 [|c1 [|c2 d]]]; try discriminate Ee.
  rewrite parsePosition_letters in Ee.
  destruct (fileLetter c0) eqn:F; [|discriminate].
  destruct (rankDigit c1) eqn:R; [|discriminate].
  simpl in Ee. injection Ee as <-. apply squareBit_isSquareBit; assumption.
Qed.

Lemma ParseFEN_invariants_witness :
  exists f, ChessEngine.ParseFEN startpos = Ret (inl f)
            /\ cleanBoard (Board f) /\ Line f = [].
Proof.
  destruct (ChessEngine.ParseFEN startpos) as [[f|]|] eqn:E;
    try (vm_compute in E; discriminate).
  exists f. split; [reflexivity|].
  destruct (ParseFEN_invariants startpos f (or_introl E)) as (C & _ & _ & _ & L & _).
  split; assumption.
Defined.

(** ** The index ParseFEN builds *)

Lemma AddPosition_keeps (pp : PiecePositions) (piece : Piece) (p q : Position)
    (c : Color) (k : NormalizedPiece) :
  In q (pp c k) -> In q (AddPosition pp piece p c k).
Proof.
  unfold AddPosition, setPositions. intros H.
  destruct (Color_eqb (Piece_Color piece) c && Piece_eqb (ToNormalizedPiece piece) k)
    eqn:B; [|exact H].
  apply andb_prop in B. destruct B as [B1 B2].
  apply Color_eqb_eq in B1. apply Ascii.eqb_eq in B2. subst c k.
  apply in_or_app. auto.
Qed.

Lemma AddPosition_new (pp : PiecePositions) (piece : Piece) (p : Position) :
  In p (AddPosition pp piece p (Piece_Color piece) (ToNormalizedPiece piece)).
Proof.
  unfold AddPosition, setPositions.
  replace (Color_eqb (Piece_Color piece) (Piece_Color piece)) with true
    by (symmetry; apply Color_eqb_eq; reflexivity).
  unfold Piece_eqb. rewrite Ascii.eqb_refl. simpl.
  apply in_or_app. right. left. reflexivity.
Qed.

Lemma AddPosition_In (pp : PiecePositions) (piece : Piece) (p q : Position)
    (c : Color) (k : NormalizedPiece) :
  In q (AddPosition pp piece p c k) ->
  In q (pp c k) \/ (q = p /\ c = Piece_Color piece /\ k = ToNormalizedPiece piece).
Proof.
  unfold AddPosition, setPositions.
  destruct (Color_eqb (Piece_Color piece) c && Piece_eqb (ToNormalizedPiece piece) k)
    eqn:B; [|auto].
  apply andb_prop in B. destruct B as [B1 B2].
  apply Color_eqb_eq in B1. apply Ascii.eqb_eq in B2. subst c k.
  intros H. apply in_app_or in H. destruct H as [H|[<-|[]]]; auto.
Qed.

Lemma u64_small (z : Z) : 0 <= z < 2 ^ 64 -> u64 z = z.
Proof. intros H. apply Z.mod_small. exact H. Qed.

(** One step of the placement loop that writes a piece. *)
Lemma parsePlacementStep_piece (st st' : placement) (c : ascii) :
  Ascii.eqb c "/" = false ->
  (byte_of "1" <=? byte_of c) && (byte_of c <=? byte_of "8") = false ->
  parsePlacementStep (fun pp piece p => Ret (AddPosition pp piece p)) st c = Ret st' ->
  let pos := int64 (pl_y st * 8 + pl_x st) in
  boardSet (pl_board st) pos c = Ret (pl_board st')
  /\ pl_pieces st' = AddPosition (pl_pieces st) c (u64 pos)
  /\ pl_x st' = int64 (pl_x st + 1) /\ pl_y st' = pl_y st.
Proof.
  intros Sl Dg. unfold parsePlacementStep. rewrite Sl, Dg.
  intros H. bind_split H as b Eb. cbn [bind] in H. injection H as <-. simpl.
  auto.
Qed.

Lemma boardSet_bound (b b' : list Piece) (p : Z) (x : Piece) :
  boardSet b p x = Ret b' -> 0 <= p < Z.of_nat (List.length b).
Proof.
  unfold boardSet. destruct (Z.ltb_spec p 0); [discriminate|].
  destruct (Nat.ltb_spec (Z.to_nat p) (List.length b)); [|discriminate].
  intros _. lia.
Qed.

Lemma u64_int64 (z : Z) : 0 <= int64 z -> u64 (int64 z) = int64 z.
Proof.
  intros H. apply u64_small. pose proof (int64_isInt z) as I.
  unfold isInt, max_int in I. lia.
Qed.

Lemma index_complete_step (st st' : placement) (c : ascii) :
  (forall p piece, boardAt (pl_board st) p = Ret piece -> piece <> NoPiece ->
                   In p (pl_pieces st (Piece_Color piece) (ToNormalizedPiece piece))) ->
  parsePlacementStep (fun pp piece p => Ret (AddPosition pp piece p)) st c = Ret st' ->
  forall p piece, boardAt (pl_board st') p = Ret piece -> piece <> NoPiece ->
                  In p (pl_pieces st' (Piece_Color piece) (ToNormalizedPiece piece)).
Proof.
  intros I H.
  destruct (Ascii.eqb c "/") eqn:Sl.
  { unfold parsePlacementStep in H. rewrite Sl in H. injection H as <-. exact I. }
  destruct ((byte_of "1" <=? byte_of c) && (byte_of c <=? byte_of "8")) eqn:Dg.
  { unfold parsePlacementStep in H. rewrite Sl, Dg in H. injection H as <-. exact I. }
  destruct (parsePlacementStep_piece st st' c Sl Dg H) as (Eb & Ep & _).
  intros p piece Hp Np. rewrite Ep.
  rewrite (boardAt_boardSet _ _ _ p _ Eb) in Hp.
  destruct (Z.eqb_spec p (int64 (pl_y st * 8 + pl_x st))) as [->|N].
  - injection Hp as <-. pose proof (boardSet_bound _ _ _ _ Eb) as B.
    rewrite u64_int64 by lia. apply AddPosition_new.
  - apply AddPosition_keeps, I; assumption.
Qed.

Lemma boardAt_emptyBoard (p : Z) (piece : Piece) :
  boardAt emptyBoard p = Ret piece -> piece = NoPiece.
Proof.
  unfold boardAt, emptyBoard. destruct (p <? 0); [discriminate|].
  destruct (nth_error (repeat NoPiece 64) (Z.to_nat p)) as [x|] eqn:E; [|discriminate].
  intros H. injection H as <-. apply nth_error_In in E.
  apply (repeat_spec _ _ _ E).
Qed.

(** X15. The index [ParseFEN] builds is complete, in both generations:
    every square of the board it returns that is not empty is listed in
    the index under the colour and the kind of the piece on it. *)
Theorem ParseFEN_index_complete (text : string) (f : FEN) (p : Position) (piece : Piece) :
  ChessEngine.ParseFEN text = Ret (inl f) \/ Main.ParseFEN text = Ret (inl f) ->
  boardAt (Board f) p = Ret piece -> piece <> NoPiece ->
  In p (Pieces f (Piece_Color piece) (ToNormalizedPiece piece)).
Proof.
  intros H. apply ParseFEN_second in H.
  destruct (ParseFEN_fields text f H)
    as (a & b & c & d & st & _ & _ & _ & _ & Est & -> & -> & _).
  revert p piece. revert Est. unfold parseFrom.
  apply (forM_invariant
           (fun st => forall p piece, boardAt (pl_board st) p = Ret piece ->
                        piece <> NoPiece ->
                        In p (pl_pieces st (Piece_Color piece) (ToNormalizedPiece piece)))).
  - intros s x s' _ I E. apply (index_complete_step s s' x I E).
  - simpl. intros p piece Hp Np. apply boardAt_emptyBoard in Hp. contradiction.
Qed.

Lemma ParseFEN_index_complete_witness :
  exists f, Main.ParseFEN startpos = Ret (inl f)
            /\ In E1 (Pieces f White King).
Proof.
  destruct (Main.ParseFEN startpos) as [[f|]|] eqn:E;
    try (vm_compute in E; discriminate).
  exists f. split; [reflexivity|].
  apply (ParseFEN_index_complete startpos f E1 WhiteKing (or_intror E)).
  - vm_compute in E. injection E as <-. reflexivity.
  - discriminate.
Defined.

Lemma proper_parse (l : list ascii) :
  forall (st : placement) (last : Z * Z),
    0 <= pl_x st <= 8 -> 0 <= pl_y st <= 7 ->
    List.length (pl_board st) = 64%nat ->
    scanPlacement (pl_x st) (pl_y st) l = Some last ->
    placementSound st ->
    (forall c k p, In p (pl_pieces st c k) -> written (pl_y st) (pl_x st) p) ->
    exists st',
      forM l (parsePlacementStep (fun pp piece p => Ret (AddPosition pp piece p))) st
      = Ret st'
      /\ List.length (pl_board st') = 64%nat /\ placementSound st'.
Proof.
  induction l as [|ch l IH]; intros st last Hx Hy L Sc So Rg.
  - exists st. split; [reflexivity|]. split; assumption.
  - cbn [scanPlacement] in Sc. cbn [forM]. unfold parsePlacementStep.
    destruct (Ascii.eqb ch "/") eqn:Sl.
    { destruct (Z.ltb_spec 0 (pl_y st)) as [Py|]; [|discriminate]. cbn [bind].
      apply (IH _ last); simpl; rewrite ?int64_small by lia;
        try lia; try assumption.
      intros c k p Hp. specialize (Rg c k p Hp). unfold written in *. lia. }
    pose proof (byte_of_range ch) as Rc.
    destruct ((byte_of "1" <=? byte_of ch) && (byte_of ch <=? byte_of "8")) eqn:Dg.
    { apply andb_prop in Dg. destruct Dg as [D1 D2].
      change (byte_of "1") with 49 in D1. change (byte_of "8") with 56 in D2.
      change (byte_of "0") with 48 in *. apply Z.leb_le in D1, D2.
      destruct (Z.leb_spec (pl_x st + (byte_of ch - 48)) 8) as [Px|]; [|discriminate].
      cbn [bind].
      apply (IH _ last); simpl; rewrite ?int64_small by lia;
        try lia; try assumption.
      intros c k p Hp. specialize (Rg c k p Hp). unfold written in *. lia. }
    destruct (Z.ltb_spec (pl_x st) 8) as [Px|]; [|discriminate].
    set (pos := pl_y st * 8 + pl_x st).
    assert (Hpos : 0 <= pos < 64) by (unfold pos; lia).
    rewrite (int64_small pos) by lia.
    destruct (boardSet_defined (pl_board st) pos ch) as (b' & Eb & Lb'); [lia|].
    rewrite Eb. cbn [bind]. rewrite u64_small by lia.
    apply (IH _ last); simpl; rewrite ?int64_small by lia;
      try lia; try assumption.
    + unfold placementSound. simpl. intros c k p Hp. apply AddPosition_In in Hp.
      rewrite (boardAt_boardSet _ _ _ p _ Eb).
      destruct Hp as [Hp|(-> & -> & ->)].
      * specialize (Rg c k p Hp).
        destruct (Z.eqb_spec p pos) as [E|_];
          [unfold written, pos in *; lia|].
        apply (So c k p Hp).
      * rewrite Z.eqb_refl. exists ch. auto.
    + intros c k p Hp. apply AddPosition_In in Hp.
      destruct Hp as [Hp|(-> & _)].
      * specialize (Rg c k p Hp). unfold written in *. lia.
      * unfold written, pos. lia.
Qed.

Lemma placementField_Sscanf (text a b c d : string) (h m : Z) :
  Sscanf_ssssdd text = Some (a, b, c, d, h, m) -> placementField text = a.
Proof.
  intros S. unfold placementField.
  destruct (Sscanf_inv _ _ _ _ _ _ _ S) as ((s1 & Ea) & _). rewrite Ea. reflexivity.
Qed.

Lemma proper_placement_parse (text : string) :
  properPlacement (placementField text) = true ->
  exists st,
    parseFrom (mkPlacement emptyBoard NewPiecePositions 0 7) (placementField text)
    = Ret st
    /\ List.length (pl_board st) = 64%nat /\ placementSound st.
Proof.
  unfold properPlacement. intros Pr.
  destruct (scanPlacement 0 7 (list_ascii_of_string (placementField text)))
    as [last|] eqn:Sc; [|discriminate].
  destruct (proper_parse (list_ascii_of_string (placementField text))
              (mkPlacement emptyBoard NewPiecePositions 0 7) last)
    as (st' & E & L & So); simpl; try lia; try assumption; try reflexivity.
  { unfold placementSound. simpl. intros c k p []. }
  exists st'. auto.
Qed.

Lemma proper_placement_wellFormed (text : string) (f : FEN) :
  properPlacement (placementField text) = true ->
  ChessEngine.ParseFEN text = Ret (inl f) -> wellFormed f.
Proof.
  intros Pr H. destruct (proper_placement_parse text Pr) as (st' & E & L & So).
  destruct (ParseFEN_fields text f H)
    as (a & b & c & d & st & _ & -> & _ & _ & Est & Bf & Pf & _).
  rewrite E in Est. injection Est as <-.
  split; [rewrite Bf; exact L|].
  apply indexSound_iff. intros c0 k p _ _ Hp. apply indexEntryOk_iff.
  rewrite Bf. rewrite Pf in Hp. apply (So c0 k p Hp).
Qed.

(** X16. A placement field that stays on the board: at most eight ranks,
    no rank longer than eight squares.  On a text with such a field
    [ParseFEN] of the second generation does not panic, and every position
    either generation returns for it has 64 squares and an index that
    agrees with the board: every square the index lists holds a piece of
    the listed colour and kind. *)
Theorem ParseFEN_proper_placement (text : string) :
  properPlacement (placementField text) = true ->
  (exists r, ChessEngine.ParseFEN text = Ret r)
  /\ (forall f, ChessEngine.ParseFEN text = Ret (inl f)
                \/ Main.ParseFEN text = Ret (inl f) -> wellFormed f).
Proof.
  intros Pr. split.
  - destruct (proper_placement_parse text Pr) as (st' & E & _).
    unfold ChessEngine.ParseFEN, ParseFEN_with.
    destruct (Sscanf_ssssdd text) as [[[[[[a b] c] d] h] m]|] eqn:S; [|eauto].
    rewrite (placementField_Sscanf _ _ _ _ _ _ _ S) in E.
    destruct (if String.eqb b "w" then Some White
              else if String.eqb b "b" then Some Black else None) as [toMove|];
      [|eauto].
    destruct (if String.eqb d "-" then inl NoPosition else ParsePosition d)
      as [ep|err]; [|eauto].
    change (parsePlacement _ a)
      with (parseFrom (mkPlacement emptyBoard NewPiecePositions 0 7) a).
    rewrite E. cbn [bind]. eauto.
  - intros f H. apply ParseFEN_second in H.
    apply (proper_placement_wellFormed text f Pr H).
Qed.

Lemma ParseFEN_proper_placement_witness :
  exists f, ChessEngine.ParseFEN startpos = Ret (inl f) /\ wellFormed f.
Proof.
  destruct (ChessEngine.ParseFEN startpos) as [[f|]|] eqn:E;
    try (vm_compute in E; discriminate).
  exists f. split; [reflexivity|].
  apply (proj2 (ParseFEN_proper_placement startpos eq_refl) f). left. exact E.
Defined.

Lemma FENString_placementField (f : FEN) (s : string) :
  codecPosition f -> enPassantReadable f = true ->
  ChessEngine.FENString f = Ret s ->
  properPlacement (placementField s) = true.
Proof.
  intros C Hep H.
  destruct (FENString_scanned f C Hep) as (forStr & st & text & E & _ & _ & Es & _ & S).
  rewrite Es in H. injection H as <-.
  rewrite (placementField_Sscanf _ _ _ _ _ _ _ S).
  destruct C as (C & _).
  apply (FENString_placement_proper (Board f) forStr (plainBoard_clean _ C) E).
Qed.

(** X17. The codec and the index: for a position the codec can carry
    (64 squares, each empty or a piece byte of ASCII, a side to move,
    clocks that are [int]s, an en-passant square that is absent or
    written as a text [ParsePosition] accepts), the position [ParseFEN]
    reads back from the text [FENString] writes has the board of the
    original and an index that agrees with that board, whatever the
    index of the original was. *)
Theorem FENString_ParseFEN_wellFormed (f : FEN) :
  codecPosition f -> enPassantReadable f = true ->
  exists s g, ChessEngine.FENString f = Ret s
              /\ ChessEngine.ParseFEN s = Ret (inl g)
              /\ Board g = Board f
              /\ wellFormed g.
Proof.
  intros C Hep.
  destruct (codec_roundtrip f C Hep) as (s & g & Es & Eg & (B & _) & _).
  exists s, g. split; [exact Es|]. split; [exact Eg|]. split; [exact B|].
  apply (proper_placement_wellFormed s g); [|exact Eg].
  apply (FENString_placementField f s C Hep Es).
Qed.

Lemma FENString_ParseFEN_wellFormed_witness :
  exists s g, ChessEngine.FENString rightsHeld = Ret s
              /\ ChessEngine.ParseFEN s = Ret (inl g)
              /\ Board g = Board rightsHeld
              /\ wellFormed g.
Proof.
  apply (FENString_ParseFEN_wellFormed rightsHeld codecPosition_rightsHeld).
  reflexivity.
Defined.

(** ** The anatomy of an attack *)

Section AttackAnatomy.

Variable f : FEN.
Variable cond : cond_t.
Variable color : Color.

Lemma attackPawn_anatomy (pawnPos : Position) (result result' : list Move) :
  In pawnPos (Pieces f color Pawn) ->
  Forall (attackMove f cond color PawnAttacks) result ->
  ChessEngine.attackPawn cond color result pawnPos = Ret result' ->
  Forall (attackMove f cond color PawnAttacks) result'.
Proof.
  intros Hpawn. unfold ChessEngine.attackPawn.
  apply forM_invariant. intros s p s' Hp Hs H.
  bind_split H as c Ec. destruct c; [|injection H as <-; exact Hs].
  assert (Hhit : forall m, From m = pawnPos -> To m = p ->
                           attackMove f cond color PawnAttacks m).
  { intros m HF HT. split; [rewrite HT; exact Ec|]. left. rewrite HF, HT. auto. }
  destruct (ToPromotions (NewMove pawnPos p)) as [|m0 l] eqn:TP;
    injection H as <-; apply Forall_app; (split; [exact Hs|]).
  - constructor; [|constructor]. apply Hhit; reflexivity.
  - rewrite <- TP. apply Forall_forall. intros m Hm.
    apply ToPromotions_squares in Hm. destruct Hm. apply Hhit; assumption.
Qed.

Lemma Main_attackPawn_anatomy (pawnPos : Position) (result result' : list Move) :
  In pawnPos (Pieces f color Pawn) ->
  Forall (attackMove f cond color Main.pawnTargets) result ->
  Main.attackPawn cond color result pawnPos = Ret result' ->
  Forall (attackMove f cond color Main.pawnTargets) result'.
Proof.
  intros Hpawn. unfold Main.attackPawn.
  apply forM_invariant. intros s p s' Hp Hs H.
  bind_split H as c Ec. destruct c; [|injection H as <-; exact Hs].
  assert (Hhit : forall m, From m = pawnPos -> To m = p ->
                           attackMove f cond color Main.pawnTargets m).
  { intros m HF HT. split; [rewrite HT; exact Ec|]. left. rewrite HF, HT. auto. }
  destruct (Color_eqb color White && (GetRank pawnPos =? byte_of "7"));
    [|destruct (Color_eqb color Black && (GetRank pawnPos =? byte_of "2"))];
    injection H as <-; apply Forall_app; (split; [exact Hs|]).
  - apply Forall_forall. intros m Hm. simpl in Hm.
    repeat (destruct Hm as [<-|Hm]; [apply Hhit; reflexivity|]). destruct Hm.
  - apply Forall_forall. intros m Hm. simpl in Hm.
    repeat (destruct Hm as [<-|Hm]; [apply Hhit; reflexivity|]). destruct Hm.
  - constructor; [|constructor]. apply Hhit; reflexivity.
Qed.

Lemma attackKnight_anatomy (pt : Color -> Position -> list Position)
    (fromPos : Position) (result result' : list Move) :
  In fromPos (Pieces f color Knight) ->
  Forall (attackMove f cond color pt) result ->
  forM (GetKnightMoves fromPos)
       (fun result toPos =>
          c <- cond toPos ;;
          if c then Ret (result ++ [NewMove fromPos toPos]) else Ret result)
       result = Ret result' ->
  Forall (attackMove f cond color pt) result'.
Proof.
  intros Hfrom. apply forM_invariant. intros s p s' Hp Hs H.
  bind_split H as c Ec. destruct c; injection H as <-; [|exact Hs].
  apply Forall_snoc; [exact Hs|]. split; [exact Ec|]. right; left. auto.
Qed.

Lemma attackLine_anatomy (pt : Color -> Position -> list Position)
    (k : NormalizedPiece) (fromPos : Position) (full : list Position) :
  In k [Bishop; Rook; Queen] -> In fromPos (Pieces f color k) ->
  In full (MoveVectors k fromPos) ->
  forall (line before : list Position) (result result' : list Move),
    full = before ++ line -> clearBefore f cond before ->
    Forall (attackMove f cond color pt) result ->
    ChessEngine.attackLine f cond fromPos line result = Ret result' ->
    Forall (attackMove f cond color pt) result'.
Proof.
  intros Hk Hfrom Hfull.
  induction line as [|to rest IH]; simpl; intros before result result' Ef Cb Hs H.
  - injection H as <-. exact Hs.
  - bind_split H as c Ec. destruct c.
    + injection H as <-. apply Forall_snoc; [exact Hs|].
      split; [exact Ec|]. right; right.
      exists k, full, before, rest. simpl. auto 7.
    + bind_split H as b Eb. destruct (Piece_eqb b NoPiece) eqn:N.
      * apply Ascii.eqb_eq in N. subst b.
        apply (IH (before ++ [to]) result result'); auto.
        -- rewrite <- app_assoc. exact Ef.
        -- intros q Hq. apply in_app_or in Hq. destruct Hq as [Hq|[<-|[]]]; auto.
      * injection H as <-. exact Hs.
Qed.

Lemma attackRays_anatomy (pt : Color -> Position -> list Position)
    (k : NormalizedPiece) (fromPos : Position) (lines : list (list Position))
    (result result' : list Move) :
  In k [Bishop; Rook; Queen] -> In fromPos (Pieces f color k) ->
  incl lines (MoveVectors k fromPos) ->
  Forall (attackMove f cond color pt) result ->
  forM lines (fun result line => ChessEngine.attackLine f cond fromPos line result)
       result = Ret result' ->
  Forall (attackMove f cond color pt) result'.
Proof.
  intros Hk Hfrom Hl. apply forM_invariant. intros s line s' Hline Hs H.
  apply (attackLine_anatomy pt k fromPos line Hk Hfrom (Hl line Hline) line [] s s');
    auto.
  intros q [].
Qed.

Lemma GetAttacksOnCondition_anatomy (ms : list Move) :
  ChessEngine.GetAttacksOnCondition f cond color = Ret ms ->
  Forall (attackMove f cond color PawnAttacks) ms.
Proof.
  unfold ChessEngine.GetAttacksOnCondition. intros H.
  bind_split H as r1 E1.
  assert (P1 : Forall (attackMove f cond color PawnAttacks) r1).
  { revert E1. apply forM_invariant; [|constructor].
    intros s x s' Hx. apply attackPawn_anatomy; auto. }
  bind_split H as r2 E2. simpl in E2. bind_split E2 as r2' E2'. injection E2 as <-.
  assert (P2 : Forall (attackMove f cond color PawnAttacks) r2').
  { revert E2'. apply forM_invariant; [|assumption].
    intros s x s' Hx. apply attackKnight_anatomy; auto. }
  simpl in H. bind_split H as r3 E3. bind_split H as r4 E4. bind_split H as r5 E5.
  injection H as <-.
  assert (S : forall k r r', In k [Bishop; Rook; Queen] ->
                Forall (attackMove f cond color PawnAttacks) r ->
                forM (Positions (Pieces f) color k) (ChessEngine.attackSlider f cond k) r
                = Ret r' ->
                Forall (attackMove f cond color PawnAttacks) r').
  { intros k r r' Hk Hr. apply forM_invariant; [|assumption].
    intros s x s' Hx Hs. unfold ChessEngine.attackSlider.
    apply (attackRays_anatomy PawnAttacks k x); auto. apply incl_refl. }
  apply (S Queen r4 r5); [simpl; auto | | exact E5].
  apply (S Rook r3 r4); [simpl; auto | | exact E4].
  apply (S Bishop r2' r3); [simpl; auto | exact P2 | exact E3].
Qed.

Lemma Main_attackLines_anatomy (k : NormalizedPiece)
    (lines : Position -> list (list Position)) (fromPos : Position)
    (result result' : list Move) :
  In k [Bishop; Rook; Queen] -> In fromPos (Pieces f color k) ->
  incl (lines fromPos) (MoveVectors k fromPos) ->
  Forall (attackMove f cond color Main.pawnTargets) result ->
  Main.attackLines f cond lines result fromPos = Ret result' ->
  Forall (attackMove f cond color Main.pawnTargets) result'.
Proof.
  intros Hk Hfrom Hl Hs H. unfold Main.attackLines in H.
  apply (attackRays_anatomy Main.pawnTargets k fromPos (lines fromPos) result result');
    auto.
Qed.

Lemma Main_GetAttacksOnCondition_anatomy (ms : list Move) :
  Main.GetAttacksOnCondition f cond color = Ret ms ->
  Forall (attackMove f cond color Main.pawnTargets) ms.
Proof.
  unfold Main.GetAttacksOnCondition. intros H.
  bind_split H as r1 E1.
  assert (P1 : Forall (attackMove f cond color Main.pawnTargets) r1).
  { revert E1. apply forM_invariant; [|constructor].
    intros s x s' Hx. apply Main_attackPawn_anatomy; auto. }
  bind_split H as r2 E2.
  assert (P2 : Forall (attackMove f cond color Main.pawnTargets) r2).
  { revert E2. apply forM_invariant; [|assumption].
    intros s x s' Hx. unfold Main.attackKnight. apply attackKnight_anatomy; auto. }
  bind_split H as r3 E3.
  assert (P3 : Forall (attackMove f cond color Main.pawnTargets) r3).
  { revert E3. apply forM_invariant; [|assumption].
    intros s x s' Hx. apply (Main_attackLines_anatomy Bishop); simpl; auto.
    apply incl_refl. }
  bind_split H as r4 E4.
  assert (P4 : Forall (attackMove f cond color Main.pawnTargets) r4).
  { revert E4. apply forM_invariant; [|assumption].
    intros s x s' Hx. apply (Main_attackLines_anatomy Rook); simpl; auto.
    apply incl_refl. }
  revert H. apply forM_invariant; [|assumption].
  intros s x s' Hx Hs H. unfold Main.attackQueen in H.
  bind_split H as r5 E5.
  assert (P5 : Forall (attackMove f cond color Main.pawnTargets) r5).
  { revert E5. apply (Main_attackLines_anatomy Queen); simpl; auto.
    intros l Hl. apply in_or_app. auto. }
  revert H. apply (Main_attackLines_anatomy Queen); simpl; auto.
  intros l Hl. apply in_or_app. auto.
Qed.

End AttackAnatomy.

Lemma enemyCond_true (f : FEN) (color : Color) (p : Position) :
  enemyCond f color p = Ret true -> holdsEnemy f color p.
Proof.
  unfold enemyCond. intros H. bind_split H as b Eb. injection H as H.
  apply andb_prop in H. destruct H as [H1 H2].
  exists b. split; [exact Eb|]. split.
  - intros ->. discriminate H1.
  - apply Color_eqb_eq. exact H2.
Qed.

(** X18. The moves [GetAttacks] returns for a colour, in both
    generations: each ends on a square that holds a piece of the other
    colour, and is the move of a pawn the index lists for the colour to
    one of its diagonal targets, of a listed knight to one of its targets,
    or of a listed bishop, rook or queen along one of its rays, every
    square before the target being empty.  No move starts from a king. *)
Theorem GetAttacks_anatomy (f : FEN) (color : Color) (ms : list Move) :
  (ChessEngine.GetAttacks f color = Ret ms ->
   Forall (fun m => holdsEnemy f color (To m)
                    /\ attackMove f (enemyCond f color) color PawnAttacks m) ms)
  /\ (Main.GetAttacks f color = Ret ms ->
      Forall (fun m => holdsEnemy f color (To m)
                       /\ attackMove f (enemyCond f color) color Main.pawnTargets m) ms).
Proof.
  split; intros H.
  - apply (GetAttacksOnCondition_anatomy f (enemyCond f color) color) in H.
    apply Forall_forall. intros m Hm. rewrite Forall_forall in H.
    specialize (H m Hm). split; [|exact H].
    apply enemyCond_true. apply H.
  - apply (Main_GetAttacksOnCondition_anatomy f (enemyCond f color) color) in H.
    apply Forall_forall. intros m Hm. rewrite Forall_forall in H.
    specialize (H m Hm). split; [|exact H].
    apply enemyCond_true. apply H.
Qed.

Lemma GetAttacks_anatomy_witness :
  exists ms, ChessEngine.GetAttacks rookTakesPawn White = Ret ms
             /\ ms <> []
             /\ Forall (fun m => holdsEnemy rookTakesPawn White (To m)) ms.
Proof.
  destruct (ChessEngine.GetAttacks rookTakesPawn White) as [ms|] eqn:E;
    [|vm_compute in E; discriminate].
  exists ms. split; [reflexivity|]. split.
  - vm_compute in E. injection E as <-. discriminate.
  - pose proof (proj1 (GetAttacks_anatomy rookTakesPawn White ms) E) as H.
    apply Forall_forall. intros m Hm. rewrite Forall_forall in H.
    apply (H m Hm).
Defined.

(** ** AttacksSquare finds every attack *)

Lemma forM_grows {A B} (body : list B -> A -> res (list B)) (xs : list A) :
  grows body -> grows (fun s (_ : unit) => forM xs body s).
Proof.
  intros G s _ s'. revert s. induction xs as [|x xs IH]; simpl; intros s H.
  - injection H as <-. exists []. rewrite app_nil_r. reflexivity.
  - bind_split H as s1 E1. destruct (G s x s1 E1) as (t1 & ->).
    destruct (IH _ H) as (t2 & ->). exists (t1 ++ t2). rewrite app_assoc. reflexivity.
Qed.

Lemma grows_nonempty {B} (s t : list B) : s <> [] -> s ++ t <> [].
Proof. destruct s; [congruence | discriminate]. Qed.

(** If the body at [x] leaves the accumulator non-empty, so does the
    loop. *)
Lemma forM_hits {A B} (body : list B -> A -> res (list B)) (xs : list A) (x : A) :
  grows body -> In x xs ->
  (forall s s', body s x = Ret s' -> s' <> []) ->
  forall s s', forM xs body s = Ret s' -> s' <> [].
Proof.
  intros G Hx Hit. induction xs as [|y xs IH]; [destruct Hx|].
  simpl. intros s s' H. bind_split H as s1 E1.
  destruct Hx as [->|Hx].
  - destruct (forM_grows body xs G s1 tt s' H) as (t & ->).
    apply grows_nonempty. apply (Hit s s1 E1).
  - apply (IH Hx s1 s' H).
Qed.

Lemma forM_keeps {A B} (body : list B -> A -> res (list B)) (xs : list A) :
  grows body -> forall s s', s <> [] -> forM xs body s = Ret s' -> s' <> [].
Proof.
  intros G s s' N H. destruct (forM_grows body xs G s tt s' H) as (t & ->).
  apply grows_nonempty, N.
Qed.

Section AttackFound.

Variable f : FEN.
Variable cond : cond_t.
Variable color : Color.

Lemma attackPawn_grows : grows (ChessEngine.attackPawn cond color).
Proof.
  intros s x. unfold ChessEngine.attackPawn. apply (forM_grows _ _) with (x := tt).
  intros r p r' H. bind_split H as c Ec. destruct c.
  - destruct (ToPromotions (NewMove x p)); injection H as <-; eauto.
  - injection H as <-. exists []. rewrite app_nil_r. reflexivity.
Qed.

Lemma Main_attackPawn_grows : grows (Main.attackPawn cond color).
Proof.
  intros s x. unfold Main.attackPawn. apply (forM_grows _ _) with (x := tt).
  intros r p r' H. bind_split H as c Ec. destruct c.
  - destruct (Color_eqb color White && (GetRank x =? byte_of "7"));
      [|destruct (Color_eqb color Black && (GetRank x =? byte_of "2"))];
      injection H as <-; eauto.
  - injection H as <-. exists []. rewrite app_nil_r. reflexivity.
Qed.

Lemma attackStep_grows (fromPos : Position) :
  grows (fun result toPos =>
           c <- cond toPos ;;
           if c then Ret (result ++ [NewMove fromPos toPos]) else Ret result).
Proof.
  intros r p r' H. bind_split H as c Ec. destruct c; injection H as <-; [eauto|].
  exists []. rewrite app_nil_r. reflexivity.
Qed.

Lemma attackLine_grows (fromPos : Position) :
  grows (fun result line => ChessEngine.attackLine f cond fromPos line result).
Proof.
  intros s line. revert s. induction line as [|p rest IH]; simpl; intros s s' H.
  - injection H as <-. exists []. rewrite app_nil_r. reflexivity.
  - bind_split H as c Ec. destruct c; [injection H as <-; eauto|].
    bind_split H as b Eb. destruct (Piece_eqb b NoPiece); [apply IH, H|].
    injection H as <-. exists []. rewrite app_nil_r. reflexivity.
Qed.

Lemma attackSlider_grows (k : NormalizedPiece) :
  grows (ChessEngine.attackSlider f cond k).
Proof.
  intros s x. unfold ChessEngine.attackSlider.
  apply (forM_grows _ _ (attackLine_grows x)) with (x := tt).
Qed.

Lemma attackLine_hit (fromPos to : Position) (before after : list Position)
    (result : list Move) :
  clearBefore f cond before -> cond to = Ret true ->
  ChessEngine.attackLine f cond fromPos (before ++ to :: after) result
  = Ret (result ++ [NewMove fromPos to]).
Proof.
  induction before as [|q before IH]; simpl; intros Cb Ht.
  - rewrite Ht. reflexivity.
  - destruct (Cb q (or_introl eq_refl)) as (Eb & Ec). rewrite Ec, Eb. simpl.
    apply IH; [|exact Ht]. intros r Hr. apply Cb. right. exact Hr.
Qed.

Lemma snoc_nonempty {B} (s : list B) (x : B) : s ++ [x] <> [].
Proof. destruct s; discriminate. Qed.

Lemma pawnHit_found (pawnPos to : Position) (s s' : list Move) :
  In to (PawnAttacks color pawnPos) -> cond to = Ret true ->
  ChessEngine.attackPawn cond color s pawnPos = Ret s' -> s' <> [].
Proof.
  intros Hto Hc. unfold ChessEngine.attackPawn.
  apply (forM_hits _ _ to); [|exact Hto|].
  - intros r p r' H. bind_split H as c Ec. destruct c.
    + destruct (ToPromotions (NewMove pawnPos p)); injection H as <-; eauto.
    + injection H as <-. exists []. rewrite app_nil_r. reflexivity.
  - intros r r' H. rewrite Hc in H. simpl in H.
    destruct (ToPromotions (NewMove pawnPos to)) as [|m0 l]; injection H as <-.
    + apply snoc_nonempty.
    + destruct r; discriminate.
Qed.

Lemma Main_pawnHit_found (pawnPos to : Position) (s s' : list Move) :
  In to (Main.pawnTargets color pawnPos) -> cond to = Ret true ->
  Main.attackPawn cond color s pawnPos = Ret s' -> s' <> [].
Proof.
  intros Hto Hc. unfold Main.attackPawn.
  apply (forM_hits _ _ to); [|exact Hto|].
  - intros r p r' H. bind_split H as c Ec. destruct c.
    + destruct (Color_eqb color White && (GetRank pawnPos =? byte_of "7"));
        [|destruct (Color_eqb color Black && (GetRank pawnPos =? byte_of "2"))];
        injection H as <-; eauto.
    + injection H as <-. exists []. rewrite app_nil_r. reflexivity.
  - intros r r' H. rewrite Hc in H. simpl in H.
    destruct (Color_eqb color White && (GetRank pawnPos =? byte_of "7"));
      [|destruct (Color_eqb color Black && (GetRank pawnPos =? byte_of "2"))];
      injection H as <-; destruct r; discriminate.
Qed.

Lemma knightHit_found (fromPos to : Position) (s s' : list Move) :
  In to (GetKnightMoves fromPos) -> cond to = Ret true ->
  forM (GetKnightMoves fromPos)
       (fun result toPos =>
          c <- cond toPos ;;
          if c then Ret (result ++ [NewMove fromPos toPos]) else Ret result)
       s = Ret s' ->
  s' <> [].
Proof.
  intros Hto Hc. apply (forM_hits _ _ to (attackStep_grows fromPos) Hto).
  intros r r' H. rewrite Hc in H. simpl in H. injection H as <-. apply snoc_nonempty.
Qed.

Lemma sliderHit_found (fromPos to : Position) (lines : list (list Position))
    (line before after : list Position) (s s' : list Move) :
  In line lines -> line = before ++ to :: after ->
  clearBefore f cond before -> cond to = Ret true ->
  forM lines (fun result line => ChessEngine.attackLine f cond fromPos line result) s
  = Ret s' ->
  s' <> [].
Proof.
  intros Hl -> Cb Hc. apply (forM_hits _ _ _ (attackLine_grows fromPos) Hl).
  intros r r' H. rewrite (attackLine_hit fromPos to before after r Cb Hc) in H.
  injection H as <-. apply snoc_nonempty.
Qed.

Lemma GetAttacksOnCondition_found (m : Move) (ms : list Move) :
  attackMove f cond color PawnAttacks m ->
  ChessEngine.GetAttacksOnCondition f cond color = Ret ms -> ms <> [].
Proof.
  intros (Hc & Hm). unfold ChessEngine.GetAttacksOnCondition. intros H.
  bind_split H as r1 E1. bind_split H as r2 E2. simpl in E2.
  bind_split E2 as r2' E2'. injection E2 as <-.
  simpl in H. bind_split H as r3 E3. bind_split H as r4 E4. bind_split H as r5 E5.
  injection H as <-.
  assert (K3 : r2' <> [] -> r3 <> [])
    by (intros N; apply (forM_keeps _ _ (attackSlider_grows Bishop) _ _ N E3)).
  assert (K4 : r3 <> [] -> r4 <> [])
    by (intros N; apply (forM_keeps _ _ (attackSlider_grows Rook) _ _ N E4)).
  assert (K5 : r4 <> [] -> r5 <> [])
    by (intros N; apply (forM_keeps _ _ (attackSlider_grows Queen) _ _ N E5)).
  assert (K2 : r1 <> [] -> r2' <> []).
  { intros N. revert E2'. apply forM_keeps; [|exact N].
    intros s x. unfold ChessEngine.attackFixed.
    apply (forM_grows _ _ (attackStep_grows x)) with (x := tt). }
  destruct Hm as [(Hf & Ht)|[(Hf & Ht & _)|(k & line & before & after & Hk & Hf & Hl & El & Cb & _)]].
  - apply K5, K4, K3, K2. revert E1.
    apply (forM_hits _ _ (From m) attackPawn_grows Hf).
    intros s s'. apply (pawnHit_found (From m) (To m)); assumption.
  - apply K5, K4, K3. revert E2'.
    apply (forM_hits _ _ (From m)); [|exact Hf|].
    + intros s x. unfold ChessEngine.attackFixed.
      apply (forM_grows _ _ (attackStep_grows x)) with (x := tt).
    + intros s s'. unfold ChessEngine.attackFixed.
      change (PieceMoves Knight (From m)) with (GetKnightMoves (From m)).
      apply (knightHit_found (From m) (To m)); assumption.
  - assert (S : forall r r',
                forM (Positions (Pieces f) color k) (ChessEngine.attackSlider f cond k) r
                = Ret r' -> r' <> []).
    { apply (forM_hits _ _ (From m) (attackSlider_grows k) Hf).
      intros s s'. unfold ChessEngine.attackSlider.
      apply (sliderHit_found (From m) (To m) _ line before after); assumption. }
    destruct Hk as [<-|[<-|[<-|[]]]].
    + apply K5, K4. apply (S _ _ E3).
    + apply K5. apply (S _ _ E4).
    + apply (S _ _ E5).
Qed.

Lemma Main_attackLines_grows (lines : Position -> list (list Position)) :
  grows (Main.attackLines f cond lines).
Proof.
  intros s x. unfold Main.attackLines.
  apply (forM_grows _ _ (attackLine_grows x)) with (x := tt).
Qed.

Lemma Main_attackQueen_grows : grows (Main.attackQueen f cond).
Proof.
  intros s x s' H. unfold Main.attackQueen in H. bind_split H as r E.
  destruct (Main_attackLines_grows GetDiagonals s x r E) as (t1 & ->).
  destruct (Main_attackLines_grows GetLines _ x s' H) as (t2 & ->).
  exists (t1 ++ t2). rewrite app_assoc. reflexivity.
Qed.

Lemma Main_GetAttacksOnCondition_found (m : Move) (ms : list Move) :
  attackMove f cond color Main.pawnTargets m ->
  Main.GetAttacksOnCondition f cond color = Ret ms -> ms <> [].
Proof.
  intros (Hc & Hm). unfold Main.GetAttacksOnCondition. intros H.
  bind_split H as r1 E1. bind_split H as r2 E2. bind_split H as r3 E3.
  bind_split H as r4 E4.
  assert (K2 : r1 <> [] -> r2 <> []).
  { intros N. revert E2. apply forM_keeps; [|exact N].
    intros s x. unfold Main.attackKnight.
    apply (forM_grows _ _ (attackStep_grows x)) with (x := tt). }
  assert (K3 : r2 <> [] -> r3 <> [])
    by (intros N; apply (forM_keeps _ _ (Main_attackLines_grows GetDiagonals) _ _ N E3)).
  assert (K4 : r3 <> [] -> r4 <> [])
    by (intros N; apply (forM_keeps _ _ (Main_attackLines_grows GetLines) _ _ N E4)).
  assert (K5 : r4 <> [] -> ms <> [])
    by (intros N; apply (forM_keeps _ _ Main_attackQueen_grows _ _ N H)).
  destruct Hm as [(Hf & Ht)|[(Hf & Ht & _)|(k & line & before & after & Hk & Hf & Hl & El & Cb & _)]].
  - apply K5, K4, K3, K2. revert E1.
    apply (forM_hits _ _ (From m) Main_attackPawn_grows Hf).
    intros s s'. apply (Main_pawnHit_found (From m) (To m)); assumption.
  - apply K5, K4, K3. revert E2.
    apply (forM_hits _ _ (From m)); [|exact Hf|].
    + intros s x. unfold Main.attackKnight.
      apply (forM_grows _ _ (attackStep_grows x)) with (x := tt).
    + intros s s'. unfold Main.attackKnight.
      apply (knightHit_found (From m) (To m)); assumption.
  - destruct Hk as [<-|[<-|[<-|[]]]].
    + apply K5, K4. revert E3.
      apply (forM_hits _ _ (From m) (Main_attackLines_grows GetDiagonals) Hf).
      intros s s'. unfold Main.attackLines.
      apply (sliderHit_found (From m) (To m) _ line before after); assumption.
    + apply K5. revert E4.
      apply (forM_hits _ _ (From m) (Main_attackLines_grows GetLines) Hf).
      intros s s'. unfold Main.attackLines.
      apply (sliderHit_found (From m) (To m) _ line before after); assumption.
    + revert H. apply (forM_hits _ _ (From m) Main_attackQueen_grows Hf).
      intros s s' H. unfold Main.attackQueen in H. bind_split H as r E.
      change (MoveVectors Queen (From m)) with (GetDiagonals (From m) ++ GetLines (From m))
        in Hl.
      apply in_app_or in Hl. destruct Hl as [Hl|Hl].
      * unfold Main.attackLines in H, E.
        apply (forM_keeps _ (GetLines (From m)) (attackLine_grows (From m)) r s');
          [|exact H].
        revert E.
        apply (sliderHit_found (From m) (To m) _ line before after); assumption.
      * revert H. unfold Main.attackLines.
        apply (sliderHit_found (From m) (To m) _ line before after); assumption.
Qed.

End AttackFound.

Lemma squareCond_true (square p : Position) :
  squareCond square p = Ret true <-> p = square.
Proof.
  unfold squareCond. split.
  - intros H. injection H as H. apply Z.eqb_eq, H.
  - intros ->. rewrite Z.eqb_refl. reflexivity.
Qed.

(** X19. [AttacksSquare] answers exactly as follows, in both
    generations: yes if and only if some pawn the index lists for the
    colour has the square among its diagonal targets, or some listed
    knight has it among its targets, or some listed bishop, rook or queen
    has it on one of its rays with only empty squares before it.  Kings
    are not asked. *)
Theorem AttacksSquare_iff (f : FEN) (color : Color) (square : Position) (b : bool) :
  (ChessEngine.AttacksSquare f color square = Ret b ->
   (b = true <->
    exists m, To m = square
              /\ attackMove f (squareCond square) color PawnAttacks m))
  /\ (Main.AttacksSquare f color square = Ret b ->
      (b = true <->
       exists m, To m = square
                 /\ attackMove f (squareCond square) color Main.pawnTargets m)).
Proof.
  split.
  - unfold ChessEngine.AttacksSquare. intros H.
    change (fun p : Position => Ret (p =? square)) with (squareCond square) in H.
    bind_split H as attacks E. injection H as <-. split.
    + intros N. destruct attacks as [|m l]; [discriminate|].
      apply GetAttacksOnCondition_anatomy in E. inversion E as [|m' l' Hm _]; subst.
      exists m. split; [|exact Hm]. apply squareCond_true. apply Hm.
    + intros (m & _ & Hm).
      pose proof (GetAttacksOnCondition_found f (squareCond square) color m attacks Hm E)
        as N.
      destruct attacks; [congruence | reflexivity].
  - unfold Main.AttacksSquare. intros H.
    change (fun p : Position => Ret (p =? square)) with (squareCond square) in H.
    bind_split H as attacks E. injection H as <-. split.
    + intros N. destruct attacks as [|m l]; [discriminate|].
      apply Main_GetAttacksOnCondition_anatomy in E.
      inversion E as [|m' l' Hm _]; subst.
      exists m. split; [|exact Hm]. apply squareCond_true. apply Hm.
    + intros (m & _ & Hm).
      pose proof (Main_GetAttacksOnCondition_found f (squareCond square) color m
                    attacks Hm E) as N.
      destruct attacks; [congruence | reflexivity].
Qed.

Lemma AttacksSquare_iff_witness :
  ChessEngine.AttacksSquare rookCheck Black E1 = Ret true
  /\ exists m, To m = E1
               /\ attackMove rookCheck (squareCond E1) Black PawnAttacks m.
Proof.
  assert (E : ChessEngine.AttacksSquare rookCheck Black E1 = Ret true)
    by (vm_compute; reflexivity).
  split; [exact E|].
  apply (proj1 (AttacksSquare_iff rookCheck Black E1 true) E). reflexivity.
Defined.

(** ** The moves out of check *)

Lemma kingEscapes_anatomy (f : FEN) (k : Position) (result result' : list Move) :
  In k (Positions (Pieces f) (ToMove f) King) ->
  Forall (kingEscape f) result ->
  ChessEngine.kingEscapes f result k = Ret result' ->
  Forall (kingEscape f) result'.
Proof.
  intros Hk. unfold ChessEngine.kingEscapes.
  apply forM_invariant. intros s p s' Hp Hs H.
  bind_split H as b Eb.
  destruct (Piece_eqb b NoPiece || Color_eqb (Piece_Color b) (Opposite (ToMove f)))
    eqn:Free; [|injection H as <-; exact Hs].
  bind_split H as a Ea. destruct a; simpl in H; injection H as <-; [exact Hs|].
  apply Forall_snoc; [exact Hs|].
  split; [repeat split; auto|]. split; [|exact Ea].
  exists b. split; [exact Eb|].
  apply orb_prop in Free. destruct Free as [F|F].
  - left. apply Ascii.eqb_eq, F.
  - right. apply Color_eqb_eq, F.
Qed.

Lemma Main_kingEscapes_anatomy (f : FEN) (k : Position) (result result' : list Move) :
  In k (Positions (Pieces f) (ToMove f) King) ->
  Forall (kingEscapeMain f) result ->
  Main.kingEscapes f result k = Ret result' ->
  Forall (kingEscapeMain f) result'.
Proof.
  intros Hk. unfold Main.kingEscapes.
  apply forM_invariant. intros s p s' Hp Hs H.
  bind_split H as a Ea. destruct a; simpl in H; injection H as <-; [exact Hs|].
  apply Forall_snoc; [exact Hs|].
  split; [repeat split; auto | exact Ea].
Qed.

Lemma blockCond_true (blocks : list Position) (p : Position) :
  blockCond blocks p = Ret true -> In p blocks.
Proof.
  unfold blockCond. intros H. injection H as H.
  apply existsb_exists in H. destruct H as (q & Hq & E).
  apply Z.eqb_eq in E. subst q. exact Hq.
Qed.

Lemma Forall_weaken {A} (P Q : A -> Prop) (l : list A) :
  (forall x, P x -> Q x) -> Forall P l -> Forall Q l.
Proof. intros H F. apply (Forall_impl Q H F). Qed.

(** X20. A single check by a knight, in both generations: after the king
    moves [validMovesInCheck] leaves the loop over the checks at once, so
    every move it returns is a king move; the capture of the knight by
    another piece is not among them. *)
Theorem knight_check_only_king_moves (f : FEN) (check : Move) (piece : Piece)
    (ms : list Move) :
  boardAt (Board f) (From check) = Ret piece ->
  ToNormalizedPiece piece = Knight ->
  ChessEngine.validMovesInCheck f [check] = Ret ms
  \/ Main.validMovesInCheck f [check] = Ret ms ->
  Forall (kingMove f) ms.
Proof.
  intros Hp Hk [H|H].
  - unfold ChessEngine.validMovesInCheck in H. bind_split H as r E.
    rewrite Hp in H. cbn [bind] in H. rewrite Hk in H.
    unfold Piece_eqb in H. rewrite Ascii.eqb_refl in H. injection H as <-.
    revert E. apply forM_invariant; [|constructor].
    intros s k s' Hin Hs. apply kingEscapes_kingMoves; auto.
  - unfold Main.validMovesInCheck in H. bind_split H as r E.
    rewrite Hp in H. cbn [bind] in H. rewrite Hk in H.
    unfold Piece_eqb in H. rewrite Ascii.eqb_refl in H. injection H as <-.
    revert E. apply forM_invariant; [|constructor].
    intros s k s' Hin Hs. apply Main_kingEscapes_kingMoves; auto.
Qed.

(** X21. The moves [validMovesInCheck] returns for a single check.  In
    the second generation each is a king move to a square that is empty or
    holds a piece of the other colour and that [AttacksSquare] does not
    report for the other side, or a move of the attack primitive for the
    side to move (pawn to a diagonal target, knight, or slider along a
    clear ray) that ends on one of the squares of the walk from the king
    to the checker.  In the first generation the king moves are not
    asked for the piece on the target square. *)
Theorem single_check_moves (f : FEN) (check : Move) (ms : list Move) :
  (ChessEngine.validMovesInCheck f [check] = Ret ms ->
   Forall (fun m =>
             kingEscape f m
             \/ exists blocks,
                  ChessEngine.blockSquares (Board f) check = Ret blocks
                  /\ In (To m) blocks
                  /\ attackMove f (blockCond blocks) (ToMove f) PawnAttacks m) ms)
  /\ (Main.validMovesInCheck f [check] = Ret ms ->
      Forall (fun m =>
                kingEscapeMain f m
                \/ exists blocks,
                     Main.blockSquares (Board f) check = Ret blocks
                     /\ In (To m) blocks
                     /\ attackMove f (blockCond blocks) (ToMove f) Main.pawnTargets m) ms).
Proof.
  split; intros H.
  - unfold ChessEngine.validMovesInCheck in H. bind_split H as r E.
    assert (K : Forall (kingEscape f) r).
    { revert E. apply forM_invariant; [|constructor].
      intros s k s' Hin Hs. apply kingEscapes_anatomy; auto. }
    bind_split H as piece Ep.
    destruct (Piece_eqb (ToNormalizedPiece piece) Knight).
    + injection H as <-. apply (Forall_weaken _ _ _ (fun m Hm => or_introl Hm) K).
    + bind_split H as blocks Eb. bind_split H as atts Ea. injection H as <-.
      apply Forall_app. split.
      * apply (Forall_weaken _ _ _ (fun m Hm => or_introl Hm) K).
      * change (fun p : Position => Ret (existsb (Z.eqb p) blocks))
          with (blockCond blocks) in Ea.
        apply GetAttacksOnCondition_anatomy in Ea.
        apply (Forall_weaken (attackMove f (blockCond blocks) (ToMove f) PawnAttacks));
          [|exact Ea].
        intros m Hm. right. exists blocks. split; [exact Eb|].
        split; [|exact Hm]. apply blockCond_true, Hm.
  - unfold Main.validMovesInCheck in H. bind_split H as r E.
    assert (K : Forall (kingEscapeMain f) r).
    { revert E. apply forM_invariant; [|constructor].
      intros s k s' Hin Hs. apply Main_kingEscapes_anatomy; auto. }
    bind_split H as piece Ep.
    destruct (Piece_eqb (ToNormalizedPiece piece) Knight).
    + injection H as <-. apply (Forall_weaken _ _ _ (fun m Hm => or_introl Hm) K).
    + bind_split H as blocks Eb. bind_split H as atts Ea. injection H as <-.
      apply Forall_app. split.
      * apply (Forall_weaken _ _ _ (fun m Hm => or_introl Hm) K).
      * change (fun p : Position => Ret (existsb (Z.eqb p) blocks))
          with (blockCond blocks) in Ea.
        apply Main_GetAttacksOnCondition_anatomy in Ea.
        apply (Forall_weaken
                 (attackMove f (blockCond blocks) (ToMove f) Main.pawnTargets));
          [|exact Ea].
        intros m Hm. right. exists blocks. split; [exact Eb|].
        split; [|exact Hm]. apply blockCond_true, Hm.
Qed.

Lemma knight_check_only_king_moves_witness :
  exists ms, ChessEngine.validMovesInCheck knightCheck [NewMove 21 E1] = Ret ms
             /\ ms <> [] /\ Forall (kingMove knightCheck) ms.
Proof.
  destruct (ChessEngine.validMovesInCheck knightCheck [NewMove 21 E1]) as [ms|] eqn:E;
    [|vm_compute in E; discriminate].
  exists ms. split; [reflexivity|]. split.
  - vm_compute in E. injection E as <-. discriminate.
  - apply (knight_check_only_king_moves knightCheck (NewMove 21 E1) BlackKnight ms);
      [reflexivity | reflexivity | left; exact E].
Defined.

Lemma single_check_moves_witness :
  exists ms, Main.validMovesInCheck queenBesideKing [NewMove E8 E1] = Ret ms
             /\ ms <> []
             /\ Forall (fun m =>
                  kingEscapeMain queenBesideKing m
                  \/ exists blocks,
                       Main.blockSquares (Board queenBesideKing) (NewMove E8 E1)
                       = Ret blocks
                       /\ In (To m) blocks
                       /\ attackMove queenBesideKing (blockCond blocks)
                            (ToMove queenBesideKing) Main.pawnTargets m) ms.
Proof.
  destruct (Main.validMovesInCheck queenBesideKing [NewMove E8 E1]) as [ms|] eqn:E;
    [|vm_compute in E; discriminate].
  exists ms. split; [reflexivity|]. split.
  - vm_compute in E. injection E as <-. discriminate.
  - apply (proj2 (single_check_moves queenBesideKing (NewMove E8 E1) ms) E).
Defined.

(** ** ValidMoves moves the pieces of the side to move *)

Lemma ownPiece_kind (f : FEN) (k : NormalizedPiece) (m : Move) :
  In k kinds -> In (From m) (Pieces f (ToMove f) k) -> ownPiece f m.
Proof. intros Hk Hf. exists k. auto. Qed.

Lemma attackMove_own (f : FEN) (cond : cond_t)
    (pt : Color -> Position -> list Position) (m : Move) :
  attackMove f cond (ToMove f) pt m -> ownPiece f m.
Proof.
  intros (_ & [(Hf & _)|[(Hf & _)|(k & line & before & after & Hk & Hf & _)]]).
  - apply (ownPiece_kind f Pawn); simpl; auto.
  - apply (ownPiece_kind f Knight); simpl; auto.
  - apply (ownPiece_kind f k); [|exact Hf]. simpl in *. tauto.
Qed.

Lemma kingMove_own (f : FEN) (m : Move) : kingMove f m -> ownPiece f m.
Proof. intros (Hf & _). apply (ownPiece_kind f King); simpl; auto 7. Qed.

(** A loop that appends moves from the square [fromPos] only. *)
Lemma fromLoop_own {A} (f : FEN) (k : NormalizedPiece) (fromPos : Position)
    (xs : list A) (body : list Move -> A -> res (list Move)) :
  In k kinds -> In fromPos (Pieces f (ToMove f) k) ->
  (forall s x s', body s x = Ret s' ->
                  exists t, s' = s ++ t /\ Forall (fun m => From m = fromPos) t) ->
  forall s s', Forall (ownPiece f) s -> forM xs body s = Ret s' ->
               Forall (ownPiece f) s'.
Proof.
  intros Hk Hf Hb. apply forM_invariant. intros s x s' _ Hs H.
  destruct (Hb s x s' H) as (t & -> & Ht).
  apply Forall_app. split; [exact Hs|].
  apply (Forall_weaken (fun m => From m = fromPos)); [|exact Ht].
  intros m E. apply (ownPiece_kind f k m Hk). rewrite E. exact Hf.
Qed.

Lemma appended_nothing (s : list Move) (fromPos : Position) :
  exists t, s = s ++ t /\ Forall (fun m => From m = fromPos) t.
Proof. exists []. rewrite app_nil_r. split; [reflexivity | constructor]. Qed.

Lemma appended_one (s : list Move) (fromPos to : Position) :
  exists t, s ++ [NewMove fromPos to] = s ++ t
            /\ Forall (fun m => From m = fromPos) t.
Proof. exists [NewMove fromPos to]. split; [reflexivity|]. repeat constructor. Qed.

Lemma quietStep_body (f : FEN) (fromPos : Position) (s : list Move) (p : Position)
    (s' : list Move) :
  (b <- boardAt (Board f) p ;;
   if Piece_eqb b NoPiece then Ret (s ++ [NewMove fromPos p]) else Ret s) = Ret s' ->
  exists t, s' = s ++ t /\ Forall (fun m => From m = fromPos) t.
Proof.
  intros H. bind_split H as b Eb. destruct (Piece_eqb b NoPiece); injection H as <-.
  - apply appended_one.
  - apply appended_nothing.
Qed.

Lemma quietLine_body (f : FEN) (fromPos : Position) (line : list Position) :
  forall s s', ChessEngine.quietLine f fromPos line s = Ret s' ->
               exists t, s' = s ++ t /\ Forall (fun m => From m = fromPos) t.
Proof.
  induction line as [|p rest IH]; simpl; intros s s' H.
  - injection H as <-. apply appended_nothing.
  - bind_split H as b Eb. destruct (Piece_eqb b NoPiece).
    + destruct (IH _ _ H) as (t & -> & Ht).
      exists (NewMove fromPos p :: t). rewrite <- app_assoc. split; [reflexivity|].
      constructor; [reflexivity | exact Ht].
    + injection H as <-. apply appended_nothing.
Qed.

Lemma quietPawn_own (f : FEN) (x : Position) (s s' : list Move) :
  In x (Pieces f (ToMove f) Pawn) -> Forall (ownPiece f) s ->
  ChessEngine.quietPawn f s x = Ret s' -> Forall (ownPiece f) s'.
Proof.
  intros Hx Hs H1. unfold ChessEngine.quietPawn in H1.
  bind_split H1 as pawn Ep. revert H1.
  apply (fromLoop_own f Pawn x); [simpl; auto | exact Hx | | exact Hs].
  intros r p r' Hr. bind_split Hr as b Eb.
  destruct (Piece_eqb b NoPiece); [|injection Hr as <-; apply appended_nothing].
  destruct (ToPromotions (NewMove x p)) as [|m0 l] eqn:TP; injection Hr as <-.
  - apply appended_one.
  - exists (m0 :: l). split; [reflexivity|]. rewrite <- TP.
    apply Forall_forall. intros m Hm. apply ToPromotions_squares in Hm. apply Hm.
Qed.

Lemma quietSliders_own (f : FEN) (k : NormalizedPiece) (r r' : list Move) :
  In k kinds -> Forall (ownPiece f) r ->
  forM (Positions (Pieces f) (ToMove f) k) (ChessEngine.quietSlider f k) r = Ret r' ->
  Forall (ownPiece f) r'.
Proof.
  intros Hk Hr. apply forM_invariant; [|exact Hr].
  intros s x s' Hx Hs. unfold ChessEngine.quietSlider.
  apply (fromLoop_own f k x); [exact Hk | exact Hx | | exact Hs].
  intros t line t'. apply quietLine_body.
Qed.

Lemma GetKingPos_In (pp : PiecePositions) (c : Color) (k : Position) :
  GetKingPos pp c = Ret k -> In k (pp c King).
Proof.
  unfold GetKingPos. destruct (pp c King) as [|k0 l]; [discriminate|].
  intros H. injection H as <-. left. reflexivity.
Qed.

Lemma ValidMoves_quiet_own (f : FEN) (attacks ms : list Move) :
  Forall (ownPiece f) attacks ->
  (result <- forM (Positions (Pieces f) (ToMove f) Pawn) (ChessEngine.quietPawn f)
              ([] ++ attacks) ;;
   result <- forM [Knight]
               (fun result piece =>
                  forM (Positions (Pieces f) (ToMove f) piece)
                       (ChessEngine.quietFixed f piece) result)
               result ;;
   result <- forM [Bishop; Rook; Queen]
               (fun result piece =>
                  forM (Positions (Pieces f) (ToMove f) piece)
                       (ChessEngine.quietSlider f piece) result)
               result ;;
   kingPos <- GetKingPos (Pieces f) (ToMove f) ;;
   ChessEngine.quietKing f result kingPos) = Ret ms ->
  Forall (ownPiece f) ms.
Proof.
  intros Ha H. bind_split H as r1 E1.
  assert (P1 : Forall (ownPiece f) r1).
  { revert E1. apply forM_invariant; [|exact Ha].
    intros s x s' Hx Hs. apply quietPawn_own; assumption. }
  bind_split H as r2 E2. simpl in E2. bind_split E2 as r2' E2'. injection E2 as <-.
  assert (P2 : Forall (ownPiece f) r2').
  { revert E2'. apply forM_invariant; [|exact P1].
    intros s x s' Hx Hs. unfold ChessEngine.quietFixed.
    apply (fromLoop_own f Knight x); [simpl; auto | exact Hx | | exact Hs].
    intros r p r'. apply quietStep_body. }
  bind_split H as r5 E5. simpl in E5.
  bind_split E5 as r3 E3. bind_split E5 as r4 E4. bind_split E5 as r5' E5'.
  injection E5 as <-.
  assert (P5 : Forall (ownPiece f) r5').
  { apply (quietSliders_own f Queen r4 r5'); [simpl; auto 7 | | exact E5'].
    apply (quietSliders_own f Rook r3 r4); [simpl; auto 7 | | exact E4].
    apply (quietSliders_own f Bishop r2' r3); [simpl; auto 7 | exact P2 | exact E3]. }
  bind_split H as kingPos Ek. apply GetKingPos_In in Ek.
  revert H. unfold ChessEngine.quietKing.
  apply (fromLoop_own f King kingPos); [simpl; auto 7 | exact Ek | | exact P5].
  intros r p r'. apply quietStep_body.
Qed.

Lemma Main_quietLines_own (f : FEN) (k : NormalizedPiece)
    (lines : Position -> list (list Position)) (x : Position) (s s' : list Move) :
  In k kinds -> In x (Pieces f (ToMove f) k) -> Forall (ownPiece f) s ->
  Main.quietLines f lines s x = Ret s' -> Forall (ownPiece f) s'.
Proof.
  intros Hk Hx Hs. unfold Main.quietLines.
  apply (fromLoop_own f k x); [exact Hk | exact Hx | | exact Hs].
  intros r line r' H. unfold Main.quietLine in H.
  destruct line as [|p rest]; [injection H as <-; apply appended_nothing|].
  apply (quietStep_body f x r p r' H).
Qed.

Lemma Main_quietStep_own (f : FEN) (k : NormalizedPiece) (x : Position)
    (targets : list Position) (s s' : list Move) :
  In k kinds -> In x (Pieces f (ToMove f) k) -> Forall (ownPiece f) s ->
  Main.quietStep f s x targets = Ret s' -> Forall (ownPiece f) s'.
Proof.
  intros Hk Hx Hs. unfold Main.quietStep.
  apply (fromLoop_own f k x); [exact Hk | exact Hx | | exact Hs].
  intros r p r'. apply quietStep_body.
Qed.

Lemma Main_quietPawn_own (f : FEN) (x : Position) (s s' : list Move) :
  In x (Pieces f (ToMove f) Pawn) -> Forall (ownPiece f) s ->
  Main.quietPawn f s x = Ret s' -> Forall (ownPiece f) s'.
Proof.
  intros Hx Hs. unfold Main.quietPawn.
  apply (fromLoop_own f Pawn x); [simpl; auto | exact Hx | | exact Hs].
  intros r d r' H. bind_split H as b Eb.
  destruct (Piece_eqb b NoPiece); [|injection H as <-; apply appended_nothing].
  destruct (Color_eqb (ToMove f) White
            && (GetRank (u64 (int64 x + d * 8)) =? byte_of "8"));
    [|destruct (Color_eqb (ToMove f) Black
                && (GetRank (u64 (int64 x + d * 8)) =? byte_of "1"))];
    injection H as <-.
  - eexists. split; [reflexivity | repeat constructor].
  - eexists. split; [reflexivity | repeat constructor].
  - apply appended_one.
Qed.

Lemma Main_ValidMoves_quiet_own (f : FEN) (attacks ms : list Move) :
  Forall (ownPiece f) attacks ->
  (result <- forM (Pieces f (ToMove f) Pawn) (Main.quietPawn f) ([] ++ attacks) ;;
   result <- forM (Pieces f (ToMove f) Knight)
               (fun result knightPos =>
                  Main.quietStep f result knightPos (GetKnightMoves knightPos))
               result ;;
   result <- forM (Pieces f (ToMove f) Bishop) (Main.quietLines f GetDiagonals) result ;;
   result <- forM (Pieces f (ToMove f) Rook) (Main.quietLines f GetLines) result ;;
   result <- forM (Pieces f (ToMove f) Queen) (Main.quietQueen f) result ;;
   forM (Pieces f (ToMove f) King)
        (fun result kingPos => Main.quietStep f result kingPos (GetKingMoves kingPos))
        result) = Ret ms ->
  Forall (ownPiece f) ms.
Proof.
  intros Ha H. bind_split H as r1 E1.
  assert (P1 : Forall (ownPiece f) r1).
  { revert E1. apply forM_invariant; [|exact Ha].
    intros s x s' Hx Hs. apply Main_quietPawn_own; assumption. }
  bind_split H as r2 E2.
  assert (P2 : Forall (ownPiece f) r2).
  { revert E2. apply forM_invariant; [|exact P1].
    intros s x s' Hx Hs. apply (Main_quietStep_own f Knight); simpl; auto. }
  bind_split H as r3 E3.
  assert (P3 : Forall (ownPiece f) r3).
  { revert E3. apply forM_invariant; [|exact P2].
    intros s x s' Hx Hs. apply (Main_quietLines_own f Bishop); simpl; auto. }
  bind_split H as r4 E4.
  assert (P4 : Forall (ownPiece f) r4).
  { revert E4. apply forM_invariant; [|exact P3].
    intros s x s' Hx Hs. apply (Main_quietLines_own f Rook); simpl; auto 7. }
  bind_split H as r5 E5.
  assert (P5 : Forall (ownPiece f) r5).
  { revert E5. apply forM_invariant; [|exact P4].
    intros s x s' Hx Hs H5. unfold Main.quietQueen in H5. bind_split H5 as q Eq.
    apply (Main_quietLines_own f Queen GetLines x q s'); simpl; auto 7.
    apply (Main_quietLines_own f Queen GetDiagonals x s q); simpl; auto 7. }
  revert H. apply forM_invariant; [|exact P5].
  intros s x s' Hx Hs. apply (Main_quietStep_own f King); simpl; auto 7.
Qed.

(** X22. Every move [ValidMoves] returns, in both generations and in
    check or not, starts on a square the index lists for the side to move
    (as pawn, knight, bishop, rook, queen or king): the generator never
    moves a piece of the other side. *)
Theorem ValidMoves_own_pieces (f : FEN) (ms : list Move) :
  ChessEngine.ValidMoves f = Ret ms \/ Main.ValidMoves f = Ret ms ->
  Forall (ownPiece f) ms.
Proof.
  intros [H|H].
  - unfold ChessEngine.ValidMoves in H.
    bind_split H as incoming Ei. bind_split H as checks Ec.
    destruct (0 <? List.length checks)%nat.
    + unfold ChessEngine.validMovesInCheck in H. bind_split H as r E.
      assert (K : Forall (ownPiece f) r).
      { apply (Forall_weaken (kingMove f)); [apply kingMove_own|].
        revert E. apply forM_invariant; [|constructor].
        intros s k s' Hin Hs. apply kingEscapes_kingMoves; auto. }
      destruct checks as [|check [|c2 rest]]; try (injection H as <-; exact K).
      bind_split H as piece Ep.
      destruct (Piece_eqb (ToNormalizedPiece piece) Knight);
        [injection H as <-; exact K|].
      bind_split H as blocks Eb. bind_split H as atts Ea. injection H as <-.
      apply Forall_app. split; [exact K|].
      apply GetAttacksOnCondition_anatomy in Ea.
      apply (Forall_weaken _ _ _ (attackMove_own f _ PawnAttacks) Ea).
    + bind_split H as attacks Ea.
      apply (ValidMoves_quiet_own f attacks ms); [|exact H].
      apply (GetAttacksOnCondition_anatomy f _ (ToMove f)) in Ea.
      apply (Forall_weaken _ _ _ (attackMove_own f _ PawnAttacks) Ea).
  - unfold Main.ValidMoves in H.
    bind_split H as incoming Ei. bind_split H as checks Ec.
    destruct (0 <? List.length checks)%nat.
    + unfold Main.validMovesInCheck in H. bind_split H as r E.
      assert (K : Forall (ownPiece f) r).
      { apply (Forall_weaken (kingMove f)); [apply kingMove_own|].
        revert E. apply forM_invariant; [|constructor].
        intros s k s' Hin Hs. apply Main_kingEscapes_kingMoves; auto. }
      destruct checks as [|check [|c2 rest]]; try (injection H as <-; exact K).
      bind_split H as piece Ep.
      destruct (Piece_eqb (ToNormalizedPiece piece) Knight);
        [injection H as <-; exact K|].
      bind_split H as blocks Eb. bind_split H as atts Ea. injection H as <-.
      apply Forall_app. split; [exact K|].
      apply Main_GetAttacksOnCondition_anatomy in Ea.
      apply (Forall_weaken _ _ _ (attackMove_own f _ Main.pawnTargets) Ea).
    + bind_split H as attacks Ea.
      apply (Main_ValidMoves_quiet_own f attacks ms); [|exact H].
      apply (Main_GetAttacksOnCondition_anatomy f _ (ToMove f)) in Ea.
      apply (Forall_weaken _ _ _ (attackMove_own f _ Main.pawnTargets) Ea).
Qed.

Lemma ValidMoves_own_pieces_witness :
  exists ms, ChessEngine.ValidMoves rookEnding = Ret ms
             /\ ms <> [] /\ Forall (ownPiece rookEnding) ms.
Proof.
  destruct (ChessEngine.ValidMoves rookEnding) as [ms|] eqn:E;
    [|vm_compute in E; discriminate].
  exists ms. split; [reflexivity|]. split.
  - vm_compute in E. injection E as <-. discriminate.
  - apply (ValidMoves_own_pieces rookEnding ms). left. exact E.
Defined.

(** ** ValidMoves of the second generation keeps off the own pieces *)

Lemma raysWalk :
  forallb (fun from => forallb (rayWalksOk from) (GetDiagonals from ++ GetLines from))
          squares = true.
Proof. vm_compute. reflexivity. Qed.

Lemma pawnsWalk :
  forallb (fun from => forallb (pawnWalkIs from) colors) squares = true.
Proof. vm_compute. reflexivity. Qed.

Lemma sameSquares_eq (a b : list Position) : sameSquares a b = true -> a = b.
Proof.
  revert b. induction a as [|x a IH]; intros [|y b]; simpl; try discriminate; auto.
  intros H. apply andb_prop in H. destruct H as [H1 H2].
  apply Z.eqb_eq in H1. subst y. f_equal. apply IH, H2.
Qed.

Lemma walkIs_blocks (check : Move) (l : list Position) (board : list Piece) :
  walkIs (From check) (To check) l = true ->
  ChessEngine.blockSquares board check = Ret l.
Proof.
  unfold walkIs.
  change (ChessEngine.blockSquares [] (NewMove (From check) (To check)))
    with (ChessEngine.blockSquares [] check).
  destruct (ChessEngine.blockSquares [] check) as [blocks|] eqn:E; [|discriminate].
  intros H. apply sameSquares_eq in H. subst l.
  apply (blockSquares_board check blocks E).
Qed.

Lemma ray_walk (check : Move) (line before after : list Position)
    (board : list Piece) :
  0 <= From check < 64 ->
  In line (GetDiagonals (From check) ++ GetLines (From check)) ->
  line = before ++ To check :: after ->
  ChessEngine.blockSquares board check = Ret (rev before ++ [From check]).
Proof.
  intros R Hl El. pose proof raysWalk as W.
  rewrite forallb_forall in W. specialize (W (From check) (in_squares _ R)).
  rewrite forallb_forall in W. specialize (W line Hl).
  unfold rayWalksOk in W. rewrite forallb_forall in W.
  specialize (W (List.length before)).
  assert (Hi : In (List.length before) (seq 0 (List.length line))).
  { apply in_seq. subst line. rewrite length_app. simpl. lia. }
  specialize (W Hi). subst line.
  rewrite nth_middle in W. rewrite firstn_app, Nat.sub_diag, firstn_all in W.
  simpl firstn in W. rewrite app_nil_r in W.
  apply (walkIs_blocks check _ board W).
Qed.

Lemma pawn_walk (check : Move) (c : Color) (board : list Piece) :
  0 <= From check < 64 -> In c colors ->
  In (To check) (PawnAttacks c (From check)) ->
  ChessEngine.blockSquares board check = Ret [From check].
Proof.
  intros R Hc Ht. pose proof pawnsWalk as W.
  rewrite forallb_forall in W. specialize (W (From check) (in_squares _ R)).
  rewrite forallb_forall in W. specialize (W c Hc).
  unfold pawnWalkIs in W. rewrite forallb_forall in W.
  apply (walkIs_blocks check _ board (W (To check) Ht)).
Qed.

Lemma wellFormed_piece (f : FEN) (c : Color) (k : NormalizedPiece) (p : Position) :
  wellFormed f -> In c colors -> In k kinds -> In p (Pieces f c k) ->
  exists piece, boardAt (Board f) p = Ret piece
                /\ ToNormalizedPiece piece = k /\ Piece_Color piece = c
                /\ 0 <= p < 64.
Proof.
  intros (L & S) Hc Hk Hp. rewrite indexSound_iff in S.
  specialize (S c k p Hc Hk Hp). apply indexEntryOk_iff in S.
  destruct S as (piece & E & K & C). exists piece.
  split; [exact E|]. split; [exact K|]. split; [exact C|].
  apply boardAt_bound in E. rewrite L in E. lia.
Qed.

(** The squares of the walk for a check that [GetIncomingAttacks] has
    reported are free for the side to move: empty, or the checker's. *)
Lemma check_blocks_free (f : FEN) (check : Move) (piece : Piece)
    (blocks : list Position) :
  wellFormed f ->
  attackMove f (enemyCond f (Opposite (ToMove f))) (Opposite (ToMove f)) PawnAttacks check ->
  boardAt (Board f) (From check) = Ret piece ->
  ToNormalizedPiece piece <> Knight ->
  ChessEngine.blockSquares (Board f) check = Ret blocks ->
  forall p, In p blocks -> freeFor f p.
Proof.
  intros W (_ & Hm) Hp Hn Hb.
  assert (Checker : forall k, In k kinds ->
            In (From check) (Pieces f (Opposite (ToMove f)) k) ->
            0 <= From check < 64 /\ ToNormalizedPiece piece = k
            /\ freeFor f (From check)).
  { intros k Hk Hf.
    destruct (wellFormed_piece f _ k _ W (Opposite_colors _) Hk Hf)
      as (q & Eq & Kq & Cq & R).
    assert (q = piece) by congruence. subst q.
    split; [exact R|]. split; [exact Kq|]. exists piece. auto. }
  destruct Hm as [(Hf & Ht)|[(Hf & _)|(k & line & before & after & Hk & Hf & Hl & El & Cb & _)]].
  - destruct (Checker Pawn) as (R & _ & Free); [simpl; auto | exact Hf |].
    rewrite (pawn_walk check (Opposite (ToMove f)) (Board f) R (Opposite_colors _) Ht)
      in Hb.
    injection Hb as <-. intros p [<-|[]]. exact Free.
  - destruct (Checker Knight) as (_ & K & _); [simpl; auto | exact Hf |].
    contradiction.
  - assert (Hk' : In k kinds) by (simpl in *; tauto).
    destruct (Checker k Hk' Hf) as (R & _ & Free).
    rewrite (ray_walk check line before after (Board f) R
               (MoveVectors_lines k _ line Hk Hl) El) in Hb.
    injection Hb as <-. intros p Hin. apply in_app_or in Hin.
    destruct Hin as [Hin|[<-|[]]]; [|exact Free].
    apply in_rev in Hin. destruct (Cb p Hin) as (E & _).
    exists NoPiece. auto.
Qed.

Lemma forM_appends {A} (Q : Move -> Prop) (xs : list A)
    (body : list Move -> A -> res (list Move)) :
  (forall s x s', body s x = Ret s' -> exists t, s' = s ++ t /\ Forall Q t) ->
  forall s s', Forall Q s -> forM xs body s = Ret s' -> Forall Q s'.
Proof.
  intros Hb. apply forM_invariant. intros s x s' _ Hs H.
  destruct (Hb s x s' H) as (t & -> & Ht). apply Forall_app. auto.
Qed.

Lemma emptyTarget_free (f : FEN) (p : Position) :
  boardAt (Board f) p = Ret NoPiece -> freeFor f p.
Proof. intros H. exists NoPiece. auto. Qed.

Lemma quietStep_free (f : FEN) (fromPos : Position) (s : list Move) (p : Position)
    (s' : list Move) :
  (b <- boardAt (Board f) p ;;
   if Piece_eqb b NoPiece then Ret (s ++ [NewMove fromPos p]) else Ret s) = Ret s' ->
  exists t, s' = s ++ t /\ Forall (fun m => freeFor f (To m)) t.
Proof.
  intros H. bind_split H as b Eb. destruct (Piece_eqb b NoPiece) eqn:N;
    injection H as <-.
  - apply Ascii.eqb_eq in N. subst b. exists [NewMove fromPos p].
    split; [reflexivity|]. constructor; [|constructor].
    apply emptyTarget_free, Eb.
  - exists []. rewrite app_nil_r. split; [reflexivity | constructor].
Qed.

Lemma quietLine_free (f : FEN) (fromPos : Position) (line : list Position) :
  forall s s', ChessEngine.quietLine f fromPos line s = Ret s' ->
               exists t, s' = s ++ t /\ Forall (fun m => freeFor f (To m)) t.
Proof.
  induction line as [|p rest IH]; simpl; intros s s' H.
  - injection H as <-. exists []. rewrite app_nil_r. split; [reflexivity | constructor].
  - bind_split H as b Eb. destruct (Piece_eqb b NoPiece) eqn:N.
    + apply Ascii.eqb_eq in N. subst b. destruct (IH _ _ H) as (t & -> & Ht).
      exists (NewMove fromPos p :: t). rewrite <- app_assoc. split; [reflexivity|].
      constructor; [apply emptyTarget_free, Eb | exact Ht].
    + injection H as <-. exists []. rewrite app_nil_r.
      split; [reflexivity | constructor].
Qed.

Lemma quietPawn_free (f : FEN) (x : Position) (s s' : list Move) :
  Forall (fun m => freeFor f (To m)) s ->
  ChessEngine.quietPawn f s x = Ret s' -> Forall (fun m => freeFor f (To m)) s'.
Proof.
  intros Hs H. unfold ChessEngine.quietPawn in H. bind_split H as pawn Ep.
  revert H. apply forM_appends; [|exact Hs].
  intros r p r' Hr. bind_split Hr as b Eb.
  destruct (Piece_eqb b NoPiece) eqn:N;
    [|injection Hr as <-; exists []; rewrite app_nil_r;
      split; [reflexivity | constructor]].
  apply Ascii.eqb_eq in N. subst b.
  destruct (ToPromotions (NewMove x p)) as [|m0 l] eqn:TP; injection Hr as <-.
  - exists [NewMove x p]. split; [reflexivity|]. constructor; [|constructor].
    apply emptyTarget_free, Eb.
  - exists (m0 :: l). split; [reflexivity|]. rewrite <- TP.
    apply Forall_forall. intros m Hm. apply ToPromotions_squares in Hm.
    destruct Hm as [_ ->]. apply emptyTarget_free, Eb.
Qed.

Lemma ValidMoves_quiet_free (f : FEN) (attacks ms : list Move) :
  Forall (fun m => freeFor f (To m)) attacks ->
  (result <- forM (Positions (Pieces f) (ToMove f) Pawn) (ChessEngine.quietPawn f)
              ([] ++ attacks) ;;
   result <- forM [Knight]
               (fun result piece =>
                  forM (Positions (Pieces f) (ToMove f) piece)
                       (ChessEngine.quietFixed f piece) result)
               result ;;
   result <- forM [Bishop; Rook; Queen]
               (fun result piece =>
                  forM (Positions (Pieces f) (ToMove f) piece)
                       (ChessEngine.quietSlider f piece) result)
               result ;;
   kingPos <- GetKingPos (Pieces f) (ToMove f) ;;
   ChessEngine.quietKing f result kingPos) = Ret ms ->
  Forall (fun m => freeFor f (To m)) ms.
Proof.
  intros Ha H. bind_split H as r1 E1.
  assert (P1 : Forall (fun m => freeFor f (To m)) r1).
  { revert E1. apply forM_invariant; [|exact Ha].
    intros s x s' Hx Hs. apply quietPawn_free; assumption. }
  bind_split H as r2 E2. simpl in E2. bind_split E2 as r2' E2'. injection E2 as <-.
  assert (P2 : Forall (fun m => freeFor f (To m)) r2').
  { revert E2'. apply forM_invariant; [|exact P1].
    intros s x s' Hx Hs. unfold ChessEngine.quietFixed.
    apply forM_appends; [|exact Hs]. intros r p r'. apply quietStep_free. }
  bind_split H as r5 E5. simpl in E5.
  bind_split E5 as r3 E3. bind_split E5 as r4 E4. bind_split E5 as r5' E5'.
  injection E5 as <-.
  assert (S : forall k r r', Forall (fun m => freeFor f (To m)) r ->
                forM (Positions (Pieces f) (ToMove f) k) (ChessEngine.quietSlider f k) r
                = Ret r' -> Forall (fun m => freeFor f (To m)) r').
  { intros k r r' Hr. apply forM_invariant; [|exact Hr].
    intros s x s' Hx Hs. unfold ChessEngine.quietSlider.
    apply forM_appends; [|exact Hs]. intros t line t'. apply quietLine_free. }
  assert (P5 : Forall (fun m => freeFor f (To m)) r5').
  { apply (S Queen r4 r5'); [|exact E5'].
    apply (S Rook r3 r4); [|exact E4].
    apply (S Bishop r2' r3); [exact P2 | exact E3]. }
  bind_split H as kingPos Ek.
  revert H. unfold ChessEngine.quietKing.
  apply forM_appends; [|exact P5]. intros r p r'. apply quietStep_free.
Qed.

Lemma holdsEnemy_free (f : FEN) (p : Position) :
  holdsEnemy f (ToMove f) p -> freeFor f p.
Proof. intros (b & E & _ & C). exists b. auto. Qed.

(** X23. In a position with 64 squares whose index agrees with the
    board, no move [ValidMoves] of the second generation returns ends on
    a piece of the side to move: the target square is empty or holds a
    piece of the other colour, in check or not. *)
Theorem ValidMoves_targets_free (f : FEN) (ms : list Move) :
  wellFormed f -> ChessEngine.ValidMoves f = Ret ms ->
  Forall (fun m => freeFor f (To m)) ms.
Proof.
  intros W H. unfold ChessEngine.ValidMoves in H.
  bind_split H as incoming Ei. bind_split H as checks Ec.
  destruct (0 <? List.length checks)%nat.
  - unfold ChessEngine.validMovesInCheck in H. bind_split H as r E.
    assert (K : Forall (fun m => freeFor f (To m)) r).
    { apply (Forall_weaken (kingEscape f)); [intros m Hm; apply Hm|].
      revert E. apply forM_invariant; [|constructor].
      intros s k s' Hin Hs. apply kingEscapes_anatomy; auto. }
    destruct checks as [|check [|c2 rest]]; try (injection H as <-; exact K).
    bind_split H as piece Ep.
    destruct (Ascii.eqb_spec (ToNormalizedPiece piece) Knight) as [|Hn];
      unfold Piece_eqb in H;
      destruct (Ascii.eqb_spec (ToNormalizedPiece piece) Knight); try contradiction;
      [injection H as <-; exact K|].
    bind_split H as blocks Eb. bind_split H as atts Ea. injection H as <-.
    apply Forall_app. split; [exact K|].
    assert (Hcheck : attackMove f (enemyCond f (Opposite (ToMove f)))
                       (Opposite (ToMove f)) PawnAttacks check).
    { apply collectChecks_incl in Ec.
      apply (GetAttacksOnCondition_anatomy f _ (Opposite (ToMove f))) in Ei.
      rewrite Forall_forall in Ei. apply Ei, Ec. left. reflexivity. }
    change (fun p : Position => Ret (existsb (Z.eqb p) blocks))
      with (blockCond blocks) in Ea.
    apply GetAttacksOnCondition_anatomy in Ea.
    apply (Forall_weaken (attackMove f (blockCond blocks) (ToMove f) PawnAttacks));
      [|exact Ea].
    intros m (Hc & _). apply blockCond_true in Hc.
    apply (check_blocks_free f check piece blocks W Hcheck Ep Hn Eb _ Hc).
  - bind_split H as attacks Ea.
    apply (ValidMoves_quiet_free f attacks ms); [|exact H].
    apply (GetAttacksOnCondition_anatomy f _ (ToMove f)) in Ea.
    apply (Forall_weaken _ _ _ (fun m Hm => holdsEnemy_free f (To m)
                                             (enemyCond_true f _ _ (proj1 Hm))) Ea).
Qed.

Lemma ValidMoves_targets_free_witness :
  exists ms, ChessEngine.ValidMoves queenBesideKing = Ret ms
             /\ ms <> [] /\ Forall (fun m => freeFor queenBesideKing (To m)) ms.
Proof.
  destruct (ChessEngine.ValidMoves queenBesideKing) as [ms|] eqn:E;
    [|vm_compute in E; discriminate].
  exists ms. split; [reflexivity|]. split.
  - vm_compute in E. injection E as <-. discriminate.
  - apply (ValidMoves_targets_free queenBesideKing ms); [|exact E].
    split; vm_compute; reflexivity.
Defined.

(** ** Mate, and the successors of a position *)

(** X24. [IsMate] and [ValidMoves] of the second generation: [IsMate]
    answers yes exactly when at least one incoming attack ends on the
    king of the side to move and [ValidMoves] returns no move. *)
Theorem IsMate_iff (f : FEN) (b : bool) :
  ChessEngine.IsMate f = Ret b ->
  (b = true <->
   exists incoming checks,
     ChessEngine.GetIncomingAttacks f = Ret incoming
     /\ ChessEngine.collectChecks f incoming = Ret checks
     /\ checks <> []
     /\ ChessEngine.ValidMoves f = Ret []).
Proof.
  unfold ChessEngine.IsMate, ChessEngine.ValidMoves. intros H.
  bind_split H as incoming Ei. bind_split H as checks Ec.
  rewrite Ei. cbn [bind]. rewrite Ec. cbn [bind].
  destruct checks as [|c checks]; simpl Nat.ltb in *; cbv iota in *.
  - injection H as <-. split; [discriminate|].
    intros (i & cs & Hi & Hc & N & _).
    injection Hi as <-. rewrite Ec in Hc. injection Hc as <-. contradiction.
  - bind_split H as moves Em. injection H as <-. rewrite Em. split.
    + intros L. destruct moves; [|discriminate].
      exists incoming, (c :: checks). repeat split; auto. discriminate.
    + intros (i & cs & _ & _ & _ & Hv). injection Hv as ->. reflexivity.
Qed.

Lemma IsMate_iff_witness :
  ChessEngine.IsMate rookCheck = Ret false
  /\ ChessEngine.ValidMoves rookCheck <> Ret [].
Proof.
  assert (E : ChessEngine.IsMate rookCheck = Ret false) by (vm_compute; reflexivity).
  split; [exact E|]. intros V.
  assert (T : false = true); [|discriminate T].
  apply (proj2 (IsMate_iff rookCheck false E)).
  exists (movesOf (ChessEngine.GetIncomingAttacks rookCheck)),
         (movesOf (ChessEngine.GetIncomingAttacks rookCheck)).
  split; [vm_compute; reflexivity|]. split; [vm_compute; reflexivity|].
  split; [vm_compute; discriminate | exact V].
Defined.

Lemma successors_Forall2 {M G} (apply : M -> res G) (ms : list M) :
  forall (acc gs : list G),
    forM ms (fun result m => g <- apply m ;; Ret (result ++ [g])) acc = Ret gs ->
    exists new, gs = acc ++ new /\ Forall2 (fun m g => apply m = Ret g) ms new.
Proof.
  induction ms as [|m ms IH]; simpl; intros acc gs H.
  - injection H as <-. exists []. rewrite app_nil_r. split; [reflexivity | constructor].
  - bind_split H as acc1 E1. bind_split E1 as g Eg. injection E1 as <-.
    destruct (IH _ _ H) as (new & -> & F).
    exists (g :: new). rewrite <- app_assoc. split; [reflexivity|].
    constructor; assumption.
Qed.

(** X25. The successors of a position, in both generations: [NextFENs]
    returns, in the order of [ValidMoves], the positions [ApplyMove]
    returns for the valid moves, one for each; each has the other side to
    move and the line of the receiver with that move appended. *)
Theorem NextFENs_successors (f : FEN) (gs : list FEN) :
  (ChessEngine.NextFENs f = Ret gs ->
   exists ms, ChessEngine.ValidMoves f = Ret ms
              /\ Forall2 (fun m g => ChessEngine.ApplyMove f m = Ret g
                                     /\ ToMove g = Opposite (ToMove f)
                                     /\ Line g = Line f ++ [m]) ms gs)
  /\ (Main.NextFENs f = Ret gs ->
      exists ms, Main.ValidMoves f = Ret ms
                 /\ Forall2 (fun m g => Main.ApplyMove f m = Ret g
                                        /\ ToMove g = Opposite (ToMove f)
                                        /\ Line g = Line f ++ [m]) ms gs).
Proof.
  split; intros H.
  - unfold ChessEngine.NextFENs in H. bind_split H as ms Ems.
    exists ms. split; [exact Ems|].
    destruct (successors_Forall2 (ChessEngine.ApplyMove f) ms [] gs H) as (new & -> & F).
    simpl. clear H Ems.
    induction F as [|m g ms' gs' Hg F IH]; [constructor|]. constructor; [|exact IH].
    split; [exact Hg|]. rewrite ApplyMove_movedBoard in Hg.
    bind_split Hg as r Er. destruct r as [[mp cp] b'].
    bind_split Hg as c Ec. destruct c as [w b]. injection Hg as <-. auto.
  - unfold Main.NextFENs in H. bind_split H as ms Ems.
    exists ms. split; [exact Ems|].
    destruct (successors_Forall2 (Main.ApplyMove f) ms [] gs H) as (new & -> & F).
    simpl. clear H Ems.
    induction F as [|m g ms' gs' Hg F IH]; [constructor|]. constructor; [|exact IH].
    split; [exact Hg|].
    destruct (Main_ApplyMove_fields f g m Hg)
      as (mp & cp & _ & _ & _ & _ & _ & _ & T & L & _).
    auto.
Qed.

Lemma NextFENs_successors_witness :
  exists gs, ChessEngine.NextFENs rookEnding = Ret gs
             /\ List.length gs = 15%nat
             /\ Forall (fun g => ToMove g = Black) gs.
Proof.
  destruct (ChessEngine.NextFENs rookEnding) as [gs|] eqn:E;
    [|vm_compute in E; discriminate].
  exists gs.
  destruct (proj1 (NextFENs_successors rookEnding gs) E) as (ms & Ems & F).
  split; [reflexivity|]. split.
  - rewrite <- (Forall2_length F). vm_compute in Ems. injection Ems as <-. reflexivity.
  - clear E Ems. induction F as [|m g ms' gs' (_ & T & _) F IH]; [constructor|].
    constructor; [exact T | exact IH].
Defined.

(** ** The search loop: output and counters *)

Section LoopProperties.

Variable E : SearchEnv.
Variable b : DFSEngine E.

Lemma bestmove_line (t : EvalTree E) (best : string) :
  bestmove E t = Ret best -> isBestmove best = true.
Proof.
  unfold bestmove. intros H. bind_split H as m Em. injection H as <-. reflexivity.
Qed.

Lemma iteration_output (maxNodes : Z) (ev : event) (st st' : loopState E)
    (out : list string) (c : control) :
  iteration E b maxNodes ev st = Ret (st', out, c) ->
  match c with
  | Stop => exists pre best, out = pre ++ [best]
                             /\ isBestmove best = true /\ noBestmove pre = true
  | Continue => noBestmove out = true
  end.
Proof.
  unfold iteration. destruct ev.
  - intros H. bind_split H as best Eb. injection H as <- <- <-.
    exists [], best. split; [reflexivity|]. split; [|reflexivity].
    apply (bestmove_line _ _ Eb).
  - intros H. bind_split H as r Er. injection H as <- <- <-. reflexivity.
  - destruct (queue st) as [|game rest].
    + intros H. bind_split H as r Er. bind_split H as best Eb.
      injection H as <- <- <-.
      exists [infoPV E r; infoNodes (nodes st) (totalNodes st) (depth st)], best.
      split; [reflexivity|]. split; [|reflexivity].
      apply (bestmove_line _ _ Eb).
    + intros H. bind_split H as fenStr Ef. bind_split H as score Es.
      bind_split H as queue' Eq.
      destruct ((maxNodes >? 0)
                && (int64 (totalNodes st + int64 (nodes st + 1)) >=? maxNodes)).
      * bind_split H as best Eb. injection H as <- <- <-.
        eexists [_], best. split; [reflexivity|]. split; [|reflexivity].
        apply (bestmove_line _ _ Eb).
      * injection H as <- <- <-. reflexivity.
Qed.

Lemma noBestmove_app (l1 l2 : list string) :
  noBestmove (l1 ++ l2) = noBestmove l1 && noBestmove l2.
Proof. apply forallb_app. Qed.

(** X26. What the loop sends, for every sequence of events and every
    way of stopping (cancellation, node cap, empty queue): a run that has
    stopped has sent exactly one best-move line, and it is the last line;
    a run that has not stopped has sent none. *)
Theorem run_sends_one_bestmove (maxNodes : Z) (evs : list event) (st : loopState E)
    (out : list string) (stopped : bool) :
  run E b maxNodes evs st = Ret (out, stopped) ->
  if stopped
  then exists pre best, out = pre ++ [best]
                        /\ isBestmove best = true /\ noBestmove pre = true
  else noBestmove out = true.
Proof.
  revert st out stopped. induction evs as [|ev evs IH]; intros st out stopped H.
  - simpl in H. injection H as <- <-. reflexivity.
  - cbn [run] in H. bind_split H as r Er. destruct r as [[st' o] c].
    pose proof (iteration_output maxNodes ev st st' o c Er) as Ho.
    destruct c.
    + bind_split H as rest Erest. destruct rest as [o' s']. injection H as <- <-.
      simpl fst. simpl snd. specialize (IH st' o' s' Erest).
      destruct s'.
      * destruct IH as (pre & best & -> & Hb & Hp).
        exists (o ++ pre), best. rewrite app_assoc. split; [reflexivity|].
        split; [exact Hb|]. rewrite noBestmove_app, Ho, Hp. reflexivity.
      * rewrite noBestmove_app, Ho, IH. reflexivity.
    + injection H as <- <-. exact Ho.
Qed.

Lemma int64_add_r (a z : Z) : int64 (a + int64 z) = int64 (a + z).
Proof.
  unfold int64. f_equal.
  replace (a + ((z + 2 ^ 63) mod 2 ^ 64 - 2 ^ 63) + 2 ^ 63)
    with (a + (z + 2 ^ 63) mod 2 ^ 64) by lia.
  rewrite Z.add_mod_idemp_r by lia. f_equal. lia.
Qed.

Lemma int64_add_l (a z : Z) : int64 (int64 z + a) = int64 (z + a).
Proof. rewrite (Z.add_comm (int64 z)), int64_add_r. f_equal. lia. Qed.

(** X27. The counters of the loop: the sum of [totalNodes] and [nodes]
    (as an [int]) grows by one in a round that takes a position off the
    queue and is unchanged in every other round; the timer moves the
    count of the second into the total, resets it and goes on; the timer
    and the cancellation leave the tree, the queue, the depth and the set
    of seen positions as they are. *)
Theorem iteration_counts (maxNodes : Z) (ev : event) (st st' : loopState E)
    (out : list string) (c : control) :
  iteration E b maxNodes ev st = Ret (st', out, c) ->
  int64 (totalNodes st' + nodes st') = int64 (totalNodes st + nodes st + dequeued ev st)
  /\ (ev <> NoneReady ->
      seen st' = seen st /\ tree st' = tree st /\ depth st' = depth st
      /\ queue st' = queue st)
  /\ (ev = TimerFired ->
      nodes st' = 0 /\ totalNodes st' = int64 (totalNodes st + nodes st)
      /\ c = Continue).
Proof.
  unfold iteration, dequeued. destruct ev.
  - intros H. bind_split H as best Eb. injection H as <- <- <-.
    split; [f_equal; lia|]. split; [auto | discriminate].
  - intros H. bind_split H as r Er. injection H as <- <- <-.
    cbn [totalNodes nodes seen tree depth queue].
    split; [apply int64_add_l|]. split; auto.
  - destruct (queue st) as [|game rest] eqn:Q.
    + intros H. bind_split H as r Er. bind_split H as best Eb.
      injection H as <- <- <-.
      split; [f_equal; lia|]. split; [congruence | discriminate].
    + intros H. bind_split H as fenStr Ef. bind_split H as score Es.
      bind_split H as queue' Eq.
      assert (G : int64 (totalNodes st + int64 (nodes st + 1))
                  = int64 (totalNodes st + nodes st + 1))
        by (rewrite int64_add_r; f_equal; lia).
      destruct ((maxNodes >? 0)
                && (int64 (totalNodes st + int64 (nodes st + 1)) >=? maxNodes)).
      * bind_split H as best Eb. injection H as <- <- <-. simpl.
        split; [exact G|]. split; [congruence | discriminate].
      * injection H as <- <- <-. simpl.
        split; [exact G|]. split; [congruence | discriminate].
Qed.


End LoopProperties.

Lemma run_sends_one_bestmove_witness :
  exists out, run listEnv twoEvaluators 2 [NoneReady; TimerFired; NoneReady; NoneReady]
                  oneQueued = Ret (out, true)
              /\ exists pre best, out = pre ++ [best]
                                  /\ isBestmove best = true /\ noBestmove pre = true.
Proof.
  destruct (run listEnv twoEvaluators 2 [NoneReady; TimerFired; NoneReady; NoneReady]
                oneQueued) as [[out stopped]|p] eqn:H; [|vm_compute in H; discriminate H].
  assert (S : stopped = true) by (vm_compute in H; congruence). subst stopped.
  exists out. split; [reflexivity|].
  apply (run_sends_one_bestmove listEnv twoEvaluators 2
           [NoneReady; TimerFired; NoneReady; NoneReady] oneQueued out true H).
Defined.

Lemma iteration_counts_witness :
  exists st' out c,
    iteration listEnv twoEvaluators 0 NoneReady oneQueued = Ret (st', out, c)
    /\ int64 (totalNodes st' + nodes st') = 1.
Proof.
  destruct (iteration listEnv twoEvaluators 0 NoneReady oneQueued)
    as [[[st' out] c]|p] eqn:H; [|vm_compute in H; discriminate H].
  exists st', out, c. split; [reflexivity|].
  destruct (iteration_counts listEnv twoEvaluators 0 NoneReady oneQueued st' out c H)
    as (G & _). rewrite G. reflexivity.
Defined.

